(** * SolanaBettingExchange: the matching engine and its storage port

    A shallow embedding of [server/services/matching-engine.ts] (class
    [MatchingEngine], the revision with IOC and FOK orders), of the parts of
    [server/storage.ts] (class [DatabaseStorage]) the engine calls, and of
    the order route of [server/routes.ts].  The tables are those of
    [shared/schema.ts].

    Conventions of the embedding.
    - A [Decimal] (decimal.js value, or the decimal string of a database
      column) is the integer count of its column's smallest unit: prices are
      [decimal(5,4)] and counted in 1/10000, sizes and filled amounts are
      [decimal(18,6)] and counted in 1/1000000.  On such values [plus],
      [minus], [min], [eq], [gt], [gte], [lte] and [isZero] of decimal.js are
      exact, and are the operations of [Z].
    - A JavaScript [number] is a binary64 float ([PrimFloat.float]); only
      the positions use numbers.
    - [side] and [type] are the strings 'YES', 'NO' and 'MARKET', 'LIMIT',
      'IOC', 'FOK'; [status] is one of 'PENDING', 'PARTIAL', 'FILLED',
      'CANCELLED'.
    - [createdAt] is the millisecond count [new Date(x).getTime()] returns.
    - Asynchronous calls are sequential: every [await] is taken at once, so a
      method is a function from the state before to the state after.
    - A statement the database rejects makes the awaited call throw.  No
      method of the engine catches: the exception leaves the loops and
      [processOrder], with the storage and the books as they are then
      (every statement is its own transaction).
    - The foreign keys of [trades] to [orders] are checked against the
      table [orders].  The foreign keys to [users] and to [markets] are
      taken to hold: [users] is not part of the state, and of [markets]
      only the price columns are, which no foreign key is checked against.
      Ids stand for uuids (an id that is no uuid makes the database reject
      every statement that names it; such ids are left out), and the prices
      and sizes of orders and trades are taken to fit their columns.
    - Objects are values.  The engine mutates the order objects held in a
      book's queues and sorts those queues in place; a method therefore
      returns the mutated book, which is written back to the [Map] it came
      from (no write when the [Map] has no entry: [get(..) || []] is then a
      fresh empty array). *)

From Stdlib Require Import ZArith Lia.
From Stdlib Require Floats.PrimFloat Floats.FloatOps Floats.SpecFloat.
From Stdlib Require Numbers.Cyclic.Int63.Uint63.
From stdpp Require Import gmap strings list fin_maps sorting.

Local Open Scope Z_scope.

(** ** Enumerations *)

Inductive Side := YES | NO.
Inductive OrderType := MARKET | LIMIT | IOC | FOK.
Inductive Status := PENDING | PARTIAL | FILLED | CANCELLED.

#[global] Instance Side_eq_dec : EqDecision Side.
Proof. solve_decision. Defined.
#[global] Instance OrderType_eq_dec : EqDecision OrderType.
Proof. solve_decision. Defined.
#[global] Instance Status_eq_dec : EqDecision Status.
Proof. solve_decision. Defined.

(** [side === 'YES' ? 'NO' : 'YES'] *)
Definition oppositeSide (s : Side) : Side :=
  match s with YES => NO | NO => YES end.

(** ** Rows and values *)

(** [Order = typeof orders.$inferSelect] ([updatedAt] is never read). *)
Module Order.
Record t := mk {
  id : string;
  marketId : string;
  userId : string;
  side : Side;
  type : OrderType;
  price : Z;
  size : Z;
  filled : Z;
  status : Status;
  createdAt : Z
}.

Definition with_filled (f : Z) (o : t) : t :=
  mk (id o) (marketId o) (userId o) (side o) (type o) (price o) (size o) f
     (status o) (createdAt o).

Definition with_status (s : Status) (o : t) : t :=
  mk (id o) (marketId o) (userId o) (side o) (type o) (price o) (size o)
     (filled o) s (createdAt o).

(** [new Decimal(order.size).minus(order.filled)] *)
Definition remaining (o : t) : Z := size o - filled o.
End Order.

(** [InsertOrder]: the columns [insertOrderSchema] keeps. *)
Module InsertOrder.
Record t := mk {
  marketId : string;
  userId : string;
  side : Side;
  type : OrderType;
  price : Z;
  size : Z
}.
End InsertOrder.

(** [InsertTrade]; the row [createTrade] returns adds a generated [id] and
    [createdAt], which the engine never reads. *)
Module Trade.
Record t := mk {
  marketId : string;
  buyOrderId : string;
  sellOrderId : string;
  buyerId : string;
  sellerId : string;
  side : Side;
  price : Z;
  size : Z
}.
End Trade.

(** A row of [positions].  [shares] and [avgPrice] hold the number that
    [parseFloat] reads back from the stored string. *)
Module Position.
Record t := mk {
  marketId : string;
  userId : string;
  side : Side;
  shares : PrimFloat.float;
  avgPrice : PrimFloat.float
}.
End Position.

(** [interface OrderBookEntry { price; size; orders }] *)
Module Entry.
Record t := mk {
  price : Z;
  size : Z;
  orders : list Order.t
}.
End Entry.

Abbreviation Book := (list Entry.t).

(** ** JavaScript helpers *)

(** [Array.prototype.sort(cmp)]: a stable sort; [x] goes before [y] when
    [cmp x y <= 0] and [x] was before [y]. *)
Section js_sort.
Context {A : Type} (cmp : A → A → Z).

Fixpoint sort_insert (x : A) (l : list A) : list A :=
  match l with
  | [] => [x]
  | y :: l' => if cmp x y <=? 0 then x :: l else y :: sort_insert x l'
  end.

Fixpoint js_sort (l : list A) : list A :=
  match l with
  | [] => []
  | x :: l' => sort_insert x (js_sort l')
  end.
End js_sort.

(** [parseFloat] of a decimal string whose unit count is [z]: the binary64
    nearest to z / 10^6 for a size, to z / 10^4 for a price (exactly so for
    counts below 2^53). *)
Definition float_of_Z (z : Z) : PrimFloat.float :=
  if z <? 0 then PrimFloat.opp (PrimFloat.of_uint63 (Uint63.of_Z (- z)))
  else PrimFloat.of_uint63 (Uint63.of_Z z).

Definition parseFloat_size (z : Z) : PrimFloat.float :=
  PrimFloat.div (float_of_Z z) (float_of_Z 1000000).

Definition parseFloat_price (z : Z) : PrimFloat.float :=
  PrimFloat.div (float_of_Z z) (float_of_Z 10000).

(** ** Numbers written to [decimal] columns

    [updateOrCreatePosition] writes [number.toString()] to the columns
    [shares], a [decimal(18,6)], and [avgPrice], a [decimal(5,4)], and reads
    them back with [parseFloat]. *)

(** A finite [x] other than 0 is m * 2^e in absolute value, with m of 53
    bits (fewer for a subnormal [x]). *)
Definition binaryOf (x : PrimFloat.float) : option (Z * Z) :=
  match FloatOps.Prim2SF x with
  | SpecFloat.S754_finite _ m e => Some (Z.pos m, e)
  | _ => None
  end.

(** a * 10^t against b * 2^e. *)
Definition cmpDecimalBinary (a t b e : Z) : comparison :=
  (a * 10 ^ Z.max 0 t * 2 ^ Z.max 0 (- e))
  ?= (b * 2 ^ Z.max 0 e * 10 ^ Z.max 0 (- t)).

(** The decimal s * 10^t reads back as m * 2^e: it lies between the
    midpoints to the neighbouring numbers, a midpoint going to the number
    with the even m.  In units of 2^(e-2) the number is 4m and the midpoints
    are 4m - 2 (4m - 1 below a power of two) and 4m + 2. *)
Definition readsBack (m e s t : Z) : bool :=
  let low := 4 * m - (if (m =? 2 ^ 52) && (-1074 <? e) then 1 else 2) in
  let high := 4 * m + 2 in
  match cmpDecimalBinary s t low (e - 2) with
  | Gt => true
  | Eq => Z.even m
  | Lt => false
  end
  && match cmpDecimalBinary s t high (e - 2) with
     | Lt => true
     | Eq => Z.even m
     | Gt => false
     end.

(** [Number.prototype.toString]: the digits s and the exponent t of the
    shortest decimal s * 10^t that reads back as the number; of two
    decimals of that length, the closer one, the even one in a tie.  The
    search goes down from an exponent [t] above the first digit: the first
    exponent at which a multiple of 10^t next to the number reads back
    gives the shortest decimal. *)
Fixpoint shortestFrom (fuel : nat) (m e t : Z) : option (Z * Z) :=
  match fuel with
  | O => None
  | S fuel =>
      let lo := (m * 2 ^ Z.max 0 e * 10 ^ Z.max 0 (- t))
                / (2 ^ Z.max 0 (- e) * 10 ^ Z.max 0 t) in
      let hi := lo + 1 in
      let okLo := (0 <? lo) && readsBack m e lo t in
      let okHi := readsBack m e hi t in
      if okLo && okHi then
        match cmpDecimalBinary (2 * lo + 1) t (2 * m) e with
        | Gt => Some (lo, t)
        | Lt => Some (hi, t)
        | Eq => Some (if Z.even lo then lo else hi, t)
        end
      else if okLo then Some (lo, t)
      else if okHi then Some (hi, t)
      else shortestFrom fuel m e (t - 1)
  end.

(** The absolute value of a finite [x] other than 0 as [toString] prints
    it.  The number is below 2^(e+53), so its first digit is below the
    exponent the search starts from, and a decimal of at most 17 digits
    reads back. *)
Definition toDecimal (x : PrimFloat.float) : option (Z * Z) :=
  match binaryOf x with
  | Some (m, e) =>
      shortestFrom 40 m e
        (Z.max ((e + 53) * 30103 / 100000) ((e + 53) * 30102 / 100000) + 2)
  | None => None
  end.

(** s * 10^t in units of 10^-scale, rounded half away from zero as the
    database rounds a [numeric] to the scale of its column. *)
Definition roundedUnits (scale s t : Z) : Z :=
  let k := t + scale in
  if 0 <=? k then s * 10 ^ k
  else (2 * s + 10 ^ (- k)) / (2 * 10 ^ (- k)).

(** What [parseFloat] reads back from a [decimal(precision, scale)] column
    after [x.toString()] was written to it; [None] when the database rejects
    the value: 'Infinity' and '-Infinity', and a number that has
    [precision] digits or more in units of 10^-scale once rounded.  'NaN'
    and 0 are stored as they are. *)
Definition numericColumn (precision scale : Z) (x : PrimFloat.float)
    : option PrimFloat.float :=
  if PrimFloat.is_nan x then Some x
  else if PrimFloat.is_zero x then Some PrimFloat.zero
  else
    match toDecimal x with
    | None => None
    | Some (s, t) =>
        let n := roundedUnits scale s t in
        if 10 ^ precision <=? n then None
        else
          Some (PrimFloat.div
                  (float_of_Z (if PrimFloat.ltb x PrimFloat.zero then - n else n))
                  (float_of_Z (10 ^ scale)))
    end.

(** ** Storage: [DatabaseStorage] *)

(** One [UPDATE] of the [orders] table, as issued. *)
Inductive OrderUpdate :=
| SetFilled (orderId : string) (filled : Z)
| SetStatus (orderId : string) (status : Status).

Module Storage.
(** The tables the engine touches.  [orders] is keyed by primary key;
    [marketPrices] holds the [(yesPrice, noPrice)] columns of [markets];
    [journal] lists the updates of [orders] in the order they were
    issued, oldest first. *)
Record t := mk {
  orders : gmap string Order.t;
  trades : list Trade.t;
  positions : list Position.t;
  marketPrices : gmap string (Z * Z);
  journal : list OrderUpdate
}.

Definition empty : t := mk ∅ [] [] ∅ [].
End Storage.

(** [createOrder]: INSERT of a row whose [id] is the [uuid] the database
    draws and whose [createdAt] is its clock [now]; [filled] and [status]
    take their column defaults.  A [uuid] already in use violates the
    primary key and the insert fails. *)
Definition createOrder (uuid : string) (now : Z) (ins : InsertOrder.t)
    (st : Storage.t) : option (Order.t * Storage.t) :=
  match Storage.orders st !! uuid with
  | Some _ => None
  | None =>
      let order :=
        Order.mk uuid (InsertOrder.marketId ins) (InsertOrder.userId ins)
          (InsertOrder.side ins) (InsertOrder.type ins)
          (InsertOrder.price ins) (InsertOrder.size ins) 0 PENDING now in
      Some (order,
            Storage.mk (<[uuid := order]> (Storage.orders st))
              (Storage.trades st) (Storage.positions st)
              (Storage.marketPrices st) (Storage.journal st))
  end.

(** [updateOrderFilled]: UPDATE orders SET filled WHERE id = orderId. *)
Definition updateOrderFilled (orderId : string) (filled : Z) (st : Storage.t)
    : Storage.t :=
  Storage.mk (alter (Order.with_filled filled) orderId (Storage.orders st))
    (Storage.trades st) (Storage.positions st) (Storage.marketPrices st)
    (Storage.journal st ++ [SetFilled orderId filled]).

(** [updateOrderStatus]: UPDATE .. RETURNING; the first returned row, which
    is [undefined] when no row has that id. *)
Definition updateOrderStatus (orderId : string) (status : Status)
    (st : Storage.t) : option Order.t * Storage.t :=
  let orders' := alter (Order.with_status status) orderId (Storage.orders st) in
  (orders' !! orderId,
   Storage.mk orders' (Storage.trades st) (Storage.positions st)
     (Storage.marketPrices st) (Storage.journal st ++ [SetStatus orderId status])).

(** [cancelOrder] *)
Definition cancelOrder (orderId : string) (st : Storage.t) : Storage.t :=
  snd (updateOrderStatus orderId CANCELLED st).

(** [createTrade]: INSERT .. RETURNING.  [buy_order_id] and [sell_order_id]
    reference [orders.id]: when one of them has no row the insert is
    rejected and the call throws ([None]). *)
Definition createTrade (tr : Trade.t) (st : Storage.t)
    : option (Trade.t * Storage.t) :=
  if bool_decide (is_Some (Storage.orders st !! Trade.buyOrderId tr)
                  ∧ is_Some (Storage.orders st !! Trade.sellOrderId tr))
  then
    Some (tr,
          Storage.mk (Storage.orders st) (Storage.trades st ++ [tr])
            (Storage.positions st) (Storage.marketPrices st)
            (Storage.journal st))
  else None.

(** [updateMarketPrices]: UPDATE markets SET yesPrice, noPrice WHERE id. *)
Definition storage_updateMarketPrices (marketId : string) (yesPrice noPrice : Z)
    (st : Storage.t) : Storage.t :=
  Storage.mk (Storage.orders st) (Storage.trades st) (Storage.positions st)
    (alter (λ _, (yesPrice, noPrice)) marketId (Storage.marketPrices st))
    (Storage.journal st).

(** [getActiveMarketOrders]: the rows of the market whose status is
    'PENDING', ordered by [desc(orders.createdAt)].  The order among rows
    of equal [createdAt] is the database's; here it is that of the keys. *)
Definition cmpCreatedAtDesc (a b : Order.t) : Z :=
  Order.createdAt b - Order.createdAt a.

Definition getActiveMarketOrders (marketId : string) (st : Storage.t)
    : list Order.t :=
  js_sort cmpCreatedAtDesc
    (filter (λ o, Order.marketId o = marketId ∧ Order.status o = PENDING)
       (map snd (map_to_list (Storage.orders st)))).

(** [updateOrCreatePosition].  [shares] and [avgPrice] arrive as the numbers
    [parseFloat] makes of the strings passed.  [parseFloat(newShares)] is
    the sum itself, since [toString] and [parseFloat] round-trip.

    The row found is updated with the share count and the average price
    computed ([combinePosition]), as their columns store them
    ([storedPosition]); when a column rejects its value the UPDATE fails,
    the table stays as it is and the call throws ([positionRejected]).  A
    new row takes the strings passed, which come from a row of [trades] and
    fit the columns. *)
Definition samePosition (marketId userId : string) (side : Side)
    (p : Position.t) : bool :=
  bool_decide (Position.marketId p = marketId ∧ Position.userId p = userId
               ∧ Position.side p = side).

Definition combinePosition (existing : Position.t) (shares avgPrice : PrimFloat.float)
    : Position.t :=
  let newShares := PrimFloat.add (Position.shares existing) shares in
  let newAvgPrice :=
    PrimFloat.div
      (PrimFloat.add
         (PrimFloat.mul (Position.shares existing) (Position.avgPrice existing))
         (PrimFloat.mul shares avgPrice))
      newShares in
  Position.mk (Position.marketId existing) (Position.userId existing)
    (Position.side existing) newShares newAvgPrice.

(** The row as its columns hold it; [None] when a column rejects its
    value. *)
Definition storedPosition (p : Position.t) : option Position.t :=
  match numericColumn 18 6 (Position.shares p),
        numericColumn 5 4 (Position.avgPrice p) with
  | Some shares, Some avgPrice =>
      Some (Position.mk (Position.marketId p) (Position.userId p)
              (Position.side p) shares avgPrice)
  | _, _ => None
  end.

Fixpoint upsertPosition (marketId userId : string) (side : Side)
    (shares avgPrice : PrimFloat.float) (rows : list Position.t) : list Position.t :=
  match rows with
  | [] => [Position.mk marketId userId side shares avgPrice]
  | p :: rows' =>
      if samePosition marketId userId side p
      then match storedPosition (combinePosition p shares avgPrice) with
           | Some p' => p' :: rows'
           | None => p :: rows'
           end
      else p :: upsertPosition marketId userId side shares avgPrice rows'
  end.

(** The table after the call, whether it returns or throws. *)
Definition updateOrCreatePosition (marketId userId : string) (side : Side)
    (shares avgPrice : PrimFloat.float) (st : Storage.t) : Storage.t :=
  Storage.mk (Storage.orders st) (Storage.trades st)
    (upsertPosition marketId userId side shares avgPrice (Storage.positions st))
    (Storage.marketPrices st) (Storage.journal st).

(** The call throws: the UPDATE of the row found is rejected. *)
Fixpoint rejectsPosition (marketId userId : string) (side : Side)
    (shares avgPrice : PrimFloat.float) (rows : list Position.t) : bool :=
  match rows with
  | [] => false
  | p :: rows' =>
      if samePosition marketId userId side p
      then match storedPosition (combinePosition p shares avgPrice) with
           | Some _ => false
           | None => true
           end
      else rejectsPosition marketId userId side shares avgPrice rows'
  end.

Definition positionRejected (marketId userId : string) (side : Side)
    (shares avgPrice : PrimFloat.float) (st : Storage.t) : bool :=
  rejectsPosition marketId userId side shares avgPrice (Storage.positions st).

(** ** The engine: [class MatchingEngine] *)

Module Engine.
(** [yesOrderBook], [noOrderBook]: marketId -> sorted order book. *)
Record t := mk {
  yesOrderBook : gmap string Book;
  noOrderBook : gmap string Book
}.

Definition empty : t := mk ∅ ∅.
End Engine.

Definition sideBooks (s : Side) (e : Engine.t) : gmap string Book :=
  match s with
  | YES => Engine.yesOrderBook e
  | NO => Engine.noOrderBook e
  end.

Definition setSideBooks (s : Side) (m : gmap string Book) (e : Engine.t)
    : Engine.t :=
  match s with
  | YES => Engine.mk m (Engine.noOrderBook e)
  | NO => Engine.mk (Engine.yesOrderBook e) m
  end.

(** [this.<side>OrderBook.get(marketId) || []] *)
Definition bookOf (s : Side) (marketId : string) (e : Engine.t) : Book :=
  default [] (sideBooks s e !! marketId).

(** [getOrderBook]: [{ yes, no }] *)
Definition getOrderBook (marketId : string) (e : Engine.t) : Book * Book :=
  (bookOf YES marketId e, bookOf NO marketId e).

(** *** [addToOrderBook] *)

(** The comparator of [book.sort]: YES descending, NO ascending. *)
Definition cmpLevels (s : Side) (a b : Entry.t) : Z :=
  match s with
  | YES => Entry.price b - Entry.price a
  | NO => Entry.price a - Entry.price b
  end.

(** [book.find(l => l.price.eq(price))] is defined. *)
Definition hasLevel (price : Z) (book : Book) : bool :=
  existsb (λ l, Entry.price l =? price) book.

(** [level.orders.push(order); level.size = level.size.plus(..)] on the
    level [find] returns: the first one with that price. *)
Fixpoint pushToLevel (order : Order.t) (price : Z) (book : Book) : Book :=
  match book with
  | [] => []
  | l :: book' =>
      if Entry.price l =? price
      then Entry.mk (Entry.price l) (Entry.size l + Order.remaining order)
             (Entry.orders l ++ [order]) :: book'
      else l :: pushToLevel order price book'
  end.

Definition addToBook (order : Order.t) (book : Book) : Book :=
  let price := Order.price order in
  let book1 :=
    if hasLevel price book then book
    else js_sort (cmpLevels (Order.side order)) (book ++ [Entry.mk price 0 []]) in
  pushToLevel order price book1.

Definition addToOrderBook (order : Order.t) (e : Engine.t) : Engine.t :=
  let s := Order.side order in
  let m := Order.marketId order in
  setSideBooks s (<[m := addToBook order (bookOf s m e)]> (sideBooks s e)) e.

(** *** [getOrderBookWithPrioritySort] *)

Definition cmpCreatedAt (a b : Order.t) : Z :=
  Order.createdAt a - Order.createdAt b.

(** [{ ...level, orders: level.orders.sort(..) }]: the queue is sorted in
    place, so the level of the book holds the sorted queue as well. *)
Definition sortLevel (level : Entry.t) : Entry.t :=
  Entry.mk (Entry.price level) (Entry.size level)
    (js_sort cmpCreatedAt (Entry.orders level)).

(** Returns the view handed to the matching loops and the engine after the
    in-place sorts. *)
Definition getOrderBookWithPrioritySort (marketId : string) (s : Side)
    (e : Engine.t) : Book * Engine.t :=
  match sideBooks s e !! marketId with
  | Some book =>
      let book' := map sortLevel book in
      (book', setSideBooks s (<[marketId := book']> (sideBooks s e)) e)
  | None => ([], e)
  end.

(** The loops mutate the order objects of the view, which are those of the
    book: the book of [s] becomes the view as the loops leave it. *)
Definition writeBack (marketId : string) (s : Side) (book : Book)
    (e : Engine.t) : Engine.t :=
  match sideBooks s e !! marketId with
  | Some _ => setSideBooks s (<[marketId := book]> (sideBooks s e)) e
  | None => e
  end.

(** *** The crossing test and [canFillOrderCompletely] *)

(** [order.side === 'YES' ? orderPrice.gte(level.price)
                          : orderPrice.lte(level.price)] *)
Definition canMatch (order : Order.t) (levelPrice : Z) : bool :=
  match Order.side order with
  | YES => levelPrice <=? Order.price order
  | NO => Order.price order <=? levelPrice
  end.

(** The inner loop of the pre-scan: [(true, _)] when it returns true,
    else the sum so far. *)
Fixpoint canFillLevel (orderSize : Z) (orders : list Order.t)
    (availableSize : Z) : bool * Z :=
  match orders with
  | [] => (false, availableSize)
  | oppositeOrder :: rest =>
      let availableSize := availableSize + Order.remaining oppositeOrder in
      if orderSize <=? availableSize then (true, availableSize)
      else canFillLevel orderSize rest availableSize
  end.

Fixpoint canFillLevels (order : Order.t) (oppositeBook : Book)
    (availableSize : Z) : bool :=
  match oppositeBook with
  | [] => false
  | level :: rest =>
      if canMatch order (Entry.price level) then
        let '(found, availableSize) :=
          canFillLevel (Order.size order) (Entry.orders level) availableSize in
        if found then true else canFillLevels order rest availableSize
      else false
  end.

Definition canFillOrderCompletely (order : Order.t) (oppositeBook : Book)
    : bool :=
  canFillLevels order oppositeBook 0.

(** *** [executeTrade] and [updatePositions] *)

(** [parseFloat(`-${trade.size}`)] *)
Definition parseFloat_negated_size (z : Z) : PrimFloat.float :=
  if z <? 0 then PrimFloat.nan else PrimFloat.opp (parseFloat_size z).

(** Whether the call threw, and the storage it leaves: the seller's
    position is not written when the buyer's is rejected. *)
Definition updatePositions (trade : Trade.t) (st : Storage.t)
    : bool * Storage.t :=
  if positionRejected (Trade.marketId trade) (Trade.buyerId trade)
       (Trade.side trade) (parseFloat_size (Trade.size trade))
       (parseFloat_price (Trade.price trade)) st
  then (true, st)
  else
    let st :=
      updateOrCreatePosition (Trade.marketId trade) (Trade.buyerId trade)
        (Trade.side trade) (parseFloat_size (Trade.size trade))
        (parseFloat_price (Trade.price trade)) st in
    (positionRejected (Trade.marketId trade) (Trade.sellerId trade)
       (oppositeSide (Trade.side trade))
       (parseFloat_negated_size (Trade.size trade))
       (parseFloat_price (Trade.price trade)) st,
     updateOrCreatePosition (Trade.marketId trade) (Trade.sellerId trade)
       (oppositeSide (Trade.side trade))
       (parseFloat_negated_size (Trade.size trade))
       (parseFloat_price (Trade.price trade)) st).

Definition tradeData (buyOrder sellOrder : Order.t) (size price : Z)
    : Trade.t :=
  Trade.mk (Order.marketId buyOrder)
    (match Order.side buyOrder with
     | YES => Order.id buyOrder | NO => Order.id sellOrder end)
    (match Order.side buyOrder with
     | YES => Order.id sellOrder | NO => Order.id buyOrder end)
    (match Order.side buyOrder with
     | YES => Order.userId buyOrder | NO => Order.userId sellOrder end)
    (match Order.side buyOrder with
     | YES => Order.userId sellOrder | NO => Order.userId buyOrder end)
    (Order.side buyOrder) price size.

(** The trade returned, [None] when [createTrade] or [updatePositions]
    threw, and the storage the call leaves: a trade whose position writes
    are rejected stays in the table [trades]. *)
Definition executeTrade (buyOrder sellOrder : Order.t) (size price : Z)
    (st : Storage.t) : option Trade.t * Storage.t :=
  match createTrade (tradeData buyOrder sellOrder size price) st with
  | None => (None, st)
  | Some (trade, st) =>
      let '(threw, st) := updatePositions trade st in
      (if threw then None else Some trade, st)
  end.

(** *** The matching loops *)

(** The variables the loops of [processLimitTypeOrder] and
    [processMarketOrder] carry.  [thrown]: an awaited call has thrown; the
    exception is on its way out of the loops. *)
Module Loop.
Record t := mk {
  remainingSize : Z;
  orderCumulativeFilled : Z;
  trades : list Trade.t;
  storage : Storage.t;
  thrown : bool
}.
End Loop.

(** The body under [if (matchSize.gt(0))], the same in both methods:
    the mutated resting order and the variables after it.  When
    [executeTrade] throws, nothing of the body behind it runs. *)
Definition fill (order oppositeOrder : Order.t) (matchSize levelPrice : Z)
    (s : Loop.t) : Order.t * Loop.t :=
  match executeTrade order oppositeOrder matchSize levelPrice (Loop.storage s) with
  | (None, st) =>
      (oppositeOrder,
       Loop.mk (Loop.remainingSize s) (Loop.orderCumulativeFilled s)
         (Loop.trades s) st true)
  | (Some trade, st) =>
      let remainingSize := Loop.remainingSize s - matchSize in
      let orderCumulativeFilled := Loop.orderCumulativeFilled s + matchSize in
      let oppositeOrder :=
        Order.with_filled (Order.filled oppositeOrder + matchSize) oppositeOrder in
      let st := updateOrderFilled (Order.id order) orderCumulativeFilled st in
      let st :=
        updateOrderFilled (Order.id oppositeOrder) (Order.filled oppositeOrder)
          st in
      let st :=
        if Order.size oppositeOrder =? Order.filled oppositeOrder
        then snd (updateOrderStatus (Order.id oppositeOrder) FILLED st)
        else st in
      (oppositeOrder,
       Loop.mk remainingSize orderCumulativeFilled (Loop.trades s ++ [trade]) st
         (Loop.thrown s))
  end.

(** One turn of [for (const oppositeOrder of level.orders)] past its
    [break], the same in both methods. *)
Definition matchOne (order : Order.t) (levelPrice : Z)
    (oppositeOrder : Order.t) (s : Loop.t) : Order.t * Loop.t :=
  let availableSize := Order.remaining oppositeOrder in
  let matchSize := Z.min (Loop.remainingSize s) availableSize in
  if 0 <? matchSize then fill order oppositeOrder matchSize levelPrice s
  else (oppositeOrder, s).

(** [for (const oppositeOrder of level.orders)]; an exception ends it. *)
Fixpoint matchLevel (order : Order.t) (levelPrice : Z)
    (orders : list Order.t) (s : Loop.t) : list Order.t * Loop.t :=
  match orders with
  | [] => ([], s)
  | oppositeOrder :: rest =>
      if Loop.thrown s then (orders, s)
      else if Loop.remainingSize s =? 0 then (orders, s)
      else
        let '(oppositeOrder, s) := matchOne order levelPrice oppositeOrder s in
        let '(rest, s) := matchLevel order levelPrice rest s in
        (oppositeOrder :: rest, s)
  end.

(** [for (const level of oppositeBook)] of [processLimitTypeOrder]. *)
Fixpoint limitLevels (order : Order.t) (oppositeBook : Book) (s : Loop.t)
    : Book * Loop.t :=
  match oppositeBook with
  | [] => ([], s)
  | level :: rest =>
      if Loop.thrown s then (oppositeBook, s)
      else if Loop.remainingSize s =? 0 then (oppositeBook, s)
      else if canMatch order (Entry.price level) then
        let '(orders, s) :=
          matchLevel order (Entry.price level) (Entry.orders level) s in
        let '(rest, s) := limitLevels order rest s in
        (Entry.mk (Entry.price level) (Entry.size level) orders :: rest, s)
      else (oppositeBook, s)
  end.

(** [for (const level of oppositeBook)] of [processMarketOrder]. *)
Fixpoint marketLevels (order : Order.t) (oppositeBook : Book) (s : Loop.t)
    : Book * Loop.t :=
  match oppositeBook with
  | [] => ([], s)
  | level :: rest =>
      if Loop.thrown s then (oppositeBook, s)
      else if Loop.remainingSize s =? 0 then (oppositeBook, s)
      else
        let '(orders, s) :=
          matchLevel order (Entry.price level) (Entry.orders level) s in
        let '(rest, s) := marketLevels order rest s in
        (Entry.mk (Entry.price level) (Entry.size level) orders :: rest, s)
  end.

(** Both methods return [remainingSize], or throw; they push to the caller's
    [trades] and write through [storage]. *)
Definition processLimitTypeOrder (order : Order.t) (oppositeBook : Book)
    (remainingSize : Z) (trades : list Trade.t) (st : Storage.t)
    : Book * Loop.t :=
  limitLevels order oppositeBook
    (Loop.mk remainingSize (Order.filled order) trades st false).

Definition processMarketOrder (order : Order.t) (oppositeBook : Book)
    (remainingSize : Z) (trades : list Trade.t) (st : Storage.t)
    : Book * Loop.t :=
  marketLevels order oppositeBook
    (Loop.mk remainingSize (Order.filled order) trades st false).

(** *** [determineOrderStatus] *)

Definition determineOrderStatus (orderType : OrderType)
    (totalFilled originalSize remainingSize : Z) : Status :=
  if totalFilled =? originalSize then FILLED
  else if 0 <? totalFilled then PARTIAL
  else match orderType with
       | IOC | FOK => CANCELLED
       | _ => PENDING
       end.

(** *** [updateMarketPrices] *)

Definition topPrice (book : Book) : Z :=
  match book with
  | [] => 5000
  | level :: _ => Entry.price level
  end.

Definition updateMarketPrices (marketId : string) (e : Engine.t)
    (st : Storage.t) : Storage.t :=
  storage_updateMarketPrices marketId (topPrice (bookOf YES marketId e))
    (topPrice (bookOf NO marketId e)) st.

(** *** [processOrder] *)

Module MatchResult.
Record t := mk {
  order : option Order.t;
  trades : list Trade.t;
  rejected : option bool;
  rejectReason : option string
}.
End MatchResult.

(** What a call comes to: the value returned, or an exception, which is the
    error of a statement the database rejected or the TypeError of reading
    [side] of [undefined]. *)
Inductive Outcome :=
| Returned (r : MatchResult.t)
| Threw.

Definition processOrder (order : Order.t) (e : Engine.t) (st : Storage.t)
    : Engine.t * Storage.t * Outcome :=
  let originalSize := Order.size order in
  let oppSide := oppositeSide (Order.side order) in
  let '(oppositeBook, e) :=
    getOrderBookWithPrioritySort (Order.marketId order) oppSide e in
  if bool_decide (Order.type order = FOK)
     && negb (canFillOrderCompletely order oppositeBook)
  then
    let '(rejectedOrder, st) := updateOrderStatus (Order.id order) CANCELLED st in
    (e, st,
     Returned (MatchResult.mk rejectedOrder [] (Some true)
                 (Some "FOK order cannot be completely filled"%string)))
  else
    let '(oppositeBook, s) :=
      match Order.type order with
      | LIMIT | IOC | FOK =>
          processLimitTypeOrder order oppositeBook originalSize [] st
      | MARKET => processMarketOrder order oppositeBook originalSize [] st
      end in
    let e := writeBack (Order.marketId order) oppSide oppositeBook e in
    if Loop.thrown s then (e, Loop.storage s, Threw)
    else
      let remainingSize := Loop.remainingSize s in
      let totalFilled := originalSize - remainingSize in
      let status :=
        determineOrderStatus (Order.type order) totalFilled originalSize
          remainingSize in
      let status :=
        if bool_decide (Order.type order = IOC) && negb (remainingSize =? 0)
        then (if 0 <? totalFilled then PARTIAL else CANCELLED)
        else status in
      let '(updatedOrder, st) :=
        updateOrderStatus (Order.id order) status (Loop.storage s) in
      if negb (remainingSize =? 0) && bool_decide (Order.type order = LIMIT)
         && negb (bool_decide (status = CANCELLED))
      then
        match updatedOrder with
        | None => (e, st, Threw)
        | Some booked =>
            let e := addToOrderBook booked e in
            (e, updateMarketPrices (Order.marketId order) e st,
             Returned (MatchResult.mk updatedOrder (Loop.trades s) None None))
        end
      else
        (e, updateMarketPrices (Order.marketId order) e st,
         Returned (MatchResult.mk updatedOrder (Loop.trades s) None None)).

(** *** [loadOrderBook] *)

Definition loadOrderBook (marketId : string) (e : Engine.t) (st : Storage.t)
    : Engine.t :=
  foldl (λ e order, addToOrderBook order e) e
    (getActiveMarketOrders marketId st).

(** ** The order route: [POST /api/orders] *)

Module Submission.
(** A request body, with the id and the time the database gives the row. *)
Record t := mk {
  uuid : string;
  now : Z;
  body : InsertOrder.t
}.
End Submission.

Module System.
Record t := mk {
  engine : Engine.t;
  storage : Storage.t
}.

Definition initial : t := mk Engine.empty Storage.empty.
End System.

(** [createOrder] then [processOrder]: the states after and what the engine
    answered; [None] when the insert fails (the route answers 400 and
    nothing has changed).  When [processOrder] throws the route answers 400
    as well, and the states are as the call left them. *)
Definition handleOrder (sub : Submission.t) (sys : System.t)
    : option (Engine.t * Storage.t * Outcome) :=
  match createOrder (Submission.uuid sub) (Submission.now sub)
          (Submission.body sub) (System.storage sys) with
  | None => None
  | Some (order, st) => Some (processOrder order (System.engine sys) st)
  end.

Definition postOrder (sub : Submission.t) (sys : System.t) : System.t :=
  match handleOrder sub sys with
  | None => sys
  | Some (e, st, _) => System.mk e st
  end.

(** The trades of the answer ([result.trades]). *)
Definition answeredTrades (answer : option (Engine.t * Storage.t * Outcome))
    : list Trade.t :=
  match answer with
  | Some (_, _, Returned r) => MatchResult.trades r
  | _ => []
  end.

Definition postOrders (subs : list Submission.t) (sys : System.t) : System.t :=
  foldl (λ sys sub, postOrder sub sys) sys subs.

(** * Vocabulary of the properties *)

(** ** The order of the price levels *)

(** The key [book.sort] orders by: ascending in [priceKey] of the price. *)
Definition priceKey (s : Side) (p : Z) : Z :=
  match s with
  | YES => - p
  | NO => p
  end.

Definition prices (book : Book) : list Z := map Entry.price book.

(** Ascending in [key]. *)
Definition leKey {A : Type} (key : A → Z) (a b : A) : Prop := key a ≤ key b.

Definition sortedBook (s : Side) (book : Book) : Prop :=
  StronglySorted (leKey (priceKey s)) (prices book).

Definition sortedEngine (e : Engine.t) : Prop :=
  ∀ s marketId, sortedBook s (bookOf s marketId e).

(** Insertions, one after the other, into an engine. *)
Definition insertAll (orders : list Order.t) (e : Engine.t) : Engine.t :=
  foldl (λ e order, addToOrderBook order e) e orders.

(** Every queue of the book is in ascending [createdAt] order. *)
Definition timeOrdered (book : Book) : Prop :=
  Forall (λ l, StronglySorted (leKey Order.createdAt) (Entry.orders l)) book.

(** ** The matching loops, seen from outside *)

(** [processLimitTypeOrder] and [processMarketOrder] differ by the crossing
    test alone: one walk over the levels, with the test as [crosses]. *)
Fixpoint walkLevels (crosses : Z → bool) (order : Order.t)
    (oppositeBook : Book) (s : Loop.t) : Book * Loop.t :=
  match oppositeBook with
  | [] => ([], s)
  | level :: rest =>
      if Loop.thrown s then (oppositeBook, s)
      else if Loop.remainingSize s =? 0 then (oppositeBook, s)
      else if crosses (Entry.price level) then
        let '(orders, s) :=
          matchLevel order (Entry.price level) (Entry.orders level) s in
        let '(rest, s) := walkLevels crosses order rest s in
        (Entry.mk (Entry.price level) (Entry.size level) orders :: rest, s)
      else (oppositeBook, s)
  end.

(** The loops go on: no exception, and something is left to fill. *)
Definition running (s : Loop.t) : Prop :=
  Loop.thrown s = false ∧ Loop.remainingSize s ≠ 0.

(** A loop breaks, or an exception is on its way out. *)
Definition stopped (s : Loop.t) : Prop :=
  Loop.thrown s = true ∨ Loop.remainingSize s = 0.

(** The level test of the loop [processOrder] runs for [order], by its type. *)
Definition crossesFor (order : Order.t) : Z → bool :=
  match Order.type order with
  | MARKET => λ _, true
  | LIMIT | IOC | FOK => canMatch order
  end.

(** [resting] is in a queue of [book]. *)
Definition restsIn (resting : Order.t) (book : Book) : Prop :=
  ∃ level, level ∈ book ∧ resting ∈ Entry.orders level.

(** The orders of a book, level after level. *)
Definition bookOrders (book : Book) : list Order.t :=
  concat (map Entry.orders book).

(** The ids of the orders of a book, level after level. *)
Definition bookIds (book : Book) : list string :=
  map Order.id (bookOrders book).

(** The sum of the sizes of trades. *)
Definition tradedSize (trades : list Trade.t) : Z :=
  foldr Z.add 0 (map Trade.size trades).

(** The storage after the writes of the loop body that follow
    [executeTrade]: the cumulative [filled] of the incoming order, the
    [filled] of the resting order [o] after [m] more, and its status when
    that fills it. *)
Definition settled (order o : Order.t) (m cumulative : Z) (st : Storage.t)
    : Storage.t :=
  let st := updateOrderFilled (Order.id order) cumulative st in
  let st := updateOrderFilled (Order.id o) (Order.filled o + m) st in
  if Order.size o =? Order.filled o + m
  then snd (updateOrderStatus (Order.id o) FILLED st)
  else st.

(** ** [processOrder], step by step *)

(** The engine after the in-place sorts of [getOrderBookWithPrioritySort]. *)
Definition sortedQueues (marketId : string) (s : Side) (e : Engine.t)
    : Engine.t :=
  snd (getOrderBookWithPrioritySort marketId s e).

(** The view the loops of [processOrder] start from. *)
Definition oppositeView (order : Order.t) (e : Engine.t) : Book :=
  map sortLevel
    (bookOf (oppositeSide (Order.side order)) (Order.marketId order) e).

(** The matching pass of [processOrder]: the view and the variables as the
    loop leaves them. *)
Definition matched (order : Order.t) (e : Engine.t) (st : Storage.t)
    : Book * Loop.t :=
  walkLevels (crossesFor order) order (oppositeView order e)
    (Loop.mk (Order.size order) (Order.filled order) [] st false).

(** The status [processOrder] settles on, after the IOC post-processing. *)
Definition settledStatus (order : Order.t) (remainingSize : Z) : Status :=
  let totalFilled := Order.size order - remainingSize in
  if bool_decide (Order.type order = IOC) && negb (remainingSize =? 0)
  then (if 0 <? totalFilled then PARTIAL else CANCELLED)
  else determineOrderStatus (Order.type order) totalFilled (Order.size order)
         remainingSize.

(** The FOK pre-scan turns the order down. *)
Definition fokRejected (order : Order.t) (e : Engine.t) : bool :=
  bool_decide (Order.type order = FOK)
  && negb (canFillOrderCompletely order (oppositeView order e)).

(** A statement of the matching pass is rejected by the database:
    [processOrder] throws from its loop. *)
Definition writeRejected (order : Order.t) (e : Engine.t) (st : Storage.t)
    : bool :=
  negb (fokRejected order e) && Loop.thrown (snd (matched order e st)).

(** The trades the matching pass pushes to the array [processOrder]
    returns. *)
Definition settledTrades (order : Order.t) (e : Engine.t) (st : Storage.t)
    : list Trade.t :=
  if fokRejected order e then [] else Loop.trades (snd (matched order e st)).

(** The remainder is booked. *)
Definition booksRemainder (order : Order.t) (remainingSize : Z) : bool :=
  negb (remainingSize =? 0) && bool_decide (Order.type order = LIMIT)
  && negb (bool_decide (settledStatus order remainingSize = CANCELLED)).

(** The status an IOC order ends in, from what it traded. *)
Definition iocStatus (order : Order.t) (trades : list Trade.t) : Status :=
  if tradedSize trades =? Order.size order then FILLED
  else if 0 <? tradedSize trades then PARTIAL
  else CANCELLED.

(** ** Who buys and who sells *)

(** The incoming order buys from the resting one. *)
Definition aggressorBuys (incoming resting : Order.t) (t : Trade.t) : Prop :=
  Trade.buyOrderId t = Order.id incoming
  ∧ Trade.buyerId t = Order.userId incoming
  ∧ Trade.sellOrderId t = Order.id resting
  ∧ Trade.sellerId t = Order.userId resting.

(** The order on the YES side buys from the order on the NO side. *)
Definition yesSideBuys (incoming resting : Order.t) (t : Trade.t) : Prop :=
  match Order.side incoming with
  | YES => aggressorBuys incoming resting t
  | NO => aggressorBuys resting incoming t
  end.

(** [t] is a trade of the incoming [order] with an order of [rs], of
    positive size. *)
Definition tradeWith (order : Order.t) (rs : list Order.t) (t : Trade.t)
    : Prop :=
  Trade.side t = Order.side order ∧ 0 < Trade.size t
  ∧ ∃ resting, resting ∈ rs ∧ yesSideBuys order resting t.

(** [t] is a trade of [order] at the price [p] of a level, with an order of
    the level's queue [queue] and for no more than that order's remainder. *)
Definition tradeOn (order : Order.t) (p : Z) (queue : list Order.t)
    (t : Trade.t) : Prop :=
  Trade.price t = p
  ∧ Trade.marketId t = Order.marketId order
  ∧ Trade.side t = Order.side order
  ∧ ∃ resting,
      resting ∈ queue ∧ yesSideBuys order resting t
      ∧ 0 < Trade.size t ≤ Order.remaining resting.

(** The trades come level after level of the book, each at the price of a
    level that passes the test [crosses]. *)
Inductive tradesAlong (order : Order.t) (crosses : Z → bool)
    : Book → list Trade.t → Prop :=
| along_none book : tradesAlong order crosses book []
| along_level l rest here later :
    crosses (Entry.price l) = true →
    Forall (tradeOn order (Entry.price l) (Entry.orders l)) here →
    tradesAlong order crosses rest later →
    tradesAlong order crosses (l :: rest) (here ++ later).

(** What a pass adds: [new] trades, taken off [remainingSize] and added to
    [orderCumulativeFilled]. *)
Definition accounts (order : Order.t) (rs : list Order.t) (s s' : Loop.t)
    (new : list Trade.t) : Prop :=
  Loop.trades s' = Loop.trades s ++ new
  ∧ Loop.remainingSize s' = Loop.remainingSize s - tradedSize new
  ∧ Loop.orderCumulativeFilled s' = Loop.orderCumulativeFilled s + tradedSize new
  ∧ Forall (tradeWith order rs) new.

(** The table [trades] holds [base], then the trades pushed so far, and
    after an exception the trade, if any, that [executeTrade] had inserted
    when it threw. *)
Definition tradesStored (base : list Trade.t) (s : Loop.t) : Prop :=
  ∃ unsettled,
    Storage.trades (Loop.storage s) = base ++ Loop.trades s ++ unsettled
    ∧ (length unsettled ≤ 1)%nat
    ∧ (Loop.thrown s = false → unsettled = []).

(** ** What matching may change *)

(** [o'] is [o] with more (or as much) filled. *)
Definition grown (o o' : Order.t) : Prop :=
  ∃ f, Order.filled o ≤ f ∧ o' = Order.with_filled f o.

(** The same level, its orders grown, one for one. *)
Definition levelGrown (l l' : Entry.t) : Prop :=
  Entry.price l' = Entry.price l ∧ Entry.size l' = Entry.size l
  ∧ Forall2 grown (Entry.orders l) (Entry.orders l').

Definition bookGrown (book book' : Book) : Prop :=
  Forall2 levelGrown book book'.

(** A row after updates of its [filled] and [status] columns. *)
Definition rowKept (o o' : Order.t) : Prop :=
  ∃ f c, o' = Order.with_status c (Order.with_filled f o).

(** The table [orders] has the same rows, up to [filled] and [status]. *)
Definition rowsKept (st st' : Storage.t) : Prop :=
  ∀ k, option_Forall2 rowKept (Storage.orders st !! k) (Storage.orders st' !! k).

(** The row of the incoming order holds [orderCumulativeFilled] as its
    [filled], all along the loops. *)
Definition tracksRow (order base : Order.t) (s : Loop.t) : Prop :=
  Storage.orders (Loop.storage s) !! Order.id order
  = Some (Order.with_filled (Loop.orderCumulativeFilled s) base).

(** ** The filled totals written for an order *)

Definition filledWriteTo (orderId : string) (u : OrderUpdate) : option Z :=
  match u with
  | SetFilled k filled => if decide (k = orderId) then Some filled else None
  | SetStatus _ _ => None
  end.

(** The values of the [updateOrderFilled(orderId, _)] calls of a journal,
    oldest first. *)
Definition filledWrites (orderId : string) (journal : list OrderUpdate)
    : list Z :=
  omap (filledWriteTo orderId) journal.

(** The table [orders] after the updates of a journal, applied in order. *)
Definition applyUpdate (orders : gmap string Order.t) (u : OrderUpdate)
    : gmap string Order.t :=
  match u with
  | SetFilled k filled => alter (Order.with_filled filled) k orders
  | SetStatus k status => alter (Order.with_status status) k orders
  end.

Definition replay (updates : list OrderUpdate) (orders : gmap string Order.t)
    : gmap string Order.t :=
  foldl applyUpdate orders updates.

(** The journal of [st'] is that of [st] and more, and the rows of [st'] are
    the rows of [st] after those further updates. *)
Definition journalled (st st' : Storage.t) : Prop :=
  ∃ added,
    Storage.journal st' = Storage.journal st ++ added
    ∧ Storage.orders st' = replay added (Storage.orders st).

(** [start] plus the sizes so far, after each size. *)
Fixpoint runningTotals (start : Z) (sizes : list Z) : list Z :=
  match sizes with
  | [] => []
  | x :: rest => (start + x) :: runningTotals (start + x) rest
  end.

(** What a pass journals for the order [id]: after each new trade, the
    running total from [orderCumulativeFilled]. *)
Definition journals (id : string) (s s' : Loop.t) : Prop :=
  ∃ new,
    Loop.trades s' = Loop.trades s ++ new
    ∧ Loop.orderCumulativeFilled s'
      = Loop.orderCumulativeFilled s + tradedSize new
    ∧ filledWrites id (Storage.journal (Loop.storage s'))
      = filledWrites id (Storage.journal (Loop.storage s))
        ++ runningTotals (Loop.orderCumulativeFilled s) (map Trade.size new).

(** ** Crossing of the resting books *)

(** The level holds an order with a positive remainder. *)
Definition hasLive (l : Entry.t) : Prop :=
  ∃ o, o ∈ Entry.orders l ∧ 0 < Order.remaining o.

(** No YES level and NO level that both hold a positive remainder pass the
    crossing test: the YES price is below the NO price. *)
Definition nonCrossing (yesBook noBook : Book) : Prop :=
  ∀ ly ln, ly ∈ yesBook → ln ∈ noBook → hasLive ly → hasLive ln →
           Entry.price ly < Entry.price ln.

(** Every level of [book'] with a positive remainder comes from a level of
    [book] at the same price with a positive remainder. *)
Definition liveFrom (book book' : Book) : Prop :=
  ∀ l', l' ∈ book' → hasLive l' →
        ∃ l, l ∈ book ∧ Entry.price l = Entry.price l' ∧ hasLive l.

(** The books of [e'] are those of [e] with the same prices and ids, and no
    new positive remainder. *)
Definition settles (e e' : Engine.t) : Prop :=
  ∀ s marketId,
    prices (bookOf s marketId e') = prices (bookOf s marketId e)
    ∧ liveFrom (bookOf s marketId e) (bookOf s marketId e')
    ∧ ∀ id, id ∈ bookIds (bookOf s marketId e') →
            id ∈ bookIds (bookOf s marketId e).

(** What holds of the system between two requests. *)
Definition consistent (sys : System.t) : Prop :=
  sortedEngine (System.engine sys)
  ∧ (∀ marketId,
       nonCrossing (bookOf YES marketId (System.engine sys))
         (bookOf NO marketId (System.engine sys)))
  ∧ (∀ s marketId id,
       id ∈ bookIds (bookOf s marketId (System.engine sys)) →
       is_Some (Storage.orders (System.storage sys) !! id)).

(** * Concrete runs *)

(** ** Helpers *)

(** The row and the storage [createOrder] leaves for a submission
    ([None] when the insert fails). *)
Definition created (sub : Submission.t) (sys : System.t)
    : option (Order.t * Storage.t) :=
  createOrder (Submission.uuid sub) (Submission.now sub) (Submission.body sub)
    (System.storage sys).

(** The value a call returned; the empty result when it threw. *)
Definition returnedResult (out : Outcome) : MatchResult.t :=
  match out with
  | Returned r => r
  | Threw => MatchResult.mk None [] None None
  end.

(** ** Insertions of the test suite *)

(** [createMockOrder] of the engine's tests: market "test-market-123",
    [filled] 0, status PENDING. *)
Definition createMockOrder (id : string) (side : Side) (type : OrderType)
    (price size : Z) (userId : string) (createdAt : Z) : Order.t :=
  Order.mk id "test-market-123" userId side type price size 0 PENDING createdAt.


(** ** A NO order that meets a resting YES order *)

(** A resting YES limit at 0.60 for 100 by "maker", then a NO limit at 0.40
    for 50 by "taker": 0.40 <= 0.60, the orders cross. *)
Definition restingYes060 : Submission.t :=
  Submission.mk "Y1" 1 (InsertOrder.mk "m" "maker" YES LIMIT 6000 100000000).

Definition incomingNo040 : Submission.t :=
  Submission.mk "N1" 2 (InsertOrder.mk "m" "taker" NO LIMIT 4000 50000000).

Definition afterRestingYes060 : System.t :=
  postOrder restingYes060 System.initial.

(** The NO limit at 0.40 as [createOrder] returns it, and the storage then. *)
Definition incomingNo040_order : Order.t :=
  Order.mk "N1" "m" "taker" NO LIMIT 4000 50000000 0 PENDING 2.

Definition incomingNo040_storage : Storage.t :=
  match created incomingNo040 afterRestingYes060 with
  | Some (_, st) => st
  | None => Storage.empty
  end.

(** The trade of that NO limit with the resting YES limit. *)
Definition tradeNo040Yes060 : Trade.t :=
  Trade.mk "m" "Y1" "N1" "maker" "taker" NO 6000 50000000.

(** ** An IOC order filled in part *)

(** 'should execute IOC order immediately and cancel remaining': a NO limit
    at 0.6 for 50 rests; a YES IOC at 0.6 for 100 comes in. *)
Definition restingNo060 : Submission.t :=
  Submission.mk "S1" 1 (InsertOrder.mk "m" "seller" NO LIMIT 6000 50000000).

Definition afterRestingNo060 : System.t :=
  postOrder restingNo060 System.initial.

Definition iocYes060_order : Order.t :=
  Order.mk "I1" "m" "buyer" YES IOC 6000 100000000 0 PENDING 2.

Definition iocYes060_storage : Storage.t :=
  match createOrder "I1" 2 (InsertOrder.mk "m" "buyer" YES IOC 6000 100000000)
          (System.storage afterRestingNo060) with
  | Some (_, st) => st
  | None => Storage.empty
  end.

(** ** A warm load, then a fill-or-kill order *)

(** Two NO limits at 0.50 for 30, "A" at time 1 and "B" at time 2, then a
    restart: a new engine warm-loads the market from storage. *)
Definition twoNoLimitsAt050 : list Submission.t :=
  [Submission.mk "A" 1 (InsertOrder.mk "m" "alice" NO LIMIT 5000 30000000);
   Submission.mk "B" 2 (InsertOrder.mk "m" "bob" NO LIMIT 5000 30000000)].

Definition afterTwoNoLimits : System.t :=
  postOrders twoNoLimitsAt050 System.initial.

Definition warmLoaded : System.t :=
  System.mk
    (loadOrderBook "m" Engine.empty (System.storage afterTwoNoLimits))
    (System.storage afterTwoNoLimits).

(** A YES fill-or-kill at 0.60 for 100: only 60 rest at 0.50. *)
Definition fokYes060 : Submission.t :=
  Submission.mk "F1" 3 (InsertOrder.mk "m" "carol" YES FOK 6000 100000000).

(** The fill-or-kill order as [createOrder] returns it to the warm-loaded
    engine, and the storage then. *)
Definition fokYes060_order : Order.t :=
  Order.mk "F1" "m" "carol" YES FOK 6000 100000000 0 PENDING 3.

Definition fokYes060_storage : Storage.t :=
  match created fokYes060 warmLoaded with
  | Some (_, st) => st
  | None => Storage.empty
  end.

(** ** Full and partial fills *)

(** 'should remove completely filled orders from order book': a NO limit at
    0.6 for 100 rests, a YES limit at 0.6 for 100 takes all of it. *)
Definition fullFillAt060 : list Submission.t :=
  [Submission.mk "S1" 1 (InsertOrder.mk "m" "seller" NO LIMIT 6000 100000000);
   Submission.mk "B1" 2 (InsertOrder.mk "m" "buyer" YES LIMIT 6000 100000000)].

Definition afterFullFillAt060 : System.t :=
  postOrders fullFillAt060 System.initial.

(** After the full fill at 0.60, a YES limit at 0.70 for 10: the NO level
    at 0.60 holds only the filled order, nothing matches, the order rests. *)
Definition afterFullFillThenYes070 : System.t :=
  postOrder
    (Submission.mk "B2" 3 (InsertOrder.mk "m" "buyer" YES LIMIT 7000 10000000))
    afterFullFillAt060.

(** A NO limit at 0.40 for 30 rests; a YES limit at 0.60 for 100 takes it
    and rests, PARTIAL, with 70 left.  Then a restart and a warm load. *)
Definition partialFillAt040 : list Submission.t :=
  [Submission.mk "S1" 1 (InsertOrder.mk "m" "seller" NO LIMIT 4000 30000000);
   Submission.mk "B1" 2 (InsertOrder.mk "m" "buyer" YES LIMIT 6000 100000000)].

Definition afterPartialFillAt040 : System.t :=
  postOrders partialFillAt040 System.initial.

(** ** A position bought and sold *)

(** "uma" buys 100 YES at 0.40 from "ann"'s resting NO limit; "ben" rests a
    YES limit at 0.40; "uma" then sends a NO limit at 0.40 for 100, which
    crosses "ben"'s order and is recorded as its seller. *)
Definition roundTripOfUma : list Submission.t :=
  [Submission.mk "A1" 1 (InsertOrder.mk "m" "ann" NO LIMIT 4000 100000000);
   Submission.mk "U1" 2 (InsertOrder.mk "m" "uma" YES LIMIT 6000 100000000);
   Submission.mk "B1" 3 (InsertOrder.mk "m" "ben" YES LIMIT 4000 100000000);
   Submission.mk "U2" 4 (InsertOrder.mk "m" "uma" NO LIMIT 4000 100000000)].

Definition afterRoundTripOfUma : System.t :=
  postOrders roundTripOfUma System.initial.

(** The position of "uma" before the second order: 100 YES at 0.40. *)
Definition umaLong100 : Position.t :=
  Position.mk "m" "uma" YES (parseFloat_size 100000000) (parseFloat_price 4000).

(** ** Two orders that rest across the books *)






(** ** A position closed at another price *)

(** "uma" buys 100 YES at 0.40 from "ann" and "ben" rests a YES order at
    0.60 for 100; "uma" then sells 100 at 0.60 through a NO order at 0.40 of
    the type given.  The new share count of her YES position is 0 and the
    average price (40 - 60) / 0 = -Infinity, which the column [avg_price]
    rejects. *)
Definition umaLongBenBids : list Submission.t :=
  [Submission.mk "A1" 1 (InsertOrder.mk "m" "ann" NO LIMIT 4000 100000000);
   Submission.mk "U1" 2 (InsertOrder.mk "m" "uma" YES LIMIT 6000 100000000);
   Submission.mk "B1" 3 (InsertOrder.mk "m" "ben" YES LIMIT 6000 100000000)].

Definition afterUmaLongBenBids : System.t :=
  postOrders umaLongBenBids System.initial.

Definition umaSellsAt060 (type : OrderType) : Submission.t :=
  Submission.mk "U2" 4 (InsertOrder.mk "m" "uma" NO type 4000 100000000).

(** The order of "uma" as [createOrder] returns it, and the storage then. *)
Definition umaSellsAt060_order (type : OrderType) : Order.t :=
  Order.mk "U2" "m" "uma" NO type 4000 100000000 0 PENDING 4.

Definition umaSellsAt060_storage (type : OrderType) : Storage.t :=
  match created (umaSellsAt060 type) afterUmaLongBenBids with
  | Some (_, st) => st
  | None => Storage.empty
  end.

(** The trade of that order with the resting order of "ben". *)
Definition tradeUmaBen : Trade.t :=
  Trade.mk "m" "B1" "U2" "ben" "uma" NO 6000 100000000.

(** ** An order that trades twice *)

(** NO limits at 0.60 for 60 and for 40 rest; a YES limit at 0.60 for 100
    takes both. *)
Definition twoNoLimitsAt060 : list Submission.t :=
  [Submission.mk "S1" 1 (InsertOrder.mk "m" "seller1" NO LIMIT 6000 60000000);
   Submission.mk "S2" 2 (InsertOrder.mk "m" "seller2" NO LIMIT 6000 40000000)].

Definition afterTwoNoLimitsAt060 : System.t :=
  postOrders twoNoLimitsAt060 System.initial.

Definition yes060for100_order : Order.t :=
  Order.mk "B1" "m" "buyer" YES LIMIT 6000 100000000 0 PENDING 3.

Definition yes060for100_storage : Storage.t :=
  match createOrder "B1" 3 (InsertOrder.mk "m" "buyer" YES LIMIT 6000 100000000)
          (System.storage afterTwoNoLimitsAt060) with
  | Some (_, st) => st
  | None => Storage.empty
  end.

(** ** Orders that have no row *)

(** Orders that were never inserted, handed to [processOrder] as the
    simulation script hands over the orders it builds: no row of the table
    has their id.  An IOC order that finds the resting NO limit at 0.60 out
    of reach, and a LIMIT order of size 0. *)
Definition simIoc050 : Order.t :=
  Order.mk "W2" "m" "wallet" YES IOC 5000 100000000 0 PENDING 5.

Definition simZero050 : Order.t :=
  Order.mk "W3" "m" "wallet" YES LIMIT 5000 0 0 PENDING 5.

(** * More of the storage and of the engine *)

(** ** More queries of [DatabaseStorage] *)

(** [getMarketOrders]: the rows of the market, ordered by
    [desc(orders.createdAt)]. *)
Definition getMarketOrders (marketId : string) (st : Storage.t)
    : list Order.t :=
  js_sort cmpCreatedAtDesc
    (filter (λ o, Order.marketId o = marketId)
       (map snd (map_to_list (Storage.orders st)))).

(** [getUserOrders]: the rows of the user, ordered by
    [desc(orders.createdAt)]. *)
Definition getUserOrders (userId : string) (st : Storage.t) : list Order.t :=
  js_sort cmpCreatedAtDesc
    (filter (λ o, Order.userId o = userId)
       (map snd (map_to_list (Storage.orders st)))).

(** ** Vocabulary of the further properties *)

(** [o] is a row of the table [orders]. *)
Definition isRow (o : Order.t) (st : Storage.t) : Prop :=
  ∃ k, Storage.orders st !! k = Some o.

(** Newest first: descending in [createdAt]. *)
Definition newestFirst (l : list Order.t) : Prop :=
  StronglySorted (leKey (λ o, - Order.createdAt o)) l.

(** What [updateOrCreatePosition] looks a position up by. *)
Definition positionKey (p : Position.t) : string * string * Side :=
  (Position.marketId p, Position.userId p, Position.side p).

(** At most one position per market, user and side. *)
Definition onePositionPerKey (rows : list Position.t) : Prop :=
  NoDup (map positionKey rows).

(** ** Inputs of the further properties *)

(** A request for a YES limit at 0.55 for 10 by "dana". *)
Definition yesLimit055 : InsertOrder.t :=
  InsertOrder.mk "m" "dana" YES LIMIT 5500 10000000.


(** The level [l] with [order] behind its queue: what [addToOrderBook] makes
    of the level it finds. *)
Definition pushed (order : Order.t) (l : Entry.t) : Entry.t :=
  Entry.mk (Entry.price l) (Entry.size l + Order.remaining order)
    (Entry.orders l ++ [order]).


(** The NO limit at 0.30 of the test suite, and the engine with the NO
    limits at 0.20 and 0.40 that come before it. *)
Definition noLimit030 : Order.t :=
  createMockOrder "order-3" NO LIMIT 3000 100000000 "user-123" 3.

Definition noEngine_020_040 : Engine.t :=
  insertAll
    [createMockOrder "order-1" NO LIMIT 2000 100000000 "user-123" 1;
     createMockOrder "order-2" NO LIMIT 4000 100000000 "user-123" 2]
    Engine.empty.

(** The book [order] belongs in: that of its side and market. *)
Definition ownBook (order : Order.t) (e : Engine.t) : Book :=
  bookOf (Order.side order) (Order.marketId order) e.


(** The same level, its queue rearranged by a stable sort on [createdAt]. *)
Definition levelSorted (l l' : Entry.t) : Prop :=
  Entry.price l' = Entry.price l ∧ Entry.size l' = Entry.size l
  ∧ Entry.orders l' ≡ₚ Entry.orders l
  ∧ StronglySorted (leKey Order.createdAt) (Entry.orders l')
  ∧ ∀ t, filter (λ o, Order.createdAt o = t) (Entry.orders l')
         = filter (λ o, Order.createdAt o = t) (Entry.orders l).

(** ** What a matching pass does to the opposite book *)

(** Nothing is left of the order to trade. *)
Definition exhausted (o : Order.t) : Prop := Order.remaining o ≤ 0.

(** The orders [after] are the orders [before], served in turn: a front of
    orders that are exhausted, then at most one order with more filled than
    before, then orders no one touched. *)
Inductive servedInTurn : list Order.t → list Order.t → Prop :=
| served_none : servedInTurn [] []
| served_last o o' rest :
    grown o o' → servedInTurn (o :: rest) (o' :: rest)
| served_next o o' before after :
    grown o o' → exhausted o' → servedInTurn before after →
    servedInTurn (o :: before) (o' :: after).

(** The sum of the [filled] of orders. *)
Definition filledTotal (orders : list Order.t) : Z :=
  foldr Z.add 0 (map Order.filled orders).

(** The engine [processOrder] leaves. *)
Definition engineAfter (order : Order.t) (e : Engine.t) (st : Storage.t)
    : Engine.t :=
  fst (fst (processOrder order e st)).

(** The storage [processOrder] leaves. *)
Definition storageAfter (order : Order.t) (e : Engine.t) (st : Storage.t)
    : Storage.t :=
  snd (fst (processOrder order e st)).

(** The book opposite to [order] in [e]. *)
Definition oppositeBook (order : Order.t) (e : Engine.t) : Book :=
  bookOf (oppositeSide (Order.side order)) (Order.marketId order) e.

(** The trades [processOrder] adds to the table [trades]. *)
Definition producedTrades (order : Order.t) (e : Engine.t) (st : Storage.t)
    : list Trade.t :=
  drop (length (Storage.trades st)) (Storage.trades (storageAfter order e st)).

(** A fill-or-kill YES order at 0.60 for 50, as [createOrder] returns it
    when the NO limit at 0.60 for 50 rests, and the storage with its row. *)
Definition fokYes060for50_order : Order.t :=
  Order.mk "F2" "m" "carol" YES FOK 6000 50000000 0 PENDING 2.

Definition fokYes060for50_storage : Storage.t :=
  match createOrder "F2" 2 (InsertOrder.mk "m" "carol" YES FOK 6000 50000000)
          (System.storage afterRestingNo060) with
  | Some (_, st) => st
  | None => Storage.empty
  end.

(** The status of an order that may wait: FILLED when its trades cover its
    size, else PARTIAL when it traded, else PENDING. *)
Definition restingStatus (order : Order.t) (trades : list Trade.t) : Status :=
  if tradedSize trades =? Order.size order then FILLED
  else if 0 <? tradedSize trades then PARTIAL
  else PENDING.

(** The row of [order] after [trades]: their sizes added to [filled], and
    the status they leave. *)
Definition rowAfter (order : Order.t) (trades : list Trade.t) : Order.t :=
  Order.with_status (restingStatus order trades)
    (Order.with_filled (Order.filled order + tradedSize trades) order).

(** A MARKET YES order for 100, as [createOrder] returns it when the NO
    limit at 0.60 for 50 rests, and the storage with its row. *)
Definition marketYes100_order : Order.t :=
  Order.mk "M1" "m" "buyer" YES MARKET 1000 100000000 0 PENDING 2.

Definition marketYes100_storage : Storage.t :=
  match createOrder "M1" 2 (InsertOrder.mk "m" "buyer" YES MARKET 1000 100000000)
          (System.storage afterRestingNo060) with
  | Some (_, st) => st
  | None => Storage.empty
  end.

(** ** Storages that differ in one row *)

(** The loop variables [s], over the storage [st]. *)
Definition withStorage (st : Storage.t) (s : Loop.t) : Loop.t :=
  Loop.mk (Loop.remainingSize s) (Loop.orderCumulativeFilled s)
    (Loop.trades s) st (Loop.thrown s).

(** The two storages hold the same trades, positions and market prices, and
    the same row under every id but [orderId]. *)
Definition agreeExcept (orderId : string) (st1 st2 : Storage.t) : Prop :=
  (∀ k, k ≠ orderId → Storage.orders st1 !! k = Storage.orders st2 !! k)
  ∧ Storage.trades st1 = Storage.trades st2
  ∧ Storage.positions st1 = Storage.positions st2
  ∧ Storage.marketPrices st1 = Storage.marketPrices st2.

(** The two storages have rows under the same ids. *)
Definition sameRows (st1 st2 : Storage.t) : Prop :=
  ∀ k, is_Some (Storage.orders st1 !! k) ↔ is_Some (Storage.orders st2 !! k).

(** A YES limit at 0.60 for 100, as [createOrder] returns it when a NO limit
    at 0.40 for 30 rests, and the storage with its row: the order takes the
    30 and rests with 70 left. *)
Definition afterNo040for30 : System.t :=
  postOrder
    (Submission.mk "S1" 1 (InsertOrder.mk "m" "seller" NO LIMIT 4000 30000000))
    System.initial.

Definition yes060over30_order : Order.t :=
  Order.mk "B1" "m" "buyer" YES LIMIT 6000 100000000 0 PENDING 2.

Definition yes060over30_storage : Storage.t :=
  match createOrder "B1" 2 (InsertOrder.mk "m" "buyer" YES LIMIT 6000 100000000)
          (System.storage afterNo040for30) with
  | Some (_, st) => st
  | None => Storage.empty
  end.

(** The storage with the market's row at the prices a new market has, 0.5
    and 0.5 (the defaults of [yes_price] and [no_price]). *)
Definition withMarket (marketId : string) (st : Storage.t) : Storage.t :=
  Storage.mk (Storage.orders st) (Storage.trades st) (Storage.positions st)
    (<[marketId := (5000, 5000)]> (Storage.marketPrices st))
    (Storage.journal st).

(** ** No order is filled beyond its size *)

(** [filled] is between 0 and the size (between 0 and 0 for a size below
    0). *)
Definition soundFill (o : Order.t) : Prop :=
  0 ≤ Order.filled o ∧ Order.filled o ≤ Z.max 0 (Order.size o).

(** Every row is stored under its own id, and none is overfilled. *)
Definition rowsSound (st : Storage.t) : Prop :=
  ∀ k row, Storage.orders st !! k = Some row → Order.id row = k ∧ soundFill row.

(** The table has a row under the id of [o], of the same size. *)
Definition hasRow (o : Order.t) (st : Storage.t) : Prop :=
  ∃ row, Storage.orders st !! Order.id o = Some row
         ∧ Order.size row = Order.size o.

(** No row and no order of a book is overfilled, and every order of a book
    has its row. *)
Definition soundSystem (sys : System.t) : Prop :=
  rowsSound (System.storage sys)
  ∧ ∀ s marketId o,
      o ∈ bookOrders (bookOf s marketId (System.engine sys)) →
      soundFill o ∧ hasRow o (System.storage sys).

(** What the loops keep of their variables, for an order that came in with
    [filled] 0. *)
Definition loopSound (order : Order.t) (s : Loop.t) : Prop :=
  rowsSound (Loop.storage s)
  ∧ hasRow order (Loop.storage s)
  ∧ Loop.orderCumulativeFilled s + Loop.remainingSize s = Order.size order
  ∧ 0 ≤ Loop.orderCumulativeFilled s.

(** An order that was never inserted, handed to [processOrder] as the
    simulation script hands over the orders it builds: a YES limit at 0.50
    for 100 that meets the resting NO limit at 0.60 for 50 and cannot
    trade. *)
Definition simYes050 : Order.t :=
  Order.mk "W1" "m" "wallet" YES LIMIT 5000 100000000 0 PENDING 5.

(** ** The clock of the database *)

(** The rows are created at times that never go back. *)
Definition clockMonotone (subs : list Submission.t) : Prop :=
  StronglySorted (leKey Submission.now) subs.

(** Every queue is in ascending [createdAt] order, and no order of a book
    was created after [now]. *)
Definition queuedBy (now : Z) (e : Engine.t) : Prop :=
  ∀ s marketId,
    timeOrdered (bookOf s marketId e)
    ∧ Forall (λ o, Order.createdAt o ≤ now) (bookOrders (bookOf s marketId e)).

(** Two submissions at a clock that went back: the second row is older than
    the first. *)
Definition yesLimitsClockBack : list Submission.t :=
  [Submission.mk "L2" 2 (InsertOrder.mk "m" "late" YES LIMIT 4000 10000000);
   Submission.mk "L1" 1 (InsertOrder.mk "m" "early" YES LIMIT 4000 10000000)].

(** ** The order routes together *)

(** A request to [POST /api/orders] or to [DELETE /api/orders/:id]. *)
Inductive Request :=
| PostOrder (sub : Submission.t)
| DeleteOrder (orderId : string).

(** The route handlers: the DELETE route calls [storage.cancelOrder] and
    nothing of the engine. *)
Definition serve (req : Request) (sys : System.t) : System.t :=
  match req with
  | PostOrder sub => postOrder sub sys
  | DeleteOrder orderId =>
      System.mk (System.engine sys) (cancelOrder orderId (System.storage sys))
  end.

Definition serveAll (reqs : list Request) (sys : System.t) : System.t :=
  foldl (λ sys req, serve req sys) sys reqs.

(** Every row of [st] is still there in [st'], with at most its [filled] and
    [status] changed. *)
Definition rowsStay (st st' : Storage.t) : Prop :=
  ∀ k row, Storage.orders st !! k = Some row →
           ∃ row', Storage.orders st' !! k = Some row' ∧ rowKept row row'.

(** The resting YES limit at 0.60 is cancelled, then the NO limit at 0.40
    comes in. *)
Definition cancelThenNo040 : list Request :=
  [DeleteOrder "Y1"; PostOrder incomingNo040].

(** ** The table and the books agree *)

(** The table holds the order [o] under its id, up to the status. *)
Definition agrees (o : Order.t) (st : Storage.t) : Prop :=
  ∃ row, Storage.orders st !! Order.id o = Some row
         ∧ Order.with_status (Order.status o) row = o.

(** No book holds an id twice; every order of a book is of the book's side
    and market, and the table holds it, with the same [filled]. *)
Definition booksAgree (sys : System.t) : Prop :=
  ∀ s marketId,
    NoDup (bookIds (bookOf s marketId (System.engine sys)))
    ∧ ∀ o, o ∈ bookOrders (bookOf s marketId (System.engine sys)) →
           Order.side o = s ∧ Order.marketId o = marketId
           ∧ agrees o (System.storage sys).

(** * The earlier revision of the engine

    The class [MatchingEngine] as it was before IOC and FOK orders: market
    and limit orders only, the opposite book read as it stands (no sort of
    the queues), a resting order's [filled] never written in memory, and
    the levels sorted the other way round.  [executeTrade],
    [updatePositions], [updateMarketPrices], [loadOrderBook] and
    [getOrderBook] read as in the later revision. *)

Module Rev1.

(** The comparator of [book.sort]: YES ascending, NO descending. *)
Definition cmpLevels (s : Side) (a b : Entry.t) : Z :=
  match s with
  | YES => Entry.price a - Entry.price b
  | NO => Entry.price b - Entry.price a
  end.

Definition addToBook (order : Order.t) (book : Book) : Book :=
  let price := Order.price order in
  let book1 :=
    if hasLevel price book then book
    else js_sort (cmpLevels (Order.side order)) (book ++ [Entry.mk price 0 []]) in
  pushToLevel order price book1.

Definition addToOrderBook (order : Order.t) (e : Engine.t) : Engine.t :=
  let s := Order.side order in
  let m := Order.marketId order in
  setSideBooks s (<[m := addToBook order (bookOf s m e)]> (sideBooks s e)) e.

(** The variables of the loops of [processOrder].  [thrown]: an awaited
    call has thrown; the exception is on its way out of the loops. *)
Record Vars := mkVars {
  remainingSize : Z;
  trades : list Trade.t;
  storage : Storage.t;
  thrown : bool
}.

(** The body under [if (matchSize.gt(0))]: the writes carry [order.filled]
    and [oppositeOrder.filled] as they were when the call began, plus this
    match.  When [executeTrade] throws, nothing of the body behind it
    runs. *)
Definition fill (order oppositeOrder : Order.t) (matchSize levelPrice : Z)
    (s : Vars) : Vars :=
  match executeTrade order oppositeOrder matchSize levelPrice (storage s) with
  | (None, st) => mkVars (remainingSize s) (trades s) st true
  | (Some trade, st) =>
      let st :=
        updateOrderFilled (Order.id order) (Order.filled order + matchSize) st in
      let st :=
        updateOrderFilled (Order.id oppositeOrder)
          (Order.filled oppositeOrder + matchSize) st in
      let st :=
        if Order.size oppositeOrder =? Order.filled oppositeOrder + matchSize
        then snd (updateOrderStatus (Order.id oppositeOrder) FILLED st)
        else st in
      mkVars (remainingSize s - matchSize) (trades s ++ [trade]) st (thrown s)
  end.

Definition matchOne (order : Order.t) (levelPrice : Z)
    (oppositeOrder : Order.t) (s : Vars) : Vars :=
  let matchSize := Z.min (remainingSize s) (Order.remaining oppositeOrder) in
  if 0 <? matchSize then fill order oppositeOrder matchSize levelPrice s
  else s.

(** [for (const oppositeOrder of level.orders)]; an exception ends it. *)
Fixpoint matchLevel (order : Order.t) (levelPrice : Z)
    (orders : list Order.t) (s : Vars) : Vars :=
  match orders with
  | [] => s
  | oppositeOrder :: rest =>
      if thrown s then s
      else if remainingSize s =? 0 then s
      else matchLevel order levelPrice rest
             (matchOne order levelPrice oppositeOrder s)
  end.

(** [for (const level of oppositeBook)] under [order.type === 'LIMIT']. *)
Fixpoint limitLevels (order : Order.t) (oppositeBook : Book) (s : Vars)
    : Vars :=
  match oppositeBook with
  | [] => s
  | level :: rest =>
      if thrown s then s
      else if remainingSize s =? 0 then s
      else if canMatch order (Entry.price level) then
        limitLevels order rest
          (matchLevel order (Entry.price level) (Entry.orders level) s)
      else s
  end.

(** [for (const level of oppositeBook)] under [order.type === 'MARKET']. *)
Fixpoint marketLevels (order : Order.t) (oppositeBook : Book) (s : Vars)
    : Vars :=
  match oppositeBook with
  | [] => s
  | level :: rest =>
      if thrown s then s
      else if remainingSize s =? 0 then s
      else
        marketLevels order rest
          (matchLevel order (Entry.price level) (Entry.orders level) s)
  end.

Definition processOrder (order : Order.t) (e : Engine.t) (st : Storage.t)
    : Engine.t * Storage.t * Outcome :=
  let oppositeBook :=
    bookOf (oppositeSide (Order.side order)) (Order.marketId order) e in
  let s := mkVars (Order.size order) [] st false in
  let s :=
    match Order.type order with
    | LIMIT => limitLevels order oppositeBook s
    | MARKET => marketLevels order oppositeBook s
    | _ => s
    end in
  if thrown s then (e, storage s, Threw)
  else
    let totalFilled :=
      Order.filled order + (Order.size order - remainingSize s) in
    let status :=
      if totalFilled =? Order.size order then FILLED
      else if 0 <? totalFilled then PARTIAL
      else PENDING in
    let '(updatedOrder, st) :=
      updateOrderStatus (Order.id order) status (storage s) in
    if negb (remainingSize s =? 0) && bool_decide (Order.type order = LIMIT)
    then
      match updatedOrder with
      | None => (e, st, Threw)
      | Some booked =>
          let e := addToOrderBook booked e in
          (e, updateMarketPrices (Order.marketId order) e st,
           Returned (MatchResult.mk updatedOrder (trades s) None None))
      end
    else
      (e, updateMarketPrices (Order.marketId order) e st,
       Returned (MatchResult.mk updatedOrder (trades s) None None)).

(** *** Vocabulary *)

Definition insertAll (orders : list Order.t) (e : Engine.t) : Engine.t :=
  foldl (λ e order, addToOrderBook order e) e orders.

(** The two loops differ by the crossing test alone. *)
Fixpoint walkLevels (crosses : Z → bool) (order : Order.t)
    (oppositeBook : Book) (s : Vars) : Vars :=
  match oppositeBook with
  | [] => s
  | level :: rest =>
      if thrown s then s
      else if remainingSize s =? 0 then s
      else if crosses (Entry.price level) then
        walkLevels crosses order rest
          (matchLevel order (Entry.price level) (Entry.orders level) s)
      else s
  end.

(** The loop [processOrder] runs for [order]: none for a type other than
    LIMIT and MARKET. *)
Definition matched (order : Order.t) (e : Engine.t) (st : Storage.t) : Vars :=
  match Order.type order with
  | LIMIT =>
      walkLevels (canMatch order) order (oppositeBook order e)
        (mkVars (Order.size order) [] st false)
  | MARKET =>
      walkLevels (λ _, true) order (oppositeBook order e)
        (mkVars (Order.size order) [] st false)
  | _ => mkVars (Order.size order) [] st false
  end.

Definition engineAfter (order : Order.t) (e : Engine.t) (st : Storage.t)
    : Engine.t :=
  fst (fst (processOrder order e st)).

Definition storageAfter (order : Order.t) (e : Engine.t) (st : Storage.t)
    : Storage.t :=
  snd (fst (processOrder order e st)).

(** The trades the call adds to the table [trades]. *)
Definition producedTrades (order : Order.t) (e : Engine.t) (st : Storage.t)
    : list Trade.t :=
  drop (length (Storage.trades st)) (Storage.trades (storageAfter order e st)).

(** Two runs of the loops that stand at the same remainder and trades. *)
Definition sameRun (s1 s2 : Vars) : Prop :=
  remainingSize s1 = remainingSize s2 ∧ trades s1 = trades s2.

(** The table [trades] holds [base], then the trades made so far and, when
    [executeTrade] threw after its insert, the trade it had inserted. *)
Definition tradesStored (base : list Trade.t) (s : Vars) : Prop :=
  ∃ unsettled,
    Storage.trades (storage s) = base ++ trades s ++ unsettled
    ∧ (length unsettled ≤ 1)%nat
    ∧ (thrown s = false → unsettled = []).

(** A statement of the loops is rejected by the database: [processOrder]
    throws from its loop. *)
Definition writeRejected (order : Order.t) (e : Engine.t) (st : Storage.t)
    : bool :=
  thrown (matched order e st).

(** The trades the loops push to the array [processOrder] returns. *)
Definition settledTrades (order : Order.t) (e : Engine.t) (st : Storage.t)
    : list Trade.t :=
  trades (matched order e st).

(** The [filled] the loops have written last for [order], after [trades]:
    [order.filled] plus the size of the last trade. *)
Definition filledAfter (order : Order.t) (trades : list Trade.t) : Z :=
  match last trades with
  | Some t => Order.filled order + Trade.size t
  | None => Order.filled order
  end.

(** The row of the incoming order holds that [filled], all along the
    loops. *)
Definition tracksRow (order : Order.t) (s : Vars) : Prop :=
  Storage.orders (storage s) !! Order.id order
  = Some (Order.with_filled (filledAfter order (trades s)) order).

(** The values written as the [filled] of [order] are those of [base] and
    then, for each trade made so far, [order.filled] plus the size of that
    trade alone. *)
Definition deltaWrites (base : list Z) (order : Order.t) (s : Vars) : Prop :=
  filledWrites (Order.id order) (Storage.journal (storage s))
  = base ++ map (λ t, Order.filled order + Trade.size t) (trades s).

End Rev1.

(** Two MARKET YES orders for 50 each, with their rows, and a NO limit at
    0.60 for 50 resting in the engine. *)
Definition marketYes50 (id : string) : Order.t :=
  Order.mk id "m" "buyer" YES MARKET 1000 50000000 0 PENDING 2.

Definition restingNo060_engine : Engine.t :=
  Rev1.addToOrderBook
    (Order.mk "S1" "m" "seller" NO LIMIT 6000 50000000 0 PENDING 1)
    Engine.empty.

Definition restingNo060_rows : Storage.t :=
  Storage.mk
    (<["S1"%string
       := Order.mk "S1" "m" "seller" NO LIMIT 6000 50000000 0 PENDING 1]>
       (<["M1"%string := marketYes50 "M1"]>
          (<["M2"%string := marketYes50 "M2"]> ∅)))
    [] [] ∅ [].

(** NO limits for 30 at 0.50 and for 20 at 0.40 rest; a YES limit at 0.60
    for 100 comes in. *)
Definition rev1_twoAsks : Engine.t :=
  Rev1.insertAll
    [Order.mk "A1" "m" "ann" NO LIMIT 5000 30000000 0 PENDING 1;
     Order.mk "A2" "m" "ben" NO LIMIT 4000 20000000 0 PENDING 2]
    Engine.empty.

Definition rev1_yes060for100 : Order.t :=
  Order.mk "B1" "m" "buyer" YES LIMIT 6000 100000000 0 PENDING 3.

Definition rev1_twoAsks_rows : Storage.t :=
  Storage.mk
    (<["A1"%string
       := Order.mk "A1" "m" "ann" NO LIMIT 5000 30000000 0 PENDING 1]>
       (<["A2"%string
          := Order.mk "A2" "m" "ben" NO LIMIT 4000 20000000 0 PENDING 2]>
          (<["B1"%string := rev1_yes060for100]> ∅)))
    [] [] ∅ [].

(** NO limits at 0.60 and 0.40 rest; a YES limit at 0.50 for 10 comes in. *)
Definition rev1_asks_060_040 : Engine.t :=
  Rev1.insertAll
    [Order.mk "A1" "m" "ann" NO LIMIT 4000 10000000 0 PENDING 1;
     Order.mk "A2" "m" "ben" NO LIMIT 6000 10000000 0 PENDING 2]
    Engine.empty.

Definition rev1_yes050for10 : Order.t :=
  Order.mk "B1" "m" "buyer" YES LIMIT 5000 10000000 0 PENDING 3.

Definition rev1_asks_rows : Storage.t :=
  Storage.mk (<["B1"%string := rev1_yes050for10]> ∅) [] [] ∅ [].
(** * Properties *)

(** ** [Array.prototype.sort] *)

Section js_sort_facts.
Context {A : Type} (cmp : A → A → Z) (key : A → Z).
Hypothesis cmp_key : ∀ a b, cmp a b = key a - key b.

Lemma sort_insert_perm x l : sort_insert cmp x l ≡ₚ x :: l.
Proof.
  induction l as [|y l IH]; simpl; [done|].
  destruct (cmp x y <=? 0); [done|].
  rewrite IH. apply Permutation_swap.
Qed.

Lemma js_sort_perm l : js_sort cmp l ≡ₚ l.
Proof.
  induction l as [|x l IH]; simpl; [done|].
  by rewrite sort_insert_perm, IH.
Qed.

Lemma sort_insert_sorted x l :
  StronglySorted (leKey key) l → StronglySorted (leKey key) (sort_insert cmp x l).
Proof.
  induction 1 as [|y l Hl IH Hy]; simpl.
  - repeat constructor.
  - destruct (Z.leb_spec (cmp x y) 0) as [Hxy|Hxy]; rewrite cmp_key in Hxy.
    + constructor; [by constructor|].
      constructor; [unfold leKey; lia|].
      eapply Forall_impl; [exact Hy|]. unfold leKey. intros; simpl in *. lia.
    + constructor; [done|].
      rewrite sort_insert_perm. constructor; [unfold leKey; lia|done].
Qed.

Lemma js_sort_sorted l : StronglySorted (leKey key) (js_sort cmp l).
Proof.
  induction l as [|x l IH]; simpl; [constructor|].
  by apply sort_insert_sorted.
Qed.

Lemma js_sort_of_sorted l : StronglySorted (leKey key) l → js_sort cmp l = l.
Proof.
  induction 1 as [|x l Hl IH Hx]; simpl; [done|].
  rewrite IH. destruct l as [|y l]; simpl; [done|].
  apply Forall_cons in Hx as [Hxy _]. unfold leKey in Hxy.
  rewrite cmp_key. destruct (Z.leb_spec (key x - key y) 0); [done|lia].
Qed.
End js_sort_facts.

(** ** The order of the price levels *)

Lemma cmpLevels_key s a b :
  cmpLevels s a b = priceKey s (Entry.price a) - priceKey s (Entry.price b).
Proof. destruct s; simpl; lia. Qed.

Lemma pushToLevel_prices order p book :
  prices (pushToLevel order p book) = prices book.
Proof.
  induction book as [|l book IH]; simpl; [done|].
  destruct (Entry.price l =? p); simpl; [done|]. by rewrite IH.
Qed.

Lemma js_sort_levels_sorted s book : sortedBook s (js_sort (cmpLevels s) book).
Proof.
  unfold sortedBook, prices.
  eapply (StronglySorted_fmap Entry.price); [|
    apply (js_sort_sorted _ (λ l, priceKey s (Entry.price l)) (cmpLevels_key s))].
  done.
Qed.

Lemma addToBook_sorted order book :
  sortedBook (Order.side order) book →
  sortedBook (Order.side order) (addToBook order book).
Proof.
  intros Hs. unfold addToBook, sortedBook. rewrite pushToLevel_prices.
  destruct (hasLevel _ _); [done|]. apply js_sort_levels_sorted.
Qed.

Lemma sideBooks_setSideBooks s s' m e :
  sideBooks s (setSideBooks s' m e) = if decide (s = s') then m else sideBooks s e.
Proof. by destruct s, s', e. Qed.

Lemma bookOf_setSideBooks_insert s s' marketId marketId' book e :
  bookOf s marketId (setSideBooks s' (<[marketId' := book]> (sideBooks s' e)) e)
  = if decide (s = s' ∧ marketId = marketId') then book else bookOf s marketId e.
Proof.
  unfold bookOf. rewrite sideBooks_setSideBooks.
  destruct (decide (s = s')) as [->|Hs].
  - destruct (decide (marketId = marketId')) as [->|Hm].
    + rewrite lookup_insert_eq. by rewrite decide_True.
    + rewrite lookup_insert_ne by done. rewrite decide_False; [done|by intros [? ?]].
  - rewrite decide_False; [done|by intros [? ?]].
Qed.

Lemma bookOf_addToOrderBook s marketId order e :
  bookOf s marketId (addToOrderBook order e)
  = if decide (s = Order.side order ∧ marketId = Order.marketId order)
    then addToBook order (bookOf (Order.side order) (Order.marketId order) e)
    else bookOf s marketId e.
Proof. apply bookOf_setSideBooks_insert. Qed.

Lemma addToOrderBook_sorted order e :
  sortedEngine e → sortedEngine (addToOrderBook order e).
Proof.
  intros He s marketId. rewrite bookOf_addToOrderBook.
  case_decide as H; [|apply He].
  destruct H as [-> ->]. apply addToBook_sorted, He.
Qed.

Lemma sortedEngine_empty : sortedEngine Engine.empty.
Proof. intros [] m; constructor. Qed.

Lemma sortedBook_YES book : sortedBook YES book → Sorted Z.ge (prices book).
Proof.
  intros H. apply StronglySorted_Sorted.
  unfold sortedBook in H. induction H as [|p l Hl IH Hp]; constructor; [done|].
  eapply Forall_impl; [exact Hp|]. unfold leKey. simpl. intros; lia.
Qed.

Lemma sortedBook_NO book : sortedBook NO book → Sorted Z.le (prices book).
Proof. intros H. by apply StronglySorted_Sorted. Qed.




(** ** The matching loops *)

Lemma matchLevel_elim (order : Order.t) (p : Z)
    (P : list Order.t → Loop.t → list Order.t → Loop.t → Prop) :
  (∀ s, P [] s [] s) →
  (∀ o rest s, stopped s → P (o :: rest) s (o :: rest) s) →
  (∀ o rest s o' s1 rest' s2,
      running s →
      matchOne order p o s = (o', s1) →
      matchLevel order p rest s1 = (rest', s2) →
      P rest s1 rest' s2 →
      P (o :: rest) s (o' :: rest') s2) →
  ∀ orders s orders' s',
    matchLevel order p orders s = (orders', s') → P orders s orders' s'.
Proof.
  intros Hnil Hbreak Hstep.
  induction orders as [|o rest IH]; intros s orders' s' H; simpl in H.
  - by simplify_eq.
  - destruct (Loop.thrown s) eqn:Ht.
    { simplify_eq. apply Hbreak. by left. }
    destruct (Z.eqb_spec (Loop.remainingSize s) 0) as [Hz|Hz].
    + simplify_eq. apply Hbreak. by right.
    + destruct (matchOne order p o s) as [o' s1] eqn:H1.
      destruct (matchLevel order p rest s1) as [rest' s2] eqn:H2.
      simplify_eq. eapply Hstep; eauto. by split.
Qed.

Lemma walkLevels_elim (crosses : Z → bool) (order : Order.t)
    (P : Book → Loop.t → Book → Loop.t → Prop) :
  (∀ s, P [] s [] s) →
  (∀ l rest s, stopped s → P (l :: rest) s (l :: rest) s) →
  (∀ l rest s,
      running s → crosses (Entry.price l) = false →
      P (l :: rest) s (l :: rest) s) →
  (∀ l rest s os s1 rest' s2,
      running s → crosses (Entry.price l) = true →
      matchLevel order (Entry.price l) (Entry.orders l) s = (os, s1) →
      walkLevels crosses order rest s1 = (rest', s2) →
      P rest s1 rest' s2 →
      P (l :: rest) s (Entry.mk (Entry.price l) (Entry.size l) os :: rest') s2) →
  ∀ book s book' s',
    walkLevels crosses order book s = (book', s') → P book s book' s'.
Proof.
  intros Hnil Hbreak Hstop Hstep.
  induction book as [|l rest IH]; intros s book' s' H; simpl in H.
  - by simplify_eq.
  - destruct (Loop.thrown s) eqn:Ht.
    { simplify_eq. apply Hbreak. by left. }
    destruct (Z.eqb_spec (Loop.remainingSize s) 0) as [Hz|Hz].
    + simplify_eq. apply Hbreak. by right.
    + destruct (crosses (Entry.price l)) eqn:Hc.
      * destruct (matchLevel order (Entry.price l) (Entry.orders l) s)
          as [os s1] eqn:H1.
        destruct (walkLevels crosses order rest s1) as [rest' s2] eqn:H2.
        simplify_eq. eapply Hstep; eauto. by split.
      * simplify_eq. apply Hstop; [by split|done].
Qed.

Lemma limitLevels_walk order book s :
  limitLevels order book s = walkLevels (canMatch order) order book s.
Proof.
  revert s. induction book as [|l rest IH]; intros s; simpl; [done|].
  destruct (Loop.thrown s); [done|].
  destruct (Loop.remainingSize s =? 0); [done|].
  destruct (canMatch order (Entry.price l)); [|done].
  destruct (matchLevel _ _ _ _) as [os s1]. by rewrite IH.
Qed.

Lemma marketLevels_walk order book s :
  marketLevels order book s = walkLevels (λ _, true) order book s.
Proof.
  revert s. induction book as [|l rest IH]; intros s; simpl; [done|].
  destruct (Loop.thrown s); [done|].
  destruct (Loop.remainingSize s =? 0); [done|].
  destruct (matchLevel _ _ _ _) as [os s1]. by rewrite IH.
Qed.

(** A loop that has stopped leaves everything as it is. *)
Lemma matchLevel_stopped order p orders s :
  stopped s → matchLevel order p orders s = (orders, s).
Proof.
  intros H. destruct orders as [|o rest]; simpl; [done|].
  destruct (Loop.thrown s) eqn:Ht; [done|].
  destruct H as [H|H]; [congruence|]. by rewrite H.
Qed.

Lemma walkLevels_stopped crosses order book s :
  stopped s → walkLevels crosses order book s = (book, s).
Proof.
  intros H. destruct book as [|l rest]; simpl; [done|].
  destruct (Loop.thrown s) eqn:Ht; [done|].
  destruct H as [H|H]; [congruence|]. by rewrite H.
Qed.

Lemma running_not_stopped s : running s → ¬ stopped s.
Proof. intros [Ht Hr] [H|H]; congruence. Qed.

Lemma stopped_or_running s : stopped s ∨ running s.
Proof.
  unfold stopped, running. destruct (Loop.thrown s); [by left; left|].
  destruct (decide (Loop.remainingSize s = 0)); [left; by right|by right].
Qed.

(** *** [executeTrade] *)

Lemma updatePositions_storage trade st :
  Storage.orders (snd (updatePositions trade st)) = Storage.orders st
  ∧ Storage.trades (snd (updatePositions trade st)) = Storage.trades st
  ∧ Storage.marketPrices (snd (updatePositions trade st))
    = Storage.marketPrices st
  ∧ Storage.journal (snd (updatePositions trade st)) = Storage.journal st.
Proof. unfold updatePositions. by destruct (positionRejected _ _ _ _ _ st). Qed.

Lemma createTrade_storage t st t' st' :
  createTrade t st = Some (t', st') →
  t' = t
  ∧ Storage.orders st' = Storage.orders st
  ∧ Storage.trades st' = Storage.trades st ++ [t]
  ∧ Storage.positions st' = Storage.positions st
  ∧ Storage.marketPrices st' = Storage.marketPrices st
  ∧ Storage.journal st' = Storage.journal st.
Proof.
  unfold createTrade. destruct (bool_decide _); [|done]. by intros [= <- <-].
Qed.

(** [executeTrade] leaves the rows of [orders], the prices and the journal as
    they are. *)
Lemma executeTrade_storage buy sell size price st :
  Storage.orders (snd (executeTrade buy sell size price st)) = Storage.orders st
  ∧ Storage.marketPrices (snd (executeTrade buy sell size price st))
    = Storage.marketPrices st
  ∧ Storage.journal (snd (executeTrade buy sell size price st))
    = Storage.journal st.
Proof.
  unfold executeTrade, createTrade. destruct (bool_decide _); [|done].
  destruct (updatePositions _ _) as [threw st1] eqn:E. cbn [snd].
  pose proof (updatePositions_storage (tradeData buy sell size price)
                (Storage.mk (Storage.orders st)
                   (Storage.trades st ++ [tradeData buy sell size price])
                   (Storage.positions st) (Storage.marketPrices st)
                   (Storage.journal st))) as H.
  rewrite E in H. exact (conj (proj1 H) (proj2 (proj2 H))).
Qed.

(** The trade it returns is the one it was asked for, and is stored; when
    it throws, the trade is stored as well unless the insert itself was
    rejected, and then nothing has changed. *)
Lemma executeTrade_trades buy sell size price st :
  match fst (executeTrade buy sell size price st) with
  | Some trade =>
      trade = tradeData buy sell size price
      ∧ Storage.trades (snd (executeTrade buy sell size price st))
        = Storage.trades st ++ [tradeData buy sell size price]
  | None =>
      Storage.trades (snd (executeTrade buy sell size price st))
      = Storage.trades st ++ [tradeData buy sell size price]
      ∨ snd (executeTrade buy sell size price st) = st
  end.
Proof.
  unfold executeTrade, createTrade. destruct (bool_decide _); [|by right].
  destruct (updatePositions _ _) as [threw st1] eqn:E. cbn [fst snd].
  pose proof (updatePositions_storage (tradeData buy sell size price)
                (Storage.mk (Storage.orders st)
                   (Storage.trades st ++ [tradeData buy sell size price])
                   (Storage.positions st) (Storage.marketPrices st)
                   (Storage.journal st))) as (_ & H & _).
  rewrite E in H. destruct threw; [by left|done].
Qed.

(** The two ways the loop body goes: the trade is made and settled, or
    [executeTrade] throws. *)
Lemma fill_cases order o m p s :
  (fst (executeTrade order o m p (Loop.storage s))
   = Some (tradeData order o m p)
   ∧ fill order o m p s
     = (Order.with_filled (Order.filled o + m) o,
        Loop.mk (Loop.remainingSize s - m) (Loop.orderCumulativeFilled s + m)
          (Loop.trades s ++ [tradeData order o m p])
          (settled order o m (Loop.orderCumulativeFilled s + m)
             (snd (executeTrade order o m p (Loop.storage s))))
          (Loop.thrown s)))
  ∨ (fst (executeTrade order o m p (Loop.storage s)) = None
     ∧ fill order o m p s
       = (o,
          Loop.mk (Loop.remainingSize s) (Loop.orderCumulativeFilled s)
            (Loop.trades s) (snd (executeTrade order o m p (Loop.storage s)))
            true)).
Proof.
  pose proof (executeTrade_trades order o m p (Loop.storage s)) as H.
  unfold fill.
  destruct (executeTrade order o m p (Loop.storage s)) as [[trade|] st1];
    cbn [fst snd] in *; [left|by right].
  destruct H as [-> _]. done.
Qed.

Lemma matchOne_cases order p o s :
  let m := Z.min (Loop.remainingSize s) (Order.remaining o) in
  (m ≤ 0 ∧ matchOne order p o s = (o, s))
  ∨ (0 < m ∧ matchOne order p o s = fill order o m p s).
Proof.
  intros m. unfold matchOne. fold m.
  destruct (Z.ltb_spec 0 m); [right|left]; done.
Qed.

(** The writes that settle a trade touch the table [orders] and the
    journal alone. *)
Lemma settled_storage order o m c st :
  Storage.trades (settled order o m c st) = Storage.trades st
  ∧ Storage.positions (settled order o m c st) = Storage.positions st
  ∧ Storage.marketPrices (settled order o m c st) = Storage.marketPrices st.
Proof. unfold settled. by destruct (_ =? _). Qed.

(** ** [processOrder], step by step *)

Lemma getOrderBookWithPrioritySort_fst marketId s e :
  fst (getOrderBookWithPrioritySort marketId s e)
  = map sortLevel (bookOf s marketId e).
Proof.
  unfold getOrderBookWithPrioritySort, bookOf.
  by destruct (sideBooks s e !! marketId).
Qed.

Lemma processOrder_rejected order e st :
  fokRejected order e = true →
  processOrder order e st
  = (sortedQueues (Order.marketId order) (oppositeSide (Order.side order)) e,
     snd (updateOrderStatus (Order.id order) CANCELLED st),
     Returned
       (MatchResult.mk (fst (updateOrderStatus (Order.id order) CANCELLED st))
          [] (Some true) (Some "FOK order cannot be completely filled"%string))).
Proof.
  unfold fokRejected, oppositeView, sortedQueues, processOrder.
  rewrite <- getOrderBookWithPrioritySort_fst.
  destruct (getOrderBookWithPrioritySort _ _ e) as [view e1]; simpl.
  by intros ->.
Qed.

Lemma processOrder_matched order e st view' s :
  fokRejected order e = false →
  matched order e st = (view', s) →
  let marketId := Order.marketId order in
  let e2 :=
    writeBack marketId (oppositeSide (Order.side order)) view'
      (sortedQueues marketId (oppositeSide (Order.side order)) e) in
  let status := settledStatus order (Loop.remainingSize s) in
  let written := updateOrderStatus (Order.id order) status (Loop.storage s) in
  let answer := Returned (MatchResult.mk (fst written) (Loop.trades s) None None) in
  processOrder order e st
  = if Loop.thrown s then (e2, Loop.storage s, Threw)
    else if booksRemainder order (Loop.remainingSize s) then
      match fst written with
      | None => (e2, snd written, Threw)
      | Some booked =>
          (addToOrderBook booked e2,
           updateMarketPrices marketId (addToOrderBook booked e2) (snd written),
           answer)
      end
    else (e2, updateMarketPrices marketId e2 (snd written), answer).
Proof.
  unfold fokRejected, matched, oppositeView, sortedQueues, processOrder,
    booksRemainder, settledStatus, crossesFor.
  rewrite <- getOrderBookWithPrioritySort_fst.
  destruct (getOrderBookWithPrioritySort _ _ e) as [view e1]; cbn [fst snd].
  intros -> Hm.
  unfold processLimitTypeOrder, processMarketOrder.
  rewrite limitLevels_walk, marketLevels_walk.
  destruct (Order.type order); rewrite Hm; destruct (Loop.thrown s); try done;
    by destruct (updateOrderStatus _ _ _) as [[booked|] st2].
Qed.

(** The ways [processOrder] ends after the matching pass [Hm]: the
    exception of the loop, the remainder booked, the TypeError, nothing
    booked. *)
Ltac processOrder_ends Hrun Hrej Hm :=
  rewrite (processOrder_matched _ _ _ _ _ Hrej Hm) in Hrun;
  cbv zeta in Hrun;
  match type of Hm with
  | _ = (_, ?s) =>
      destruct (Loop.thrown s) eqn:?;
        [|destruct (booksRemainder _ _);
          [destruct (fst (updateOrderStatus _ _ _)) eqn:?|]]
  end;
  simplify_eq.

(** The two ways [matchOne] goes: nothing to trade, or [fill]. *)
Ltac matchOne_goes H Hm E :=
  match type of H with
  | matchOne ?order ?p ?o ?s = _ =>
      destruct (matchOne_cases order p o s) as [[Hm E]|[Hm E]]; rewrite E in H
  end.

(** The two ways [fill] goes: the trade settled, or the exception. *)
Ltac fill_goes H Hex :=
  match type of H with
  | fill ?order ?o ?m ?p ?s = _ =>
      let E := fresh "E" in
      destruct (fill_cases order o m p s) as [[Hex E]|[Hex E]];
      rewrite E in H; clear E; injection H as <- <-
  end.

(** ** Trades and fill accounting of the loops *)

Lemma tradedSize_app l1 l2 : tradedSize (l1 ++ l2) = tradedSize l1 + tradedSize l2.
Proof.
  unfold tradedSize. induction l1 as [|t l1 IH]; simpl; [done|]. lia.
Qed.

Lemma tradeData_tradeWith order o m p rs :
  0 < m → o ∈ rs → tradeWith order rs (tradeData order o m p).
Proof.
  intros Hm Ho. split; [done|]. split; [done|]. exists o. split; [done|].
  unfold yesSideBuys, aggressorBuys, tradeData. by destruct (Order.side order).
Qed.

Lemma tradeWith_mono order rs rs' t :
  (∀ r, r ∈ rs → r ∈ rs') → tradeWith order rs t → tradeWith order rs' t.
Proof. intros H (? & ? & r & ? & ?). repeat split; eauto. Qed.

Lemma accounts_same order rs s s' :
  Loop.trades s' = Loop.trades s →
  Loop.remainingSize s' = Loop.remainingSize s →
  Loop.orderCumulativeFilled s' = Loop.orderCumulativeFilled s →
  accounts order rs s s' [].
Proof.
  intros Ht Hr Hc. unfold accounts. rewrite app_nil_r. unfold tradedSize. simpl.
  split; [done|]. split; [lia|]. split; [lia|]. constructor.
Qed.

Lemma accounts_refl order rs s : accounts order rs s s [].
Proof. by apply accounts_same. Qed.

Lemma accounts_trans order rs1 rs2 rs s1 s2 s3 new1 new2 :
  (∀ r, r ∈ rs1 → r ∈ rs) → (∀ r, r ∈ rs2 → r ∈ rs) →
  accounts order rs1 s1 s2 new1 → accounts order rs2 s2 s3 new2 →
  accounts order rs s1 s3 (new1 ++ new2).
Proof.
  intros H1 H2 (Ht1 & Hr1 & Hc1 & Hf1) (Ht2 & Hr2 & Hc2 & Hf2).
  unfold accounts. rewrite tradedSize_app, Ht2, Ht1, app_assoc.
  split; [done|]. split; [lia|]. split; [lia|].
  apply Forall_app; split; (eapply Forall_impl; [eassumption|]);
    intros t; apply tradeWith_mono; done.
Qed.

Lemma matchOne_accounts order p o s o' s' :
  matchOne order p o s = (o', s') → ∃ new, accounts order [o] s s' new.
Proof.
  intros H. matchOne_goes H Hm E.
  - simplify_eq. eexists. apply accounts_refl.
  - set (m := Z.min _ _) in *. clearbody m. fill_goes H Hex.
    + exists [tradeData order o m p]. unfold accounts, tradedSize. simpl.
      split; [done|]. split; [lia|]. split; [lia|].
      constructor; [|constructor].
      apply tradeData_tradeWith; [done|apply elem_of_cons; by left].
    + exists []. by apply accounts_same.
Qed.

Lemma matchLevel_accounts order p orders s orders' s' :
  matchLevel order p orders s = (orders', s') →
  ∃ new, accounts order orders s s' new.
Proof.
  revert orders s orders' s'.
  apply (matchLevel_elim order p (λ orders s _ s', ∃ new, accounts order orders s s' new)).
  - intros s. eexists. apply accounts_refl.
  - intros o rest s _. eexists. apply accounts_refl.
  - intros o rest s o' s1 rest' s2 _ H1 _ [new2 H2].
    apply matchOne_accounts in H1 as [new1 H1].
    exists (new1 ++ new2).
    eapply accounts_trans; [| |exact H1|exact H2]; intros r Hr.
    + apply list_elem_of_singleton in Hr as ->. apply elem_of_cons; by left.
    + apply elem_of_cons; by right.
Qed.

Lemma walkLevels_accounts crosses order book s book' s' :
  walkLevels crosses order book s = (book', s') →
  ∃ new, accounts order (bookOrders book) s s' new.
Proof.
  revert book s book' s'.
  apply (walkLevels_elim crosses order
           (λ book s _ s', ∃ new, accounts order (bookOrders book) s s' new)).
  - intros s. eexists. apply accounts_refl.
  - intros l rest s _. eexists. apply accounts_refl.
  - intros l rest s _ _. eexists. apply accounts_refl.
  - intros l rest s os s1 rest' s2 _ _ H1 _ [new2 H2].
    apply matchLevel_accounts in H1 as [new1 H1].
    exists (new1 ++ new2).
    eapply accounts_trans; [| |exact H1|exact H2];
      intros r Hr; unfold bookOrders; simpl; apply elem_of_app;
      [by left|by right].
Qed.

Lemma elem_of_bookOrders r book : r ∈ bookOrders book ↔ restsIn r book.
Proof.
  unfold bookOrders, restsIn. induction book as [|l book IH]; simpl.
  - split; [by intros ?%elem_of_nil|]. by intros (l & ?%elem_of_nil & _).
  - rewrite elem_of_app, IH. split.
    + intros [Hr|(l' & Hl' & Hr)].
      * exists l. split; [apply elem_of_cons; by left|done].
      * exists l'. split; [apply elem_of_cons; by right|done].
    + intros (l' & [->|Hl']%elem_of_cons & Hr); [by left|right; eauto].
Qed.

Lemma restsIn_sortLevel r book : restsIn r (map sortLevel book) ↔ restsIn r book.
Proof.
  unfold restsIn. split.
  - intros (l & Hl & Hr). apply list_elem_of_fmap in Hl as (l0 & -> & Hl0).
    exists l0. split; [done|]. simpl in Hr.
    by rewrite (js_sort_perm cmpCreatedAt) in Hr.
  - intros (l & Hl & Hr). exists (sortLevel l). split.
    + apply list_elem_of_fmap. eauto.
    + simpl. by rewrite (js_sort_perm cmpCreatedAt).
Qed.

Lemma matched_accounts order e st view' s :
  matched order e st = (view', s) →
  Loop.remainingSize s = Order.size order - tradedSize (Loop.trades s)
  ∧ Loop.orderCumulativeFilled s = Order.filled order + tradedSize (Loop.trades s)
  ∧ Forall (tradeWith order
              (bookOrders (bookOf (oppositeSide (Order.side order))
                             (Order.marketId order) e))) (Loop.trades s).
Proof.
  unfold matched. intros H.
  apply walkLevels_accounts in H as (new & Ht & Hr & Hc & Hf). simpl in *.
  subst new. repeat split; [done..|].
  eapply Forall_impl; [exact Hf|]. intros t. apply tradeWith_mono.
  intros r. rewrite !elem_of_bookOrders. apply restsIn_sortLevel.
Qed.

(** ** The concrete orders are the rows [createOrder] returns *)

Example incomingNo040_created :
  created incomingNo040 afterRestingYes060
  = Some (incomingNo040_order, incomingNo040_storage).
Proof. vm_compute. reflexivity. Qed.

Example iocYes060_created :
  createOrder "I1" 2 (InsertOrder.mk "m" "buyer" YES IOC 6000 100000000)
    (System.storage afterRestingNo060)
  = Some (iocYes060_order, iocYes060_storage).
Proof. vm_compute. reflexivity. Qed.

Example fokYes060_created :
  created fokYes060 warmLoaded = Some (fokYes060_order, fokYes060_storage).
Proof. vm_compute. reflexivity. Qed.

(** ** C1: who is recorded as buyer *)

(** C1, as stated, fails for an incoming NO order: a NO limit at 0.40 that
    meets a resting YES limit at 0.60 trades with side NO, and the trade's
    buy order is the resting YES order "Y1", not the incoming order. *)
Lemma C1_incoming_no_is_seller :
  ∃ t, answeredTrades (handleOrder incomingNo040 afterRestingYes060) = [t]
       ∧ Trade.side t = NO
       ∧ Trade.buyOrderId t = "Y1"%string
       ∧ Trade.sellOrderId t = Submission.uuid incomingNo040
       ∧ Trade.buyOrderId t ≠ Submission.uuid incomingNo040.
Proof.
  exists tradeNo040Yes060. split; [vm_compute; reflexivity|].
  repeat split; done.
Qed.

(** *** The trades in the table *)

Lemma executeTrade_made buy sell size price st :
  fst (executeTrade buy sell size price st)
  = Some (tradeData buy sell size price) →
  Storage.trades (snd (executeTrade buy sell size price st))
  = Storage.trades st ++ [tradeData buy sell size price].
Proof.
  intros H. pose proof (executeTrade_trades buy sell size price st) as Ht.
  rewrite H in Ht. apply Ht.
Qed.

Lemma executeTrade_threw buy sell size price st :
  fst (executeTrade buy sell size price st) = None →
  Storage.trades (snd (executeTrade buy sell size price st))
  = Storage.trades st ++ [tradeData buy sell size price]
  ∨ snd (executeTrade buy sell size price st) = st.
Proof.
  intros H. pose proof (executeTrade_trades buy sell size price st) as Ht.
  by rewrite H in Ht.
Qed.

Lemma tradeData_tradeOn order o m p queue :
  o ∈ queue → 0 < m ≤ Order.remaining o →
  tradeOn order p queue (tradeData order o m p).
Proof.
  intros Hin Hm. split; [done|]. split; [done|]. split; [done|].
  exists o. split; [done|]. split; [|done].
  unfold yesSideBuys, aggressorBuys, tradeData.
  by destruct (Order.side order).
Qed.

Lemma tradeOn_mono order p queue queue' t :
  (∀ r, r ∈ queue → r ∈ queue') →
  tradeOn order p queue t → tradeOn order p queue' t.
Proof.
  intros Hsub (Hp & Hm & Hs & r & Hr & Hb & Hsz).
  repeat split; try done. exists r. auto.
Qed.

(** Every trade a turn of the loops inserts, settled or not, is a trade
    with the resting order of that turn, at the price of its level. *)
Lemma matchOne_inserts order p o s o' s' :
  matchOne order p o s = (o', s') →
  ∃ new, Storage.trades (Loop.storage s')
         = Storage.trades (Loop.storage s) ++ new
         ∧ Forall (tradeOn order p [o]) new.
Proof.
  intros H. matchOne_goes H Hm E.
  - simplify_eq. exists []. by rewrite app_nil_r.
  - set (m := Z.min _ _) in *. assert (m ≤ Order.remaining o) by lia.
    clearbody m.
    assert (tradeOn order p [o] (tradeData order o m p)) as Hon.
    { apply tradeData_tradeOn; [apply elem_of_cons; by left|lia]. }
    fill_goes H Hex; cbn [Loop.storage].
    + exists [tradeData order o m p].
      rewrite (proj1 (settled_storage _ _ _ _ _)).
      split; [by apply executeTrade_made|]. constructor; [done|constructor].
    + destruct (executeTrade_threw _ _ _ _ _ Hex) as [Ht|Ht].
      * exists [tradeData order o m p]. split; [done|].
        constructor; [done|constructor].
      * exists []. rewrite Ht, app_nil_r. split; [done|constructor].
Qed.

Lemma matchLevel_inserts order p orders s orders' s' :
  matchLevel order p orders s = (orders', s') →
  ∃ new, Storage.trades (Loop.storage s')
         = Storage.trades (Loop.storage s) ++ new
         ∧ Forall (tradeOn order p orders) new.
Proof.
  revert orders s orders' s'.
  apply (matchLevel_elim order p
           (λ orders s _ s',
              ∃ new, Storage.trades (Loop.storage s')
                     = Storage.trades (Loop.storage s) ++ new
                     ∧ Forall (tradeOn order p orders) new)).
  - intros s. exists []. by rewrite app_nil_r.
  - intros o rest s _. exists []. by rewrite app_nil_r.
  - intros o rest s o' s1 rest' s2 _ H1 _ (new2 & Ht2 & Hall2).
    apply matchOne_inserts in H1 as (new1 & Ht1 & Hall1).
    exists (new1 ++ new2). split.
    + rewrite Ht2, Ht1. by rewrite app_assoc.
    + apply Forall_app. split.
      * eapply Forall_impl; [exact Hall1|]. intros t. apply tradeOn_mono.
        intros r ->%list_elem_of_singleton. apply elem_of_cons. by left.
      * eapply Forall_impl; [exact Hall2|]. intros t. apply tradeOn_mono.
        intros r Hr. apply elem_of_cons. by right.
Qed.

Lemma walkLevels_inserts crosses order book s book' s' :
  walkLevels crosses order book s = (book', s') →
  ∃ new, Storage.trades (Loop.storage s')
         = Storage.trades (Loop.storage s) ++ new
         ∧ tradesAlong order crosses book new.
Proof.
  revert book s book' s'.
  apply (walkLevels_elim crosses order
           (λ book s _ s',
              ∃ new, Storage.trades (Loop.storage s')
                     = Storage.trades (Loop.storage s) ++ new
                     ∧ tradesAlong order crosses book new)).
  - intros s. exists []. rewrite app_nil_r. split; [done|constructor].
  - intros l rest s _. exists []. rewrite app_nil_r. split; [done|constructor].
  - intros l rest s _ _. exists []. rewrite app_nil_r. split; [done|constructor].
  - intros l rest s os s1 rest' s2 _ Hc H1 _ (new2 & Ht2 & Hall2).
    apply matchLevel_inserts in H1 as (new1 & Ht1 & Hall1).
    exists (new1 ++ new2). split.
    + rewrite Ht2, Ht1. by rewrite app_assoc.
    + by constructor.
Qed.

Lemma tradesAlong_each order crosses book new :
  tradesAlong order crosses book new →
  Forall (λ t, crosses (Trade.price t) = true
               ∧ ∃ l, l ∈ book
                      ∧ tradeOn order (Entry.price l) (Entry.orders l) t) new.
Proof.
  induction 1 as [|l rest here later Hc Hhere _ IH]; [constructor|].
  apply Forall_app. split.
  - eapply Forall_impl; [exact Hhere|]. intros t Ht. split.
    + destruct Ht as (-> & _). done.
    + exists l. split; [apply elem_of_cons; by left|done].
  - eapply Forall_impl; [exact IH|]. intros t (Hct & l' & Hl' & Ht).
    split; [done|]. exists l'. split; [apply elem_of_cons; by right|done].
Qed.

(** The trades pushed are stored in the order they were made; when a loop
    has thrown, the table may hold one trade more. *)
Lemma matchOne_stored base order p o s o' s' :
  Loop.thrown s = false →
  matchOne order p o s = (o', s') → tradesStored base s → tradesStored base s'.
Proof.
  intros Hrun H (unsettled & Hs & Hlen & Hnone). matchOne_goes H Hm E.
  - simplify_eq. by exists unsettled.
  - rewrite (Hnone Hrun), app_nil_r in Hs.
    set (m := Z.min _ _) in *. clearbody m.
    fill_goes H Hex; unfold tradesStored;
      cbn [Loop.storage Loop.trades Loop.thrown].
    + exists []. rewrite (proj1 (settled_storage _ _ _ _ _)).
      rewrite (executeTrade_made _ _ _ _ _ Hex), Hs, app_nil_r.
      split; [by rewrite app_assoc|]. split; [simpl; lia|done].
    + destruct (executeTrade_threw _ _ _ _ _ Hex) as [Ht|Ht].
      * exists [tradeData order o m p]. rewrite Ht, Hs.
        split; [by rewrite app_assoc|]. split; [simpl; lia|done].
      * exists []. rewrite Ht, Hs, app_nil_r. split; [done|].
        split; [simpl; lia|done].
Qed.

Lemma matchLevel_stored base order p orders s orders' s' :
  matchLevel order p orders s = (orders', s') →
  tradesStored base s → tradesStored base s'.
Proof.
  revert orders s orders' s'.
  apply (matchLevel_elim order p
           (λ _ s _ s', tradesStored base s → tradesStored base s')); [done..|].
  intros o rest s o' s1 rest' s2 [Hrun _] H1 _ IH Hs.
  apply IH. by eapply matchOne_stored.
Qed.

Lemma walkLevels_stored base crosses order book s book' s' :
  walkLevels crosses order book s = (book', s') →
  tradesStored base s → tradesStored base s'.
Proof.
  revert book s book' s'.
  apply (walkLevels_elim crosses order
           (λ _ s _ s', tradesStored base s → tradesStored base s')); [done..|].
  intros l rest s os s1 rest' s2 _ _ H1 _ IH Hs.
  apply IH. by eapply matchLevel_stored.
Qed.

Lemma matched_stored order e st view' s :
  matched order e st = (view', s) → tradesStored (Storage.trades st) s.
Proof.
  unfold matched. intros H.
  apply (walkLevels_stored (Storage.trades st)) in H; [done|].
  exists []. simpl. rewrite app_nil_r. split; [done|]. split; [lia|done].
Qed.

(** The trades the matching pass adds to the table: made along the levels
    of the view, and the trades pushed when the pass has not thrown. *)
Lemma matched_inserts order e st view' s :
  matched order e st = (view', s) →
  ∃ new,
    Storage.trades (Loop.storage s) = Storage.trades st ++ new
    ∧ tradesAlong order (crossesFor order) (oppositeView order e) new
    ∧ (∃ unsettled, new = Loop.trades s ++ unsettled
                    ∧ (length unsettled ≤ 1)%nat
                    ∧ (Loop.thrown s = false → unsettled = [])).
Proof.
  intros Hm. pose proof (matched_stored _ _ _ _ _ Hm) as (u & Hs & Hlen & Hu).
  unfold matched in Hm. apply walkLevels_inserts in Hm as (new & Ht & Hall).
  cbn [Loop.storage] in Ht. exists new. split; [done|]. split; [done|].
  exists u. split; [|done]. rewrite Hs in Ht. by apply app_inv_head in Ht.
Qed.

(** The storage [processOrder] ends with, after the matching pass, holds
    the trades the pass leaves. *)
Lemma processOrder_trades_kept order e st e' st' out view' s :
  fokRejected order e = false →
  matched order e st = (view', s) →
  processOrder order e st = (e', st', out) →
  Storage.trades st' = Storage.trades (Loop.storage s)
  ∧ (∀ r, out = Returned r →
          MatchResult.trades r = Loop.trades s ∧ Loop.thrown s = false).
Proof.
  intros Hrej Hm Hrun.
  processOrder_ends Hrun Hrej Hm; (split; [done|]); by intros r [= <-].
Qed.

(** C1, amended: the trades a call of [processOrder] produces are the ones
    it stores, and the ones it returns when it returns.  Each carries the
    incoming order's side and was made with an order resting in the opposite
    book; the order on the YES side is recorded as the buyer and the order on
    the NO side as the seller.  So an incoming YES order buys from the
    resting NO order, and an incoming NO order is the seller to the resting
    YES order. *)
Theorem C1_yes_side_buys (order : Order.t) (e e' : Engine.t)
    (st st' : Storage.t) (out : Outcome) :
  processOrder order e st = (e', st', out) →
  ∃ produced,
    Storage.trades st' = Storage.trades st ++ produced
    ∧ (∀ r, out = Returned r → MatchResult.trades r = produced)
    ∧ ∀ t, t ∈ produced →
        Trade.side t = Order.side order
        ∧ ∃ resting,
            restsIn resting
              (bookOf (oppositeSide (Order.side order)) (Order.marketId order) e)
            ∧ match Order.side order with
              | YES => aggressorBuys order resting t
              | NO => aggressorBuys resting order t
              end.
Proof.
  intros Hrun.
  destruct (fokRejected order e) eqn:Hrej.
  - rewrite processOrder_rejected in Hrun by done. simplify_eq/=.
    exists []. rewrite app_nil_r. split; [done|].
    split; [by intros r [= <-]|]. by intros t ?%elem_of_nil.
  - destruct (matched order e st) as [view' s] eqn:Hm.
    destruct (matched_inserts _ _ _ _ _ Hm)
      as (new & Hnew & Halong & u & Hu & _ & Hnone).
    destruct (processOrder_trades_kept _ _ _ _ _ _ _ _ Hrej Hm Hrun)
      as [Hkept Hret].
    exists new. split; [by rewrite Hkept|]. split.
    + intros r Hr. destruct (Hret r Hr) as [-> Hth].
      by rewrite Hu, (Hnone Hth), app_nil_r.
    + intros t Ht. apply tradesAlong_each in Halong.
      rewrite Forall_forall in Halong.
      destruct (Halong t Ht) as (_ & l & Hl & _ & _ & Hside & r & Hr & Hbuy & _).
      split; [done|]. exists r. split; [|done].
      apply restsIn_sortLevel. by exists l.
Qed.

(** C1 (amended) at the NO limit that meets the resting YES limit. *)
Lemma C1_yes_side_buys_witness :
  ∃ produced,
    Storage.trades
      (snd (fst (processOrder incomingNo040_order
                   (System.engine afterRestingYes060) incomingNo040_storage)))
    = Storage.trades incomingNo040_storage ++ produced
    ∧ (∀ r,
         snd (processOrder incomingNo040_order
                (System.engine afterRestingYes060) incomingNo040_storage)
         = Returned r →
         MatchResult.trades r = produced)
    ∧ ∀ t, t ∈ produced →
        Trade.side t = Order.side incomingNo040_order
        ∧ ∃ resting,
            restsIn resting
              (bookOf (oppositeSide (Order.side incomingNo040_order))
                 (Order.marketId incomingNo040_order)
                 (System.engine afterRestingYes060))
            ∧ match Order.side incomingNo040_order with
              | YES => aggressorBuys incomingNo040_order resting t
              | NO => aggressorBuys resting incomingNo040_order t
              end.
Proof.
  apply (C1_yes_side_buys incomingNo040_order
           (System.engine afterRestingYes060)
           (fst (fst (processOrder incomingNo040_order
                        (System.engine afterRestingYes060)
                        incomingNo040_storage)))).
  by destruct (processOrder _ _ _) as [[e' st'] out].
Defined.

(** There the one trade produced has the resting order "Y1" as buyer. *)
Example no_limit_meets_yes_limit :
  Storage.trades
    (snd (fst (processOrder incomingNo040_order
                 (System.engine afterRestingYes060) incomingNo040_storage)))
  = [tradeNo040Yes060].
Proof. vm_compute. reflexivity. Qed.

(** ** What matching may change *)

Lemma with_filled_same o : Order.with_filled (Order.filled o) o = o.
Proof. by destruct o. Qed.

Lemma with_status_same o : Order.with_status (Order.status o) o = o.
Proof. by destruct o. Qed.

Lemma grown_refl o : grown o o.
Proof. exists (Order.filled o). split; [lia|]. by rewrite with_filled_same. Qed.

Lemma Forall2_grown_refl os : Forall2 grown os os.
Proof. induction os; constructor; [apply grown_refl|done]. Qed.

Lemma levelGrown_refl l : levelGrown l l.
Proof. repeat split. apply Forall2_grown_refl. Qed.

Lemma bookGrown_refl book : bookGrown book book.
Proof. induction book; constructor; [apply levelGrown_refl|done]. Qed.

Lemma matchOne_grown order p o s o' s' :
  matchOne order p o s = (o', s') → grown o o'.
Proof.
  intros H. matchOne_goes H Hm E.
  - simplify_eq. apply grown_refl.
  - set (m := Z.min _ _) in *. clearbody m. fill_goes H Hex.
    + exists (Order.filled o + m). split; [lia|done].
    + apply grown_refl.
Qed.

Lemma matchLevel_grown order p orders s orders' s' :
  matchLevel order p orders s = (orders', s') → Forall2 grown orders orders'.
Proof.
  revert orders s orders' s'.
  apply (matchLevel_elim order p (λ orders _ orders' _, Forall2 grown orders orders')).
  - constructor.
  - intros. apply Forall2_grown_refl.
  - intros o rest s o' s1 rest' s2 _ H1 _ IH. constructor; [|done].
    by eapply matchOne_grown.
Qed.

Lemma walkLevels_grown crosses order book s book' s' :
  walkLevels crosses order book s = (book', s') → bookGrown book book'.
Proof.
  revert book s book' s'.
  apply (walkLevels_elim crosses order (λ book _ book' _, bookGrown book book')).
  - constructor.
  - intros. apply bookGrown_refl.
  - intros. apply bookGrown_refl.
  - intros l rest s os s1 rest' s2 _ _ H1 _ IH. constructor; [|done].
    repeat split. simpl. by eapply matchLevel_grown.
Qed.

Lemma grown_ids os os' : Forall2 grown os os' → map Order.id os' = map Order.id os.
Proof.
  induction 1 as [|o o' os os' (f & _ & ->) _ IH]; simpl; [done|].
  by rewrite IH.
Qed.

Lemma bookGrown_ids book book' : bookGrown book book' → bookIds book' = bookIds book.
Proof.
  unfold bookIds, bookOrders.
  induction 1 as [|l l' book book' (_ & _ & Ho) _ IH]; simpl; [done|].
  rewrite !map_app. rewrite IH. by rewrite (grown_ids _ _ Ho).
Qed.

Lemma bookGrown_prices book book' : bookGrown book book' → prices book' = prices book.
Proof.
  unfold prices.
  induction 1 as [|l l' book book' (Hp & _ & _) _ IH]; simpl; [done|].
  by rewrite IH, Hp.
Qed.

Lemma sortLevel_ids book : bookIds (map sortLevel book) ≡ₚ bookIds book.
Proof.
  unfold bookIds, bookOrders.
  induction book as [|l book IH]; simpl; [done|].
  rewrite !map_app. rewrite IH.
  by rewrite (js_sort_perm cmpCreatedAt (Entry.orders l)).
Qed.

Lemma sortLevel_orders book : bookOrders (map sortLevel book) ≡ₚ bookOrders book.
Proof.
  unfold bookOrders.
  induction book as [|l book IH]; simpl; [done|].
  by rewrite IH, (js_sort_perm cmpCreatedAt (Entry.orders l)).
Qed.

Lemma sortLevel_prices book : prices (map sortLevel book) = prices book.
Proof. unfold prices. induction book as [|l book IH]; simpl; [done|]. by rewrite IH. Qed.

Lemma sortLevel_timeOrdered book : timeOrdered book → map sortLevel book = book.
Proof.
  induction 1 as [|l book Hl _ IH]; simpl; [done|].
  rewrite IH. unfold sortLevel.
  rewrite (js_sort_of_sorted cmpCreatedAt Order.createdAt); [by destruct l|done|done].
Qed.

(** *** The books after the steps of [processOrder] *)

Lemma bookOf_sortedQueues s' m' m s e :
  bookOf s' m' (sortedQueues m s e)
  = if decide (s' = s ∧ m' = m) then map sortLevel (bookOf s m e)
    else bookOf s' m' e.
Proof.
  unfold sortedQueues, getOrderBookWithPrioritySort.
  destruct (sideBooks s e !! m) as [book|] eqn:Hb; simpl.
  - rewrite bookOf_setSideBooks_insert. case_decide; [|done].
    unfold bookOf. by rewrite Hb.
  - case_decide as H; [|done]. destruct H as [-> ->].
    unfold bookOf. by rewrite Hb.
Qed.

Lemma sideBooks_sortedQueues_None m s e :
  sideBooks s e !! m = None → sortedQueues m s e = e.
Proof.
  intros H. unfold sortedQueues, getOrderBookWithPrioritySort. by rewrite H.
Qed.

Lemma sideBooks_sortedQueues_Some m s e book :
  sideBooks s e !! m = Some book →
  sideBooks s (sortedQueues m s e) !! m = Some (map sortLevel book).
Proof.
  intros H. unfold sortedQueues, getOrderBookWithPrioritySort. rewrite H. simpl.
  rewrite sideBooks_setSideBooks, decide_True by done. apply lookup_insert_eq.
Qed.

Lemma walkLevels_nil crosses order s : walkLevels crosses order [] s = ([], s).
Proof. done. Qed.

Lemma walkLevels_zero crosses order book s :
  Loop.remainingSize s = 0 → walkLevels crosses order book s = (book, s).
Proof. intros H. apply walkLevels_stopped. by right. Qed.

Lemma bookOf_after_match order e st view' s0 s' m' :
  matched order e st = (view', s0) →
  bookOf s' m'
    (writeBack (Order.marketId order) (oppositeSide (Order.side order)) view'
       (sortedQueues (Order.marketId order) (oppositeSide (Order.side order)) e))
  = if decide (s' = oppositeSide (Order.side order) ∧ m' = Order.marketId order)
    then view' else bookOf s' m' e.
Proof.
  unfold matched, oppositeView, writeBack. intros Hm.
  set (opp := oppositeSide (Order.side order)) in *.
  set (m := Order.marketId order) in *.
  destruct (sideBooks opp e !! m) as [book|] eqn:Hb.
  - rewrite (sideBooks_sortedQueues_Some _ _ _ _ Hb).
    rewrite bookOf_setSideBooks_insert. case_decide; [done|].
    rewrite bookOf_sortedQueues. by rewrite decide_False.
  - rewrite (sideBooks_sortedQueues_None _ _ _ Hb), Hb.
    unfold bookOf in Hm. rewrite Hb in Hm. simpl in Hm. simplify_eq.
    case_decide as H; [|done]. destruct H as [-> ->].
    unfold bookOf. by rewrite Hb.
Qed.

(** *** The rows of [orders] *)

Lemma rowKept_refl o : rowKept o o.
Proof.
  exists (Order.filled o), (Order.status o).
  by rewrite with_filled_same, with_status_same.
Qed.

Lemma rowKept_trans o1 o2 o3 : rowKept o1 o2 → rowKept o2 o3 → rowKept o1 o3.
Proof. intros (f & c & ->) (f' & c' & ->). by exists f', c'. Qed.

Lemma rowsKept_refl st : rowsKept st st.
Proof.
  intros k. destruct (Storage.orders st !! k); constructor. apply rowKept_refl.
Qed.

Lemma rowsKept_trans st1 st2 st3 :
  rowsKept st1 st2 → rowsKept st2 st3 → rowsKept st1 st3.
Proof.
  intros H12 H23 k. specialize (H12 k). specialize (H23 k).
  destruct H12 as [o1 o2 H12|]; inversion H23; simplify_eq; constructor.
  by eapply rowKept_trans.
Qed.

Lemma rowsKept_alter (g : Order.t → Order.t) k st st' :
  (∀ o, rowKept o (g o)) →
  Storage.orders st' = alter g k (Storage.orders st) → rowsKept st st'.
Proof.
  intros Hg E k'. rewrite E.
  destruct (decide (k = k')) as [->|Hne].
  - rewrite lookup_alter_eq. destruct (Storage.orders st !! k'); constructor.
    apply Hg.
  - rewrite lookup_alter_ne by done.
    destruct (Storage.orders st !! k'); constructor. apply rowKept_refl.
Qed.

Lemma rowsKept_same st st' :
  Storage.orders st' = Storage.orders st → rowsKept st st'.
Proof. intros E k. rewrite E. apply rowsKept_refl. Qed.

Lemma rowsKept_updateOrderFilled k f st : rowsKept st (updateOrderFilled k f st).
Proof.
  apply (rowsKept_alter (Order.with_filled f) k); [|done].
  intros o. exists f, (Order.status o). by destruct o.
Qed.

Lemma rowsKept_updateOrderStatus k c st :
  rowsKept st (snd (updateOrderStatus k c st)).
Proof.
  apply (rowsKept_alter (Order.with_status c) k); [|done].
  intros o. exists (Order.filled o), c. by destruct o.
Qed.

Lemma rowsKept_executeTrade order o m p st :
  rowsKept st (snd (executeTrade order o m p st)).
Proof. apply rowsKept_same, executeTrade_storage. Qed.

Lemma rowsKept_settled order o m c st : rowsKept st (settled order o m c st).
Proof.
  unfold settled.
  eapply rowsKept_trans; [apply (rowsKept_updateOrderFilled (Order.id order) c)|].
  eapply rowsKept_trans;
    [apply (rowsKept_updateOrderFilled (Order.id o) (Order.filled o + m))|].
  destruct (_ =? _); [apply rowsKept_updateOrderStatus|apply rowsKept_refl].
Qed.

Lemma rowsKept_fill order o m p s :
  rowsKept (Loop.storage s) (Loop.storage (snd (fill order o m p s))).
Proof.
  destruct (fill_cases order o m p s) as [[_ E]|[_ E]]; rewrite E;
    cbn [snd Loop.storage].
  - eapply rowsKept_trans; [apply rowsKept_executeTrade|apply rowsKept_settled].
  - apply rowsKept_executeTrade.
Qed.

Lemma matchOne_rowsKept order p o s o' s' :
  matchOne order p o s = (o', s') → rowsKept (Loop.storage s) (Loop.storage s').
Proof.
  intros H. matchOne_goes H Hm E.
  - simplify_eq. apply rowsKept_refl.
  - replace s' with (snd (fill order o (Z.min (Loop.remainingSize s)
                                         (Order.remaining o)) p s))
      by (by rewrite H).
    apply rowsKept_fill.
Qed.

Lemma matchLevel_rowsKept order p orders s orders' s' :
  matchLevel order p orders s = (orders', s') →
  rowsKept (Loop.storage s) (Loop.storage s').
Proof.
  revert orders s orders' s'.
  apply (matchLevel_elim order p
           (λ _ s _ s', rowsKept (Loop.storage s) (Loop.storage s'))).
  - intros. apply rowsKept_refl.
  - intros. apply rowsKept_refl.
  - intros o rest s o' s1 rest' s2 _ H1 _ IH.
    eapply rowsKept_trans; [by eapply matchOne_rowsKept|done].
Qed.

Lemma walkLevels_rowsKept crosses order book s book' s' :
  walkLevels crosses order book s = (book', s') →
  rowsKept (Loop.storage s) (Loop.storage s').
Proof.
  revert book s book' s'.
  apply (walkLevels_elim crosses order
           (λ _ s _ s', rowsKept (Loop.storage s) (Loop.storage s'))).
  - intros. apply rowsKept_refl.
  - intros. apply rowsKept_refl.
  - intros. apply rowsKept_refl.
  - intros l rest s os s1 rest' s2 _ _ H1 _ IH.
    eapply rowsKept_trans; [by eapply matchLevel_rowsKept|done].
Qed.

Lemma updateOrderStatus_fst k c st :
  fst (updateOrderStatus k c st) = Order.with_status c <$> Storage.orders st !! k.
Proof. apply lookup_alter_eq. Qed.

Lemma rowsKept_is_Some st st' k :
  rowsKept st st' →
  is_Some (Storage.orders st !! k) → is_Some (Storage.orders st' !! k).
Proof. intros H [o Ho]. specialize (H k). rewrite Ho in H. inversion H. eauto. Qed.

(** A persisted order is answered with its row, in the settled status. *)
Lemma matched_answer order e st view' s :
  is_Some (Storage.orders st !! Order.id order) →
  matched order e st = (view', s) →
  ∃ updated,
    fst (updateOrderStatus (Order.id order)
           (settledStatus order (Loop.remainingSize s)) (Loop.storage s))
    = Some updated
    ∧ Order.status updated = settledStatus order (Loop.remainingSize s).
Proof.
  intros Hrow Hm. apply walkLevels_rowsKept in Hm. simpl in Hm.
  destruct (rowsKept_is_Some _ _ _ Hm Hrow) as [row Hrow'].
  rewrite updateOrderStatus_fst, Hrow'. simpl. eauto.
Qed.

(** *** What every storage call keeps, [processOrder] keeps *)

Section storage_invariant.
Variable I : Storage.t → Prop.
Hypothesis I_createTrade :
  ∀ t st t' st', createTrade t st = Some (t', st') → I st → I st'.
Hypothesis I_position :
  ∀ m u s shares avgPrice st,
    I st → I (updateOrCreatePosition m u s shares avgPrice st).
Hypothesis I_filled : ∀ k f st, I st → I (updateOrderFilled k f st).
Hypothesis I_status : ∀ k c st, I st → I (snd (updateOrderStatus k c st)).
Hypothesis I_prices :
  ∀ m y n st, I st → I (storage_updateMarketPrices m y n st).

Lemma updatePositions_keeps trade st :
  I st → I (snd (updatePositions trade st)).
Proof.
  intros H. unfold updatePositions.
  destruct (positionRejected _ _ _ _ _ st); [done|].
  cbn [snd]. by apply I_position, I_position.
Qed.

Lemma executeTrade_keeps buy sell size price st :
  I st → I (snd (executeTrade buy sell size price st)).
Proof.
  intros H. unfold executeTrade.
  destruct (createTrade _ st) as [[t st1]|] eqn:E; [|done].
  pose proof (updatePositions_keeps t st1 (I_createTrade _ _ _ _ E H)) as H1.
  by destruct (updatePositions t st1).
Qed.

Lemma settled_keeps order o m c st : I st → I (settled order o m c st).
Proof.
  intros H. unfold settled.
  destruct (_ =? _); [apply I_status|]; by apply I_filled, I_filled.
Qed.

Lemma fill_keeps order o m p s :
  I (Loop.storage s) → I (Loop.storage (snd (fill order o m p s))).
Proof.
  intros H.
  destruct (fill_cases order o m p s) as [[_ E]|[_ E]]; rewrite E;
    cbn [snd Loop.storage].
  - by apply settled_keeps, executeTrade_keeps.
  - by apply executeTrade_keeps.
Qed.

Lemma matchOne_keeps order p o s o' s' :
  matchOne order p o s = (o', s') → I (Loop.storage s) → I (Loop.storage s').
Proof.
  intros H Hs. matchOne_goes H Hm E.
  - by simplify_eq.
  - set (m := Z.min _ _) in *. clearbody m.
    assert (s' = snd (fill order o m p s)) as -> by (by rewrite H).
    by apply fill_keeps.
Qed.

Lemma matchLevel_keeps order p orders s orders' s' :
  matchLevel order p orders s = (orders', s') →
  I (Loop.storage s) → I (Loop.storage s').
Proof.
  revert orders s orders' s'.
  apply (matchLevel_elim order p
           (λ _ s _ s', I (Loop.storage s) → I (Loop.storage s'))); [done..|].
  intros o rest s o' s1 rest' s2 _ H1 _ IH Hs.
  apply IH. by eapply matchOne_keeps.
Qed.

Lemma walkLevels_keeps crosses order book s book' s' :
  walkLevels crosses order book s = (book', s') →
  I (Loop.storage s) → I (Loop.storage s').
Proof.
  revert book s book' s'.
  apply (walkLevels_elim crosses order
           (λ _ s _ s', I (Loop.storage s) → I (Loop.storage s'))); [done..|].
  intros l rest s os s1 rest' s2 _ _ H1 _ IH Hs.
  apply IH. by eapply matchLevel_keeps.
Qed.

Lemma processOrder_keeps order e st e' st' out :
  processOrder order e st = (e', st', out) → I st → I st'.
Proof.
  intros Hrun Hst.
  destruct (fokRejected order e) eqn:Hrej.
  - rewrite processOrder_rejected in Hrun by done. simplify_eq.
    by apply I_status.
  - destruct (matched order e st) as [view' s] eqn:Hm.
    assert (I (Loop.storage s)) as Hs.
    { unfold matched in Hm. by apply walkLevels_keeps in Hm. }
    processOrder_ends Hrun Hrej Hm.
    + done.
    + by apply I_prices, I_status.
    + by apply I_status.
    + by apply I_prices, I_status.
Qed.
End storage_invariant.

(** ** C10: orders of size zero *)

Lemma setSideBooks_same s e : setSideBooks s (sideBooks s e) e = e.
Proof. by destruct s, e. Qed.

Lemma sortedQueues_timeOrdered m s e :
  timeOrdered (bookOf s m e) → sortedQueues m s e = e.
Proof.
  intros Ht. unfold sortedQueues, getOrderBookWithPrioritySort.
  destruct (sideBooks s e !! m) as [book|] eqn:Hb; simpl; [|done].
  unfold bookOf in Ht. rewrite Hb in Ht. simpl in Ht.
  rewrite (sortLevel_timeOrdered _ Ht), insert_id by done.
  apply setSideBooks_same.
Qed.

(** C10, as stated, fails for an order that was never inserted, as the
    simulation script hands orders to [processOrder]: for a LIMIT order of
    size 0 the UPDATE of the status finds no row and returns none, so no
    order comes back from the call, in status FILLED or other. *)
Lemma C10_zero_size_without_row :
  Order.size simZero050 = 0
  ∧ Order.type simZero050 = LIMIT
  ∧ Storage.orders (System.storage afterRestingNo060) !! Order.id simZero050
    = None
  ∧ ∀ updated trades rejected rejectReason,
      snd (processOrder simZero050 (System.engine afterRestingNo060)
             (System.storage afterRestingNo060))
      ≠ Returned (MatchResult.mk (Some updated) trades rejected rejectReason).
Proof. repeat split. intros updated trades rejected rejectReason. by vm_compute. Qed.

(** C10, amended: a LIMIT, MARKET or IOC order of size 0 that has its row in
    the table of orders makes [processOrder] return the order with status
    FILLED and no trade; no trade is stored and every book keeps exactly its
    orders (the order is booked nowhere). *)
Theorem C10_zero_size_filled (order : Order.t) (e : Engine.t) (st : Storage.t) :
  Order.size order = 0 →
  Order.type order ≠ FOK →
  is_Some (Storage.orders st !! Order.id order) →
  ∃ e' st' updated,
    processOrder order e st
    = (e', st', Returned (MatchResult.mk (Some updated) [] None None))
    ∧ Order.status updated = FILLED
    ∧ Storage.trades st' = Storage.trades st
    ∧ ∀ s marketId,
        bookOrders (bookOf s marketId e') ≡ₚ bookOrders (bookOf s marketId e).
Proof.
  intros Hsize Hty Hrow.
  assert (fokRejected order e = false) as Hrej.
  { unfold fokRejected. by rewrite bool_decide_eq_false_2. }
  assert (matched order e st
          = (oppositeView order e,
             Loop.mk (Order.size order) (Order.filled order) [] st false)) as Hm.
  { unfold matched. by apply walkLevels_zero. }
  destruct (matched_answer _ _ _ _ _ Hrow Hm) as (updated & Hup & Hst).
  cbn [Loop.remainingSize Loop.storage] in Hup, Hst.
  assert (settledStatus order (Order.size order) = FILLED) as Hfilled.
  { unfold settledStatus, determineOrderStatus. rewrite Hsize. simpl.
    by rewrite andb_false_r. }
  assert (booksRemainder order (Order.size order) = false) as Hbook.
  { unfold booksRemainder. by rewrite Hsize. }
  rewrite (processOrder_matched _ _ _ _ _ Hrej Hm). cbv zeta.
  cbn [Loop.remainingSize Loop.storage Loop.trades Loop.thrown].
  rewrite Hbook, Hup. eexists _, _, updated. split; [done|].
  split; [by rewrite Hst, Hfilled|]. split; [done|].
  intros s m. rewrite (bookOf_after_match _ _ _ _ _ _ _ Hm).
  case_decide as H; [|done]. destruct H as [-> ->].
  apply sortLevel_orders.
Qed.

(** C10 (amended) at an IOC order of size 0 sent against a resting YES
    limit. *)
Lemma C10_zero_size_filled_witness :
  ∃ e' st' updated,
    processOrder (Order.mk "Z1" "m" "zoe" NO IOC 4000 0 0 PENDING 2)
      (System.engine afterRestingYes060)
      (Storage.mk
         {[ "Z1"%string := Order.mk "Z1" "m" "zoe" NO IOC 4000 0 0 PENDING 2 ]}
         [] [] ∅ [])
    = (e', st', Returned (MatchResult.mk (Some updated) [] None None))
    ∧ Order.status updated = FILLED
    ∧ Storage.trades st' = []
    ∧ ∀ s marketId,
        bookOrders (bookOf s marketId e')
        ≡ₚ bookOrders (bookOf s marketId (System.engine afterRestingYes060)).
Proof.
  apply (C10_zero_size_filled
           (Order.mk "Z1" "m" "zoe" NO IOC 4000 0 0 PENDING 2)
           (System.engine afterRestingYes060)
           (Storage.mk
              {[ "Z1"%string := Order.mk "Z1" "m" "zoe" NO IOC 4000 0 0 PENDING 2 ]}
              [] [] ∅ [])).
  - reflexivity.
  - discriminate.
  - eexists. vm_compute. reflexivity.
Defined.

(** ** C6: immediate-or-cancel *)

(** C6, as stated, fails for an order that was never inserted, as the
    simulation script hands orders to [processOrder]: for such an IOC order
    the UPDATE of the status finds no row and returns none, so no order
    comes back from the call, and no status, CANCELLED or other. *)
Lemma C6_ioc_without_row_has_no_status :
  Order.type simIoc050 = IOC
  ∧ Storage.orders (System.storage afterRestingNo060) !! Order.id simIoc050
    = None
  ∧ ∀ updated trades rejected rejectReason,
      snd (processOrder simIoc050 (System.engine afterRestingNo060)
             (System.storage afterRestingNo060))
      ≠ Returned (MatchResult.mk (Some updated) trades rejected rejectReason).
Proof. repeat split. intros updated trades rejected rejectReason. by vm_compute. Qed.

(** C6, amended: for an IOC order that has its row in the table of orders,
    [processOrder] runs the limit-price loop ([processLimitTypeOrder], with
    the crossing test) and adds no order to any book (every book keeps its
    order ids).  When the loop meets a statement the database rejects,
    [processOrder] throws.  Otherwise it returns the trades of the loop and
    the order with status FILLED when the trades add up to the order's size,
    else PARTIAL when something traded, else CANCELLED. *)
Theorem C6_ioc_never_rests (order : Order.t) (e : Engine.t) (st : Storage.t) :
  Order.type order = IOC →
  is_Some (Storage.orders st !! Order.id order) →
  ∃ e' st' out,
    processOrder order e st = (e', st', out)
    ∧ (∀ s marketId,
         bookIds (bookOf s marketId e') ≡ₚ bookIds (bookOf s marketId e))
    ∧ if Loop.thrown
           (snd (processLimitTypeOrder order (oppositeView order e)
                   (Order.size order) [] st))
      then out = Threw
      else
        ∃ updated,
          out
          = Returned
              (MatchResult.mk (Some updated)
                 (Loop.trades
                    (snd (processLimitTypeOrder order (oppositeView order e)
                            (Order.size order) [] st)))
                 None None)
          ∧ Order.status updated
            = iocStatus order
                (Loop.trades
                   (snd (processLimitTypeOrder order (oppositeView order e)
                           (Order.size order) [] st))).
Proof.
  intros Hty Hrow.
  assert (fokRejected order e = false) as Hrej.
  { unfold fokRejected. by rewrite Hty. }
  destruct (matched order e st) as [view' s] eqn:Hm.
  assert (processLimitTypeOrder order (oppositeView order e) (Order.size order)
            [] st = (view', s)) as ->.
  { unfold processLimitTypeOrder. rewrite limitLevels_walk.
    unfold matched, crossesFor in Hm. by rewrite Hty in Hm. }
  cbn [snd].
  assert (∀ s0 m,
            bookIds
              (bookOf s0 m
                 (writeBack (Order.marketId order)
                    (oppositeSide (Order.side order)) view'
                    (sortedQueues (Order.marketId order)
                       (oppositeSide (Order.side order)) e)))
            ≡ₚ bookIds (bookOf s0 m e)) as Hids.
  { intros s0 m. rewrite (bookOf_after_match _ _ _ _ _ _ _ Hm).
    case_decide as H; [|done]. destruct H as [-> ->].
    pose proof Hm as Hg. unfold matched in Hg.
    apply walkLevels_grown, bookGrown_ids in Hg.
    rewrite Hg. apply sortLevel_ids. }
  rewrite (processOrder_matched _ _ _ _ _ Hrej Hm). cbv zeta.
  destruct (Loop.thrown s) eqn:Hthrown.
  { eexists _, _, _. split; [done|]. split; [exact Hids|done]. }
  destruct (matched_answer _ _ _ _ _ Hrow Hm) as (updated & Hup & Hst).
  assert (booksRemainder order (Loop.remainingSize s) = false) as Hbook.
  { unfold booksRemainder. rewrite Hty. simpl. by rewrite andb_false_r. }
  rewrite Hbook, Hup. eexists _, _, _. split; [done|].
  split; [exact Hids|]. exists updated. split; [done|].
  rewrite Hst. apply matched_accounts in Hm as (Hr & _ & _).
  unfold settledStatus, iocStatus, determineOrderStatus.
  rewrite Hty, Hr. simpl.
  replace (Order.size order - (Order.size order - tradedSize (Loop.trades s)))
    with (tradedSize (Loop.trades s)) by lia.
  destruct (Z.eqb_spec (Order.size order - tradedSize (Loop.trades s)) 0)
    as [Hz|Hz]; simpl.
  + rewrite (proj2 (Z.eqb_eq _ _)) by lia. done.
  + destruct (Z.eqb_spec (tradedSize (Loop.trades s)) (Order.size order));
      [lia|done].
Qed.

(** C6 (amended) at the IOC order of the test suite. *)
Lemma C6_ioc_never_rests_witness :
  ∃ e' st' out,
    processOrder iocYes060_order (System.engine afterRestingNo060)
      iocYes060_storage
    = (e', st', out)
    ∧ (∀ s marketId,
         bookIds (bookOf s marketId e')
         ≡ₚ bookIds (bookOf s marketId (System.engine afterRestingNo060)))
    ∧ if Loop.thrown
           (snd (processLimitTypeOrder iocYes060_order
                   (oppositeView iocYes060_order
                      (System.engine afterRestingNo060))
                   (Order.size iocYes060_order) [] iocYes060_storage))
      then out = Threw
      else
        ∃ updated,
          out
          = Returned
              (MatchResult.mk (Some updated)
                 (Loop.trades
                    (snd (processLimitTypeOrder iocYes060_order
                            (oppositeView iocYes060_order
                               (System.engine afterRestingNo060))
                            (Order.size iocYes060_order) [] iocYes060_storage)))
                 None None)
          ∧ Order.status updated
            = iocStatus iocYes060_order
                (Loop.trades
                   (snd (processLimitTypeOrder iocYes060_order
                           (oppositeView iocYes060_order
                              (System.engine afterRestingNo060))
                           (Order.size iocYes060_order) [] iocYes060_storage))).
Proof.
  apply (C6_ioc_never_rests iocYes060_order (System.engine afterRestingNo060)
           iocYes060_storage).
  - reflexivity.
  - eexists. vm_compute. reflexivity.
Defined.

(** The test's expectation: one trade of 50, status PARTIAL. *)
Example ioc_partial_fill :
  ∃ e' st' updated t,
    processOrder iocYes060_order (System.engine afterRestingNo060)
      iocYes060_storage
    = (e', st', Returned (MatchResult.mk (Some updated) [t] None None))
    ∧ Trade.size t = 50000000 ∧ Order.status updated = PARTIAL.
Proof. do 4 eexists. split; [vm_compute; reflexivity|]. done. Qed.

(** An IOC order whose trade closes a position at another price: the loop
    stores the trade, the UPDATE of the seller's position is rejected, and
    [processOrder] throws; no status is written to the order's row. *)
Example ioc_throws_when_position_is_rejected :
  ∃ e' st',
    processOrder (umaSellsAt060_order IOC) (System.engine afterUmaLongBenBids)
      (umaSellsAt060_storage IOC)
    = (e', st', Threw)
    ∧ Storage.trades st'
      = Storage.trades (umaSellsAt060_storage IOC) ++ [tradeUmaBen]
    ∧ Order.status <$> Storage.orders st' !! "U2"%string = Some PENDING.
Proof.
  do 2 eexists. split; [vm_compute; reflexivity|].
  split; vm_compute; reflexivity.
Qed.

(** ** C5: fill-or-kill turned down *)

(** C5, as stated, fails on the books: after a warm load the queue of the NO
    level at 0.50 reads "B", "A"; the YES fill-or-kill for 100 is rejected
    (60 rest), and the queue then reads "A", "B": the book is not the one
    before the call. *)
Lemma C5_rejected_fok_reorders_queue :
  ∃ e' st' r,
    handleOrder fokYes060 warmLoaded = Some (e', st', Returned r)
    ∧ MatchResult.rejected r = Some true
    ∧ MatchResult.trades r = []
    ∧ getOrderBook "m" e' ≠ getOrderBook "m" (System.engine warmLoaded).
Proof.
  do 3 eexists. split; [vm_compute; reflexivity|].
  split; [done|]. split; [done|].
  intros H. apply (f_equal (λ b, bookIds (snd b))) in H.
  vm_compute in H. discriminate.
Qed.

(** C5, amended: a FOK order, persisted as submitted orders are, whose
    pre-scan of the opposite book does not reach its size is cancelled at
    once: [processOrder] returns rejected = true with the reason "FOK order
    cannot be completely filled", no trade and the order in status CANCELLED;
    no trade is stored, and the books are those before the call except that
    the queues of the opposite book of the order's market are put in
    ascending creation-time order (the sort is stable).  When those queues
    were in that order already, the engine is unchanged. *)
Theorem C5_fok_rejected (order : Order.t) (e : Engine.t) (st : Storage.t) :
  Order.type order = FOK →
  canFillOrderCompletely order (oppositeView order e) = false →
  is_Some (Storage.orders st !! Order.id order) →
  ∃ e' st' updated,
    processOrder order e st
    = (e', st',
       Returned (MatchResult.mk (Some updated) [] (Some true)
                   (Some "FOK order cannot be completely filled"%string)))
    ∧ Order.status updated = CANCELLED
    ∧ Storage.trades st' = Storage.trades st
    ∧ (∀ s marketId,
         bookOf s marketId e'
         = if decide (s = oppositeSide (Order.side order)
                      ∧ marketId = Order.marketId order)
           then map sortLevel (bookOf s marketId e)
           else bookOf s marketId e)
    ∧ (timeOrdered
         (bookOf (oppositeSide (Order.side order)) (Order.marketId order) e) →
       e' = e).
Proof.
  intros Hty Hscan [row Hrow].
  assert (fokRejected order e = true) as Hrej.
  { unfold fokRejected. by rewrite Hty, Hscan. }
  rewrite (processOrder_rejected _ _ _ Hrej), updateOrderStatus_fst, Hrow.
  eexists _, _, _. split; [done|]. split; [done|]. split; [done|]. split.
  - intros s m. rewrite bookOf_sortedQueues.
    case_decide as H; [|done]. by destruct H as [-> ->].
  - apply sortedQueues_timeOrdered.
Qed.

(** C5 (amended) at the fill-or-kill order sent to the warm-loaded engine. *)
Lemma C5_fok_rejected_witness :
  ∃ e' st' updated,
    processOrder fokYes060_order (System.engine warmLoaded) fokYes060_storage
    = (e', st',
       Returned (MatchResult.mk (Some updated) [] (Some true)
                   (Some "FOK order cannot be completely filled"%string)))
    ∧ Order.status updated = CANCELLED
    ∧ Storage.trades st' = Storage.trades fokYes060_storage
    ∧ (∀ s marketId,
         bookOf s marketId e'
         = if decide (s = oppositeSide (Order.side fokYes060_order)
                      ∧ marketId = Order.marketId fokYes060_order)
           then map sortLevel (bookOf s marketId (System.engine warmLoaded))
           else bookOf s marketId (System.engine warmLoaded))
    ∧ (timeOrdered
         (bookOf (oppositeSide (Order.side fokYes060_order))
            (Order.marketId fokYes060_order) (System.engine warmLoaded)) →
       e' = System.engine warmLoaded).
Proof.
  apply (C5_fok_rejected fokYes060_order (System.engine warmLoaded)
           fokYes060_storage).
  - reflexivity.
  - vm_compute. reflexivity.
  - eexists. vm_compute. reflexivity.
Defined.

(** ** C7: the filled total written for the incoming order *)

Lemma runningTotals_app c l1 l2 :
  runningTotals c (l1 ++ l2)
  = runningTotals c l1 ++ runningTotals (c + foldr Z.add 0 l1) l2.
Proof.
  revert c. induction l1 as [|x l1 IH]; intros c; simpl.
  - by rewrite Z.add_0_r.
  - rewrite IH. do 3 f_equal. lia.
Qed.

Lemma filledWrites_app id j1 j2 :
  filledWrites id (j1 ++ j2) = filledWrites id j1 ++ filledWrites id j2.
Proof. apply omap_app. Qed.

Lemma journals_refl id s : journals id s s.
Proof.
  exists []. unfold tradedSize. simpl. rewrite !app_nil_r.
  split; [done|]. split; [lia|done].
Qed.

Lemma journals_trans id s1 s2 s3 :
  journals id s1 s2 → journals id s2 s3 → journals id s1 s3.
Proof.
  intros (new1 & Ht1 & Hc1 & Hj1) (new2 & Ht2 & Hc2 & Hj2).
  exists (new1 ++ new2). rewrite tradedSize_app, Ht2, Ht1, app_assoc.
  split; [done|]. split; [lia|].
  rewrite Hj2, Hj1, map_app, runningTotals_app, <- app_assoc.
  do 2 f_equal. rewrite Hc1. done.
Qed.

Lemma settled_journal order o m c st :
  Storage.journal (settled order o m c st)
  = Storage.journal st
    ++ [SetFilled (Order.id order) c; SetFilled (Order.id o) (Order.filled o + m)]
    ++ (if Order.size o =? Order.filled o + m
        then [SetStatus (Order.id o) FILLED] else []).
Proof.
  unfold settled. destruct (Order.size o =? Order.filled o + m); simpl.
  - by rewrite <- !app_assoc.
  - by rewrite <- !app_assoc.
Qed.

Lemma matchOne_journals order p o s o' s' :
  Order.id o ≠ Order.id order →
  matchOne order p o s = (o', s') → journals (Order.id order) s s'.
Proof.
  intros Hne H. matchOne_goes H Hm E.
  - simplify_eq. apply journals_refl.
  - set (m := Z.min _ _) in *. clearbody m.
    destruct (executeTrade_storage order o m p (Loop.storage s))
      as (_ & _ & Hj).
    fill_goes H Hex.
    + exists [tradeData order o m p].
      cbn [Loop.trades Loop.orderCumulativeFilled Loop.storage].
      rewrite settled_journal, Hj.
      unfold tradedSize. simpl. split; [done|]. split; [lia|].
      rewrite !filledWrites_app. simpl.
      rewrite decide_True by done. rewrite decide_False by done.
      destruct (_ =? _); simpl; by rewrite ?app_nil_r.
    + exists []. cbn [Loop.trades Loop.orderCumulativeFilled Loop.storage].
      rewrite Hj. unfold tradedSize. simpl. rewrite !app_nil_r.
      split; [done|]. split; [lia|done].
Qed.

Lemma matchLevel_journals order p orders s orders' s' :
  Order.id order ∉ map Order.id orders →
  matchLevel order p orders s = (orders', s') → journals (Order.id order) s s'.
Proof.
  intros Hid H. revert orders s orders' s' H Hid.
  apply (matchLevel_elim order p
           (λ orders s _ s',
              Order.id order ∉ map Order.id orders →
              journals (Order.id order) s s')).
  - intros. apply journals_refl.
  - intros. apply journals_refl.
  - intros o rest s o' s1 rest' s2 _ H1 _ IH Hid. simpl in Hid.
    apply not_elem_of_cons in Hid as [Hne Hid].
    eapply journals_trans; [|by apply IH].
    eapply matchOne_journals; [|done]. congruence.
Qed.

Lemma walkLevels_journals crosses order book s book' s' :
  Order.id order ∉ bookIds book →
  walkLevels crosses order book s = (book', s') → journals (Order.id order) s s'.
Proof.
  intros Hid H. revert book s book' s' H Hid.
  apply (walkLevels_elim crosses order
           (λ book s _ s',
              Order.id order ∉ bookIds book → journals (Order.id order) s s')).
  - intros. apply journals_refl.
  - intros. apply journals_refl.
  - intros. apply journals_refl.
  - intros l rest s os s1 rest' s2 _ _ H1 _ IH Hid.
    unfold bookIds, bookOrders in Hid. simpl in Hid. rewrite map_app in Hid.
    apply not_elem_of_app in Hid as [Hl Hrest].
    eapply journals_trans; [exact (matchLevel_journals _ _ _ _ _ _ Hl H1)|].
    apply IH. exact Hrest.
Qed.

(** *** The row of the incoming order *)

Lemma with_filled_twice f f' o :
  Order.with_filled f (Order.with_filled f' o) = Order.with_filled f o.
Proof. done. Qed.

Lemma settled_row order o m c st :
  Order.id o ≠ Order.id order →
  Storage.orders (settled order o m c st) !! Order.id order
  = Order.with_filled c <$> Storage.orders st !! Order.id order.
Proof.
  intros Hne. unfold settled.
  destruct (Order.size o =? Order.filled o + m); simpl;
    rewrite ?(lookup_alter_ne _ _ (Order.id o)) by done;
    by rewrite lookup_alter_eq.
Qed.

Lemma matchOne_row order base p o s o' s' :
  Order.id o ≠ Order.id order →
  matchOne order p o s = (o', s') →
  tracksRow order base s → tracksRow order base s'.
Proof.
  intros Hne H Hrow. matchOne_goes H Hm E.
  - by simplify_eq.
  - set (m := Z.min _ _) in *. clearbody m.
    destruct (executeTrade_storage order o m p (Loop.storage s)) as (Ho & _).
    unfold tracksRow in *.
    fill_goes H Hex; cbn [Loop.storage Loop.orderCumulativeFilled].
    + rewrite settled_row, Ho, Hrow by done. done.
    + by rewrite Ho.
Qed.

Lemma matchLevel_row order base p orders s orders' s' :
  Order.id order ∉ map Order.id orders →
  matchLevel order p orders s = (orders', s') →
  tracksRow order base s → tracksRow order base s'.
Proof.
  intros Hid H. revert orders s orders' s' H Hid.
  apply (matchLevel_elim order p
           (λ orders s _ s',
              Order.id order ∉ map Order.id orders →
              tracksRow order base s → tracksRow order base s')); [done..|].
  intros o rest s o' s1 rest' s2 _ H1 _ IH Hid Hrow. simpl in Hid.
  apply not_elem_of_cons in Hid as [Hne Hid].
  apply IH; [done|]. eapply matchOne_row; [|exact H1|done]. congruence.
Qed.

Lemma walkLevels_row crosses order base book s book' s' :
  Order.id order ∉ bookIds book →
  walkLevels crosses order book s = (book', s') →
  tracksRow order base s → tracksRow order base s'.
Proof.
  intros Hid H. revert book s book' s' H Hid.
  apply (walkLevels_elim crosses order
           (λ book s _ s',
              Order.id order ∉ bookIds book →
              tracksRow order base s → tracksRow order base s')); [done..|].
  intros l rest s os s1 rest' s2 _ _ H1 _ IH Hid Hrow.
  unfold bookIds, bookOrders in Hid. simpl in Hid. rewrite map_app in Hid.
  apply not_elem_of_app in Hid as [Hl Hrest].
  apply IH; [exact Hrest|]. exact (matchLevel_row _ _ _ _ _ _ _ Hl H1 Hrow).
Qed.

(** *** The rows follow the journal *)

Lemma replay_snoc updates u orders :
  replay (updates ++ [u]) orders = applyUpdate (replay updates orders) u.
Proof. unfold replay. by rewrite foldl_app. Qed.

Lemma journalled_refl st : journalled st st.
Proof. exists []. by rewrite app_nil_r. Qed.

Lemma journalled_same st0 st st' :
  Storage.journal st' = Storage.journal st →
  Storage.orders st' = Storage.orders st →
  journalled st0 st → journalled st0 st'.
Proof. intros Hj Ho (added & H1 & H2). exists added. by rewrite Hj, Ho. Qed.

Lemma journalled_update st0 st st' u :
  Storage.journal st' = Storage.journal st ++ [u] →
  Storage.orders st' = applyUpdate (Storage.orders st) u →
  journalled st0 st → journalled st0 st'.
Proof.
  intros Hj Ho (added & H1 & H2). exists (added ++ [u]).
  by rewrite Hj, Ho, H1, H2, replay_snoc, app_assoc.
Qed.

(** Over a call of [processOrder], the rows of [orders] change by the
    updates journalled, and by nothing else. *)
Lemma processOrder_journalled order e st e' st' out :
  processOrder order e st = (e', st', out) → journalled st st'.
Proof.
  intros Hrun.
  apply (processOrder_keeps (journalled st)) in Hrun;
    [done|..|apply journalled_refl].
  - intros t st1 t' st2 Hc. unfold createTrade in Hc.
    destruct (bool_decide _); [|done]. injection Hc as <- <-.
    by apply journalled_same.
  - intros m u sd shares avgPrice st1. by apply journalled_same.
  - intros k f st1. by apply (journalled_update _ _ _ (SetFilled k f)).
  - intros k c st1. by apply (journalled_update _ _ _ (SetStatus k c)).
  - intros m y n st1. by apply journalled_same.
Qed.

(** C7, as stated, fails when the database rejects a write of
    [executeTrade]: "uma", long 100 YES at 0.40, sells 100 to "ben" at 0.60.
    The trade is inserted, the UPDATE of her position is rejected (its new
    average price is -Infinity) and [processOrder] throws before any
    [filled] is written: the table holds the trade of her order "U2" for
    100, and the row of "U2" still reads 0. *)
Lemma C7_stored_trade_not_counted :
  ∃ e' st',
    handleOrder (umaSellsAt060 LIMIT) afterUmaLongBenBids = Some (e', st', Threw)
    ∧ Storage.trades st'
      = Storage.trades (System.storage afterUmaLongBenBids) ++ [tradeUmaBen]
    ∧ Trade.sellOrderId tradeUmaBen = Submission.uuid (umaSellsAt060 LIMIT)
    ∧ Trade.size tradeUmaBen = 100000000
    ∧ Order.filled
        <$> Storage.orders st' !! Submission.uuid (umaSellsAt060 LIMIT)
      = Some 0
    ∧ filledWrites (Submission.uuid (umaSellsAt060 LIMIT)) (Storage.journal st')
      = [].
Proof.
  do 2 eexists. split; [vm_compute; reflexivity|].
  split; [vm_compute; reflexivity|]. split; [done|]. split; [done|].
  split; vm_compute; reflexivity.
Qed.

(** C7, amended: take an order that has its row in the table of orders,
    with the [filled] it carries, and whose id no order resting in the
    opposite book carries.  The trades a call of [processOrder] stores are
    the trades it completed, in order, and after them at most one trade
    that [executeTrade] had inserted when it threw; when the call returns,
    there is no such trade and the completed trades are the ones returned.
    The values written as the order's [filled] are, one per completed
    trade, the [filled] at submission plus the sizes of the completed trades
    so far (not the size of the last one); the rows of the table change by
    the updates journalled and nothing else, and the order's row ends with
    the [filled] at submission plus the sizes of all completed trades.  A
    trade that was inserted and not completed adds nothing to it. *)
Theorem C7_cumulative_filled_written (order : Order.t) (e e' : Engine.t)
    (st st' : Storage.t) (out : Outcome) :
  Storage.orders st !! Order.id order = Some order →
  Order.id order
    ∉ bookIds (bookOf (oppositeSide (Order.side order)) (Order.marketId order) e) →
  processOrder order e st = (e', st', out) →
  ∃ completed unsettled,
    Storage.trades st' = Storage.trades st ++ completed ++ unsettled
    ∧ (length unsettled ≤ 1)%nat
    ∧ (∀ r, out = Returned r → MatchResult.trades r = completed ∧ unsettled = [])
    ∧ filledWrites (Order.id order) (Storage.journal st')
      = filledWrites (Order.id order) (Storage.journal st)
        ++ runningTotals (Order.filled order) (map Trade.size completed)
    ∧ journalled st st'
    ∧ Order.filled <$> Storage.orders st' !! Order.id order
      = Some (Order.filled order + tradedSize completed).
Proof.
  intros Hrow Hid Hrun.
  pose proof (processOrder_journalled _ _ _ _ _ _ Hrun) as Hjournalled.
  destruct (fokRejected order e) eqn:Hrej.
  - rewrite processOrder_rejected in Hrun by done. simplify_eq.
    exists [], []. cbn [snd fst updateOrderStatus Storage.trades
                       Storage.journal Storage.orders].
    rewrite filledWrites_app, lookup_alter_eq, Hrow. simpl. rewrite !app_nil_r.
    split; [done|]. split; [lia|]. split; [by intros r [= <-]|].
    split; [done|]. split; [done|]. unfold tradedSize. simpl.
    f_equal. lia.
  - destruct (matched order e st) as [view' s] eqn:Hm.
    destruct (matched_stored _ _ _ _ _ Hm) as (u & Hstored & Hlen & Hnone).
    destruct (processOrder_trades_kept _ _ _ _ _ _ _ _ Hrej Hm Hrun)
      as [Hkept Hret].
    destruct (matched_accounts _ _ _ _ _ Hm) as (_ & Hcum & _).
    assert (filledWrites (Order.id order) (Storage.journal st')
            = filledWrites (Order.id order) (Storage.journal (Loop.storage s))
            ∧ Order.filled <$> Storage.orders st' !! Order.id order
              = Order.filled
                  <$> Storage.orders (Loop.storage s) !! Order.id order)
      as (Hj & Hf).
    { processOrder_ends Hrun Hrej Hm; simpl;
        rewrite ?filledWrites_app, ?lookup_alter_eq; simpl;
        rewrite ?app_nil_r; (split; [done|]);
        by destruct (Storage.orders (Loop.storage s) !! Order.id order). }
    assert (Order.id order ∉ bookIds (oppositeView order e)) as Hfresh.
    { unfold oppositeView. by rewrite sortLevel_ids. }
    assert (tracksRow order order s) as Htrack.
    { unfold matched in Hm. eapply walkLevels_row; [exact Hfresh|exact Hm|].
      unfold tracksRow. simpl. by rewrite with_filled_same. }
    exists (Loop.trades s), u.
    split; [by rewrite Hkept|]. split; [done|]. split.
    { intros r Hr. destruct (Hret r Hr) as [-> Hth]. auto. }
    split; [|split; [done|]].
    + unfold matched in Hm.
      apply (walkLevels_journals _ _ _ _ _ _ Hfresh) in Hm
        as (new & Ht & _ & Hw).
      simpl in Ht, Hw. rewrite Hj, Hw, Ht. done.
    + rewrite Hf, Htrack. simpl. by rewrite Hcum.
Qed.

(** C7 (amended) at the YES limit for 100 that takes the NO limits for 60
    and for 40: two trades, and 60 and then 100 written. *)
Lemma C7_cumulative_filled_written_witness :
  ∃ completed unsettled,
    Storage.trades
      (snd (fst (processOrder yes060for100_order
                   (System.engine afterTwoNoLimitsAt060) yes060for100_storage)))
    = Storage.trades yes060for100_storage ++ completed ++ unsettled
    ∧ (length unsettled ≤ 1)%nat
    ∧ (∀ r,
         snd (processOrder yes060for100_order
                (System.engine afterTwoNoLimitsAt060) yes060for100_storage)
         = Returned r →
         MatchResult.trades r = completed ∧ unsettled = [])
    ∧ filledWrites (Order.id yes060for100_order)
        (Storage.journal
           (snd (fst (processOrder yes060for100_order
                        (System.engine afterTwoNoLimitsAt060)
                        yes060for100_storage))))
      = filledWrites (Order.id yes060for100_order)
          (Storage.journal yes060for100_storage)
        ++ runningTotals (Order.filled yes060for100_order)
             (map Trade.size completed)
    ∧ journalled yes060for100_storage
        (snd (fst (processOrder yes060for100_order
                     (System.engine afterTwoNoLimitsAt060)
                     yes060for100_storage)))
    ∧ Order.filled
        <$> Storage.orders
              (snd (fst (processOrder yes060for100_order
                           (System.engine afterTwoNoLimitsAt060)
                           yes060for100_storage)))
            !! Order.id yes060for100_order
      = Some (Order.filled yes060for100_order + tradedSize completed).
Proof.
  apply (C7_cumulative_filled_written yes060for100_order
           (System.engine afterTwoNoLimitsAt060)
           (fst (fst (processOrder yes060for100_order
                        (System.engine afterTwoNoLimitsAt060)
                        yes060for100_storage)))).
  - vm_compute. reflexivity.
  - change (bookIds _) with ["S1"; "S2"]%string.
    intros [H|H%list_elem_of_singleton]%elem_of_cons; discriminate H.
  - by destruct (processOrder _ _ _) as [[e' st'] out].
Defined.

(** There the trades are of 60 and of 40, and the row ends with 100. *)
Example two_trades_60_40 :
  map Trade.size
    (MatchResult.trades
       (returnedResult
          (snd (processOrder yes060for100_order
                  (System.engine afterTwoNoLimitsAt060) yes060for100_storage))))
  = [60000000; 40000000]
  ∧ Order.filled
      <$> Storage.orders
            (snd (fst (processOrder yes060for100_order
                         (System.engine afterTwoNoLimitsAt060)
                         yes060for100_storage)))
          !! "B1"%string
    = Some 100000000.
Proof. split; vm_compute; reflexivity. Qed.

(** Two resting NO orders of 60 and 40 at 0.6 and a YES limit for 100: the
    values written for the incoming order are 60, then 100. *)
Example running_totals_60_100 :
  filledWrites "B1"
    (Storage.journal
       (System.storage
          (postOrders
             [Submission.mk "S1" 1
                (InsertOrder.mk "m" "seller1" NO LIMIT 6000 60000000);
              Submission.mk "S2" 2
                (InsertOrder.mk "m" "seller2" NO LIMIT 6000 40000000);
              Submission.mk "B1" 3
                (InsertOrder.mk "m" "buyer" YES LIMIT 6000 100000000)]
             System.initial)))
  = [60000000; 100000000].
Proof. vm_compute. reflexivity. Qed.

(** ** C2: filled orders and the book *)

(** The loops never take an order out of the view: level for level and
    order for order, the book after has the ids of the book before. *)
Lemma walkLevels_keeps_ids crosses order book s book' s' :
  walkLevels crosses order book s = (book', s') → bookIds book' = bookIds book.
Proof. intros H. by eapply bookGrown_ids, walkLevels_grown. Qed.

Lemma pushToLevel_keeps r o p book :
  r ∈ bookOrders book → r ∈ bookOrders (pushToLevel o p book).
Proof.
  unfold bookOrders. induction book as [|l book IH]; simpl; [done|].
  destruct (Entry.price l =? p); simpl; rewrite !elem_of_app.
  - intros [Hr|Hr]; [left; left|right]; done.
  - intros [Hr|Hr]; [by left|right; by apply IH].
Qed.

Lemma addToBook_keeps r o book :
  r ∈ bookOrders book → r ∈ bookOrders (addToBook o book).
Proof.
  intros Hr. unfold addToBook. apply pushToLevel_keeps.
  destruct (hasLevel _ _); [done|].
  apply elem_of_bookOrders in Hr as (l & Hl & Hr).
  apply elem_of_bookOrders. exists l. split; [|done].
  rewrite (js_sort_perm (cmpLevels (Order.side o))).
  apply elem_of_app. by left.
Qed.

(** No call of [processOrder] takes an order out of a book: the ids of a
    book before the call are ids of that book after it. *)
Lemma processOrder_keeps_ids order e st e' st' out s marketId id :
  processOrder order e st = (e', st', out) →
  id ∈ bookIds (bookOf s marketId e) → id ∈ bookIds (bookOf s marketId e').
Proof.
  intros Hrun Hid.
  assert (∀ booked e0,
            id ∈ bookIds (bookOf s marketId e0) →
            id ∈ bookIds (bookOf s marketId (addToOrderBook booked e0)))
    as Hadd.
  { intros booked e0 Hin. rewrite bookOf_addToOrderBook.
    case_decide as H; [|done]. destruct H as [-> ->].
    unfold bookIds in *. apply list_elem_of_fmap in Hin as (r & -> & Hr).
    by apply list_elem_of_fmap_2, addToBook_keeps. }
  destruct (fokRejected order e) eqn:Hrej.
  - rewrite processOrder_rejected in Hrun by done. simplify_eq.
    rewrite bookOf_sortedQueues. case_decide as H; [|done].
    destruct H as [-> ->]. by rewrite sortLevel_ids.
  - destruct (matched order e st) as [view' s0] eqn:Hm.
    assert (id ∈ bookIds
              (bookOf s marketId
                 (writeBack (Order.marketId order)
                    (oppositeSide (Order.side order)) view'
                    (sortedQueues (Order.marketId order)
                       (oppositeSide (Order.side order)) e)))) as Hin.
    { rewrite (bookOf_after_match _ _ _ _ _ _ _ Hm).
      case_decide as H; [|done]. destruct H as [-> ->].
      unfold matched in Hm. apply walkLevels_keeps_ids in Hm.
      rewrite Hm. unfold oppositeView. by rewrite sortLevel_ids. }
    processOrder_ends Hrun Hrej Hm; [done|by apply Hadd|done..].
Qed.

(** C2, at the failing input (the code keeps what the claim says is
    removed): a NO limit for 100 at 0.6 rests and a YES limit for 100 at 0.6
    fills it.  The NO order is then FILLED in storage, and still heads the
    queue of its level, with filled = size; the level's size still reads
    100. *)
Theorem C2_filled_order_stays_in_book :
  ∃ level o,
    bookOf NO "m" (System.engine afterFullFillAt060) = [level]
    ∧ Entry.orders level = [o]
    ∧ Entry.size level = 100000000
    ∧ Order.id o = "S1"%string
    ∧ Order.filled o = Order.size o
    ∧ Order.status
        <$> Storage.orders (System.storage afterFullFillAt060) !! "S1"%string
      = Some FILLED.
Proof.
  do 2 eexists. split; [vm_compute; reflexivity|].
  split; [reflexivity|]. split; [reflexivity|]. split; [reflexivity|].
  split; [reflexivity|]. vm_compute. reflexivity.
Qed.

(** ** C8: warm load *)

(** C8, at the failing input: two NO limits at 0.50 rest, "A" (time 1)
    ahead of "B" (time 2).  A new engine that warm-loads the market has "B"
    ahead of "A": the queue is in descending creation order, and the
    snapshot is not the one before. *)
Theorem C8_warm_load_reverses_queue :
  bookIds (bookOf NO "m" (System.engine afterTwoNoLimits)) = ["A"; "B"]%string
  ∧ bookIds (bookOf NO "m" (System.engine warmLoaded)) = ["B"; "A"]%string
  ∧ getOrderBook "m" (System.engine warmLoaded)
    ≠ getOrderBook "m" (System.engine afterTwoNoLimits).
Proof.
  split; [vm_compute; reflexivity|]. split; [vm_compute; reflexivity|].
  intros H. apply (f_equal (λ b, bookIds (snd b))) in H.
  vm_compute in H. discriminate.
Qed.

(** A resting order in status PARTIAL is not loaded at all. *)
Example warm_load_drops_partial_order :
  bookIds (bookOf YES "m" (System.engine afterPartialFillAt040)) = ["B1"%string]
  ∧ Order.status
      <$> Storage.orders (System.storage afterPartialFillAt040) !! "B1"%string
    = Some PARTIAL
  ∧ getOrderBook "m"
      (loadOrderBook "m" Engine.empty (System.storage afterPartialFillAt040))
    = ([], []).
Proof. repeat split; vm_compute; reflexivity. Qed.

(** ** C9: the average price of a position *)

(** [updateOrCreatePosition] divides by the new share count whatever it is. *)
Lemma combinePosition_avgPrice existing shares avgPrice :
  Position.avgPrice (combinePosition existing shares avgPrice)
  = PrimFloat.div
      (PrimFloat.add
         (PrimFloat.mul (Position.shares existing) (Position.avgPrice existing))
         (PrimFloat.mul shares avgPrice))
      (Position.shares (combinePosition existing shares avgPrice)).
Proof. done. Qed.

(** C9, at the failing input: "uma" holds 100 YES at 0.40 and sells 100 at
    0.40.  The upsert adds -100 shares: the new share count is 0, the
    average is 0 / 0, and the stored average price is NaN: it is neither the
    average before (0.40) nor 0. *)
Theorem C9_flat_position_divides_by_zero :
  (∃ p, Storage.positions (System.storage afterRoundTripOfUma) !! 0%nat = Some p
        ∧ Position.userId p = "uma"%string ∧ Position.side p = YES
        ∧ Position.shares p = PrimFloat.zero
        ∧ Position.avgPrice p = PrimFloat.nan)
  ∧ combinePosition umaLong100 (parseFloat_negated_size 100000000)
      (parseFloat_price 4000)
    = Position.mk "m" "uma" YES PrimFloat.zero PrimFloat.nan
  ∧ PrimFloat.nan ≠ Position.avgPrice umaLong100
  ∧ PrimFloat.nan ≠ PrimFloat.zero.
Proof.
  split; [eexists; split; [vm_compute; reflexivity|repeat split]|].
  split; [vm_compute; reflexivity|].
  split; intros H; apply (f_equal PrimFloat.is_nan) in H;
    vm_compute in H; discriminate.
Qed.

(** ** C3: crossing of the resting books *)


(** *** Remainders only shrink *)

Lemma tradedSize_nonneg order rs new :
  Forall (tradeWith order rs) new → 0 ≤ tradedSize new.
Proof.
  unfold tradedSize. induction 1 as [|t new (_ & Ht & _) _ IH]; simpl; lia.
Qed.

Lemma accounts_remaining_le order rs s s' new :
  accounts order rs s s' new → Loop.remainingSize s' ≤ Loop.remainingSize s.
Proof.
  intros (_ & Hr & _ & Hf). apply tradedSize_nonneg in Hf. lia.
Qed.

Lemma matchLevel_remaining_le order p orders s orders' s' :
  matchLevel order p orders s = (orders', s') →
  Loop.remainingSize s' ≤ Loop.remainingSize s.
Proof.
  intros H. apply matchLevel_accounts in H as [new H].
  by eapply accounts_remaining_le.
Qed.

Lemma walkLevels_remaining_le crosses order book s book' s' :
  walkLevels crosses order book s = (book', s') →
  Loop.remainingSize s' ≤ Loop.remainingSize s.
Proof.
  intros H. apply walkLevels_accounts in H as [new H].
  by eapply accounts_remaining_le.
Qed.

(** *** What is left of a level the incoming order went through *)

Lemma matchOne_drained order p o s o' s' :
  matchOne order p o s = (o', s') →
  Loop.thrown s' = false →
  0 < Loop.remainingSize s' → Order.remaining o' ≤ 0.
Proof.
  intros H Hth Hpos. matchOne_goes H Hm E.
  - simplify_eq. lia.
  - set (m := Z.min _ _) in *.
    assert (m = Loop.remainingSize s ∨ m = Order.remaining o) as Hmin by lia.
    clearbody m. fill_goes H Hex; [|done].
    unfold Order.remaining in *. simpl in *. lia.
Qed.

(** Once an exception is under way, it stays so. *)
Lemma matchLevel_thrown order p orders s orders' s' :
  matchLevel order p orders s = (orders', s') →
  Loop.thrown s = true → Loop.thrown s' = true.
Proof.
  intros H Hth. rewrite matchLevel_stopped in H by (by left). by simplify_eq.
Qed.

Lemma walkLevels_thrown crosses order book s book' s' :
  walkLevels crosses order book s = (book', s') →
  Loop.thrown s = true → Loop.thrown s' = true.
Proof.
  intros H Hth. rewrite walkLevels_stopped in H by (by left). by simplify_eq.
Qed.

Lemma matchLevel_drained order p orders s orders' s' :
  matchLevel order p orders s = (orders', s') →
  Loop.thrown s' = false →
  0 < Loop.remainingSize s' →
  Forall (λ o', Order.remaining o' ≤ 0) orders'.
Proof.
  revert orders s orders' s'.
  apply (matchLevel_elim order p
           (λ _ s orders' s',
              Loop.thrown s' = false →
              0 < Loop.remainingSize s' →
              Forall (λ o', Order.remaining o' ≤ 0) orders')).
  - constructor.
  - intros o rest s [Hs|Hs] Hth Hpos; [congruence|lia].
  - intros o rest s o' s1 rest' s2 _ H1 H2 IH Hth Hpos.
    assert (Loop.thrown s1 = false) as Hth1.
    { destruct (Loop.thrown s1) eqn:E; [|done].
      rewrite (matchLevel_thrown _ _ _ _ _ _ H2 E) in Hth. done. }
    apply matchLevel_remaining_le in H2.
    constructor; [|by apply IH].
    eapply matchOne_drained; [exact H1|done|lia].
Qed.

Lemma not_hasLive_drained l :
  Forall (λ o, Order.remaining o ≤ 0) (Entry.orders l) → ¬ hasLive l.
Proof.
  intros Hf (o & Ho & Hpos). rewrite Forall_forall in Hf.
  specialize (Hf o Ho). lia.
Qed.

(** A level that passes the test is left without a positive remainder when
    the incoming order still has one, provided the test, once failed, fails
    on the levels behind. *)
Lemma walkLevels_drained crosses order (key : Z → Z) book s book' s' :
  (∀ a b, key a ≤ key b → crosses b = true → crosses a = true) →
  StronglySorted (leKey key) (prices book) →
  walkLevels crosses order book s = (book', s') →
  Loop.thrown s' = false →
  0 < Loop.remainingSize s' →
  ∀ l', l' ∈ book' → crosses (Entry.price l') = true → ¬ hasLive l'.
Proof.
  intros Hmono Hsorted H. revert book s book' s' H Hsorted.
  apply (walkLevels_elim crosses order
           (λ book _ book' s',
              StronglySorted (leKey key) (prices book) →
              Loop.thrown s' = false →
              0 < Loop.remainingSize s' →
              ∀ l', l' ∈ book' → crosses (Entry.price l') = true →
                    ¬ hasLive l')).
  - intros s _ _ _ l' Hl'. by apply elem_of_nil in Hl'.
  - intros l rest s [Hs|Hs] _ Hth Hpos; [congruence|lia].
  - intros l rest s _ Hc Hsorted _ _ l' Hl' Hc'.
    simpl in Hsorted. apply StronglySorted_inv in Hsorted as [_ Hall].
    apply elem_of_cons in Hl' as [->|Hl']; [congruence|].
    rewrite Forall_forall in Hall.
    assert (leKey key (Entry.price l) (Entry.price l')) as Hle.
    { apply Hall. apply list_elem_of_fmap. eauto. }
    rewrite (Hmono _ _ Hle Hc') in Hc. done.
  - intros l rest s os s1 rest' s2 _ _ H1 H2 IH Hsorted Hth Hpos l' Hl' Hc'.
    simpl in Hsorted. apply StronglySorted_inv in Hsorted as [Hsorted _].
    apply elem_of_cons in Hl' as [->|Hl']; [|by eapply IH].
    apply not_hasLive_drained. simpl.
    assert (Loop.thrown s1 = false) as Hth1.
    { destruct (Loop.thrown s1) eqn:E; [|done].
      rewrite (walkLevels_thrown _ _ _ _ _ _ H2 E) in Hth. done. }
    eapply matchLevel_drained; [exact H1|done|].
    apply walkLevels_remaining_le in H2. lia.
Qed.

Lemma canMatch_behind order a b :
  priceKey (oppositeSide (Order.side order)) a
    ≤ priceKey (oppositeSide (Order.side order)) b →
  canMatch order b = true → canMatch order a = true.
Proof.
  unfold canMatch. destruct (Order.side order); simpl;
    rewrite !Z.leb_le; lia.
Qed.

(** *** Positive remainders never appear in a book by matching *)

Lemma liveFrom_refl book : liveFrom book book.
Proof. intros l Hl Hlive. eauto. Qed.

Lemma liveFrom_trans b1 b2 b3 : liveFrom b1 b2 → liveFrom b2 b3 → liveFrom b1 b3.
Proof.
  intros H12 H23 l3 Hl3 Hlive3.
  destruct (H23 l3 Hl3 Hlive3) as (l2 & Hl2 & Hp2 & Hlive2).
  destruct (H12 l2 Hl2 Hlive2) as (l1 & Hl1 & Hp1 & Hlive1).
  exists l1. split; [done|]. split; [congruence|done].
Qed.

Lemma grown_hasLive os os' o' :
  Forall2 grown os os' → o' ∈ os' → 0 < Order.remaining o' →
  ∃ o, o ∈ os ∧ 0 < Order.remaining o.
Proof.
  induction 1 as [|o o1 os os' (f & Hf & ->) _ IH]; intros Ho' Hpos.
  - by apply elem_of_nil in Ho'.
  - apply elem_of_cons in Ho' as [->|Ho'].
    + exists o. split; [apply elem_of_cons; by left|].
      unfold Order.remaining in *. simpl in Hpos. lia.
    + destruct (IH Ho' Hpos) as (o0 & Ho0 & Hpos0).
      exists o0. split; [apply elem_of_cons; by right|done].
Qed.

Lemma bookGrown_liveFrom book book' : bookGrown book book' → liveFrom book book'.
Proof.
  induction 1 as [|l l1 book book' (Hp & _ & Ho) _ IH]; intros l' Hl' Hlive.
  - by apply elem_of_nil in Hl'.
  - apply elem_of_cons in Hl' as [->|Hl'].
    + destruct Hlive as (o' & Ho' & Hpos).
      destruct (grown_hasLive _ _ _ Ho Ho' Hpos) as (o & Hin & Hpos0).
      exists l. split; [apply elem_of_cons; by left|]. split; [done|].
      by exists o.
    + destruct (IH l' Hl' Hlive) as (l0 & Hl0 & Hp0 & Hlive0).
      exists l0. split; [apply elem_of_cons; by right|done].
Qed.

Lemma sortLevel_liveFrom book : liveFrom book (map sortLevel book).
Proof.
  intros l' Hl' (o & Ho & Hpos).
  apply list_elem_of_fmap in Hl' as (l & -> & Hl).
  exists l. split; [done|]. split; [done|]. exists o. split; [|done].
  simpl in Ho. by rewrite (js_sort_perm cmpCreatedAt) in Ho.
Qed.

Lemma nonCrossing_liveFrom yb nb yb' nb' :
  liveFrom yb yb' → liveFrom nb nb' → nonCrossing yb nb → nonCrossing yb' nb'.
Proof.
  intros Hy Hn Hnc ly' ln' Hly' Hln' Hlivey Hliven.
  destruct (Hy ly' Hly' Hlivey) as (ly & Hly & Hpy & Hly_live).
  destruct (Hn ln' Hln' Hliven) as (ln & Hln & Hpn & Hln_live).
  rewrite <- Hpy, <- Hpn. by apply Hnc.
Qed.

Lemma settles_refl e : settles e e.
Proof. intros s m. split; [done|]. split; [apply liveFrom_refl|done]. Qed.

(** The engine after the matching pass settles the engine before. *)
Lemma matched_settles order e st view' s0 :
  matched order e st = (view', s0) →
  settles e
    (writeBack (Order.marketId order) (oppositeSide (Order.side order)) view'
       (sortedQueues (Order.marketId order) (oppositeSide (Order.side order)) e)).
Proof.
  intros Hm s m. rewrite (bookOf_after_match _ _ _ _ _ _ _ Hm).
  case_decide as H; [|apply settles_refl]. destruct H as [-> ->].
  unfold matched, oppositeView in Hm. apply walkLevels_grown in Hm.
  split; [|split].
  - by rewrite (bookGrown_prices _ _ Hm), sortLevel_prices.
  - eapply liveFrom_trans; [apply sortLevel_liveFrom|].
    by apply bookGrown_liveFrom.
  - intros id. rewrite (bookGrown_ids _ _ Hm). by rewrite sortLevel_ids.
Qed.

Lemma sortedQueues_settles m s e : settles e (sortedQueues m s e).
Proof.
  intros s' m'. rewrite bookOf_sortedQueues.
  case_decide as H; [|apply settles_refl]. destruct H as [-> ->].
  split; [apply sortLevel_prices|]. split; [apply sortLevel_liveFrom|].
  intros id. by rewrite sortLevel_ids.
Qed.

Lemma settles_consistent e e' st st' :
  settles e e' → rowsKept st st' →
  consistent (System.mk e st) → consistent (System.mk e' st').
Proof.
  intros Hs Hst (Hsorted & Hnc & Hids). simpl in *. split; [|split]; simpl.
  - intros s m. unfold sortedBook. destruct (Hs s m) as (-> & _ & _).
    apply Hsorted.
  - intros m. eapply nonCrossing_liveFrom; [apply Hs|apply Hs|apply Hnc].
  - intros s m id Hid. eapply rowsKept_is_Some; [exact Hst|].
    eapply Hids. by apply Hs.
Qed.

(** *** Booking an order *)

Lemma elem_of_pushToLevel l' o p book :
  l' ∈ pushToLevel o p book →
  l' ∈ book
  ∨ ∃ l, l ∈ book ∧ Entry.price l = p
         ∧ l' = Entry.mk (Entry.price l) (Entry.size l + Order.remaining o)
                  (Entry.orders l ++ [o]).
Proof.
  induction book as [|l book IH]; simpl; [by intros ?%elem_of_nil|].
  destruct (Z.eqb_spec (Entry.price l) p) as [Hp|Hp].
  - intros [->|Hl']%elem_of_cons.
    + right. exists l. split; [apply elem_of_cons; by left|done].
    + left. apply elem_of_cons; by right.
  - intros [->|Hl']%elem_of_cons.
    + left. apply elem_of_cons; by left.
    + destruct (IH Hl') as [Hin|(l0 & Hl0 & Hp0 & ->)].
      * left. apply elem_of_cons; by right.
      * right. exists l0. split; [apply elem_of_cons; by right|done].
Qed.

Lemma addToBook_hasLive o book l' :
  l' ∈ addToBook o book → hasLive l' →
  (∃ l, l ∈ book ∧ Entry.price l = Entry.price l' ∧ hasLive l)
  ∨ (Entry.price l' = Order.price o ∧ 0 < Order.remaining o).
Proof.
  unfold addToBook. intros Hl' Hlive.
  apply elem_of_pushToLevel in Hl' as [Hl'|(l & Hl & Hp & ->)].
  - destruct (hasLevel _ _); [left; eauto|].
    rewrite (js_sort_perm (cmpLevels (Order.side o))) in Hl'.
    apply elem_of_app in Hl' as [Hl'|Hl']; [left; eauto|].
    apply list_elem_of_singleton in Hl' as ->.
    destruct Hlive as (o' & Ho' & _). by apply elem_of_nil in Ho'.
  - destruct Hlive as (o' & Ho' & Hpos). simpl in Ho'.
    apply elem_of_app in Ho' as [Ho'|Ho'].
    + left. destruct (hasLevel _ _).
      * exists l. split; [done|]. split; [done|]. by exists o'.
      * rewrite (js_sort_perm (cmpLevels (Order.side o))) in Hl.
        apply elem_of_app in Hl as [Hl|Hl].
        -- exists l. split; [done|]. split; [done|]. by exists o'.
        -- apply list_elem_of_singleton in Hl as ->. by apply elem_of_nil in Ho'.
    + apply list_elem_of_singleton in Ho' as ->. right. by split.
Qed.

Lemma addToBook_ids o book id :
  id ∈ bookIds (addToBook o book) → id = Order.id o ∨ id ∈ bookIds book.
Proof.
  unfold bookIds. intros (r & -> & Hr)%list_elem_of_fmap.
  apply elem_of_bookOrders in Hr as (l' & Hl' & Hr).
  assert (r ∈ bookOrders book → Order.id r ∈ map Order.id (bookOrders book))
    as Hkeep by (intros; by apply list_elem_of_fmap_2).
  unfold addToBook in Hl'.
  apply elem_of_pushToLevel in Hl' as [Hl'|(l & Hl & Hp & ->)].
  - right. apply Hkeep, elem_of_bookOrders.
    destruct (hasLevel _ _); [by exists l'|].
    rewrite (js_sort_perm (cmpLevels (Order.side o))) in Hl'.
    apply elem_of_app in Hl' as [Hl'|Hl']; [by exists l'|].
    apply list_elem_of_singleton in Hl' as ->. by apply elem_of_nil in Hr.
  - simpl in Hr. apply elem_of_app in Hr as [Hr|Hr].
    + right. apply Hkeep, elem_of_bookOrders.
      destruct (hasLevel _ _); [by exists l|].
      rewrite (js_sort_perm (cmpLevels (Order.side o))) in Hl.
      apply elem_of_app in Hl as [Hl|Hl]; [by exists l|].
      apply list_elem_of_singleton in Hl as ->. by apply elem_of_nil in Hr.
    + apply list_elem_of_singleton in Hr as ->. by left.
Qed.

(** *** One submission keeps the system consistent *)

Lemma consistent_same_orders e st st' :
  Storage.orders st' = Storage.orders st →
  consistent (System.mk e st) → consistent (System.mk e st').
Proof.
  intros E (H1 & H2 & H3). split; [done|]. split; [done|]. simpl in *.
  intros s m id Hid. rewrite E. by eapply H3.
Qed.

Lemma bookOf_addToOrderBook_other s marketId order e :
  ¬ (s = Order.side order ∧ marketId = Order.marketId order) →
  bookOf s marketId (addToOrderBook order e) = bookOf s marketId e.
Proof. intros H. rewrite bookOf_addToOrderBook. by rewrite decide_False. Qed.

Lemma bookOf_addToOrderBook_own order e :
  bookOf (Order.side order) (Order.marketId order) (addToOrderBook order e)
  = addToBook order (bookOf (Order.side order) (Order.marketId order) e).
Proof. rewrite bookOf_addToOrderBook. by rewrite decide_True. Qed.

(** Booking [booked] keeps the system consistent when its positive
    remainder, if any, passes the test with no positive remainder of the
    opposite book. *)
Lemma addToOrderBook_consistent booked e st :
  consistent (System.mk e st) →
  is_Some (Storage.orders st !! Order.id booked) →
  (0 < Order.remaining booked →
   ∀ l, l ∈ bookOf (oppositeSide (Order.side booked)) (Order.marketId booked) e →
        hasLive l →
        match Order.side booked with
        | YES => Order.price booked < Entry.price l
        | NO => Entry.price l < Order.price booked
        end) →
  consistent (System.mk (addToOrderBook booked e) st).
Proof.
  intros (Hsorted & Hnc & Hids) Hrow Hfar. simpl in *.
  split; [|split]; simpl.
  - by apply addToOrderBook_sorted.
  - intros m ly ln Hly Hln Hlivey Hliven.
    destruct (decide (m = Order.marketId booked)) as [->|Hm]; last first.
    { rewrite bookOf_addToOrderBook_other in Hly by (by intros [_ ?]).
      rewrite bookOf_addToOrderBook_other in Hln by (by intros [_ ?]).
      by eapply Hnc. }
    destruct (Order.side booked) eqn:Hside.
    + rewrite <- Hside, bookOf_addToOrderBook_own in Hly.
      rewrite bookOf_addToOrderBook_other in Hln
        by (rewrite Hside; by intros [? _]).
      destruct (addToBook_hasLive _ _ _ Hly Hlivey)
        as [(l0 & Hl0 & Hp0 & Hlive0)|[Hp Hpos]].
      * rewrite <- Hp0. rewrite Hside in Hl0. by eapply Hnc.
      * rewrite Hp. by apply (Hfar Hpos ln).
    + rewrite <- Hside, bookOf_addToOrderBook_own in Hln.
      rewrite bookOf_addToOrderBook_other in Hly
        by (rewrite Hside; by intros [? _]).
      destruct (addToBook_hasLive _ _ _ Hln Hliven)
        as [(l0 & Hl0 & Hp0 & Hlive0)|[Hp Hpos]].
      * rewrite <- Hp0. rewrite Hside in Hl0. by eapply Hnc.
      * rewrite Hp. by apply (Hfar Hpos ly).
  - intros s m id Hid. rewrite bookOf_addToOrderBook in Hid.
    case_decide as H; [|by eapply Hids]. destruct H as [-> ->].
    apply addToBook_ids in Hid as [->|Hid]; [done|by eapply Hids].
Qed.

Lemma crossesFor_limit order :
  Order.type order = LIMIT → crossesFor order = canMatch order.
Proof. unfold crossesFor. by intros ->. Qed.

Lemma booksRemainder_limit order remainingSize :
  booksRemainder order remainingSize = true →
  Order.type order = LIMIT ∧ remainingSize ≠ 0.
Proof.
  unfold booksRemainder. intros H.
  apply andb_prop in H as [H _]. apply andb_prop in H as [Hr Hty].
  split; [by apply bool_decide_eq_true_1 in Hty|].
  intros ->. done.
Qed.

(** The opposite levels the booked remainder could still match hold no
    positive remainder. *)
Lemma matched_far order e st view' s :
  sortedEngine e →
  Order.type order = LIMIT →
  matched order e st = (view', s) →
  Loop.thrown s = false →
  0 < Loop.remainingSize s →
  ∀ l, l ∈ view' → hasLive l →
       match Order.side order with
       | YES => Order.price order < Entry.price l
       | NO => Entry.price l < Order.price order
       end.
Proof.
  intros Hsorted Hty Hm Hth Hpos l Hl Hlive.
  unfold matched in Hm. rewrite (crossesFor_limit _ Hty) in Hm.
  assert (canMatch order (Entry.price l) ≠ true) as Hc.
  { intros Hc. revert Hlive.
    eapply (walkLevels_drained (canMatch order) order
              (priceKey (oppositeSide (Order.side order))));
      [apply canMatch_behind| |exact Hm|exact Hth|exact Hpos|exact Hl|exact Hc].
    unfold oppositeView. rewrite sortLevel_prices. apply Hsorted. }
  unfold canMatch in Hc. destruct (Order.side order);
    rewrite Z.leb_le in Hc; lia.
Qed.

Lemma processOrder_consistent order e st e' st' out :
  consistent (System.mk e st) →
  Storage.orders st !! Order.id order = Some order →
  0 ≤ Order.filled order →
  Order.id order
    ∉ bookIds (bookOf (oppositeSide (Order.side order)) (Order.marketId order) e) →
  processOrder order e st = (e', st', out) →
  consistent (System.mk e' st').
Proof.
  intros Hcons Hrow Hfilled Hfresh Hrun.
  destruct (fokRejected order e) eqn:Hrej.
  { rewrite processOrder_rejected in Hrun by done. simplify_eq.
    eapply settles_consistent;
      [apply sortedQueues_settles|apply rowsKept_updateOrderStatus|done]. }
  destruct (matched order e st) as [view' s] eqn:Hm.
  pose proof (matched_settles _ _ _ _ _ Hm) as Hsettle.
  assert (rowsKept st (Loop.storage s)) as Hrows.
  { unfold matched in Hm. by apply walkLevels_rowsKept in Hm. }
  assert (tracksRow order order s) as Htrack.
  { unfold matched in Hm.
    eapply walkLevels_row; [|exact Hm|].
    - unfold oppositeView. by rewrite sortLevel_ids.
    - unfold tracksRow. simpl. by rewrite with_filled_same. }
  destruct (matched_accounts _ _ _ _ _ Hm) as (Hrem & Hcum & Htrades).
  apply tradedSize_nonneg in Htrades.
  rewrite (processOrder_matched _ _ _ _ _ Hrej Hm) in Hrun. cbv zeta in Hrun.
  set (status := settledStatus order (Loop.remainingSize s)) in *.
  set (e2 := writeBack _ _ _ _) in *.
  destruct (Loop.thrown s) eqn:Hthrown.
  { simplify_eq. by eapply settles_consistent. }
  assert (consistent
            (System.mk e2
               (snd (updateOrderStatus (Order.id order) status (Loop.storage s)))))
    as Hcons2.
  { eapply settles_consistent; [exact Hsettle| |exact Hcons].
    eapply rowsKept_trans; [exact Hrows|apply rowsKept_updateOrderStatus]. }
  destruct (booksRemainder order (Loop.remainingSize s)) eqn:Hbook; last first.
  { simplify_eq. by eapply consistent_same_orders. }
  rewrite updateOrderStatus_fst, Htrack in Hrun. simpl in Hrun. simplify_eq.
  apply (consistent_same_orders _
           (snd (updateOrderStatus (Order.id order) status (Loop.storage s))));
    [done|].
  apply booksRemainder_limit in Hbook as [Hty Hnz].
  apply addToOrderBook_consistent; [done| |].
  - simpl. rewrite lookup_alter_eq, Htrack. by eexists.
  - unfold Order.remaining. simpl. intros Hpos l Hl Hlive.
    unfold e2 in Hl. rewrite (bookOf_after_match _ _ _ _ _ _ _ Hm) in Hl.
    rewrite decide_True in Hl by done.
    destruct Hcons as (Hsorted & _ & _).
    eapply (matched_far order e st view' s);
      [done|done|done|done|lia|done|done].
Qed.

Lemma createOrder_row uuid now ins st order st' :
  createOrder uuid now ins st = Some (order, st') →
  Storage.orders st !! uuid = None
  ∧ Order.id order = uuid ∧ Order.filled order = 0
  ∧ Storage.orders st' = <[uuid := order]> (Storage.orders st).
Proof.
  unfold createOrder. destruct (Storage.orders st !! uuid) eqn:E; [done|].
  intros ?; by simplify_eq.
Qed.

Lemma postOrder_consistent sub sys : consistent sys → consistent (postOrder sub sys).
Proof.
  intros Hcons. unfold postOrder, handleOrder.
  destruct (createOrder _ _ _ _) as [[order st]|] eqn:Hc; [|done].
  destruct (processOrder order (System.engine sys) st) as [[e' st'] out] eqn:Hrun.
  apply createOrder_row in Hc as (Hfresh & Hid & Hfilled & Horders).
  destruct sys as [e st0]. simpl in *.
  eapply processOrder_consistent; [| | | |exact Hrun].
  - destruct Hcons as (H1 & H2 & H3). split; [done|]. split; [done|].
    simpl in *. intros s m id Hin. rewrite Horders.
    destruct (decide (Submission.uuid sub = id)) as [<-|Hne].
    + rewrite lookup_insert_eq. by eexists.
    + rewrite lookup_insert_ne by done. by eapply H3.
  - rewrite Horders, Hid. apply lookup_insert_eq.
  - lia.
  - intros Hin. destruct Hcons as (_ & _ & H3). simpl in H3.
    apply H3 in Hin. rewrite Hid, Hfresh in Hin. by destruct Hin.
Qed.

Lemma consistent_initial : consistent System.initial.
Proof.
  split; [apply sortedEngine_empty|]. split.
  - intros m ly ln Hly. by apply elem_of_nil in Hly.
  - intros s m id Hid. destruct s; by apply elem_of_nil in Hid.
Qed.

Lemma postOrders_consistent subs sys :
  consistent sys → consistent (postOrders subs sys).
Proof.
  revert sys. induction subs as [|sub subs IH]; intros sys H; simpl; [done|].
  by apply IH, postOrder_consistent.
Qed.



(** The levels that hold no positive remainder are outside of this: a level
    left with a filled order stays in the book, and an order of the other
    side may rest at a price that passes the test with it. *)
Example dead_level_may_cross :
  prices (bookOf YES "m" (System.engine afterFullFillThenYes070)) = [7000]
  ∧ prices (bookOf NO "m" (System.engine afterFullFillThenYes070)) = [6000]
  ∧ map Order.remaining
      (bookOrders (bookOf NO "m" (System.engine afterFullFillThenYes070)))
    = [0].
Proof. repeat split; vm_compute; reflexivity. Qed.

(** The levels stay sorted through submissions as well. *)
Lemma postOrders_levels_sorted (subs : list Submission.t) (marketId : string) :
  Sorted Z.ge
    (prices (bookOf YES marketId (System.engine (postOrders subs System.initial))))
  ∧ Sorted Z.le
      (prices (bookOf NO marketId (System.engine (postOrders subs System.initial)))).
Proof.
  destruct (postOrders_consistent subs _ consistent_initial) as (H & _ & _).
  split; [apply sortedBook_YES|apply sortedBook_NO]; apply H.
Qed.

(** * Further properties *)

(** ** The queries over [orders] *)

Lemma cmpCreatedAtDesc_key a b :
  cmpCreatedAtDesc a b = - Order.createdAt a - - Order.createdAt b.
Proof. unfold cmpCreatedAtDesc. lia. Qed.

Lemma elem_of_rows o st :
  o ∈ map snd (map_to_list (Storage.orders st)) ↔ isRow o st.
Proof.
  unfold isRow. split.
  - intros ([k o'] & -> & Hin)%list_elem_of_fmap.
    apply elem_of_map_to_list in Hin. eauto.
  - intros [k Hk]. apply list_elem_of_fmap. exists (k, o).
    split; [done|]. by apply elem_of_map_to_list.
Qed.

(** A query [WHERE P ORDER BY createdAt DESC]: the rows that satisfy [P],
    newest first. *)
Lemma select_desc_spec (P : Order.t → Prop) `{!∀ o, Decision (P o)} st :
  (∀ o, o ∈ js_sort cmpCreatedAtDesc
              (filter P (map snd (map_to_list (Storage.orders st))))
        ↔ isRow o st ∧ P o)
  ∧ newestFirst
      (js_sort cmpCreatedAtDesc
         (filter P (map snd (map_to_list (Storage.orders st))))).
Proof.
  split.
  - intros o. rewrite (js_sort_perm cmpCreatedAtDesc).
    rewrite list_elem_of_filter, elem_of_rows. tauto.
  - apply (js_sort_sorted cmpCreatedAtDesc (λ o, - Order.createdAt o)
             cmpCreatedAtDesc_key).
Qed.

Lemma elem_of_getActiveMarketOrders marketId st o :
  o ∈ getActiveMarketOrders marketId st
  ↔ isRow o st ∧ Order.marketId o = marketId ∧ Order.status o = PENDING.
Proof.
  destruct (select_desc_spec
              (λ o, Order.marketId o = marketId ∧ Order.status o = PENDING) st)
    as [Hin _].
  unfold getActiveMarketOrders. rewrite (Hin o). tauto.
Qed.

(** X1: [getActiveMarketOrders] returns exactly the rows of the market whose
    status is PENDING, newest first. *)
Theorem X1_active_orders_are_the_pending_rows (marketId : string)
    (st : Storage.t) :
  (∀ o, o ∈ getActiveMarketOrders marketId st
        ↔ isRow o st ∧ Order.marketId o = marketId
          ∧ Order.status o = PENDING)
  ∧ newestFirst (getActiveMarketOrders marketId st).
Proof.
  split; [intros o; apply elem_of_getActiveMarketOrders|].
  apply (select_desc_spec
           (λ o, Order.marketId o = marketId ∧ Order.status o = PENDING) st).
Qed.

(** *** Sorting and filtering commute *)

Section js_sort_filter.
Context {A : Type} (cmp : A → A → Z) (key : A → Z).
Hypothesis cmp_key : ∀ a b, cmp a b = key a - key b.
Context (Q : A → Prop) `{!∀ a, Decision (Q a)}.

Lemma sort_insert_front x l :
  Forall (λ y, key x ≤ key y) l → sort_insert cmp x l = x :: l.
Proof.
  destruct 1 as [|y l Hy _]; simpl; [done|].
  rewrite cmp_key. destruct (Z.leb_spec (key x - key y) 0); [done|lia].
Qed.

Lemma filter_sort_insert x l :
  StronglySorted (leKey key) l →
  filter Q (sort_insert cmp x l)
  = if decide (Q x) then sort_insert cmp x (filter Q l) else filter Q l.
Proof.
  induction 1 as [|y l Hl IH Hy]; simpl.
  - rewrite filter_cons, filter_nil. by destruct (decide (Q x)).
  - destruct (Z.leb_spec (cmp x y) 0) as [Hxy|Hxy]; rewrite cmp_key in Hxy.
    + rewrite filter_cons. destruct (decide (Q x)); [|done].
      rewrite sort_insert_front; [done|].
      apply Forall_forall. intros z Hz.
      apply list_elem_of_filter in Hz as [_ Hz].
      apply elem_of_cons in Hz as [->|Hz]; [lia|].
      rewrite Forall_forall in Hy. specialize (Hy z Hz).
      unfold leKey in Hy. lia.
    + rewrite !filter_cons, IH.
      destruct (decide (Q y)), (decide (Q x)); simpl; try done.
      rewrite cmp_key. destruct (Z.leb_spec (key x - key y) 0); [lia|done].
Qed.

Lemma filter_js_sort l : filter Q (js_sort cmp l) = js_sort cmp (filter Q l).
Proof.
  induction l as [|x l IH]; simpl; [done|].
  rewrite filter_sort_insert by apply (js_sort_sorted cmp key cmp_key).
  rewrite filter_cons, IH. by destruct (decide (Q x)).
Qed.
End js_sort_filter.

(** X2: the active orders of a market are its orders in status PENDING, in
    the order [getMarketOrders] lists them. *)
Theorem X2_active_orders_among_market_orders (marketId : string)
    (st : Storage.t) :
  getActiveMarketOrders marketId st
  = filter (λ o, Order.status o = PENDING) (getMarketOrders marketId st).
Proof.
  unfold getActiveMarketOrders, getMarketOrders.
  rewrite (filter_js_sort cmpCreatedAtDesc (λ o, - Order.createdAt o)
             cmpCreatedAtDesc_key).
  f_equal. rewrite list_filter_filter. apply list_filter_iff. tauto.
Qed.

(** ** Inserting, cancelling, and ids without a row *)

Lemma isRow_insert_fresh o st k row :
  Storage.orders st !! k = None →
  (∃ k', <[k := row]> (Storage.orders st) !! k' = Some o)
  ↔ o = row ∨ isRow o st.
Proof.
  intros Hfresh. unfold isRow. split.
  - intros [k' Hk']. destruct (decide (k = k')) as [<-|Hne].
    + rewrite lookup_insert_eq in Hk'. left. congruence.
    + rewrite lookup_insert_ne in Hk' by done. eauto.
  - intros [->|[k' Hk']].
    + exists k. apply lookup_insert_eq.
    + exists k'. rewrite lookup_insert_ne; [done|]. congruence.
Qed.

(** X3: [createOrder] answers with a row of the request's columns, filled 0
    and PENDING, under the id drawn; the row is then among the active orders
    of its market, every order active before still is, and nothing else is
    active. *)
Theorem X3_created_order_is_active (uuid : string) (now : Z)
    (ins : InsertOrder.t) (st st' : Storage.t) (order : Order.t) :
  createOrder uuid now ins st = Some (order, st') →
  order
  = Order.mk uuid (InsertOrder.marketId ins) (InsertOrder.userId ins)
      (InsertOrder.side ins) (InsertOrder.type ins) (InsertOrder.price ins)
      (InsertOrder.size ins) 0 PENDING now
  ∧ Storage.orders st' !! uuid = Some order
  ∧ ∀ marketId o,
      o ∈ getActiveMarketOrders marketId st'
      ↔ (o = order ∧ marketId = InsertOrder.marketId ins)
        ∨ o ∈ getActiveMarketOrders marketId st.
Proof.
  unfold createOrder. destruct (Storage.orders st !! uuid) eqn:Hfresh; [done|].
  intros [= <- <-]. split; [done|]. simpl.
  split; [apply lookup_insert_eq|].
  intros m o.
  rewrite !elem_of_getActiveMarketOrders.
  unfold isRow at 1. simpl. rewrite (isRow_insert_fresh _ _ _ _ Hfresh).
  split.
  - intros ([->|Hrow] & Hm & Hs); [left|right]; done.
  - intros [[-> ->]|(Hrow & Hm & Hs)]; [|by eauto].
    split; [by left|done].
Qed.

(** X3 at a request sent to the empty storage. *)
Lemma X3_created_order_is_active_witness :
  Order.mk "D1" "m" "dana" YES LIMIT 5500 10000000 0 PENDING 7
  = Order.mk "D1" (InsertOrder.marketId yesLimit055)
      (InsertOrder.userId yesLimit055) (InsertOrder.side yesLimit055)
      (InsertOrder.type yesLimit055) (InsertOrder.price yesLimit055)
      (InsertOrder.size yesLimit055) 0 PENDING 7
  ∧ Storage.orders
      (Storage.mk
         {[ "D1"%string
            := Order.mk "D1" "m" "dana" YES LIMIT 5500 10000000 0 PENDING 7 ]}
         [] [] ∅ [])
    !! "D1"%string
    = Some (Order.mk "D1" "m" "dana" YES LIMIT 5500 10000000 0 PENDING 7)
  ∧ ∀ marketId o,
      o ∈ getActiveMarketOrders marketId
            (Storage.mk
               {[ "D1"%string
                  := Order.mk "D1" "m" "dana" YES LIMIT 5500 10000000 0
                       PENDING 7 ]}
               [] [] ∅ [])
      ↔ (o = Order.mk "D1" "m" "dana" YES LIMIT 5500 10000000 0 PENDING 7
         ∧ marketId = InsertOrder.marketId yesLimit055)
        ∨ o ∈ getActiveMarketOrders marketId Storage.empty.
Proof.
  apply (X3_created_order_is_active "D1" 7 yesLimit055 Storage.empty).
  vm_compute. reflexivity.
Defined.

(** X4: [cancelOrder] takes the row of that id, and no other, out of the
    active orders: an order is active after it exactly when it was active
    before under another id. *)
Theorem X4_cancelled_order_is_not_active (orderId marketId : string)
    (st : Storage.t) (o : Order.t) :
  o ∈ getActiveMarketOrders marketId (cancelOrder orderId st)
  ↔ ∃ k, k ≠ orderId ∧ Storage.orders st !! k = Some o
         ∧ Order.marketId o = marketId ∧ Order.status o = PENDING.
Proof.
  rewrite elem_of_getActiveMarketOrders.
  unfold isRow, cancelOrder. simpl. split.
  - intros ([k Hk] & Hm & Hs). exists k.
    destruct (decide (orderId = k)) as [<-|Hne].
    + rewrite lookup_alter_eq in Hk.
      destruct (Storage.orders st !! orderId) as [row|]; simplify_eq/=.
    + rewrite lookup_alter_ne in Hk by done. by eauto.
  - intros (k & Hne & Hk & Hm & Hs). split; [|done].
    exists k. by rewrite lookup_alter_ne.
Qed.

(** X5: an update addressed to an id that has no row changes no row:
    [updateOrderFilled] and [cancelOrder] leave the table as it is, and
    [updateOrderStatus] answers [undefined]. *)
Theorem X5_updates_without_row (orderId : string) (filled : Z)
    (status : Status) (st : Storage.t) :
  Storage.orders st !! orderId = None →
  Storage.orders (updateOrderFilled orderId filled st) = Storage.orders st
  ∧ fst (updateOrderStatus orderId status st) = None
  ∧ Storage.orders (snd (updateOrderStatus orderId status st))
    = Storage.orders st
  ∧ Storage.orders (cancelOrder orderId st) = Storage.orders st.
Proof.
  intros Hnone.
  assert (∀ g : Order.t → Order.t,
            alter g orderId (Storage.orders st) = Storage.orders st) as Halter.
  { intros g. apply map_eq. intros k.
    destruct (decide (orderId = k)) as [<-|Hne].
    - by rewrite lookup_alter_eq, Hnone.
    - by rewrite lookup_alter_ne. }
  unfold updateOrderFilled, updateOrderStatus, cancelOrder, updateOrderStatus.
  simpl. rewrite !Halter. by rewrite Hnone.
Qed.

(** X5 at the empty storage. *)
Lemma X5_updates_without_row_witness :
  Storage.orders (updateOrderFilled "ghost" 5 Storage.empty)
  = Storage.orders Storage.empty
  ∧ fst (updateOrderStatus "ghost" FILLED Storage.empty) = None
  ∧ Storage.orders (snd (updateOrderStatus "ghost" FILLED Storage.empty))
    = Storage.orders Storage.empty
  ∧ Storage.orders (cancelOrder "ghost" Storage.empty)
    = Storage.orders Storage.empty.
Proof.
  apply (X5_updates_without_row "ghost" 5 FILLED Storage.empty).
  reflexivity.
Defined.

(** ** Positions: one row per market, user and side *)

Lemma samePosition_key marketId userId side p :
  samePosition marketId userId side p = true
  ↔ positionKey p = (marketId, userId, side).
Proof.
  unfold samePosition, positionKey. rewrite bool_decide_eq_true. split.
  - by intros (-> & -> & ->).
  - by intros [= -> -> ->].
Qed.

Lemma combinePosition_key p shares avgPrice :
  positionKey (combinePosition p shares avgPrice) = positionKey p.
Proof. done. Qed.

Lemma storedPosition_key p p' :
  storedPosition p = Some p' → positionKey p' = positionKey p.
Proof.
  unfold storedPosition.
  destruct (numericColumn 18 6 (Position.shares p)),
    (numericColumn 5 4 (Position.avgPrice p)); try done.
  by intros [= <-].
Qed.

(** The row the UPDATE leaves in the place of [p]: of the same key. *)
Lemma updatedPosition_key p shares avgPrice :
  positionKey
    (match storedPosition (combinePosition p shares avgPrice) with
     | Some p' => p'
     | None => p
     end)
  = positionKey p.
Proof.
  destruct (storedPosition _) as [p'|] eqn:E; [|done].
  by rewrite (storedPosition_key _ _ E).
Qed.

Lemma upsertPosition_cons marketId userId side shares avgPrice p rows :
  upsertPosition marketId userId side shares avgPrice (p :: rows)
  = if samePosition marketId userId side p
    then match storedPosition (combinePosition p shares avgPrice) with
         | Some p' => p'
         | None => p
         end :: rows
    else p :: upsertPosition marketId userId side shares avgPrice rows.
Proof.
  cbn [upsertPosition]. destruct (samePosition _ _ _ _); [|done].
  by destruct (storedPosition _).
Qed.

Lemma upsertPosition_keys marketId userId side shares avgPrice rows :
  map positionKey (upsertPosition marketId userId side shares avgPrice rows)
  = if decide ((marketId, userId, side) ∈ map positionKey rows)
    then map positionKey rows
    else map positionKey rows ++ [(marketId, userId, side)].
Proof.
  induction rows as [|p rows IH].
  - destruct (decide _) as [Hin|_]; [by apply elem_of_nil in Hin|done].
  - rewrite upsertPosition_cons.
    destruct (samePosition marketId userId side p) eqn:Hp.
    + apply samePosition_key in Hp. cbn [map].
      rewrite updatedPosition_key.
      destruct (decide (_ ∈ positionKey p :: map positionKey rows))
        as [_|Hnin]; [done|].
      destruct Hnin. rewrite <- Hp. apply elem_of_cons. by left.
    + assert (positionKey p ≠ (marketId, userId, side)) as Hne.
      { intros Hk. apply samePosition_key in Hk. congruence. }
      cbn [map]. rewrite IH.
      destruct (decide (_ ∈ map positionKey rows)) as [Hin|Hnin];
        destruct (decide (_ ∈ positionKey p :: map positionKey rows))
          as [Hin'|Hnin']; try done.
      * destruct Hnin'. apply elem_of_cons. by right.
      * apply elem_of_cons in Hin' as [?|?]; [congruence|done].
Qed.

Lemma upsertPosition_others marketId userId side shares avgPrice rows p :
  positionKey p ≠ (marketId, userId, side) →
  p ∈ upsertPosition marketId userId side shares avgPrice rows ↔ p ∈ rows.
Proof.
  intros Hne. induction rows as [|q rows IH].
  - simpl. rewrite list_elem_of_singleton. split; [|by intros ?%elem_of_nil].
    intros ->. by destruct Hne.
  - rewrite upsertPosition_cons.
    destruct (samePosition marketId userId side q) eqn:Hq.
    + apply samePosition_key in Hq. rewrite !elem_of_cons. split.
      * intros [->|Hin]; [|by right].
        rewrite updatedPosition_key in Hne. congruence.
      * intros [->|Hin]; [congruence|by right].
    + rewrite !elem_of_cons, IH. done.
Qed.

Lemma upsertPosition_onePerKey marketId userId side shares avgPrice rows :
  onePositionPerKey rows →
  onePositionPerKey (upsertPosition marketId userId side shares avgPrice rows).
Proof.
  unfold onePositionPerKey. rewrite upsertPosition_keys.
  destruct (decide _) as [Hin|Hnin]; [done|]. intros Hnd.
  apply NoDup_app. split; [done|]. split; [|apply NoDup_singleton].
  intros k Hk ->%list_elem_of_singleton. done.
Qed.

(** X6: [updateOrCreatePosition] never makes a second row for a market, user
    and side: the keys of the table stay as they are when the key is there,
    and the key is added at the end otherwise.  So a table with one row per
    key stays so, and the rows of other keys are untouched. *)
Theorem X6_upsert_keeps_one_row_per_key (marketId userId : string)
    (side : Side) (shares avgPrice : PrimFloat.float) (st : Storage.t) :
  map positionKey
    (Storage.positions
       (updateOrCreatePosition marketId userId side shares avgPrice st))
  = (if decide ((marketId, userId, side)
                ∈ map positionKey (Storage.positions st))
     then map positionKey (Storage.positions st)
     else map positionKey (Storage.positions st) ++ [(marketId, userId, side)])
  ∧ (onePositionPerKey (Storage.positions st) →
     onePositionPerKey
       (Storage.positions
          (updateOrCreatePosition marketId userId side shares avgPrice st)))
  ∧ ∀ p, positionKey p ≠ (marketId, userId, side) →
         (p ∈ Storage.positions
                (updateOrCreatePosition marketId userId side shares avgPrice st)
          ↔ p ∈ Storage.positions st).
Proof.
  split; [apply upsertPosition_keys|]. split.
  - apply upsertPosition_onePerKey.
  - intros p Hp. by apply upsertPosition_others.
Qed.

Lemma postOrder_positions sub sys :
  onePositionPerKey (Storage.positions (System.storage sys)) →
  onePositionPerKey (Storage.positions (System.storage (postOrder sub sys))).
Proof.
  intros H. unfold postOrder, handleOrder.
  destruct (createOrder _ _ _ _) as [[order st]|] eqn:Hc; [|done].
  destruct (processOrder order (System.engine sys) st) as [[e' st'] out] eqn:Hrun.
  simpl.
  eapply (processOrder_keeps
            (λ st, onePositionPerKey (Storage.positions st)));
    [..|exact Hrun|]; try done.
  - intros t st0 t' st1 Hct. apply createTrade_storage in Hct as (_ & _ & _ & -> & _).
    done.
  - intros m u s shares avgPrice st0. apply upsertPosition_onePerKey.
  - unfold createOrder in Hc.
    destruct (Storage.orders (System.storage sys) !! _); by simplify_eq.
Qed.

(** X7: whatever orders are posted, the table of positions holds at most
    one row per market, user and side. *)
Theorem X7_one_position_per_key (subs : list Submission.t) :
  onePositionPerKey
    (Storage.positions (System.storage (postOrders subs System.initial))).
Proof.
  assert (∀ sys,
            onePositionPerKey (Storage.positions (System.storage sys)) →
            onePositionPerKey
              (Storage.positions (System.storage (postOrders subs sys)))) as H.
  { induction subs as [|sub subs IH]; intros sys Hsys; simpl; [done|].
    by apply IH, postOrder_positions. }
  apply H. apply NoDup_nil_2.
Qed.

(** ** [addToOrderBook]: where an order goes *)

Section js_sort_snoc.
Context {A : Type} (cmp : A → A → Z) (key : A → Z).
Hypothesis cmp_key : ∀ a b, cmp a b = key a - key b.

(** Sorting a sorted array with one more element pushed: the element goes
    in, the rest keeps its order. *)
Lemma js_sort_snoc x l :
  StronglySorted (leKey key) l →
  ∃ before after, l = before ++ after
                  ∧ js_sort cmp (l ++ [x]) = before ++ x :: after.
Proof.
  induction 1 as [|y l Hl IH Hy]; simpl.
  - by exists [], [].
  - destruct IH as (before & after & -> & ->).
    destruct before as [|b before]; simpl.
    + destruct (Z.leb_spec (cmp y x) 0) as [Hyx|Hyx].
      * by exists [y], after.
      * exists [], (y :: after). split; [done|]. f_equal.
        rewrite (sort_insert_front cmp key cmp_key); done.
    + exists (y :: b :: before), after. split; [done|].
      apply Forall_cons in Hy as [Hyb _]. unfold leKey in Hyb.
      rewrite cmp_key. destruct (Z.leb_spec (key y - key b) 0); [done|lia].
Qed.
End js_sort_snoc.

Lemma hasLevel_prices p book : hasLevel p book = true ↔ p ∈ prices book.
Proof.
  unfold hasLevel, prices. induction book as [|l book IH]; simpl.
  - split; [done|by intros ?%elem_of_nil].
  - rewrite orb_true_iff, IH, elem_of_cons, Z.eqb_eq.
    split; (intros [H|H]; [left|right]; done).
Qed.

Lemma pushToLevel_present o p book :
  hasLevel p book = true →
  ∃ before l after,
    book = before ++ l :: after ∧ Entry.price l = p
    ∧ (p ∉ prices before)
    ∧ pushToLevel o p book = before ++ pushed o l :: after.
Proof.
  unfold hasLevel. induction book as [|l book IH]; simpl; [done|].
  destruct (Z.eqb_spec (Entry.price l) p) as [Hp|Hp]; simpl.
  - intros _. exists [], l, book. repeat split; try done.
    by intros ?%elem_of_nil.
  - intros Hrest. destruct (IH Hrest) as (before & l0 & after & -> & Hp0 & Hb & ->).
    exists (l :: before), l0, after. repeat split; try done.
    unfold prices. simpl. intros [?|?]%elem_of_cons; [congruence|done].
Qed.

(** The two ways [addToOrderBook] goes, on a sorted book. *)
Lemma addToBook_cases (order : Order.t) (book : Book) :
  sortedBook (Order.side order) book →
  (∃ before l after,
     book = before ++ l :: after
     ∧ Entry.price l = Order.price order
     ∧ (Order.price order ∉ prices before)
     ∧ addToBook order book = before ++ pushed order l :: after)
  ∨ ((Order.price order ∉ prices book)
     ∧ ∃ before after,
         book = before ++ after
         ∧ addToBook order book
           = before
             ++ Entry.mk (Order.price order) (Order.remaining order) [order]
             :: after).
Proof.
  intros Hsorted. unfold addToBook.
  destruct (hasLevel (Order.price order) book) eqn:Hhas.
  - left. by apply pushToLevel_present.
  - right. split.
    { intros Hin%hasLevel_prices. congruence. }
    destruct (js_sort_snoc (cmpLevels (Order.side order))
                (λ l, priceKey (Order.side order) (Entry.price l))
                (cmpLevels_key _) (Entry.mk (Order.price order) 0 []) book)
      as (before & after & -> & Hsort).
    { unfold sortedBook, prices in Hsorted. clear Hhas.
      induction book as [|l book IH]; [constructor|].
      simpl in Hsorted. apply StronglySorted_inv in Hsorted as [Hs Hall].
      constructor; [by apply IH|].
      apply Forall_forall. intros x Hx.
      rewrite Forall_forall in Hall. apply Hall.
      apply list_elem_of_fmap. by exists x. }
    exists before, after. split; [done|]. rewrite Hsort.
    assert (hasLevel (Order.price order) before = false
            ∧ hasLevel (Order.price order) after = false) as [Hb Ha].
    { unfold hasLevel in *. rewrite existsb_app in Hhas.
      by apply orb_false_iff in Hhas. }
    clear Hsort Hsorted Hhas. induction before as [|b before IH]; simpl.
    + rewrite Z.eqb_refl. done.
    + unfold hasLevel in Hb. simpl in Hb.
      apply orb_false_iff in Hb as [Hb1 Hb2]. rewrite Hb1. by rewrite IH.
Qed.

(** X8: [addToOrderBook], when the book of the order's side and market is
    in its price order, either finds the first level at the order's price
    and puts the order behind its queue, adding the order's remainder to the
    level's size, or, when no level has that price, puts in a new level
    holding the order alone.  The other levels keep their content and their
    order, and no other book changes. *)
Theorem X8_order_goes_behind_its_level (order : Order.t) (e : Engine.t) :
  sortedBook (Order.side order) (ownBook order e) →
  ((∃ before l after,
      ownBook order e = before ++ l :: after
      ∧ Entry.price l = Order.price order
      ∧ (Order.price order ∉ prices before)
      ∧ ownBook order (addToOrderBook order e)
        = before ++ pushed order l :: after)
   ∨ ((Order.price order ∉ prices (ownBook order e))
      ∧ ∃ before after,
          ownBook order e = before ++ after
          ∧ ownBook order (addToOrderBook order e)
            = before
              ++ Entry.mk (Order.price order) (Order.remaining order) [order]
              :: after))
  ∧ ∀ s marketId,
      bookOf s marketId (addToOrderBook order e)
      = if decide (s = Order.side order ∧ marketId = Order.marketId order)
        then ownBook order (addToOrderBook order e)
        else bookOf s marketId e.
Proof.
  intros Hsorted. split.
  - assert (ownBook order (addToOrderBook order e)
            = addToBook order (ownBook order e)) as ->
      by apply bookOf_addToOrderBook_own.
    by apply addToBook_cases.
  - intros s marketId. rewrite bookOf_addToOrderBook.
    case_decide as H; [|done]. destruct H as [-> ->].
    symmetry. apply bookOf_addToOrderBook_own.
Qed.

(** X8 at the NO limits of the test suite: 0.30 goes between 0.20 and 0.40. *)
Lemma X8_order_goes_behind_its_level_witness :
  ((∃ before l after,
      ownBook noLimit030 noEngine_020_040 = before ++ l :: after
      ∧ Entry.price l = Order.price noLimit030
      ∧ (Order.price noLimit030 ∉ prices before)
      ∧ ownBook noLimit030 (addToOrderBook noLimit030 noEngine_020_040)
        = before ++ pushed noLimit030 l :: after)
   ∨ ((Order.price noLimit030 ∉ prices (ownBook noLimit030 noEngine_020_040))
      ∧ ∃ before after,
          ownBook noLimit030 noEngine_020_040 = before ++ after
          ∧ ownBook noLimit030 (addToOrderBook noLimit030 noEngine_020_040)
            = before
              ++ Entry.mk (Order.price noLimit030)
                   (Order.remaining noLimit030) [noLimit030]
              :: after))
  ∧ ∀ s marketId,
      bookOf s marketId (addToOrderBook noLimit030 noEngine_020_040)
      = if decide (s = Order.side noLimit030
                   ∧ marketId = Order.marketId noLimit030)
        then ownBook noLimit030 (addToOrderBook noLimit030 noEngine_020_040)
        else bookOf s marketId noEngine_020_040.
Proof.
  apply (X8_order_goes_behind_its_level noLimit030 noEngine_020_040).
  unfold sortedBook, leKey.
  change (prices _) with [2000; 4000]. repeat constructor; simpl; lia.
Defined.

(** ** The books [addToOrderBook] builds *)









(** ** [loadOrderBook] *)

Lemma insertAll_other_market orders e s marketId :
  Forall (λ o, Order.marketId o ≠ marketId) orders →
  bookOf s marketId (insertAll orders e) = bookOf s marketId e.
Proof.
  revert e. induction orders as [|o orders IH]; intros e Hall; simpl; [done|].
  apply Forall_cons in Hall as [Ho Hall].
  change (bookOf s marketId (insertAll orders (addToOrderBook o e))
          = bookOf s marketId e).
  rewrite IH by done. rewrite bookOf_addToOrderBook.
  rewrite decide_False; [done|]. intros [_ Hm]. by apply Ho.
Qed.

(** X10: [loadOrderBook] of a market leaves the books of every other market
    as they were. *)
Theorem X10_load_touches_one_market (marketId other : string) (s : Side)
    (e : Engine.t) (st : Storage.t) :
  other ≠ marketId →
  bookOf s other (loadOrderBook marketId e st) = bookOf s other e.
Proof.
  intros Hne. apply insertAll_other_market.
  apply Forall_forall. intros o Ho%elem_of_getActiveMarketOrders.
  destruct Ho as (_ & Hm & _). congruence.
Qed.

(** X10 at the storage with the two NO limits of market "m" and the engine
    that holds them. *)
Lemma X10_load_touches_one_market_witness :
  bookOf NO "m"
    (loadOrderBook "n" (System.engine afterTwoNoLimits)
       (System.storage afterTwoNoLimits))
  = bookOf NO "m" (System.engine afterTwoNoLimits).
Proof.
  apply (X10_load_touches_one_market "n" "m" NO
           (System.engine afterTwoNoLimits) (System.storage afterTwoNoLimits)).
  discriminate.
Defined.



(** ** [getOrderBookWithPrioritySort] *)

Lemma sortLevel_levelSorted l : levelSorted l (sortLevel l).
Proof.
  split; [done|]. split; [done|]. simpl. split; [apply js_sort_perm|].
  split.
  - by apply (js_sort_sorted cmpCreatedAt Order.createdAt).
  - intros t.
    rewrite (filter_js_sort cmpCreatedAt Order.createdAt) by done.
    apply (js_sort_of_sorted cmpCreatedAt Order.createdAt); [done|].
    induction (Entry.orders l) as [|o q IH]; [constructor|].
    rewrite filter_cons. destruct (decide (Order.createdAt o = t)) as [Ht|]; [|done].
    constructor; [done|]. apply Forall_forall.
    intros o' [Ht' _]%list_elem_of_filter. unfold leKey. lia.
Qed.

(** X12: [getOrderBookWithPrioritySort] returns the book of that side with
    every queue put in ascending [createdAt] order, orders of equal
    [createdAt] keeping their order; prices and level sizes are as before.
    The sorted queues are those of the engine's book from then on, and no
    other book changes. *)
Theorem X12_priority_sort (marketId : string) (s : Side) (e : Engine.t) :
  Forall2 levelSorted (bookOf s marketId e)
    (fst (getOrderBookWithPrioritySort marketId s e))
  ∧ ∀ s' marketId',
      bookOf s' marketId' (snd (getOrderBookWithPrioritySort marketId s e))
      = if decide (s' = s ∧ marketId' = marketId)
        then fst (getOrderBookWithPrioritySort marketId s e)
        else bookOf s' marketId' e.
Proof.
  rewrite getOrderBookWithPrioritySort_fst. split.
  - induction (bookOf s marketId e) as [|l book IH]; constructor; [|done].
    apply sortLevel_levelSorted.
  - intros s' marketId'. apply bookOf_sortedQueues.
Qed.

(** ** The opposite book after [processOrder] *)

Lemma matchLevel_idle order p orders s :
  Loop.remainingSize s ≤ 0 → matchLevel order p orders s = (orders, s).
Proof.
  intros Hr. induction orders as [|o orders IH]; simpl; [done|].
  destruct (Loop.thrown s); [done|].
  destruct (Loop.remainingSize s =? 0); [done|].
  unfold matchOne.
  destruct (Z.ltb_spec 0 (Z.min (Loop.remainingSize s) (Order.remaining o)));
    [lia|].
  by rewrite IH.
Qed.

Lemma walkLevels_idle crosses order book s :
  Loop.remainingSize s ≤ 0 → walkLevels crosses order book s = (book, s).
Proof.
  intros Hr. induction book as [|l book IH]; simpl; [done|].
  destruct (Loop.thrown s); [done|].
  destruct (Loop.remainingSize s =? 0); [done|].
  destruct (crosses (Entry.price l)); [|done].
  rewrite matchLevel_idle by done. rewrite IH. by destruct l.
Qed.

Lemma matchOne_turn order p o s o' s' :
  0 < Loop.remainingSize s →
  matchOne order p o s = (o', s') →
  0 ≤ Loop.remainingSize s'
  ∧ (running s' → exhausted o').
Proof.
  intros Hr H. unfold exhausted. matchOne_goes H Hm E.
  - simplify_eq. split; [lia|]. intros _. lia.
  - set (m := Z.min _ _) in *.
    assert (m ≤ Loop.remainingSize s ∧ m ≤ Order.remaining o
            ∧ (m = Loop.remainingSize s ∨ m = Order.remaining o)) by lia.
    clearbody m. fill_goes H Hex.
    + unfold running, Order.remaining in *. simpl. lia.
    + split; [simpl; lia|]. by intros [? _].
Qed.

Lemma servedInTurn_refl orders : servedInTurn orders orders.
Proof. destruct orders; constructor. apply grown_refl. Qed.

Lemma servedInTurn_app_rest before after rest :
  servedInTurn before after → servedInTurn (before ++ rest) (after ++ rest).
Proof.
  induction 1; simpl.
  - apply servedInTurn_refl.
  - by apply served_last.
  - by apply served_next.
Qed.

Lemma servedInTurn_app_exhausted front front' before after :
  Forall2 grown front front' → Forall exhausted front' →
  servedInTurn before after →
  servedInTurn (front ++ before) (front' ++ after).
Proof.
  induction 1 as [|o o' front front' Ho _ IH]; simpl; [done|].
  intros [Hx Hall]%Forall_cons Hs. apply served_next; [done..|]. by apply IH.
Qed.

Lemma matchLevel_turn order p orders s orders' s' :
  matchLevel order p orders s = (orders', s') →
  0 < Loop.remainingSize s →
  0 ≤ Loop.remainingSize s'
  ∧ servedInTurn orders orders'
  ∧ (running s' → Forall exhausted orders').
Proof.
  revert orders s orders' s'.
  apply (matchLevel_elim order p
           (λ orders s orders' s',
              0 < Loop.remainingSize s →
              0 ≤ Loop.remainingSize s'
              ∧ servedInTurn orders orders'
              ∧ (running s' → Forall exhausted orders'))).
  - intros s Hr. split; [lia|]. split; constructor.
  - intros o rest s Hs Hr. split; [lia|]. split; [apply servedInTurn_refl|].
    intros Hrun. by apply running_not_stopped in Hrun.
  - intros o rest s o' s1 rest' s2 _ H1 H2 IH Hr.
    pose proof (matchOne_grown _ _ _ _ _ _ H1) as Hg.
    destruct (matchOne_turn _ _ _ _ _ _ Hr H1) as [Hr1 Hx].
    destruct (stopped_or_running s1) as [Hstop|Hrun].
    + rewrite matchLevel_stopped in H2 by done. simplify_eq.
      split; [lia|]. split; [by apply served_last|].
      intros Hrun. by apply running_not_stopped in Hrun.
    + destruct IH as (Hr2 & Hs & Hall); [destruct Hrun; lia|].
      split; [done|]. split; [apply served_next; auto|].
      intros Hrun2. constructor; auto.
Qed.

Lemma bookOrders_cons l book :
  bookOrders (l :: book) = Entry.orders l ++ bookOrders book.
Proof. done. Qed.

Lemma walkLevels_turn crosses order book s book' s' :
  walkLevels crosses order book s = (book', s') →
  servedInTurn (bookOrders book) (bookOrders book').
Proof.
  destruct (decide (0 < Loop.remainingSize s)) as [Hr|Hr].
  2: { rewrite walkLevels_idle by lia. intros [= <- <-].
       apply servedInTurn_refl. }
  intros H. revert book s book' s' H Hr.
  apply (walkLevels_elim crosses order
           (λ book s book' s',
              0 < Loop.remainingSize s →
              servedInTurn (bookOrders book) (bookOrders book'))).
  - intros. constructor.
  - intros. apply servedInTurn_refl.
  - intros. apply servedInTurn_refl.
  - intros l rest s os s1 rest' s2 _ _ H1 H2 IH Hr.
    rewrite !bookOrders_cons. simpl.
    destruct (matchLevel_turn _ _ _ _ _ _ H1 Hr) as (Hr1 & Hs & Hall).
    destruct (stopped_or_running s1) as [Hstop|Hrun].
    + rewrite walkLevels_stopped in H2 by done. simplify_eq.
      by apply servedInTurn_app_rest.
    + apply servedInTurn_app_exhausted.
      * by eapply matchLevel_grown.
      * by apply Hall.
      * apply IH. destruct Hrun. lia.
Qed.

(** The row of a persisted order keeps its side and market through the
    matching pass. *)
Lemma matched_booked order e st view' s status booked :
  Storage.orders st !! Order.id order = Some order →
  matched order e st = (view', s) →
  fst (updateOrderStatus (Order.id order) status (Loop.storage s)) = Some booked →
  Order.side booked = Order.side order
  ∧ Order.marketId booked = Order.marketId order
  ∧ Order.id booked = Order.id order
  ∧ Order.price booked = Order.price order
  ∧ Order.size booked = Order.size order
  ∧ Order.createdAt booked = Order.createdAt order.
Proof.
  intros Hrow Hm Hb. apply walkLevels_rowsKept in Hm. simpl in Hm.
  specialize (Hm (Order.id order)). rewrite Hrow in Hm.
  rewrite updateOrderStatus_fst in Hb.
  inversion Hm as [o o' (f & c & ->) Ho Ho'|]; subst.
  rewrite <- Ho' in Hb. simpl in Hb. by simplify_eq.
Qed.

Lemma oppositeSide_ne s : oppositeSide s ≠ s.
Proof. by destruct s. Qed.

(** The opposite book [processOrder] leaves: the view, as the loops leave
    it. *)
Lemma processOrder_oppositeBook order e st :
  Storage.orders st !! Order.id order = Some order →
  oppositeBook order (engineAfter order e st)
  = if fokRejected order e then oppositeView order e
    else fst (matched order e st).
Proof.
  intros Hrow. unfold oppositeBook, engineAfter.
  destruct (fokRejected order e) eqn:Hrej.
  - rewrite processOrder_rejected by done. cbn [fst].
    rewrite bookOf_sortedQueues. by rewrite decide_True.
  - destruct (matched order e st) as [view' s] eqn:Hm.
    rewrite (processOrder_matched _ _ _ _ _ Hrej Hm). cbv zeta.
    destruct (Loop.thrown s);
      [|destruct (booksRemainder _ _);
        [destruct (fst (updateOrderStatus _ _ _)) as [booked|] eqn:Hb|]];
      cbn [fst].
    + rewrite (bookOf_after_match _ _ _ _ _ _ _ Hm). by rewrite decide_True.
    + rewrite bookOf_addToOrderBook.
      destruct (matched_booked _ _ _ _ _ _ _ Hrow Hm Hb) as (Hs & _).
      rewrite decide_False.
      * rewrite (bookOf_after_match _ _ _ _ _ _ _ Hm). by rewrite decide_True.
      * rewrite Hs. intros [H _]. by apply oppositeSide_ne in H.
    + rewrite (bookOf_after_match _ _ _ _ _ _ _ Hm). by rewrite decide_True.
    + rewrite (bookOf_after_match _ _ _ _ _ _ _ Hm). by rewrite decide_True.
Qed.

Lemma grown_timeOrdered os os' :
  Forall2 grown os os' →
  StronglySorted (leKey Order.createdAt) os →
  StronglySorted (leKey Order.createdAt) os'.
Proof.
  induction 1 as [|o o' os os' (f & _ & ->) Hall IH]; [done|].
  intros [Hs Hle]%StronglySorted_inv. constructor; [by apply IH|].
  clear IH Hs. induction Hall as [|x x' os os' (g & _ & ->) _ IH]; [done|].
  apply Forall_cons in Hle as [Hx Hle]. constructor; [done|by apply IH].
Qed.

Lemma oppositeView_timeOrdered order e : timeOrdered (oppositeView order e).
Proof.
  unfold oppositeView, timeOrdered.
  apply Forall_forall. intros l (l0 & -> & _)%list_elem_of_fmap.
  by apply (js_sort_sorted cmpCreatedAt Order.createdAt).
Qed.

Lemma bookGrown_timeOrdered book book' :
  bookGrown book book' → timeOrdered book → timeOrdered book'.
Proof.
  induction 1 as [|l l' book book' (_ & _ & Ho) _ IH]; [done|].
  intros [Hl Hall]%Forall_cons. constructor; [|by apply IH].
  by eapply grown_timeOrdered.
Qed.

(** X13: whatever [processOrder] does with a persisted order, the opposite
    book comes out as its sorted view with the same levels, the same level
    sizes and the same orders, one for one, none with less [filled] than
    before: no order leaves the book and no level size goes down.  Its
    queues are in ascending [createdAt] order. *)
Theorem X13_matching_keeps_every_resting_order (order : Order.t)
    (e : Engine.t) (st : Storage.t) :
  Storage.orders st !! Order.id order = Some order →
  bookGrown (oppositeView order e) (oppositeBook order (engineAfter order e st))
  ∧ timeOrdered (oppositeBook order (engineAfter order e st)).
Proof.
  intros Hrow. rewrite processOrder_oppositeBook by done.
  assert (bookGrown (oppositeView order e)
            (if fokRejected order e then oppositeView order e
             else fst (matched order e st))) as Hg.
  { destruct (fokRejected order e); [apply bookGrown_refl|].
    destruct (matched order e st) as [view' s] eqn:Hm.
    by apply walkLevels_grown in Hm. }
  split; [done|].
  eapply bookGrown_timeOrdered; [exact Hg|apply oppositeView_timeOrdered].
Qed.

(** X13 at the NO limit at 0.40 that meets the resting YES limit at 0.60. *)
Lemma X13_matching_keeps_every_resting_order_witness :
  bookGrown
    (oppositeView incomingNo040_order (System.engine afterRestingYes060))
    (oppositeBook incomingNo040_order
       (engineAfter incomingNo040_order (System.engine afterRestingYes060)
          incomingNo040_storage))
  ∧ timeOrdered
      (oppositeBook incomingNo040_order
         (engineAfter incomingNo040_order (System.engine afterRestingYes060)
            incomingNo040_storage)).
Proof.
  apply (X13_matching_keeps_every_resting_order incomingNo040_order
           (System.engine afterRestingYes060) incomingNo040_storage).
  vm_compute. reflexivity.
Defined.

(** X14: price-time priority.  For an order that has its row in the table,
    the orders of the opposite book, read level after level, are served in
    turn by [processOrder]: when it is done,
    a front of the sorted view is exhausted, at most one order behind that
    front has traded and still has a remainder, and the orders behind it are
    untouched. *)
Theorem X14_resting_orders_served_in_turn (order : Order.t) (e : Engine.t)
    (st : Storage.t) :
  Storage.orders st !! Order.id order = Some order →
  servedInTurn (bookOrders (oppositeView order e))
    (bookOrders (oppositeBook order (engineAfter order e st))).
Proof.
  intros Hrow. rewrite processOrder_oppositeBook by done.
  destruct (fokRejected order e); [apply servedInTurn_refl|].
  destruct (matched order e st) as [view' s] eqn:Hm.
  by apply walkLevels_turn in Hm.
Qed.

(** X14 at the NO limit at 0.40 that meets the resting YES limit at 0.60. *)
Lemma X14_resting_orders_served_in_turn_witness :
  servedInTurn
    (bookOrders
       (oppositeView incomingNo040_order (System.engine afterRestingYes060)))
    (bookOrders
       (oppositeBook incomingNo040_order
          (engineAfter incomingNo040_order (System.engine afterRestingYes060)
             incomingNo040_storage))).
Proof.
  apply (X14_resting_orders_served_in_turn incomingNo040_order
           (System.engine afterRestingYes060) incomingNo040_storage).
  vm_compute. reflexivity.
Defined.

(** ** The trades of a call *)

Lemma processOrder_storage_trades order e st :
  Storage.trades (storageAfter order e st)
  = if fokRejected order e then Storage.trades st
    else Storage.trades (Loop.storage (snd (matched order e st))).
Proof.
  unfold storageAfter. destruct (fokRejected order e) eqn:Hrej.
  - by rewrite processOrder_rejected.
  - destruct (matched order e st) as [view' s] eqn:Hm.
    destruct (processOrder order e st) as [[e' st'] out] eqn:Hrun.
    by destruct (processOrder_trades_kept _ _ _ _ _ _ _ _ Hrej Hm Hrun).
Qed.

(** The trades a call stores are made along the levels of the view. *)
Lemma producedTrades_along order e st :
  tradesAlong order (crossesFor order) (oppositeView order e)
    (producedTrades order e st).
Proof.
  unfold producedTrades. rewrite processOrder_storage_trades.
  destruct (fokRejected order e).
  - rewrite drop_all. constructor.
  - destruct (matched order e st) as [view' s] eqn:Hm. cbn [snd].
    destruct (matched_inserts _ _ _ _ _ Hm) as (new & -> & Halong & _).
    by rewrite drop_app_length.
Qed.

(** They are the trades the pass completed and, when a write was rejected,
    at most one trade more. *)
Lemma producedTrades_settled order e st :
  ∃ unsettled,
    producedTrades order e st = settledTrades order e st ++ unsettled
    ∧ (length unsettled ≤ 1)%nat
    ∧ (writeRejected order e st = false → unsettled = []).
Proof.
  unfold producedTrades, settledTrades, writeRejected.
  rewrite processOrder_storage_trades.
  destruct (fokRejected order e).
  - exists []. rewrite drop_all. split; [done|]. split; [simpl; lia|done].
  - destruct (matched order e st) as [view' s] eqn:Hm. cbn [snd negb andb].
    destruct (matched_inserts _ _ _ _ _ Hm)
      as (new & -> & _ & u & -> & Hlen & Hnone).
    exists u. by rewrite drop_app_length.
Qed.

(** *** Fills are conserved *)

Lemma filledTotal_app l1 l2 :
  filledTotal (l1 ++ l2) = filledTotal l1 + filledTotal l2.
Proof.
  unfold filledTotal. induction l1 as [|o l1 IH]; simpl; [done|]. lia.
Qed.

Lemma filledTotal_perm l1 l2 : l1 ≡ₚ l2 → filledTotal l1 = filledTotal l2.
Proof.
  unfold filledTotal. induction 1; simpl; lia.
Qed.

Lemma matchOne_conserves order p o s o' s' :
  matchOne order p o s = (o', s') →
  Order.filled o' = Order.filled o
                    + (Loop.remainingSize s - Loop.remainingSize s').
Proof.
  intros H. matchOne_goes H Hm E.
  - simplify_eq. lia.
  - set (m := Z.min _ _) in *. clearbody m. fill_goes H Hex; simpl; lia.
Qed.

Lemma matchLevel_conserves order p orders s orders' s' :
  matchLevel order p orders s = (orders', s') →
  filledTotal orders'
  = filledTotal orders + (Loop.remainingSize s - Loop.remainingSize s').
Proof.
  revert orders s orders' s'.
  apply (matchLevel_elim order p
           (λ orders s orders' s',
              filledTotal orders'
              = filledTotal orders
                + (Loop.remainingSize s - Loop.remainingSize s'))).
  - intros. lia.
  - intros. lia.
  - intros o rest s o' s1 rest' s2 _ H1 _ IH.
    apply matchOne_conserves in H1.
    unfold filledTotal in *. simpl. lia.
Qed.

Lemma walkLevels_conserves crosses order book s book' s' :
  walkLevels crosses order book s = (book', s') →
  filledTotal (bookOrders book')
  = filledTotal (bookOrders book)
    + (Loop.remainingSize s - Loop.remainingSize s').
Proof.
  revert book s book' s'.
  apply (walkLevels_elim crosses order
           (λ book s book' s',
              filledTotal (bookOrders book')
              = filledTotal (bookOrders book)
                + (Loop.remainingSize s - Loop.remainingSize s'))).
  - intros. lia.
  - intros. lia.
  - intros. lia.
  - intros l rest s os s1 rest' s2 _ _ H1 _ IH.
    apply matchLevel_conserves in H1.
    rewrite !bookOrders_cons, !filledTotal_app. simpl. lia.
Qed.

(** X15: fills are conserved.  Over a call of [processOrder] for an order
    that has its row in the table, the [filled] amounts of the orders of the
    opposite book grow, in total, by exactly the sizes of the trades the
    matching pass completed.  The trades the call stores are those and, when
    the database rejected a write, at most one trade more, which
    [executeTrade] had inserted when it threw: that trade is in the table
    and in no [filled]. *)
Theorem X15_fills_are_conserved (order : Order.t) (e : Engine.t)
    (st : Storage.t) :
  Storage.orders st !! Order.id order = Some order →
  filledTotal (bookOrders (oppositeBook order (engineAfter order e st)))
  = filledTotal (bookOrders (oppositeBook order e))
    + tradedSize (settledTrades order e st)
  ∧ ∃ unsettled,
      producedTrades order e st = settledTrades order e st ++ unsettled
      ∧ (length unsettled ≤ 1)%nat
      ∧ (writeRejected order e st = false → unsettled = []).
Proof.
  intros Hrow. split; [|apply producedTrades_settled].
  rewrite processOrder_oppositeBook by done. unfold settledTrades.
  rewrite <- (filledTotal_perm _ _
                (sortLevel_orders (oppositeBook order e))).
  change (map sortLevel (oppositeBook order e)) with (oppositeView order e).
  destruct (fokRejected order e); [unfold tradedSize; simpl; lia|].
  destruct (matched order e st) as [view' s] eqn:Hm. simpl.
  pose proof (matched_accounts _ _ _ _ _ Hm) as (Hr & _ & _).
  unfold matched in Hm. apply walkLevels_conserves in Hm. simpl in Hm. lia.
Qed.

(** X15 at the YES limit for 100 that takes the NO limits for 60 and for
    40. *)
Lemma X15_fills_are_conserved_witness :
  filledTotal
    (bookOrders
       (oppositeBook yes060for100_order
          (engineAfter yes060for100_order (System.engine afterTwoNoLimitsAt060)
             yes060for100_storage)))
  = filledTotal
      (bookOrders
         (oppositeBook yes060for100_order (System.engine afterTwoNoLimitsAt060)))
    + tradedSize
        (settledTrades yes060for100_order (System.engine afterTwoNoLimitsAt060)
           yes060for100_storage)
  ∧ ∃ unsettled,
      producedTrades yes060for100_order (System.engine afterTwoNoLimitsAt060)
        yes060for100_storage
      = settledTrades yes060for100_order (System.engine afterTwoNoLimitsAt060)
          yes060for100_storage
        ++ unsettled
      ∧ (length unsettled ≤ 1)%nat
      ∧ (writeRejected yes060for100_order (System.engine afterTwoNoLimitsAt060)
           yes060for100_storage
         = false →
         unsettled = []).
Proof.
  apply (X15_fills_are_conserved yes060for100_order
           (System.engine afterTwoNoLimitsAt060) yes060for100_storage).
  vm_compute. reflexivity.
Defined.

(** A trade in the table and in no [filled]: the order of "uma" that closes
    her position at another price trades 100 with the order of "ben"; the
    trade is stored, the write of her position is rejected, and the order
    of "ben" stays in the book with nothing filled. *)
Example stored_trade_without_fill :
  producedTrades (umaSellsAt060_order LIMIT) (System.engine afterUmaLongBenBids)
    (umaSellsAt060_storage LIMIT)
  = [tradeUmaBen]
  ∧ settledTrades (umaSellsAt060_order LIMIT) (System.engine afterUmaLongBenBids)
      (umaSellsAt060_storage LIMIT)
    = []
  ∧ map Order.filled
      (bookOrders
         (oppositeBook (umaSellsAt060_order LIMIT)
            (engineAfter (umaSellsAt060_order LIMIT)
               (System.engine afterUmaLongBenBids)
               (umaSellsAt060_storage LIMIT))))
    = [0].
Proof. repeat split; vm_compute; reflexivity. Qed.

(** *** Where and at what price trades are made *)

(** X16: every trade a call of [processOrder] stores is made at the price of
    a level of the opposite book, with an order resting in that level's
    queue, for a positive size that is at most that order's remainder; it
    carries the incoming order's market and side, and the order on the YES
    side as buyer.  Unless the incoming order is a MARKET order, the price
    passes the crossing test: at most the price of a YES order, at least the
    price of a NO order. *)
Theorem X16_trades_at_resting_prices (order : Order.t) (e : Engine.t)
    (st : Storage.t) :
  Forall
    (λ t, crossesFor order (Trade.price t) = true
          ∧ ∃ l, l ∈ oppositeBook order e
                 ∧ tradeOn order (Entry.price l) (Entry.orders l) t)
    (producedTrades order e st).
Proof.
  pose proof (tradesAlong_each _ _ _ _ (producedTrades_along order e st)) as H.
  eapply Forall_impl; [exact H|]. intros t (Hc & l & Hl & Ht).
  split; [done|]. unfold oppositeView in Hl.
  apply list_elem_of_fmap in Hl as (l0 & -> & Hl0).
  exists l0. split; [done|]. simpl in Ht.
  eapply tradeOn_mono; [|exact Ht].
  intros r Hr. by rewrite (js_sort_perm cmpCreatedAt) in Hr.
Qed.

Lemma sameKey_sorted (key : Z → Z) (p : Z) (l : list Z) :
  Forall (λ q, q = p) l → StronglySorted (leKey key) l.
Proof.
  induction 1 as [|q l -> Hl IH]; constructor; [done|].
  eapply Forall_impl; [exact Hl|]. intros q ->. unfold leKey. lia.
Qed.

Lemma tradesAlong_sorted order crosses (key : Z → Z) book new :
  StronglySorted (leKey key) (prices book) →
  tradesAlong order crosses book new →
  StronglySorted (leKey key) (map Trade.price new)
  ∧ Forall (λ t, Trade.price t ∈ prices book) new.
Proof.
  intros Hsorted H. induction H as [|l rest here later Hc Hhere _ IH].
  - split; constructor.
  - change (prices (l :: rest)) with (Entry.price l :: prices rest) in *.
    apply StronglySorted_inv in Hsorted as [Hrest Hl].
    destruct (IH Hrest) as [Hs Hin].
    assert (Forall (λ t, Trade.price t = Entry.price l) here) as Heq.
    { eapply Forall_impl; [exact Hhere|]. by intros t (-> & _). }
    split.
    + rewrite map_app. apply StronglySorted_app. split; [|split; [|done]].
      * intros p1 p2 (t1 & -> & Ht1)%list_elem_of_fmap
          (t2 & -> & Ht2)%list_elem_of_fmap.
        rewrite Forall_forall in Heq. rewrite Forall_forall in Hin.
        rewrite Forall_forall in Hl.
        rewrite (Heq t1 Ht1). apply Hl, Hin, Ht2.
      * apply (sameKey_sorted key (Entry.price l)).
        apply Forall_forall. intros p (t & -> & Ht)%list_elem_of_fmap.
        rewrite Forall_forall in Heq. by apply Heq.
    + apply Forall_app. split.
      * eapply Forall_impl; [exact Heq|]. intros t ->.
        apply elem_of_cons. by left.
      * eapply Forall_impl; [exact Hin|]. intros t Ht.
        apply elem_of_cons. by right.
Qed.

(** X17: best price first.  When the opposite book is in its price order
    (NO ascending, YES descending), the trades a call of [processOrder]
    stores come in that order of price: the trades at a level ahead in the
    book before those at a level behind it. *)
Theorem X17_trades_in_price_order (order : Order.t) (e : Engine.t)
    (st : Storage.t) :
  sortedBook (oppositeSide (Order.side order)) (oppositeBook order e) →
  StronglySorted (leKey (priceKey (oppositeSide (Order.side order))))
    (map Trade.price (producedTrades order e st)).
Proof.
  intros Hsorted.
  eapply (tradesAlong_sorted order (crossesFor order)
            (priceKey (oppositeSide (Order.side order)))
            (oppositeView order e)).
  - unfold oppositeView. by rewrite sortLevel_prices.
  - apply producedTrades_along.
Qed.

(** X17 at the NO limit at 0.40 that meets the resting YES limit at 0.60. *)
Lemma X17_trades_in_price_order_witness :
  StronglySorted (leKey (priceKey (oppositeSide (Order.side incomingNo040_order))))
    (map Trade.price
       (producedTrades incomingNo040_order (System.engine afterRestingYes060)
          incomingNo040_storage)).
Proof.
  apply (X17_trades_in_price_order incomingNo040_order
           (System.engine afterRestingYes060) incomingNo040_storage).
  unfold sortedBook, leKey.
  change (prices _) with [6000]. repeat constructor.
Defined.

(** ** Fill-or-kill orders that pass the pre-scan *)

Lemma matchOne_remaining order p o s o' s' :
  matchOne order p o s = (o', s') →
  Loop.thrown s' = false →
  Loop.remainingSize s'
  = Loop.remainingSize s
    - Z.max 0 (Z.min (Loop.remainingSize s) (Order.remaining o)).
Proof.
  intros H Ht. matchOne_goes H Hm E.
  - simplify_eq. lia.
  - set (m := Z.min _ _) in *. clearbody m. fill_goes H Hex; [|done].
    simpl. lia.
Qed.

Lemma matchOne_le order p o s o' s' :
  matchOne order p o s = (o', s') →
  0 ≤ Loop.remainingSize s →
  0 ≤ Loop.remainingSize s' ≤ Loop.remainingSize s.
Proof.
  intros H Hr. matchOne_goes H Hm E.
  - simplify_eq. lia.
  - set (m := Z.min _ _) in *.
    assert (m ≤ Loop.remainingSize s) by lia.
    clearbody m. fill_goes H Hex; simpl; lia.
Qed.

Lemma matchLevel_le order p orders s orders' s' :
  matchLevel order p orders s = (orders', s') →
  0 ≤ Loop.remainingSize s →
  0 ≤ Loop.remainingSize s' ≤ Loop.remainingSize s.
Proof.
  revert orders s orders' s'.
  apply (matchLevel_elim order p
           (λ orders s orders' s',
              0 ≤ Loop.remainingSize s →
              0 ≤ Loop.remainingSize s' ≤ Loop.remainingSize s)); try lia.
  intros o rest s o' s1 rest' s2 _ H1 _ IH Hr.
  apply matchOne_le in H1; lia.
Qed.

(** The exception leaves the loops with something of the order left. *)
Lemma matchOne_short order p o s o' s' :
  matchOne order p o s = (o', s') →
  Loop.thrown s = false → Loop.thrown s' = true →
  0 < Loop.remainingSize s'.
Proof.
  intros H Ht Ht'. matchOne_goes H Hm E.
  - simplify_eq. congruence.
  - set (m := Z.min _ _) in *.
    assert (m ≤ Loop.remainingSize s) by lia.
    clearbody m. fill_goes H Hex; simpl in *; [congruence|lia].
Qed.

Lemma matchLevel_short order p orders s orders' s' :
  matchLevel order p orders s = (orders', s') →
  Loop.thrown s = false → Loop.thrown s' = true →
  0 < Loop.remainingSize s'.
Proof.
  revert orders s orders' s'.
  apply (matchLevel_elim order p
           (λ orders s orders' s',
              Loop.thrown s = false → Loop.thrown s' = true →
              0 < Loop.remainingSize s')); try congruence.
  intros o rest s o' s1 rest' s2 _ H1 H2 IH Ht Ht2.
  destruct (Loop.thrown s1) eqn:Ht1; [|by apply IH].
  rewrite matchLevel_stopped in H2 by (by left). simplify_eq.
  by eapply matchOne_short.
Qed.

Lemma walkLevels_short crosses order book s book' s' :
  walkLevels crosses order book s = (book', s') →
  Loop.thrown s = false → Loop.thrown s' = true →
  0 < Loop.remainingSize s'.
Proof.
  revert book s book' s'.
  apply (walkLevels_elim crosses order
           (λ book s book' s',
              Loop.thrown s = false → Loop.thrown s' = true →
              0 < Loop.remainingSize s')); try congruence.
  intros l rest s os s1 rest' s2 _ _ H1 H2 IH Ht Ht2.
  destruct (Loop.thrown s1) eqn:Ht1; [|by apply IH].
  rewrite walkLevels_stopped in H2 by (by left). simplify_eq.
  by eapply matchLevel_short.
Qed.

(** The pre-scan of a queue against the matching of the queue: what the
    scan counts as available, the matching takes, unless a write is
    rejected. *)
Lemma matchLevel_scanned order p size orders :
  ∀ s available orders' s',
    matchLevel order p orders s = (orders', s') →
    Loop.thrown s' = false →
    0 ≤ Loop.remainingSize s →
    Loop.remainingSize s ≤ Z.max 0 (size - available) →
    0 ≤ Loop.remainingSize s'
    ∧ Loop.remainingSize s'
      ≤ Z.max 0 (size - snd (canFillLevel size orders available))
    ∧ (fst (canFillLevel size orders available) = true →
       Loop.remainingSize s' = 0).
Proof.
  induction orders as [|o orders IH]; intros s available orders' s' H Ht Hr Hb.
  - simpl in *. simplify_eq. split; [done|]. split; [done|]. discriminate.
  - simpl in H.
    destruct (Loop.thrown s) eqn:Hts; [simplify_eq; congruence|].
    destruct (Z.eqb_spec (Loop.remainingSize s) 0) as [Hz|Hnz].
    { simplify_eq. rewrite Hz. split; [done|]. split; [lia|done]. }
    destruct (matchOne order p o s) as [o1 s1] eqn:H1.
    destruct (matchLevel order p orders s1) as [rest' s2] eqn:H2.
    injection H as <- <-.
    assert (Loop.thrown s1 = false) as Ht1.
    { destruct (Loop.thrown s1) eqn:E; [|done].
      by rewrite (matchLevel_thrown _ _ _ _ _ _ H2 E) in Ht. }
    apply matchOne_remaining in H1; [|done].
    assert (0 ≤ Loop.remainingSize s1) as Hr1 by lia.
    assert (Loop.remainingSize s1
            ≤ Z.max 0 (size - (available + Order.remaining o))) as Hb1 by lia.
    destruct (IH _ _ _ _ H2 Ht Hr1 Hb1) as (Hr2 & Hb2 & Hf2).
    pose proof (matchLevel_le _ _ _ _ _ _ H2 Hr1) as Hle.
    simpl.
    destruct (Z.leb_spec size (available + Order.remaining o)) as [Hfound|Hnot];
      simpl.
    + split; [done|]. split; [lia|]. intros _. lia.
    + done.
Qed.

Lemma walkLevels_scanned order book :
  ∀ s available book' s',
    walkLevels (canMatch order) order book s = (book', s') →
    Loop.thrown s' = false →
    0 ≤ Loop.remainingSize s →
    Loop.remainingSize s ≤ Z.max 0 (Order.size order - available) →
    canFillLevels order book available = true →
    Loop.remainingSize s' = 0.
Proof.
  induction book as [|l book IH]; intros s available book' s' H Ht Hr Hb Hscan.
  - discriminate.
  - simpl in H, Hscan.
    destruct (Loop.thrown s) eqn:Hts; [simplify_eq; congruence|].
    destruct (Z.eqb_spec (Loop.remainingSize s) 0) as [Hz|Hnz];
      [by simplify_eq|].
    destruct (canMatch order (Entry.price l)); [|discriminate].
    destruct (matchLevel order (Entry.price l) (Entry.orders l) s)
      as [os s1] eqn:H1.
    destruct (walkLevels (canMatch order) order book s1) as [rest' s2] eqn:H2.
    injection H as <- <-.
    assert (Loop.thrown s1 = false) as Ht1.
    { destruct (Loop.thrown s1) eqn:E; [|done].
      by rewrite (walkLevels_thrown _ _ _ _ _ _ H2 E) in Ht. }
    destruct (matchLevel_scanned _ _ (Order.size order) _ _ available _ _
                H1 Ht1 Hr Hb) as (Hr1 & Hb1 & Hf1).
    destruct (canFillLevel (Order.size order) (Entry.orders l) available)
      as [found available'] eqn:Hlevel.
    simpl in *. destruct found.
    + rewrite walkLevels_idle in H2 by lia. simplify_eq. by apply Hf1.
    + by eapply IH.
Qed.

(** The matching pass keeps the ids of every book. *)
Lemma matched_ids order e st view' s s0 marketId :
  matched order e st = (view', s) →
  bookIds
    (bookOf s0 marketId
       (writeBack (Order.marketId order) (oppositeSide (Order.side order))
          view'
          (sortedQueues (Order.marketId order)
             (oppositeSide (Order.side order)) e)))
  ≡ₚ bookIds (bookOf s0 marketId e).
Proof.
  intros Hm. rewrite (bookOf_after_match _ _ _ _ _ _ _ Hm).
  case_decide as H; [|done]. destruct H as [-> ->].
  unfold matched in Hm. apply walkLevels_grown, bookGrown_ids in Hm.
  rewrite Hm. apply sortLevel_ids.
Qed.

(** X18: a fill-or-kill order that passes the pre-scan is filled whole,
    unless the database rejects a write.  For a FOK order of size at least 0
    that has its row in the table and for which [canFillOrderCompletely]
    holds, [processOrder] books nothing; it returns the order in status
    FILLED with trades whose sizes add up to the order's size, or, when a
    write of the matching pass is rejected, it throws with less than the
    order's size traded: nothing undoes the trades made until then. *)
Theorem X18_accepted_fok_fills_whole (order : Order.t) (e : Engine.t)
    (st : Storage.t) :
  Order.type order = FOK →
  0 ≤ Order.size order →
  canFillOrderCompletely order (oppositeView order e) = true →
  is_Some (Storage.orders st !! Order.id order) →
  ∃ e' st' out,
    processOrder order e st = (e', st', out)
    ∧ (∀ s marketId,
         bookIds (bookOf s marketId e') ≡ₚ bookIds (bookOf s marketId e))
    ∧ if writeRejected order e st
      then out = Threw
           ∧ tradedSize (settledTrades order e st) < Order.size order
      else ∃ updated trades,
             out = Returned (MatchResult.mk (Some updated) trades None None)
             ∧ tradedSize trades = Order.size order
             ∧ Order.status updated = FILLED.
Proof.
  intros Hty Hsize Hscan Hrow.
  assert (fokRejected order e = false) as Hrej.
  { unfold fokRejected. rewrite Hscan. by rewrite andb_false_r. }
  destruct (matched order e st) as [view' s] eqn:Hm.
  destruct (matched_answer _ _ _ _ _ Hrow Hm) as (updated & Hup & Hst).
  pose proof (matched_accounts _ _ _ _ _ Hm) as (Hr & _ & _).
  pose proof (processOrder_matched _ _ _ _ _ Hrej Hm) as Hrun.
  cbv zeta in Hrun.
  unfold writeRejected, settledTrades. rewrite Hrej, Hm. cbn [negb andb snd].
  destruct (Loop.thrown s) eqn:Ht.
  - eexists _, _, _. split; [exact Hrun|].
    split; [intros s0 m; by eapply matched_ids|]. split; [done|].
    unfold matched in Hm. apply walkLevels_short in Hm; [|done..]. lia.
  - assert (Loop.remainingSize s = 0) as Hz.
    { unfold matched, crossesFor in Hm. rewrite Hty in Hm.
      eapply (walkLevels_scanned order _ _ 0); [exact Hm|done|simpl; lia..|].
      exact Hscan. }
    assert (booksRemainder order (Loop.remainingSize s) = false) as Hbook.
    { unfold booksRemainder. by rewrite Hz. }
    rewrite Hbook, Hup in Hrun.
    eexists _, _, _. split; [exact Hrun|].
    split; [intros s0 m; by eapply matched_ids|].
    exists updated, (Loop.trades s). split; [done|]. split; [lia|].
    rewrite Hst, Hz. unfold settledStatus, determineOrderStatus.
    rewrite Hty. simpl. rewrite Z.sub_0_r, Z.eqb_refl. done.
Qed.

(** X18 at a fill-or-kill YES order at 0.60 for 50 that meets the resting NO
    limit at 0.60 for 50. *)
Lemma X18_accepted_fok_fills_whole_witness :
  ∃ e' st' out,
    processOrder fokYes060for50_order (System.engine afterRestingNo060)
      fokYes060for50_storage
    = (e', st', out)
    ∧ (∀ s marketId,
         bookIds (bookOf s marketId e')
         ≡ₚ bookIds (bookOf s marketId (System.engine afterRestingNo060)))
    ∧ if writeRejected fokYes060for50_order (System.engine afterRestingNo060)
           fokYes060for50_storage
      then out = Threw
           ∧ tradedSize
               (settledTrades fokYes060for50_order
                  (System.engine afterRestingNo060) fokYes060for50_storage)
             < Order.size fokYes060for50_order
      else ∃ updated trades,
             out = Returned (MatchResult.mk (Some updated) trades None None)
             ∧ tradedSize trades = Order.size fokYes060for50_order
             ∧ Order.status updated = FILLED.
Proof.
  apply (X18_accepted_fok_fills_whole fokYes060for50_order
           (System.engine afterRestingNo060) fokYes060for50_storage).
  - reflexivity.
  - vm_compute. discriminate.
  - vm_compute. reflexivity.
  - eexists. vm_compute. reflexivity.
Defined.

(** The two ends of an accepted fill-or-kill order: the order for 50 is
    FILLED with one trade of 50; the fill-or-kill order of "uma", accepted
    by the pre-scan, throws on the rejected write of her position, and its
    trade stays in the table. *)
Example accepted_fok_ends :
  writeRejected fokYes060for50_order (System.engine afterRestingNo060)
    fokYes060for50_storage
  = false
  ∧ map Trade.size
      (settledTrades fokYes060for50_order (System.engine afterRestingNo060)
         fokYes060for50_storage)
    = [50000000]
  ∧ fokRejected (umaSellsAt060_order FOK) (System.engine afterUmaLongBenBids)
    = false
  ∧ writeRejected (umaSellsAt060_order FOK) (System.engine afterUmaLongBenBids)
      (umaSellsAt060_storage FOK)
    = true
  ∧ snd (processOrder (umaSellsAt060_order FOK)
           (System.engine afterUmaLongBenBids) (umaSellsAt060_storage FOK))
    = Threw
  ∧ producedTrades (umaSellsAt060_order FOK) (System.engine afterUmaLongBenBids)
      (umaSellsAt060_storage FOK)
    = [tradeUmaBen].
Proof. repeat split; vm_compute; reflexivity. Qed.

(** ** MARKET orders *)

Lemma anyList_sorted (l : list Z) : StronglySorted (leKey (λ _, 0)) l.
Proof.
  induction l as [|x l IH]; constructor; [done|].
  apply Forall_forall. intros y _. unfold leKey. lia.
Qed.

Lemma settledStatus_resting order s trades :
  Order.type order = LIMIT ∨ Order.type order = MARKET →
  Loop.remainingSize s = Order.size order - tradedSize trades →
  settledStatus order (Loop.remainingSize s) = restingStatus order trades.
Proof.
  intros Hty Hr. unfold settledStatus, restingStatus, determineOrderStatus.
  rewrite Hr.
  replace (Order.size order - (Order.size order - tradedSize trades))
    with (tradedSize trades) by lia.
  rewrite bool_decide_eq_false_2 by (destruct Hty as [-> | ->]; discriminate).
  simpl. by destruct Hty as [-> | ->].
Qed.

(** X19: a MARKET order that has its row in the table is never booked,
    whatever is left of it.  Unless the database rejects a write of the
    matching pass, and [processOrder] throws, it returns the order FILLED
    when its trades cover its size, else PARTIAL when it traded, else
    PENDING (not CANCELLED); when its trades fall short of its size, it has
    gone through every level: no order of the opposite book has a positive
    remainder left. *)
Theorem X19_market_order_never_rests (order : Order.t) (e : Engine.t)
    (st : Storage.t) :
  Order.type order = MARKET →
  is_Some (Storage.orders st !! Order.id order) →
  ∃ e' st' out,
    processOrder order e st = (e', st', out)
    ∧ (∀ s marketId,
         bookIds (bookOf s marketId e') ≡ₚ bookIds (bookOf s marketId e))
    ∧ if writeRejected order e st
      then out = Threw
      else ∃ updated trades,
             out = Returned (MatchResult.mk (Some updated) trades None None)
             ∧ Order.status updated = restingStatus order trades
             ∧ (tradedSize trades < Order.size order →
                Forall (λ l, ¬ hasLive l) (oppositeBook order e')).
Proof.
  intros Hty Hrow.
  assert (fokRejected order e = false) as Hrej.
  { unfold fokRejected. by rewrite Hty. }
  destruct (matched order e st) as [view' s] eqn:Hm.
  destruct (matched_answer _ _ _ _ _ Hrow Hm) as (updated & Hup & Hst).
  assert (booksRemainder order (Loop.remainingSize s) = false) as Hbook.
  { unfold booksRemainder. rewrite Hty. simpl. by rewrite andb_false_r. }
  pose proof (matched_accounts _ _ _ _ _ Hm) as (Hr & _ & _).
  pose proof (processOrder_matched _ _ _ _ _ Hrej Hm) as Hrun.
  cbv zeta in Hrun.
  unfold writeRejected. rewrite Hrej, Hm. cbn [negb andb snd].
  destruct (Loop.thrown s) eqn:Ht.
  - eexists _, _, _. split; [exact Hrun|].
    split; [intros s0 m; by eapply matched_ids|done].
  - rewrite Hbook, Hup in Hrun.
    eexists _, _, _. split; [exact Hrun|].
    split; [intros s0 m; by eapply matched_ids|].
    exists updated, (Loop.trades s). split; [done|]. split.
    + rewrite Hst. apply settledStatus_resting; auto.
    + intros Hshort. unfold oppositeBook.
      rewrite (bookOf_after_match _ _ _ _ _ _ _ Hm), decide_True by done.
      unfold matched, crossesFor in Hm. rewrite Hty in Hm.
      apply Forall_forall. intros l Hl.
      eapply (walkLevels_drained (λ _, true) order (λ _, 0));
        [done|apply anyList_sorted|exact Hm|done|lia|exact Hl|done].
Qed.

(** X19 at a MARKET YES order for 100 that meets the resting NO limit at
    0.60 for 50. *)
Lemma X19_market_order_never_rests_witness :
  ∃ e' st' out,
    processOrder marketYes100_order (System.engine afterRestingNo060)
      marketYes100_storage
    = (e', st', out)
    ∧ (∀ s marketId,
         bookIds (bookOf s marketId e')
         ≡ₚ bookIds (bookOf s marketId (System.engine afterRestingNo060)))
    ∧ if writeRejected marketYes100_order (System.engine afterRestingNo060)
           marketYes100_storage
      then out = Threw
      else ∃ updated trades,
             out = Returned (MatchResult.mk (Some updated) trades None None)
             ∧ Order.status updated = restingStatus marketYes100_order trades
             ∧ (tradedSize trades < Order.size marketYes100_order →
                Forall (λ l, ¬ hasLive l) (oppositeBook marketYes100_order e')).
Proof.
  apply (X19_market_order_never_rests marketYes100_order
           (System.engine afterRestingNo060) marketYes100_storage).
  - reflexivity.
  - eexists. vm_compute. reflexivity.
Defined.

(** The MARKET order for 100 returns PARTIAL with one trade of 50; the
    MARKET order with which "uma" closes her position throws. *)
Example market_order_ends :
  (∃ e' st' updated trades,
     processOrder marketYes100_order (System.engine afterRestingNo060)
       marketYes100_storage
     = (e', st', Returned (MatchResult.mk (Some updated) trades None None))
     ∧ Order.status updated = PARTIAL
     ∧ map Trade.size trades = [50000000])
  ∧ snd (processOrder (umaSellsAt060_order MARKET)
           (System.engine afterUmaLongBenBids) (umaSellsAt060_storage MARKET))
    = Threw.
Proof.
  split; [|vm_compute; reflexivity].
  eexists _, _, _, _. split; [vm_compute; reflexivity|]. by split.
Qed.

(** ** LIMIT orders *)

(** X20: what is left of a LIMIT order rests.  For a LIMIT order whose row
    is in the table and whose id no order of the opposite book carries,
    [processOrder] returns the order's row with the sizes of its trades
    added to [filled], in status FILLED, PARTIAL or PENDING.  When the
    trades cover the size, the book of the order's side is as before;
    otherwise that row goes into it through [addToOrderBook], behind the
    queue at its price.  When the database rejects a write of the matching
    pass, [processOrder] throws instead and the book of the order's side is
    as before: what is left of the order does not rest. *)
Theorem X20_limit_remainder_rests (order : Order.t) (e : Engine.t)
    (st : Storage.t) :
  Order.type order = LIMIT →
  Storage.orders st !! Order.id order = Some order →
  Order.id order ∉ bookIds (oppositeBook order e) →
  ∃ e' st' out,
    processOrder order e st = (e', st', out)
    ∧ if writeRejected order e st
      then out = Threw
           ∧ bookOf (Order.side order) (Order.marketId order) e'
             = bookOf (Order.side order) (Order.marketId order) e
      else ∃ trades,
             out
             = Returned
                 (MatchResult.mk (Some (rowAfter order trades)) trades None None)
             ∧ bookOf (Order.side order) (Order.marketId order) e'
               = if tradedSize trades =? Order.size order
                 then bookOf (Order.side order) (Order.marketId order) e
                 else addToBook (rowAfter order trades)
                        (bookOf (Order.side order) (Order.marketId order) e).
Proof.
  intros Hty Hrow Hfresh.
  assert (fokRejected order e = false) as Hrej.
  { unfold fokRejected. by rewrite Hty. }
  destruct (matched order e st) as [view' s] eqn:Hm.
  assert (bookOf (Order.side order) (Order.marketId order)
            (writeBack (Order.marketId order)
               (oppositeSide (Order.side order)) view'
               (sortedQueues (Order.marketId order)
                  (oppositeSide (Order.side order)) e))
          = bookOf (Order.side order) (Order.marketId order) e) as Hown.
  { rewrite (bookOf_after_match _ _ _ _ _ _ _ Hm).
    rewrite decide_False; [done|].
    intros [H _]. symmetry in H. by apply oppositeSide_ne in H. }
  pose proof (processOrder_matched _ _ _ _ _ Hrej Hm) as Hrun.
  cbv zeta in Hrun.
  unfold writeRejected. rewrite Hrej, Hm. cbn [negb andb snd].
  destruct (Loop.thrown s) eqn:Ht.
  { eexists _, _, _. split; [exact Hrun|]. by split. }
  assert (tracksRow order order s) as Htrack.
  { unfold matched in Hm.
    eapply walkLevels_row; [|exact Hm|].
    - unfold oppositeView. by rewrite sortLevel_ids.
    - unfold tracksRow. simpl. by rewrite with_filled_same. }
  destruct (matched_accounts _ _ _ _ _ Hm) as (Hrem & Hcum & _).
  pose proof (settledStatus_resting order s (Loop.trades s) (or_introl Hty) Hrem)
    as Hstatus.
  assert (fst (updateOrderStatus (Order.id order)
                 (settledStatus order (Loop.remainingSize s)) (Loop.storage s))
          = Some (rowAfter order (Loop.trades s))) as Hup.
  { rewrite updateOrderStatus_fst, Htrack. simpl.
    unfold rowAfter. by rewrite Hstatus, Hcum. }
  rewrite Hup in Hrun.
  assert (booksRemainder order (Loop.remainingSize s)
          = negb (tradedSize (Loop.trades s) =? Order.size order)) as Hbook.
  { unfold booksRemainder. rewrite Hstatus, Hty, Hrem.
    rewrite bool_decide_eq_true_2 by done. unfold restingStatus.
    destruct (Z.eqb_spec (tradedSize (Loop.trades s)) (Order.size order))
      as [Heq|Hne].
    - rewrite (proj2 (Z.eqb_eq _ _)) by lia. done.
    - destruct (Z.eqb_spec (Order.size order - tradedSize (Loop.trades s)) 0);
        [lia|].
      by destruct (0 <? tradedSize (Loop.trades s)). }
  rewrite Hbook in Hrun.
  destruct (tradedSize (Loop.trades s) =? Order.size order) eqn:Hfull;
    cbn [negb] in Hrun; (eexists _, _, _; split; [exact Hrun|]).
  - exists (Loop.trades s). split; [done|]. rewrite Hfull. exact Hown.
  - exists (Loop.trades s). split; [done|]. rewrite Hfull.
    rewrite bookOf_addToOrderBook. rewrite decide_True by done.
    cbn [rowAfter Order.side Order.marketId Order.with_status Order.with_filled].
    by rewrite Hown.
Qed.

(** X20 at the YES limit at 0.60 for 100 that meets the resting NO limit at
    0.40 for 30: it rests with 70 left. *)
Lemma X20_limit_remainder_rests_witness :
  ∃ e' st' out,
    processOrder yes060over30_order (System.engine afterNo040for30)
      yes060over30_storage
    = (e', st', out)
    ∧ if writeRejected yes060over30_order (System.engine afterNo040for30)
           yes060over30_storage
      then out = Threw
           ∧ bookOf (Order.side yes060over30_order)
               (Order.marketId yes060over30_order) e'
             = bookOf (Order.side yes060over30_order)
                 (Order.marketId yes060over30_order)
                 (System.engine afterNo040for30)
      else ∃ trades,
             out
             = Returned
                 (MatchResult.mk (Some (rowAfter yes060over30_order trades))
                    trades None None)
             ∧ bookOf (Order.side yes060over30_order)
                 (Order.marketId yes060over30_order) e'
               = if tradedSize trades =? Order.size yes060over30_order
                 then bookOf (Order.side yes060over30_order)
                        (Order.marketId yes060over30_order)
                        (System.engine afterNo040for30)
                 else addToBook (rowAfter yes060over30_order trades)
                        (bookOf (Order.side yes060over30_order)
                           (Order.marketId yes060over30_order)
                           (System.engine afterNo040for30)).
Proof.
  apply (X20_limit_remainder_rests yes060over30_order
           (System.engine afterNo040for30) yes060over30_storage).
  - reflexivity.
  - vm_compute. reflexivity.
  - change (bookIds _) with ["S1"%string].
    intros H%list_elem_of_singleton. discriminate H.
Defined.

(** The order for 100 trades 30 and rests, PARTIAL, as the one order of the
    YES book; the limit order with which "uma" closes her position throws,
    and the NO book stays empty. *)
Example limit_remainder_ends :
  writeRejected yes060over30_order (System.engine afterNo040for30)
    yes060over30_storage
  = false
  ∧ map Trade.size
      (settledTrades yes060over30_order (System.engine afterNo040for30)
         yes060over30_storage)
    = [30000000]
  ∧ bookOrders
      (bookOf YES "m"
         (engineAfter yes060over30_order (System.engine afterNo040for30)
            yes060over30_storage))
    = [Order.mk "B1" "m" "buyer" YES LIMIT 6000 100000000 30000000 PARTIAL 2]
  ∧ writeRejected (umaSellsAt060_order LIMIT) (System.engine afterUmaLongBenBids)
      (umaSellsAt060_storage LIMIT)
    = true
  ∧ bookOrders
      (bookOf NO "m"
         (engineAfter (umaSellsAt060_order LIMIT)
            (System.engine afterUmaLongBenBids) (umaSellsAt060_storage LIMIT)))
    = bookOrders (bookOf NO "m" (System.engine afterUmaLongBenBids)).
Proof. repeat split; vm_compute; reflexivity. Qed.

(** ** Matching does not read the storage *)

Section storage_relation.
Variable R : Storage.t → Storage.t → Prop.
Hypothesis R_executeTrade :
  ∀ order o m p a b,
    R a b →
    fst (executeTrade order o m p a) = fst (executeTrade order o m p b)
    ∧ R (snd (executeTrade order o m p a)) (snd (executeTrade order o m p b)).
Hypothesis R_filled :
  ∀ k f a b, R a b → R (updateOrderFilled k f a) (updateOrderFilled k f b).
Hypothesis R_status :
  ∀ k c a b,
    R a b → R (snd (updateOrderStatus k c a)) (snd (updateOrderStatus k c b)).
Hypothesis R_prices :
  ∀ m y n a b,
    R a b →
    R (storage_updateMarketPrices m y n a) (storage_updateMarketPrices m y n b).

Lemma fill_rel order o m p s st2 :
  R (Loop.storage s) st2 →
  ∃ st2',
    fill order o m p (withStorage st2 s)
    = (fst (fill order o m p s), withStorage st2' (snd (fill order o m p s)))
    ∧ R (Loop.storage (snd (fill order o m p s))) st2'.
Proof.
  intros H. destruct (R_executeTrade order o m p _ _ H) as [Hf HR].
  unfold fill.
  cbn [withStorage Loop.storage Loop.remainingSize Loop.orderCumulativeFilled
       Loop.trades Loop.thrown].
  destruct (executeTrade order o m p (Loop.storage s)) as [[t|] sa];
    destruct (executeTrade order o m p st2) as [[t'|] sb];
    cbn [fst snd] in *; simplify_eq.
  - eexists. split; [reflexivity|].
    cbn [snd Loop.storage Order.size Order.filled Order.id Order.with_filled].
    destruct (_ =? _); [apply R_status|]; by apply R_filled, R_filled.
  - eexists. split; [reflexivity|]. done.
Qed.

Lemma matchOne_rel order p o s o' s' st2 :
  matchOne order p o s = (o', s') →
  R (Loop.storage s) st2 →
  ∃ st2',
    matchOne order p o (withStorage st2 s) = (o', withStorage st2' s')
    ∧ R (Loop.storage s') st2'.
Proof.
  intros H Hs. unfold matchOne in *. cbn [withStorage Loop.remainingSize].
  destruct (0 <? Z.min (Loop.remainingSize s) (Order.remaining o)).
  - destruct (fill_rel order o (Z.min (Loop.remainingSize s) (Order.remaining o))
                p s st2 Hs) as (st2' & Hfill & HR).
    rewrite H in Hfill, HR. by exists st2'.
  - simplify_eq. by exists st2.
Qed.

Lemma stopped_withStorage st2 s : stopped s → stopped (withStorage st2 s).
Proof. done. Qed.

Lemma matchLevel_running order p o rest s :
  running s →
  matchLevel order p (o :: rest) s
  = let '(o', s1) := matchOne order p o s in
    let '(rest', s2) := matchLevel order p rest s1 in
    (o' :: rest', s2).
Proof.
  intros [Ht Hr]. simpl. by rewrite Ht, (proj2 (Z.eqb_neq _ _) Hr).
Qed.

Lemma walkLevels_running crosses order l rest s :
  running s →
  walkLevels crosses order (l :: rest) s
  = if crosses (Entry.price l) then
      let '(os, s1) := matchLevel order (Entry.price l) (Entry.orders l) s in
      let '(rest', s2) := walkLevels crosses order rest s1 in
      (Entry.mk (Entry.price l) (Entry.size l) os :: rest', s2)
    else (l :: rest, s).
Proof.
  intros [Ht Hr]. simpl. by rewrite Ht, (proj2 (Z.eqb_neq _ _) Hr).
Qed.

Lemma matchLevel_rel order p orders s orders' s' :
  matchLevel order p orders s = (orders', s') →
  ∀ st2, R (Loop.storage s) st2 →
  ∃ st2',
    matchLevel order p orders (withStorage st2 s) = (orders', withStorage st2' s')
    ∧ R (Loop.storage s') st2'.
Proof.
  revert orders s orders' s'.
  apply (matchLevel_elim order p
           (λ orders s orders' s',
              ∀ st2, R (Loop.storage s) st2 →
              ∃ st2',
                matchLevel order p orders (withStorage st2 s)
                = (orders', withStorage st2' s')
                ∧ R (Loop.storage s') st2')).
  - intros s st2 Hs. by exists st2.
  - intros o rest s Hz st2 Hs. exists st2. split; [|done].
    by apply matchLevel_stopped, stopped_withStorage.
  - intros o rest s o' s1 rest' s2 Hrun H1 _ IH st2 Hs.
    destruct (matchOne_rel _ _ _ _ _ _ _ H1 Hs) as (st1' & E1 & HR1).
    destruct (IH _ HR1) as (st2' & E2 & HR2).
    exists st2'. split; [|done].
    rewrite matchLevel_running by done. by rewrite E1, E2.
Qed.

Lemma walkLevels_rel crosses order book s book' s' :
  walkLevels crosses order book s = (book', s') →
  ∀ st2, R (Loop.storage s) st2 →
  ∃ st2',
    walkLevels crosses order book (withStorage st2 s)
    = (book', withStorage st2' s')
    ∧ R (Loop.storage s') st2'.
Proof.
  revert book s book' s'.
  apply (walkLevels_elim crosses order
           (λ book s book' s',
              ∀ st2, R (Loop.storage s) st2 →
              ∃ st2',
                walkLevels crosses order book (withStorage st2 s)
                = (book', withStorage st2' s')
                ∧ R (Loop.storage s') st2')).
  - intros s st2 Hs. by exists st2.
  - intros l rest s Hz st2 Hs. exists st2. split; [|done].
    by apply walkLevels_stopped, stopped_withStorage.
  - intros l rest s Hrun Hc st2 Hs. exists st2. split; [|done].
    rewrite walkLevels_running by done. by rewrite Hc.
  - intros l rest s os s1 rest' s2 Hrun Hc H1 _ IH st2 Hs.
    destruct (matchLevel_rel _ _ _ _ _ _ H1 _ Hs) as (st1' & E1 & HR1).
    destruct (IH _ HR1) as (st2' & E2 & HR2).
    exists st2'. split; [|done].
    rewrite walkLevels_running by done. by rewrite Hc, E1, E2.
Qed.

Lemma matched_rel order e st1 st2 :
  R st1 st2 →
  ∃ st2',
    matched order e st2
    = (fst (matched order e st1), withStorage st2' (snd (matched order e st1)))
    ∧ R (Loop.storage (snd (matched order e st1))) st2'.
Proof.
  intros H. destruct (matched order e st1) as [view' s] eqn:Hm.
  unfold matched in *.
  destruct (walkLevels_rel _ _ _ _ _ _ Hm st2 H) as (st2' & E & HR).
  by exists st2'.
Qed.

(** Two storages that [R] relates and that answer alike for the order's id
    lead [processOrder] to the same engine and the same outcome. *)
Lemma processOrder_rel order e st1 st2 :
  (∀ c a b, R a b →
            fst (updateOrderStatus (Order.id order) c a)
            = fst (updateOrderStatus (Order.id order) c b)) →
  R st1 st2 →
  engineAfter order e st1 = engineAfter order e st2
  ∧ snd (processOrder order e st1) = snd (processOrder order e st2)
  ∧ R (storageAfter order e st1) (storageAfter order e st2).
Proof.
  intros Hanswer H. unfold engineAfter, storageAfter.
  destruct (fokRejected order e) eqn:Hrej.
  - rewrite !processOrder_rejected by done. cbn [fst snd].
    rewrite (Hanswer CANCELLED st1 st2 H). split; [done|]. split; [done|].
    by apply R_status.
  - destruct (matched_rel order e st1 st2 H) as (st2' & Hm2 & HR).
    destruct (matched order e st1) as [view' s] eqn:Hm1. cbn [fst snd] in *.
    rewrite (processOrder_matched _ _ _ _ _ Hrej Hm1).
    rewrite (processOrder_matched _ _ _ _ _ Hrej Hm2). cbv zeta.
    cbn [withStorage Loop.remainingSize Loop.storage Loop.trades Loop.thrown].
    rewrite (Hanswer _ _ _ HR).
    destruct (Loop.thrown s);
      [|destruct (booksRemainder _ _);
        [destruct (fst (updateOrderStatus _ _ st2')) as [booked|]|]];
      cbn [fst snd]; (split; [done|]); (split; [done|]).
    + done.
    + by apply R_prices, R_status.
    + by apply R_status.
    + by apply R_prices, R_status.
Qed.
End storage_relation.

(** [executeTrade] reads of the storage whether the two orders have rows,
    and the positions. *)
Lemma executeTrade_agree orderId order o m p a b :
  agreeExcept orderId a b → sameRows a b →
  fst (executeTrade order o m p a) = fst (executeTrade order o m p b)
  ∧ agreeExcept orderId (snd (executeTrade order o m p a))
      (snd (executeTrade order o m p b))
  ∧ sameRows (snd (executeTrade order o m p a))
      (snd (executeTrade order o m p b)).
Proof.
  intros (Ho & Ht & Hp & Hm) Hrows.
  pose proof (executeTrade_storage order o m p a) as (Hoa & Hma & _).
  pose proof (executeTrade_storage order o m p b) as (Hob & Hmb & _).
  assert (fst (executeTrade order o m p a) = fst (executeTrade order o m p b)
          ∧ Storage.trades (snd (executeTrade order o m p a))
            = Storage.trades (snd (executeTrade order o m p b))
          ∧ Storage.positions (snd (executeTrade order o m p a))
            = Storage.positions (snd (executeTrade order o m p b)))
    as (Hf & Ht' & Hp').
  { unfold executeTrade, createTrade.
    rewrite (bool_decide_ext
               (is_Some (Storage.orders a !! _) ∧ is_Some (Storage.orders a !! _))
               (is_Some (Storage.orders b
                           !! Trade.buyOrderId (tradeData order o m p))
                ∧ is_Some (Storage.orders b
                             !! Trade.sellOrderId (tradeData order o m p))))
      by (split; intros [H1 H2]; split; by apply Hrows).
    destruct (bool_decide _); [|done].
    unfold updatePositions, positionRejected, updateOrCreatePosition.
    cbn [Storage.positions Storage.trades fst snd]. rewrite Hp, Ht.
    destruct (rejectsPosition _ _ _ _ _ _); [done|].
    cbn [Storage.positions Storage.trades fst snd].
    by destruct (rejectsPosition _ _ _ _ _ _). }
  split; [done|]. split.
  - split; [|by rewrite Hma, Hmb, Hm]. intros k Hk. rewrite Hoa, Hob. by apply Ho.
  - intros k. rewrite Hoa, Hob. apply Hrows.
Qed.

Lemma sameRows_alter (g : Order.t → Order.t) j a b a' b' :
  sameRows a b →
  Storage.orders a' = alter g j (Storage.orders a) →
  Storage.orders b' = alter g j (Storage.orders b) →
  sameRows a' b'.
Proof.
  intros H Ea Eb k. rewrite Ea, Eb. destruct (decide (j = k)) as [->|Hne].
  - rewrite !lookup_alter_eq, !fmap_is_Some. apply H.
  - rewrite !lookup_alter_ne by done. apply H.
Qed.

Lemma agreeExcept_alter k (g : Order.t → Order.t) j a b :
  (∀ i, i ≠ k → Storage.orders a !! i = Storage.orders b !! i) →
  ∀ i, i ≠ k →
       alter g j (Storage.orders a) !! i = alter g j (Storage.orders b) !! i.
Proof.
  intros H i Hi. destruct (decide (j = i)) as [->|Hne].
  - rewrite !lookup_alter_eq. by rewrite H.
  - rewrite !lookup_alter_ne by done. by apply H.
Qed.

Lemma agreeExcept_cancelOrder k st : agreeExcept k (cancelOrder k st) st.
Proof.
  split; [|done]. intros i Hi. unfold cancelOrder. simpl.
  by rewrite lookup_alter_ne.
Qed.

(** X21: cancelling does not reach the books.  [cancelOrder], which is all
    the route DELETE /api/orders/:id calls, changes the row of that id in
    the table and nothing in the engine: a later [processOrder] of another
    order leaves the same engine, returns the same result with the same
    trades, and leaves the same trades, positions, prices and rows under
    every other id, as when the order had not been cancelled.  The cancelled
    order still trades. *)
Theorem X21_cancel_does_not_reach_the_books (orderId : string)
    (order : Order.t) (e : Engine.t) (st : Storage.t) :
  Order.id order ≠ orderId →
  engineAfter order e (cancelOrder orderId st) = engineAfter order e st
  ∧ snd (processOrder order e (cancelOrder orderId st))
    = snd (processOrder order e st)
  ∧ agreeExcept orderId (storageAfter order e (cancelOrder orderId st))
      (storageAfter order e st).
Proof.
  intros Hne.
  cut (engineAfter order e (cancelOrder orderId st) = engineAfter order e st
       ∧ snd (processOrder order e (cancelOrder orderId st))
         = snd (processOrder order e st)
       ∧ agreeExcept orderId (storageAfter order e (cancelOrder orderId st))
           (storageAfter order e st)
         ∧ sameRows (storageAfter order e (cancelOrder orderId st))
             (storageAfter order e st)).
  { by intros (He & Hout & Hst & _). }
  apply (processOrder_rel (λ a b, agreeExcept orderId a b ∧ sameRows a b)).
  - intros order0 o m p a b [Hag Hrows].
    destruct (executeTrade_agree orderId order0 o m p a b Hag Hrows)
      as (? & ? & ?).
    done.
  - intros k f a b [(Ho & Ht & Hp & Hm) Hrows]. split.
    + split; [|done]. by apply agreeExcept_alter.
    + by apply (sameRows_alter (Order.with_filled f) k a b).
  - intros k c a b [(Ho & Ht & Hp & Hm) Hrows]. split.
    + split; [|done]. by apply agreeExcept_alter.
    + by apply (sameRows_alter (Order.with_status c) k a b).
  - intros m y n a b [(Ho & Ht & Hp & Hm) Hrows]. split; [|done].
    split; [done|]. simpl. by rewrite Hm.
  - intros c a b [(Ho & _) _]. rewrite !updateOrderStatus_fst. by rewrite Ho.
  - split; [apply agreeExcept_cancelOrder|].
    intros k. unfold cancelOrder, updateOrderStatus. simpl.
    destruct (decide (orderId = k)) as [->|Hk].
    + by rewrite lookup_alter_eq, fmap_is_Some.
    + by rewrite lookup_alter_ne.
Qed.

(** X21 at the resting YES limit at 0.60, cancelled before the NO limit at
    0.40 comes in. *)
Lemma X21_cancel_does_not_reach_the_books_witness :
  engineAfter incomingNo040_order (System.engine afterRestingYes060)
    (cancelOrder "Y1" incomingNo040_storage)
  = engineAfter incomingNo040_order (System.engine afterRestingYes060)
      incomingNo040_storage
  ∧ snd (processOrder incomingNo040_order (System.engine afterRestingYes060)
           (cancelOrder "Y1" incomingNo040_storage))
    = snd (processOrder incomingNo040_order (System.engine afterRestingYes060)
             incomingNo040_storage)
  ∧ agreeExcept "Y1"
      (storageAfter incomingNo040_order (System.engine afterRestingYes060)
         (cancelOrder "Y1" incomingNo040_storage))
      (storageAfter incomingNo040_order (System.engine afterRestingYes060)
         incomingNo040_storage).
Proof.
  apply (X21_cancel_does_not_reach_the_books "Y1" incomingNo040_order
           (System.engine afterRestingYes060) incomingNo040_storage).
  discriminate.
Defined.

(** ** The prices published *)

(** X22: when [processOrder] has matched an order that has its row in the
    table, the prices it writes for the order's market are the prices of
    the first levels of the YES and the NO book as the call leaves them
    (0.5 for an empty book), whether or not those levels still hold a
    remainder; no other market's prices change.  A rejected fill-or-kill
    order writes no price, and neither does a call that throws on a write
    the database rejects. *)
Theorem X22_first_levels_published (order : Order.t) (e : Engine.t)
    (st : Storage.t) :
  is_Some (Storage.orders st !! Order.id order) →
  Storage.marketPrices (storageAfter order e st)
  = if fokRejected order e || writeRejected order e st
    then Storage.marketPrices st
    else alter
           (λ _, (topPrice (bookOf YES (Order.marketId order)
                              (engineAfter order e st)),
                  topPrice (bookOf NO (Order.marketId order)
                              (engineAfter order e st))))
           (Order.marketId order) (Storage.marketPrices st).
Proof.
  intros Hrow. unfold storageAfter, engineAfter, writeRejected.
  destruct (fokRejected order e) eqn:Hrej.
  - by rewrite processOrder_rejected.
  - destruct (matched order e st) as [view' s] eqn:Hm.
    destruct (matched_answer _ _ _ _ _ Hrow Hm) as (updated & Hup & _).
    assert (Storage.marketPrices (Loop.storage s) = Storage.marketPrices st)
      as Hkept.
    { unfold matched in Hm.
      apply (walkLevels_keeps
               (λ st', Storage.marketPrices st' = Storage.marketPrices st))
        in Hm; try done.
      intros t st0 t' st1 Hct.
      apply createTrade_storage in Hct as (_ & _ & _ & _ & -> & _). done. }
    rewrite (processOrder_matched _ _ _ _ _ Hrej Hm). cbv zeta. rewrite Hup.
    cbn [negb andb orb snd].
    destruct (Loop.thrown s); [done|].
    destruct (booksRemainder _ _); cbn [fst snd]; simpl; by rewrite Hkept.
Qed.

(** X22 at the YES limit at 0.60 for 100 that meets the resting NO limit at
    0.40 for 30, with the market's row in the table. *)
Lemma X22_first_levels_published_witness :
  Storage.marketPrices
    (storageAfter yes060over30_order (System.engine afterNo040for30)
       (withMarket "m" yes060over30_storage))
  = if fokRejected yes060over30_order (System.engine afterNo040for30)
       || writeRejected yes060over30_order (System.engine afterNo040for30)
            (withMarket "m" yes060over30_storage)
    then Storage.marketPrices (withMarket "m" yes060over30_storage)
    else alter
           (λ _, (topPrice
                    (bookOf YES (Order.marketId yes060over30_order)
                       (engineAfter yes060over30_order
                          (System.engine afterNo040for30)
                          (withMarket "m" yes060over30_storage))),
                  topPrice
                    (bookOf NO (Order.marketId yes060over30_order)
                       (engineAfter yes060over30_order
                          (System.engine afterNo040for30)
                          (withMarket "m" yes060over30_storage)))))
           (Order.marketId yes060over30_order)
           (Storage.marketPrices (withMarket "m" yes060over30_storage)).
Proof.
  apply (X22_first_levels_published yes060over30_order
           (System.engine afterNo040for30) (withMarket "m" yes060over30_storage)).
  eexists. vm_compute. reflexivity.
Defined.

(** The market's row goes from 0.5 and 0.5 to 0.60, where the order rests,
    and 0.40, the level of the NO order it has filled whole. *)
Example prices_after_partial_fill :
  Storage.marketPrices (withMarket "m" yes060over30_storage) !! "m"
  = Some (5000, 5000)
  ∧ Storage.marketPrices
      (storageAfter yes060over30_order (System.engine afterNo040for30)
         (withMarket "m" yes060over30_storage)) !! "m"
    = Some (6000, 4000).
Proof. split; vm_compute; reflexivity. Qed.

(** ** No order is filled beyond its size *)

Lemma hasRow_rowsKept o st st' : rowsKept st st' → hasRow o st → hasRow o st'.
Proof.
  intros Hk (row & Hrow & Hsize). specialize (Hk (Order.id o)).
  rewrite Hrow in Hk. inversion Hk as [r r' (f & c & ->) Hr Hr'|]; subst.
  eexists. split; [done|]. done.
Qed.

Lemma hasRow_grown o o' st : grown o o' → hasRow o st → hasRow o' st.
Proof. by intros (f & _ & ->). Qed.

Lemma rowsSound_alter (g : Order.t → Order.t) k st st' :
  rowsSound st →
  (∀ row, Storage.orders st !! k = Some row →
          Order.id (g row) = Order.id row ∧ soundFill (g row)) →
  Storage.orders st' = alter g k (Storage.orders st) →
  rowsSound st'.
Proof.
  intros Hs Hg E k' row. rewrite E.
  destruct (decide (k = k')) as [<-|Hne].
  - rewrite lookup_alter_eq.
    destruct (Storage.orders st !! k) as [r|] eqn:Hr; [|done].
    intros [= <-]. destruct (Hg r eq_refl) as [Hid Hsound].
    split; [|done]. rewrite Hid. by apply (Hs k r).
  - rewrite lookup_alter_ne by done. apply Hs.
Qed.

Lemma rowsSound_status k c st :
  rowsSound st → rowsSound (snd (updateOrderStatus k c st)).
Proof.
  intros Hs. apply (rowsSound_alter (Order.with_status c) k st); [done| |done].
  intros row Hrow. split; [done|]. by apply (Hs k row).
Qed.

Lemma rowsSound_filled k f st :
  rowsSound st →
  (∀ row, Storage.orders st !! k = Some row →
          0 ≤ f ∧ f ≤ Z.max 0 (Order.size row)) →
  rowsSound (updateOrderFilled k f st).
Proof.
  intros Hs Hf. apply (rowsSound_alter (Order.with_filled f) k st); [done| |done].
  intros row Hrow. split; [done|]. exact (Hf row Hrow).
Qed.

Lemma rowsSound_same st st' :
  Storage.orders st' = Storage.orders st → rowsSound st → rowsSound st'.
Proof. intros E H k row. rewrite E. apply H. Qed.

Lemma settled_sound order o m c st :
  rowsSound st → hasRow order st → hasRow o st →
  0 ≤ c ≤ Z.max 0 (Order.size order) →
  0 ≤ Order.filled o + m ≤ Z.max 0 (Order.size o) →
  rowsSound (settled order o m c st).
Proof.
  intros Hrows Horder Hrow Hc Hf. unfold settled.
  set (st2 := updateOrderFilled (Order.id order) c st).
  assert (rowsSound st2 ∧ rowsKept st st2) as [H2 K2].
  { split.
    - apply rowsSound_filled; [done|]. intros row Hr.
      destruct Horder as (row' & Hr' & Hsz).
      rewrite Hr in Hr'. simplify_eq. lia.
    - apply rowsKept_updateOrderFilled. }
  set (st3 := updateOrderFilled _ _ st2).
  assert (rowsSound st3) as H3.
  { apply rowsSound_filled; [done|]. intros row Hr.
    destruct (hasRow_rowsKept _ _ _ K2 Hrow) as (row' & Hr' & Hsz).
    rewrite Hr in Hr'. simplify_eq. lia. }
  destruct (_ =? _); [by apply rowsSound_status|done].
Qed.

Lemma fill_sound order o m p s :
  loopSound order s → soundFill o → hasRow o (Loop.storage s) →
  0 < m → m ≤ Loop.remainingSize s → m ≤ Order.remaining o →
  loopSound order (snd (fill order o m p s))
  ∧ soundFill (fst (fill order o m p s)).
Proof.
  intros (Hrows & Horder & Hsum & Hcum) [Ho1 Ho2] Hrow Hm Hmr Hmo.
  unfold Order.remaining in Hmo.
  pose proof (executeTrade_storage order o m p (Loop.storage s)) as (Hsame & _).
  pose proof (rowsKept_fill order o m p s) as Hkept.
  destruct (fill_cases order o m p s) as [[Hex E]|[Hex E]];
    rewrite E in *; cbn [fst snd Loop.storage] in *.
  - split; [split; [|split]|].
    + apply settled_sound; try (simpl; lia).
      * by apply (rowsSound_same (Loop.storage s)).
      * eapply hasRow_rowsKept; [apply rowsKept_executeTrade|done].
      * eapply hasRow_rowsKept; [apply rowsKept_executeTrade|done].
    + eapply hasRow_rowsKept; [exact Hkept|done].
    + simpl. lia.
    + split; simpl; lia.
  - split; [split; [|split]|].
    + by apply (rowsSound_same (Loop.storage s)).
    + eapply hasRow_rowsKept; [exact Hkept|done].
    + simpl. lia.
    + by split.
Qed.

Lemma matchOne_sound order p o s o' s' :
  matchOne order p o s = (o', s') →
  loopSound order s → soundFill o → hasRow o (Loop.storage s) →
  loopSound order s' ∧ soundFill o'.
Proof.
  intros H Hs Ho Hrow. matchOne_goes H Hm E.
  - by simplify_eq.
  - set (m := Z.min _ _) in *.
    assert (m ≤ Loop.remainingSize s ∧ m ≤ Order.remaining o) as [? ?] by lia.
    clearbody m.
    destruct (fill_sound order o m p s) as [Hloop Hfill]; try done.
    rewrite H in Hloop, Hfill. done.
Qed.

Lemma matchLevel_sound order p orders s orders' s' :
  matchLevel order p orders s = (orders', s') →
  loopSound order s →
  (∀ o, o ∈ orders → soundFill o ∧ hasRow o (Loop.storage s)) →
  loopSound order s' ∧ ∀ o', o' ∈ orders' → soundFill o'.
Proof.
  revert orders s orders' s'.
  apply (matchLevel_elim order p
           (λ orders s orders' s',
              loopSound order s →
              (∀ o, o ∈ orders → soundFill o ∧ hasRow o (Loop.storage s)) →
              loopSound order s' ∧ ∀ o', o' ∈ orders' → soundFill o')).
  - intros s Hs _. split; [done|]. by intros o' ?%elem_of_nil.
  - intros o rest s _ Hs Hall. split; [done|]. intros o' Ho'. by apply Hall.
  - intros o rest s o' s1 rest' s2 _ H1 _ IH Hs Hall.
    destruct (Hall o) as [Ho Hrow]; [apply elem_of_cons; by left|].
    destruct (matchOne_sound _ _ _ _ _ _ H1 Hs Ho Hrow) as [Hs1 Ho'].
    destruct IH as [Hs2 Hrest]; [done| |].
    { intros x Hx. destruct (Hall x) as [Hx1 Hx2]; [apply elem_of_cons; by right|].
      split; [done|].
      eapply hasRow_rowsKept; [by eapply matchOne_rowsKept|done]. }
    split; [done|]. intros x [->|Hx]%elem_of_cons; auto.
Qed.

Lemma walkLevels_sound crosses order book s book' s' :
  walkLevels crosses order book s = (book', s') →
  loopSound order s →
  (∀ o, o ∈ bookOrders book → soundFill o ∧ hasRow o (Loop.storage s)) →
  loopSound order s' ∧ ∀ o', o' ∈ bookOrders book' → soundFill o'.
Proof.
  revert book s book' s'.
  apply (walkLevels_elim crosses order
           (λ book s book' s',
              loopSound order s →
              (∀ o, o ∈ bookOrders book
                    → soundFill o ∧ hasRow o (Loop.storage s)) →
              loopSound order s' ∧ ∀ o', o' ∈ bookOrders book' → soundFill o')).
  - intros s Hs _. split; [done|]. by intros o' ?%elem_of_nil.
  - intros l rest s _ Hs Hall. split; [done|]. intros o' Ho'. by apply Hall.
  - intros l rest s _ _ Hs Hall. split; [done|]. intros o' Ho'. by apply Hall.
  - intros l rest s os s1 rest' s2 _ _ H1 _ IH Hs Hall.
    destruct (matchLevel_sound _ _ _ _ _ _ H1 Hs) as [Hs1 Hos].
    { intros o Ho. apply Hall. rewrite bookOrders_cons. apply elem_of_app. by left. }
    destruct IH as [Hs2 Hrest]; [done| |].
    { intros x Hx. destruct (Hall x) as [Hx1 Hx2].
      { rewrite bookOrders_cons. apply elem_of_app. by right. }
      split; [done|].
      eapply hasRow_rowsKept; [by eapply matchLevel_rowsKept|done]. }
    split; [done|]. intros x. rewrite bookOrders_cons. simpl.
    intros [Hx|Hx]%elem_of_app; auto.
Qed.

Lemma bookGrown_elem book book' o' :
  bookGrown book book' → o' ∈ bookOrders book' →
  ∃ o, o ∈ bookOrders book ∧ grown o o'.
Proof.
  induction 1 as [|l l' book book' (_ & _ & Ho) _ IH].
  - by intros ?%elem_of_nil.
  - rewrite !bookOrders_cons. intros [Hin|Hin]%elem_of_app.
    + clear IH. induction Ho as [|x x' os os' Hx _ IHo].
      * by apply elem_of_nil in Hin.
      * apply elem_of_cons in Hin as [->|Hin].
        -- exists x. split; [|done]. apply elem_of_app. left.
           apply elem_of_cons. by left.
        -- destruct (IHo Hin) as (o & Hoin & Hg). exists o. split; [|done].
           apply elem_of_app in Hoin as [Hoin|Hoin]; apply elem_of_app;
             [left; apply elem_of_cons; by right|by right].
    + destruct (IH Hin) as (o & Hoin & Hg). exists o. split; [|done].
      apply elem_of_app. by right.
Qed.

Lemma elem_of_addToBook r o book :
  r ∈ bookOrders (addToBook o book) → r = o ∨ r ∈ bookOrders book.
Proof.
  intros Hr. apply elem_of_bookOrders in Hr as (l' & Hl' & Hr).
  unfold addToBook in Hl'.
  assert (∀ l, l ∈ (if hasLevel (Order.price o) book then book
                    else js_sort (cmpLevels (Order.side o))
                           (book ++ [Entry.mk (Order.price o) 0 []])) →
               r ∈ Entry.orders l → r ∈ bookOrders book) as Hold.
  { intros l Hl Hrl. apply elem_of_bookOrders.
    destruct (hasLevel _ _); [by exists l|].
    rewrite (js_sort_perm (cmpLevels (Order.side o))) in Hl.
    apply elem_of_app in Hl as [Hl| ->%list_elem_of_singleton]; [by exists l|].
    by apply elem_of_nil in Hrl. }
  apply elem_of_pushToLevel in Hl' as [Hl'|(l & Hl & Hp & ->)].
  - right. by eapply Hold.
  - simpl in Hr. apply elem_of_app in Hr as [Hr| ->%list_elem_of_singleton].
    + right. by eapply Hold.
    + by left.
Qed.

Lemma processOrder_sound order e st :
  soundSystem (System.mk e st) →
  Storage.orders st !! Order.id order = Some order →
  Order.filled order = 0 →
  soundSystem (System.mk (engineAfter order e st) (storageAfter order e st)).
Proof.
  intros [Hrows Hbooks] Hrow Hfilled. simpl in *.
  unfold engineAfter, storageAfter.
  destruct (fokRejected order e) eqn:Hrej.
  - rewrite processOrder_rejected by done. cbn [fst snd].
    split; [by apply rowsSound_status|]. simpl.
    intros s m o Ho. rewrite bookOf_sortedQueues in Ho.
    assert (o ∈ bookOrders (bookOf s m e)) as Hin.
    { case_decide as H; [|done]. destruct H as [-> ->].
      by rewrite sortLevel_orders in Ho. }
    destruct (Hbooks _ _ _ Hin) as [H1 H2]. split; [done|].
    eapply hasRow_rowsKept; [apply rowsKept_updateOrderStatus|done].
  - destruct (matched order e st) as [view' s] eqn:Hm.
    pose proof Hm as Hwalk. unfold matched in Hwalk.
    pose proof (walkLevels_rowsKept _ _ _ _ _ _ Hwalk) as Hkept.
    pose proof (walkLevels_grown _ _ _ _ _ _ Hwalk) as Hgrown.
    cbn [Loop.storage] in Hkept.
    destruct (walkLevels_sound _ _ _ _ _ _ Hwalk) as [Hs Hview].
    { split; [done|]. split; [by exists order|]. simpl. lia. }
    { simpl. intros o Ho. unfold oppositeView in Ho.
      rewrite sortLevel_orders in Ho. by apply Hbooks in Ho. }
    destruct Hs as (Hrows' & _).
    set (status := settledStatus order (Loop.remainingSize s)).
    set (st2 := snd (updateOrderStatus (Order.id order) status (Loop.storage s))).
    assert (rowsSound st2) as Hrows2 by (by apply rowsSound_status).
    assert (rowsKept st st2) as Hkept2.
    { eapply rowsKept_trans; [exact Hkept|apply rowsKept_updateOrderStatus]. }
    set (e2 := writeBack (Order.marketId order) (oppositeSide (Order.side order))
                 view'
                 (sortedQueues (Order.marketId order)
                    (oppositeSide (Order.side order)) e)).
    assert (∀ s0 m o, o ∈ bookOrders (bookOf s0 m e2) →
                      soundFill o ∧ hasRow o st2) as Hbooks2.
    { intros s0 m o Ho. unfold e2 in Ho.
      rewrite (bookOf_after_match _ _ _ _ _ _ _ Hm) in Ho.
      case_decide as H.
      - destruct H as [-> ->]. split; [by apply Hview|].
        destruct (bookGrown_elem _ _ _ Hgrown Ho) as (o0 & Ho0 & Hg).
        unfold oppositeView in Ho0. rewrite sortLevel_orders in Ho0.
        apply Hbooks in Ho0 as [_ Hrow0].
        eapply hasRow_grown; [exact Hg|].
        eapply hasRow_rowsKept; [exact Hkept2|done].
      - destruct (Hbooks _ _ _ Ho) as [H1 H2]. split; [done|].
        eapply hasRow_rowsKept; [exact Hkept2|done]. }
    rewrite (processOrder_matched _ _ _ _ _ Hrej Hm). cbv zeta.
    fold status. fold e2.
    assert (∀ e0 e1,
              (∀ s0 m o, o ∈ bookOrders (bookOf s0 m e0) →
                         soundFill o ∧ hasRow o st2) →
              soundSystem
                (System.mk e0 (updateMarketPrices (Order.marketId order) e1 st2)))
      as Hpublished.
    { intros e0 e1 H0. split; [exact Hrows2|exact H0]. }
    destruct (Loop.thrown s);
      [|destruct (booksRemainder _ _);
        [destruct (fst (updateOrderStatus _ _ _)) as [booked|] eqn:Hb|]];
      cbn [fst snd].
    + split; [exact Hrows'|]. simpl. intros s0 m o Ho.
      rewrite (bookOf_after_match _ _ _ _ _ _ _ Hm) in Ho.
      case_decide as H.
      * destruct H as [-> ->]. split; [by apply Hview|].
        destruct (bookGrown_elem _ _ _ Hgrown Ho) as (o0 & Ho0 & Hg).
        unfold oppositeView in Ho0. rewrite sortLevel_orders in Ho0.
        apply Hbooks in Ho0 as [_ Hrow0].
        eapply hasRow_grown; [exact Hg|].
        eapply hasRow_rowsKept; [exact Hkept|done].
      * destruct (Hbooks _ _ _ Ho) as [H1 H2]. split; [done|].
        eapply hasRow_rowsKept; [exact Hkept|done].
    + apply Hpublished. intros s0 m o Ho.
      rewrite bookOf_addToOrderBook in Ho.
      case_decide as H; [|exact (Hbooks2 _ _ _ Ho)].
      destruct H as [-> ->].
      apply elem_of_addToBook in Ho as [->|Ho]; [|exact (Hbooks2 _ _ _ Ho)].
      assert (Storage.orders st2 !! Order.id order = Some booked) as Hb2
        by exact Hb.
      destruct (Hrows2 _ _ Hb2) as [Hid Hsound]. split; [done|].
      exists booked. by rewrite Hid.
    + split; [exact Hrows2|exact Hbooks2].
    + by apply Hpublished.
Qed.

Lemma postOrder_sound sub sys : soundSystem sys → soundSystem (postOrder sub sys).
Proof.
  intros [Hrows Hbooks]. unfold postOrder, handleOrder.
  destruct (createOrder _ _ _ _) as [[order st]|] eqn:Hc; [|done].
  apply createOrder_row in Hc as (Hfresh & Hid & Hfilled & Horders).
  pose proof (processOrder_sound order (System.engine sys) st) as H.
  unfold engineAfter, storageAfter in H.
  destruct (processOrder order (System.engine sys) st) as [[e' st'] out].
  apply H; [|by rewrite Horders, Hid, lookup_insert_eq|done].
  split; simpl.
  - intros k row. rewrite Horders.
    destruct (decide (Submission.uuid sub = k)) as [<-|Hne].
    + rewrite lookup_insert_eq. intros [= <-]. split; [done|].
      unfold soundFill. rewrite Hfilled. lia.
    + rewrite lookup_insert_ne by done. apply Hrows.
  - intros s m o Ho. destruct (Hbooks _ _ _ Ho) as [H1 (row & Hr & Hsz)].
    split; [done|]. exists row. split; [|done]. rewrite Horders.
    rewrite lookup_insert_ne; [done|]. intros Heq. rewrite <- Heq in Hr.
    by rewrite Hfresh in Hr.
Qed.

Lemma serve_sound req sys : soundSystem sys → soundSystem (serve req sys).
Proof.
  destruct req as [sub|k]; [apply postOrder_sound|].
  intros [Hrows Hbooks]. split; simpl.
  - by apply rowsSound_status.
  - intros s m o Ho. destruct (Hbooks _ _ _ Ho) as [H1 H2]. split; [done|].
    eapply hasRow_rowsKept; [apply rowsKept_updateOrderStatus|done].
Qed.

(** X23: no order is ever filled beyond its size.  Whatever orders are
    posted and cancelled, starting from an empty system, every row of the
    table of orders and every order in a book has a [filled] between 0 and
    its size (0 for an order of a size below 0); rows stay under their own
    ids, and every order of a book has its row in the table. *)
Theorem X23_no_order_is_overfilled (reqs : list Request) :
  soundSystem (serveAll reqs System.initial).
Proof.
  assert (∀ sys, soundSystem sys → soundSystem (serveAll reqs sys)) as H.
  { induction reqs as [|req reqs IH]; intros sys Hsys; simpl; [done|].
    by apply IH, serve_sound. }
  apply H. split.
  - intros k row Hk. cbn in Hk. by rewrite lookup_empty in Hk.
  - intros s m o Ho. destruct s; by apply elem_of_nil in Ho.
Qed.

(** ** Orders that have no row *)

(** An order without a row cannot trade: the insert of a trade with it is
    rejected for the foreign key of its order id. *)
Lemma executeTrade_no_row order o m p st :
  Storage.orders st !! Order.id order = None →
  executeTrade order o m p st = (None, st).
Proof.
  intros Hnone. unfold executeTrade, createTrade.
  rewrite bool_decide_eq_false_2; [done|].
  unfold tradeData. cbn [Trade.buyOrderId Trade.sellOrderId].
  intros [[x Hx] [y Hy]]. destruct (Order.side order); congruence.
Qed.

Lemma matchOne_no_row order p o s o' s' :
  matchOne order p o s = (o', s') →
  Storage.orders (Loop.storage s) !! Order.id order = None →
  Loop.storage s' = Loop.storage s
  ∧ Loop.trades s' = Loop.trades s
  ∧ Loop.remainingSize s' = Loop.remainingSize s.
Proof.
  intros H Hnone. matchOne_goes H Hm E.
  - by simplify_eq.
  - unfold fill in H. rewrite executeTrade_no_row in H by done.
    by simplify_eq.
Qed.

Lemma matchLevel_no_row order p orders s orders' s' :
  matchLevel order p orders s = (orders', s') →
  Storage.orders (Loop.storage s) !! Order.id order = None →
  Loop.storage s' = Loop.storage s
  ∧ Loop.trades s' = Loop.trades s
  ∧ Loop.remainingSize s' = Loop.remainingSize s.
Proof.
  revert orders s orders' s'.
  apply (matchLevel_elim order p
           (λ orders s orders' s',
              Storage.orders (Loop.storage s) !! Order.id order = None →
              Loop.storage s' = Loop.storage s
              ∧ Loop.trades s' = Loop.trades s
              ∧ Loop.remainingSize s' = Loop.remainingSize s)); try done.
  intros o rest s o' s1 rest' s2 _ H1 _ IH Hnone.
  destruct (matchOne_no_row _ _ _ _ _ _ H1 Hnone) as (E1 & E2 & E3).
  destruct IH as (-> & -> & ->); [by rewrite E1|done].
Qed.

Lemma walkLevels_no_row crosses order book s book' s' :
  walkLevels crosses order book s = (book', s') →
  Storage.orders (Loop.storage s) !! Order.id order = None →
  Loop.storage s' = Loop.storage s
  ∧ Loop.trades s' = Loop.trades s
  ∧ Loop.remainingSize s' = Loop.remainingSize s.
Proof.
  revert book s book' s'.
  apply (walkLevels_elim crosses order
           (λ book s book' s',
              Storage.orders (Loop.storage s) !! Order.id order = None →
              Loop.storage s' = Loop.storage s
              ∧ Loop.trades s' = Loop.trades s
              ∧ Loop.remainingSize s' = Loop.remainingSize s)); try done.
  intros l rest s os s1 rest' s2 _ _ H1 _ IH Hnone.
  destruct (matchLevel_no_row _ _ _ _ _ _ H1 Hnone) as (E1 & E2 & E3).
  destruct IH as (-> & -> & ->); [by rewrite E1|done].
Qed.

(** X24: an order whose id has no row in the table, because it was never
    inserted, never trades and is never booked.  A rejected
    fill-or-kill order is answered with the rejection.  Otherwise, when the
    order meets an order it could trade with, the insert of the trade is
    rejected for the foreign key of [trades] to [orders] and [processOrder]
    throws; when it meets none and is a LIMIT order of a size other than 0,
    [processOrder] throws as well (it reads [side] of the [undefined] that
    [updateOrderStatus] returned); in what remains it returns with [order]
    undefined and no trade.  No trade is stored, and each book keeps its
    orders. *)
Theorem X24_order_without_row (order : Order.t) (e : Engine.t)
    (st : Storage.t) :
  Storage.orders st !! Order.id order = None →
  snd (processOrder order e st)
  = (if fokRejected order e then
       Returned (MatchResult.mk None [] (Some true)
                   (Some "FOK order cannot be completely filled"%string))
     else if writeRejected order e st then Threw
     else if bool_decide (Order.type order = LIMIT)
             && negb (Order.size order =? 0)
     then Threw
     else Returned (MatchResult.mk None [] None None))
  ∧ producedTrades order e st = []
  ∧ ∀ s marketId,
      bookIds (bookOf s marketId (engineAfter order e st))
      ≡ₚ bookIds (bookOf s marketId e).
Proof.
  intros Hnone. unfold producedTrades, writeRejected.
  rewrite processOrder_storage_trades. unfold engineAfter.
  destruct (fokRejected order e) eqn:Hrej.
  - rewrite processOrder_rejected by done. cbn [fst snd].
    rewrite updateOrderStatus_fst, Hnone. split; [done|].
    split; [by rewrite drop_all|].
    intros s m. rewrite bookOf_sortedQueues. case_decide as H; [|done].
    destruct H as [-> ->]. apply sortLevel_ids.
  - destruct (matched order e st) as [view' s] eqn:Hm. cbn [snd negb andb].
    pose proof Hm as Hwalk. unfold matched in Hwalk.
    destruct (walkLevels_no_row _ _ _ _ _ _ Hwalk Hnone) as (Est & Etr & Erem).
    cbn [Loop.storage Loop.trades Loop.remainingSize] in *.
    assert (∀ c, fst (updateOrderStatus (Order.id order) c (Loop.storage s))
                 = None) as Hup.
    { intros c. by rewrite updateOrderStatus_fst, Est, Hnone. }
    assert (booksRemainder order (Loop.remainingSize s)
            = bool_decide (Order.type order = LIMIT)
              && negb (Order.size order =? 0)) as Hbook.
    { unfold booksRemainder.
      destruct (decide (Order.type order = LIMIT)) as [Hty|Hty].
      - rewrite (settledStatus_resting order s []); [|by left|].
        + rewrite bool_decide_eq_true_2 by done. unfold restingStatus.
          rewrite Erem. change (tradedSize []) with 0.
          destruct (Order.size order =? 0), (0 =? Order.size order); done.
        + rewrite Erem. change (tradedSize []) with 0. lia.
      - rewrite !bool_decide_eq_false_2 by done. simpl.
        by rewrite andb_false_r. }
    rewrite (processOrder_matched _ _ _ _ _ Hrej Hm). cbv zeta.
    rewrite Hup, Hbook, Est, Etr.
    split; [|split; [by rewrite drop_all|]].
    + destruct (Loop.thrown s); [done|]. by destruct (_ && _).
    + intros s0 m.
      destruct (Loop.thrown s); [|destruct (_ && _)]; cbn [fst];
        by eapply matched_ids.
Qed.

(** X24 at a YES limit at 0.50 with no row that finds the NO limit at 0.60:
    nothing can trade, the remainder cannot be booked. *)
Lemma X24_order_without_row_witness :
  snd (processOrder simYes050 (System.engine afterRestingNo060)
         (System.storage afterRestingNo060))
  = (if fokRejected simYes050 (System.engine afterRestingNo060) then
       Returned (MatchResult.mk None [] (Some true)
                   (Some "FOK order cannot be completely filled"%string))
     else if writeRejected simYes050 (System.engine afterRestingNo060)
               (System.storage afterRestingNo060)
     then Threw
     else if bool_decide (Order.type simYes050 = LIMIT)
             && negb (Order.size simYes050 =? 0)
     then Threw
     else Returned (MatchResult.mk None [] None None))
  ∧ producedTrades simYes050 (System.engine afterRestingNo060)
      (System.storage afterRestingNo060)
    = []
  ∧ ∀ s marketId,
      bookIds
        (bookOf s marketId
           (engineAfter simYes050 (System.engine afterRestingNo060)
              (System.storage afterRestingNo060)))
      ≡ₚ bookIds (bookOf s marketId (System.engine afterRestingNo060)).
Proof.
  apply (X24_order_without_row simYes050 (System.engine afterRestingNo060)
           (System.storage afterRestingNo060)).
  vm_compute. reflexivity.
Defined.

(** The three ways of an order that was never inserted: the limit at
    0.50 that meets nothing throws where its remainder would be booked; the
    IOC order at 0.50 that meets nothing returns with [order] undefined; the
    IOC order at 0.60 that crosses the resting NO limit throws on the
    insert of the trade. *)
Example orders_without_row :
  snd (processOrder simYes050 (System.engine afterRestingNo060)
         (System.storage afterRestingNo060))
  = Threw
  ∧ snd (processOrder simIoc050 (System.engine afterRestingNo060)
           (System.storage afterRestingNo060))
    = Returned (MatchResult.mk None [] None None)
  ∧ writeRejected iocYes060_order (System.engine afterRestingNo060)
      (System.storage afterRestingNo060)
    = true
  ∧ snd (processOrder iocYes060_order (System.engine afterRestingNo060)
           (System.storage afterRestingNo060))
    = Threw.
Proof. repeat split; vm_compute; reflexivity. Qed.

(** ** The books after [processOrder], one by one *)

(** What [processOrder] makes of each book, for a persisted order: the
    opposite book is the view as the loops leave it, the book of the order's
    side gains at most the order's row, the others stay. *)
Lemma processOrder_books order e st :
  Storage.orders st !! Order.id order = Some order →
  ∃ booked : option Order.t,
    (∀ b, booked = Some b →
          rowKept order b
          ∧ Storage.orders (storageAfter order e st) !! Order.id order = Some b)
    ∧ ∀ s marketId,
        bookOf s marketId (engineAfter order e st)
        = if decide (s = oppositeSide (Order.side order)
                     ∧ marketId = Order.marketId order)
          then (if fokRejected order e then oppositeView order e
                else fst (matched order e st))
          else if decide (s = Order.side order
                          ∧ marketId = Order.marketId order)
          then match booked with
               | Some b => addToBook b (bookOf s marketId e)
               | None => bookOf s marketId e
               end
          else bookOf s marketId e.
Proof.
  intros Hrow. unfold engineAfter, storageAfter.
  destruct (fokRejected order e) eqn:Hrej.
  - exists None. split; [done|]. intros s m.
    rewrite processOrder_rejected by done. cbn [fst].
    rewrite bookOf_sortedQueues.
    destruct (decide (s = oppositeSide (Order.side order)
                      ∧ m = Order.marketId order)) as [[-> ->]|Hopp]; [done|].
    by destruct (decide _).
  - destruct (matched order e st) as [view' s0] eqn:Hm.
    rewrite (processOrder_matched _ _ _ _ _ Hrej Hm). cbv zeta.
    destruct (Loop.thrown s0);
      [|destruct (booksRemainder _ _);
        [destruct (fst (updateOrderStatus _ _ _)) as [booked|] eqn:Hb|]];
      cbn [fst].
    + exists None. split; [done|]. intros s m.
      rewrite (bookOf_after_match _ _ _ _ _ _ _ Hm).
      destruct (decide (s = oppositeSide (Order.side order)
                        ∧ m = Order.marketId order)) as [[-> ->]|Hopp]; [done|].
      by destruct (decide _).
    + exists (Some booked).
      destruct (matched_booked _ _ _ _ _ _ _ Hrow Hm Hb)
        as (Hside & Hmarket & _).
      split.
      { intros b [= <-]. split; [|exact Hb].
        rewrite updateOrderStatus_fst in Hb.
        pose proof Hm as Hk. apply walkLevels_rowsKept in Hk. simpl in Hk.
        specialize (Hk (Order.id order)). rewrite Hrow in Hk.
        inversion Hk as [o o' (f & c & ->) Ho Ho'|]; subst.
        rewrite <- Ho' in Hb. simpl in Hb. simplify_eq. by eexists _, _. }
      intros s m. rewrite bookOf_addToOrderBook, Hside, Hmarket.
      rewrite !(bookOf_after_match _ _ _ _ _ _ _ Hm).
      destruct (decide (s = oppositeSide (Order.side order)
                        ∧ m = Order.marketId order)) as [[-> ->]|Hopp].
      * rewrite decide_False; [done|].
        intros [H _]. by apply oppositeSide_ne in H.
      * destruct (decide (s = Order.side order ∧ m = Order.marketId order))
          as [[-> ->]|Hown]; [|done].
        rewrite decide_False; [done|].
        intros [H _]. symmetry in H. by apply oppositeSide_ne in H.
    + exists None. split; [done|]. intros s m.
      rewrite (bookOf_after_match _ _ _ _ _ _ _ Hm).
      destruct (decide (s = oppositeSide (Order.side order)
                        ∧ m = Order.marketId order)) as [[-> ->]|Hopp]; [done|].
      by destruct (decide _).
    + exists None. split; [done|]. intros s m.
      rewrite (bookOf_after_match _ _ _ _ _ _ _ Hm).
      destruct (decide (s = oppositeSide (Order.side order)
                        ∧ m = Order.marketId order)) as [[-> ->]|Hopp]; [done|].
      by destruct (decide _).
Qed.

(** ** Queues in time order *)

Lemma timeOrdered_perm book book' : book ≡ₚ book' → timeOrdered book → timeOrdered book'.
Proof.
  intros Hp Ht. unfold timeOrdered in *. apply Forall_forall.
  intros l Hl. rewrite <- Hp in Hl. rewrite Forall_forall in Ht. by apply Ht.
Qed.

Lemma pushToLevel_timeOrdered o p book :
  timeOrdered book →
  Forall (λ r, Order.createdAt r ≤ Order.createdAt o) (bookOrders book) →
  timeOrdered (pushToLevel o p book).
Proof.
  induction book as [|l book IH]; simpl; [done|].
  rewrite bookOrders_cons.
  intros [Hl Ht]%Forall_cons [Hbl Hb]%Forall_app.
  destruct (Entry.price l =? p).
  - constructor; [|done]. simpl. apply StronglySorted_app.
    split; [|split; [done|repeat constructor]].
    intros r1 r2 Hr1 ->%list_elem_of_singleton.
    rewrite Forall_forall in Hbl. by apply Hbl.
  - constructor; [done|]. by apply IH.
Qed.

Lemma addToBook_timeOrdered o book :
  timeOrdered book →
  Forall (λ r, Order.createdAt r ≤ Order.createdAt o) (bookOrders book) →
  timeOrdered (addToBook o book).
Proof.
  intros Ht Hb. unfold addToBook.
  destruct (hasLevel (Order.price o) book); [by apply pushToLevel_timeOrdered|].
  set (new := Entry.mk (Order.price o) 0 []).
  assert (js_sort (cmpLevels (Order.side o)) (book ++ [new]) ≡ₚ new :: book)
    as Hp.
  { rewrite js_sort_perm. by rewrite Permutation_app_comm. }
  apply pushToLevel_timeOrdered.
  - eapply timeOrdered_perm; [symmetry; exact Hp|].
    constructor; [constructor|done].
  - apply Forall_forall. intros r Hr.
    apply elem_of_bookOrders in Hr as (l & Hl & Hr).
    rewrite Hp in Hl. apply elem_of_cons in Hl as [->|Hl].
    + by apply elem_of_nil in Hr.
    + rewrite Forall_forall in Hb. apply Hb.
      apply elem_of_bookOrders. by exists l.
Qed.

Lemma processOrder_queuedBy order e st now :
  Storage.orders st !! Order.id order = Some order →
  queuedBy now e → now ≤ Order.createdAt order →
  queuedBy (Order.createdAt order) (engineAfter order e st).
Proof.
  intros Hrow Hq Hnow.
  destruct (processOrder_books order e st Hrow) as (booked & Hbooked & Hbooks).
  assert (∀ s m, Forall (λ o, Order.createdAt o ≤ Order.createdAt order)
                   (bookOrders (bookOf s m e))) as Hold.
  { intros s m. destruct (Hq s m) as [_ H].
    eapply Forall_impl; [exact H|]. simpl. intros; lia. }
  intros s m. rewrite Hbooks.
  destruct (decide (s = oppositeSide (Order.side order)
                    ∧ m = Order.marketId order)) as [[-> ->]|Hopp].
  - assert (bookGrown (oppositeView order e)
              (if fokRejected order e then oppositeView order e
               else fst (matched order e st))) as Hg.
    { destruct (fokRejected order e); [apply bookGrown_refl|].
      destruct (matched order e st) as [view' s0] eqn:Hm.
      by apply walkLevels_grown in Hm. }
    split.
    + eapply bookGrown_timeOrdered; [exact Hg|apply oppositeView_timeOrdered].
    + apply Forall_forall. intros o' Ho'.
      destruct (bookGrown_elem _ _ _ Hg Ho') as (o & Ho & (f & _ & ->)).
      unfold oppositeView in Ho. rewrite sortLevel_orders in Ho.
      specialize (Hold (oppositeSide (Order.side order)) (Order.marketId order)).
      rewrite Forall_forall in Hold. exact (Hold o Ho).
  - destruct (decide (s = Order.side order ∧ m = Order.marketId order))
      as [[-> ->]|Hown]; [|split; [apply Hq|apply Hold]].
    destruct booked as [b|]; [|split; [apply Hq|apply Hold]].
    destruct (Hbooked b eq_refl) as [(f & c & ->) _].
    split.
    + apply addToBook_timeOrdered; [apply Hq|apply Hold].
    + apply Forall_forall. intros r Hr.
      apply elem_of_addToBook in Hr as [->|Hr]; [simpl; lia|].
      specialize (Hold (Order.side order) (Order.marketId order)).
      rewrite Forall_forall in Hold. by apply Hold.
Qed.

Lemma postOrder_queuedBy sub sys now :
  queuedBy now (System.engine sys) → now ≤ Submission.now sub →
  queuedBy (Submission.now sub) (System.engine (postOrder sub sys)).
Proof.
  intros Hq Hnow. unfold postOrder, handleOrder.
  destruct (createOrder _ _ _ _) as [[order st]|] eqn:Hc.
  - assert (Order.createdAt order = Submission.now sub) as Hat.
    { unfold createOrder in Hc.
      destruct (Storage.orders (System.storage sys) !! _); by simplify_eq. }
    apply createOrder_row in Hc as (Hfresh & Hid & Hfilled & Horders).
    pose proof (processOrder_queuedBy order (System.engine sys) st now) as H.
    unfold engineAfter in H. rewrite Hat in H.
    destruct (processOrder order (System.engine sys) st) as [[e' st'] out].
    apply H; [|done..]. rewrite Horders, Hid. apply lookup_insert_eq.
  - intros s m. destruct (Hq s m) as [H1 H2]. split; [done|].
    eapply Forall_impl; [exact H2|]. simpl. intros; lia.
Qed.

Lemma postOrders_queuedBy subs sys now :
  clockMonotone subs →
  Forall (λ sub, now ≤ Submission.now sub) subs →
  queuedBy now (System.engine sys) →
  ∃ now', queuedBy now' (System.engine (postOrders subs sys)).
Proof.
  revert sys now. induction subs as [|sub subs IH]; intros sys now Hmono Hall Hq.
  - by exists now.
  - apply StronglySorted_inv in Hmono as [Hmono Hle].
    apply Forall_cons in Hall as [Hsub Hall].
    apply (IH (postOrder sub sys) (Submission.now sub)); [done|done|].
    by eapply postOrder_queuedBy.
Qed.

(** X25: when the clock of the database never goes back, every queue of
    every book is in ascending [createdAt] order after any sequence of
    posts to an empty system, so the sort of
    [getOrderBookWithPrioritySort] changes nothing in the engine. *)
Theorem X25_queues_in_time_order (subs : list Submission.t) (s : Side)
    (marketId : string) :
  clockMonotone subs →
  timeOrdered (bookOf s marketId (System.engine (postOrders subs System.initial)))
  ∧ snd (getOrderBookWithPrioritySort marketId s
           (System.engine (postOrders subs System.initial)))
    = System.engine (postOrders subs System.initial).
Proof.
  intros Hmono.
  assert (∃ now, queuedBy now (System.engine (postOrders subs System.initial)))
    as [now Hq].
  { destruct subs as [|sub subs].
    - exists 0. intros s0 m. destruct s0; split; constructor.
    - apply StronglySorted_inv in Hmono as [Hmono Hle].
      apply (postOrders_queuedBy subs (postOrder sub System.initial)
               (Submission.now sub)); [done|done|].
      apply (postOrder_queuedBy sub System.initial (Submission.now sub)); [|lia].
      intros s0 m. destruct s0; split; constructor. }
  destruct (Hq s marketId) as [Ht _]. split; [done|].
  by apply sortedQueues_timeOrdered.
Qed.

(** X25 at the two NO limits at 0.50, created at times 1 and 2. *)
Lemma X25_queues_in_time_order_witness :
  timeOrdered (bookOf NO "m" (System.engine (postOrders twoNoLimitsAt050 System.initial)))
  ∧ snd (getOrderBookWithPrioritySort "m" NO
           (System.engine (postOrders twoNoLimitsAt050 System.initial)))
    = System.engine (postOrders twoNoLimitsAt050 System.initial).
Proof.
  apply (X25_queues_in_time_order twoNoLimitsAt050 NO "m").
  unfold clockMonotone, leKey. repeat constructor; simpl; lia.
Defined.

(** Without that, a queue may be out of order: the engine queues by
    arrival. *)
Example queue_by_arrival_when_clock_goes_back :
  bookIds (bookOf YES "m"
             (System.engine (postOrders yesLimitsClockBack System.initial)))
  = ["L2"; "L1"]%string
  ∧ ¬ timeOrdered
        (bookOf YES "m"
           (System.engine (postOrders yesLimitsClockBack System.initial))).
Proof.
  split; [vm_compute; reflexivity|].
  intros H.
  assert (∃ l2 l1 size,
            bookOf YES "m"
              (System.engine (postOrders yesLimitsClockBack System.initial))
            = [Entry.mk 4000 size [l2; l1]]
            ∧ Order.createdAt l2 = 2 ∧ Order.createdAt l1 = 1)
    as (l2 & l1 & size & E & H2 & H1).
  { do 3 eexists. split; [vm_compute; reflexivity|done]. }
  rewrite E in H. apply Forall_cons in H as [H _]. simpl in H.
  apply StronglySorted_inv in H as [_ H].
  apply Forall_cons in H as [H _]. unfold leKey in H. lia.
Qed.

(** ** Rows are never deleted *)

Lemma elem_of_getMarketOrders marketId st o :
  o ∈ getMarketOrders marketId st ↔ isRow o st ∧ Order.marketId o = marketId.
Proof.
  destruct (select_desc_spec (λ o, Order.marketId o = marketId) st) as [Hin _].
  apply Hin.
Qed.

Lemma elem_of_getUserOrders userId st o :
  o ∈ getUserOrders userId st ↔ isRow o st ∧ Order.userId o = userId.
Proof.
  destruct (select_desc_spec (λ o, Order.userId o = userId) st) as [Hin _].
  apply Hin.
Qed.

Lemma rowsStay_refl st : rowsStay st st.
Proof. intros k row Hk. exists row. split; [done|apply rowKept_refl]. Qed.

Lemma rowsStay_trans st1 st2 st3 :
  rowsStay st1 st2 → rowsStay st2 st3 → rowsStay st1 st3.
Proof.
  intros H12 H23 k row Hk.
  destruct (H12 k row Hk) as (row2 & Hk2 & K2).
  destruct (H23 k row2 Hk2) as (row3 & Hk3 & K3).
  exists row3. split; [done|]. by eapply rowKept_trans.
Qed.

Lemma rowsKept_rowsStay st st' : rowsKept st st' → rowsStay st st'.
Proof.
  intros H k row Hk. specialize (H k). rewrite Hk in H.
  inversion H as [o o' Hkept Ho Ho'|]; subst. by exists o'.
Qed.

Lemma processOrder_rowsKept order e st : rowsKept st (storageAfter order e st).
Proof.
  unfold storageAfter.
  destruct (processOrder order e st) as [[e' st'] out] eqn:Hrun.
  apply (processOrder_keeps (rowsKept st)) in Hrun; [done|..|apply rowsKept_refl].
  - intros t st0 t' st1 Hct H.
    apply createTrade_storage in Hct as (_ & Ho & _).
    eapply rowsKept_trans; [exact H|by apply rowsKept_same].
  - intros m u s shares avgPrice st0 H.
    eapply rowsKept_trans; [exact H|by apply rowsKept_same].
  - intros k f st0 H.
    eapply rowsKept_trans; [exact H|apply rowsKept_updateOrderFilled].
  - intros k c st0 H.
    eapply rowsKept_trans; [exact H|apply rowsKept_updateOrderStatus].
  - intros m y n st0 H. eapply rowsKept_trans; [exact H|by apply rowsKept_same].
Qed.

Lemma serve_rowsStay req sys :
  rowsStay (System.storage sys) (System.storage (serve req sys)).
Proof.
  destruct req as [sub|k]; simpl.
  - unfold postOrder, handleOrder.
    destruct (createOrder _ _ _ _) as [[order st]|] eqn:Hc;
      [|apply rowsStay_refl].
    apply createOrder_row in Hc as (Hfresh & Hid & Hfilled & Horders).
    pose proof (processOrder_rowsKept order (System.engine sys) st) as H.
    unfold storageAfter in H.
    destruct (processOrder order (System.engine sys) st) as [[e' st'] out].
    simpl in *. eapply rowsStay_trans; [|by apply rowsKept_rowsStay].
    intros k row Hk. exists row. split; [|apply rowKept_refl].
    rewrite Horders, lookup_insert_ne; [done|]. intros Heq.
    rewrite <- Heq in Hk. by rewrite Hfresh in Hk.
  - apply rowsKept_rowsStay, rowsKept_updateOrderStatus.
Qed.

Lemma serveAll_rowsStay reqs sys :
  rowsStay (System.storage sys) (System.storage (serveAll reqs sys)).
Proof.
  revert sys. induction reqs as [|req reqs IH]; intros sys; simpl.
  - apply rowsStay_refl.
  - eapply rowsStay_trans; [apply serve_rowsStay|apply IH].
Qed.

(** X26: no row of the table of orders is ever deleted.  Whatever is posted
    and cancelled afterwards, a row stays under its id with at most its
    [filled] and [status] changed, and [getMarketOrders] and [getUserOrders]
    go on listing it for its market and its user. *)
Theorem X26_orders_are_never_deleted (reqs : list Request) (sys : System.t)
    (k : string) (row : Order.t) :
  Storage.orders (System.storage sys) !! k = Some row →
  ∃ row',
    Storage.orders (System.storage (serveAll reqs sys)) !! k = Some row'
    ∧ rowKept row row'
    ∧ row' ∈ getMarketOrders (Order.marketId row)
               (System.storage (serveAll reqs sys))
    ∧ row' ∈ getUserOrders (Order.userId row)
               (System.storage (serveAll reqs sys)).
Proof.
  intros Hk. destruct (serveAll_rowsStay reqs sys k row Hk) as (row' & Hk' & K).
  exists row'. split; [done|]. split; [done|].
  destruct K as (f & c & ->).
  rewrite elem_of_getMarketOrders, elem_of_getUserOrders.
  split; (split; [by exists k|done]).
Qed.

(** X26 at the resting YES limit at 0.60, cancelled and then met by the NO
    limit at 0.40. *)
Lemma X26_orders_are_never_deleted_witness :
  ∃ row',
    Storage.orders (System.storage (serveAll cancelThenNo040 afterRestingYes060))
      !! "Y1"%string
    = Some row'
    ∧ rowKept (Order.mk "Y1" "m" "maker" YES LIMIT 6000 100000000 0 PENDING 1)
        row'
    ∧ row' ∈ getMarketOrders "m"
               (System.storage (serveAll cancelThenNo040 afterRestingYes060))
    ∧ row' ∈ getUserOrders "maker"
               (System.storage (serveAll cancelThenNo040 afterRestingYes060)).
Proof.
  apply (X26_orders_are_never_deleted cancelThenNo040 afterRestingYes060 "Y1"
           (Order.mk "Y1" "m" "maker" YES LIMIT 6000 100000000 0 PENDING 1)).
  vm_compute. reflexivity.
Defined.

(** The cancelled order trades all the same, and its row ends with the
    trade's size in [filled] under the status CANCELLED. *)
Example cancelled_order_still_trades :
  Storage.trades (System.storage (serveAll cancelThenNo040 afterRestingYes060))
  = [tradeNo040Yes060]
  ∧ Storage.orders (System.storage (serveAll cancelThenNo040 afterRestingYes060))
      !! "Y1"%string
    = Some (Order.mk "Y1" "m" "maker" YES LIMIT 6000 100000000 50000000
              CANCELLED 1).
Proof. split; vm_compute; reflexivity. Qed.

(** ** The table and the books agree *)

Lemma agrees_same_rows o st st' :
  Storage.orders st' !! Order.id o = Storage.orders st !! Order.id o →
  agrees o st → agrees o st'.
Proof. intros E (row & Hrow & Ho). exists row. by rewrite E. Qed.

Lemma agrees_status o k c st :
  agrees o st → agrees o (snd (updateOrderStatus k c st)).
Proof.
  intros (row & Hrow & Ho). unfold agrees. simpl.
  destruct (decide (k = Order.id o)) as [->|Hne].
  - rewrite lookup_alter_eq, Hrow. simpl. eexists. split; [done|].
    rewrite <- Ho. by destruct row.
  - rewrite lookup_alter_ne by done. by exists row.
Qed.

Lemma settled_frame order o m c st k :
  k ≠ Order.id order → k ≠ Order.id o →
  Storage.orders (settled order o m c st) !! k = Storage.orders st !! k.
Proof.
  intros H1 H2. unfold settled. simpl.
  destruct (Order.size o =? Order.filled o + m); simpl;
    by rewrite !lookup_alter_ne.
Qed.

Lemma fill_frame order o m p s k :
  k ≠ Order.id order → k ≠ Order.id o →
  Storage.orders (Loop.storage (snd (fill order o m p s))) !! k
  = Storage.orders (Loop.storage s) !! k.
Proof.
  intros H1 H2.
  pose proof (executeTrade_storage order o m p (Loop.storage s)) as (Hsame & _).
  destruct (fill_cases order o m p s) as [[Hex E]|[Hex E]];
    rewrite E; cbn [snd Loop.storage].
  - by rewrite settled_frame, Hsame.
  - by rewrite Hsame.
Qed.

Lemma matchOne_frame order p o s o' s' k :
  matchOne order p o s = (o', s') →
  k ≠ Order.id order → k ≠ Order.id o →
  Storage.orders (Loop.storage s') !! k = Storage.orders (Loop.storage s) !! k.
Proof.
  intros H H1 H2. matchOne_goes H Hm E.
  - by simplify_eq.
  - replace s' with (snd (fill order o (Z.min (Loop.remainingSize s)
                                         (Order.remaining o)) p s))
      by (by rewrite H).
    by apply fill_frame.
Qed.

Lemma matchLevel_frame order p orders s orders' s' k :
  matchLevel order p orders s = (orders', s') →
  k ≠ Order.id order → k ∉ map Order.id orders →
  Storage.orders (Loop.storage s') !! k = Storage.orders (Loop.storage s) !! k.
Proof.
  intros H Hk. revert orders s orders' s' H.
  apply (matchLevel_elim order p
           (λ orders s _ s',
              k ∉ map Order.id orders →
              Storage.orders (Loop.storage s') !! k
              = Storage.orders (Loop.storage s) !! k)); [done..|].
  intros o rest s o' s1 rest' s2 _ H1 _ IH Hnin.
  simpl in Hnin. apply not_elem_of_cons in Hnin as [Hne Hnin].
  rewrite IH by done. by eapply matchOne_frame.
Qed.

Lemma walkLevels_frame crosses order book s book' s' k :
  walkLevels crosses order book s = (book', s') →
  k ≠ Order.id order → k ∉ bookIds book →
  Storage.orders (Loop.storage s') !! k = Storage.orders (Loop.storage s) !! k.
Proof.
  intros H Hk. revert book s book' s' H.
  apply (walkLevels_elim crosses order
           (λ book s _ s',
              k ∉ bookIds book →
              Storage.orders (Loop.storage s') !! k
              = Storage.orders (Loop.storage s) !! k)); [done..|].
  intros l rest s os s1 rest' s2 _ _ H1 _ IH Hnin.
  unfold bookIds in Hnin. rewrite bookOrders_cons, map_app in Hnin.
  apply not_elem_of_app in Hnin as [Hl Hrest].
  rewrite IH by done. by eapply matchLevel_frame.
Qed.

Lemma settled_agrees order o m c st :
  agrees o st →
  agrees (Order.with_filled (Order.filled o + m) o) (settled order o m c st).
Proof.
  intros (row & Hrow & Ho). unfold agrees, settled. simpl.
  destruct (Order.size o =? Order.filled o + m); simpl;
    rewrite ?lookup_alter_eq;
    (destruct (decide (Order.id order = Order.id o)) as [Heq|Hne];
     [rewrite Heq, lookup_alter_eq|rewrite lookup_alter_ne by done]);
    rewrite Hrow; simpl; (eexists; split; [done|]);
    rewrite <- Ho; by destruct row.
Qed.

Lemma matchOne_agrees order p o s o' s' :
  matchOne order p o s = (o', s') →
  agrees o (Loop.storage s) → agrees o' (Loop.storage s').
Proof.
  intros H Ho. matchOne_goes H Hm E.
  - by simplify_eq.
  - set (m := Z.min _ _) in *. clearbody m.
    pose proof (executeTrade_storage order o m p (Loop.storage s))
      as (Hsame & _).
    assert (agrees o (snd (executeTrade order o m p (Loop.storage s)))) as Ho'.
    { eapply agrees_same_rows; [|exact Ho]. by rewrite Hsame. }
    fill_goes H Hex; cbn [Loop.storage]; [by apply settled_agrees|done].
Qed.

Lemma matchLevel_agrees order p orders s orders' s' :
  matchLevel order p orders s = (orders', s') →
  NoDup (map Order.id orders) → Order.id order ∉ map Order.id orders →
  Forall (λ o, agrees o (Loop.storage s)) orders →
  Forall (λ o, agrees o (Loop.storage s')) orders'.
Proof.
  revert orders s orders' s'.
  apply (matchLevel_elim order p
           (λ orders s orders' s',
              NoDup (map Order.id orders) →
              Order.id order ∉ map Order.id orders →
              Forall (λ o, agrees o (Loop.storage s)) orders →
              Forall (λ o, agrees o (Loop.storage s')) orders')); [done..|].
  intros o rest s o' s1 rest' s2 _ H1 H2 IH Hnd Hfresh Hall.
  simpl in Hnd, Hfresh. apply NoDup_cons in Hnd as [Hnin Hnd].
  apply not_elem_of_cons in Hfresh as [Hne Hfresh].
  apply Forall_cons in Hall as [Ho Hall].
  assert (Order.id o' = Order.id o) as Hid.
  { apply matchOne_grown in H1 as (f & _ & ->). done. }
  constructor.
  - eapply agrees_same_rows; [|by eapply matchOne_agrees].
    rewrite Hid. eapply matchLevel_frame; [exact H2|congruence|done].
  - apply IH; [done..|].
    apply Forall_forall. intros x Hx. rewrite Forall_forall in Hall.
    eapply agrees_same_rows; [|by apply Hall].
    eapply matchOne_frame; [exact H1| |].
    + intros Heq. apply Hfresh. rewrite <- Heq. by apply list_elem_of_fmap_2.
    + intros Heq. apply Hnin. rewrite <- Heq. by apply list_elem_of_fmap_2.
Qed.

Lemma walkLevels_agrees crosses order book s book' s' :
  walkLevels crosses order book s = (book', s') →
  NoDup (bookIds book) → Order.id order ∉ bookIds book →
  Forall (λ o, agrees o (Loop.storage s)) (bookOrders book) →
  Forall (λ o, agrees o (Loop.storage s')) (bookOrders book').
Proof.
  revert book s book' s'.
  apply (walkLevels_elim crosses order
           (λ book s book' s',
              NoDup (bookIds book) → Order.id order ∉ bookIds book →
              Forall (λ o, agrees o (Loop.storage s)) (bookOrders book) →
              Forall (λ o, agrees o (Loop.storage s')) (bookOrders book')));
    [done..|].
  intros l rest s os s1 rest' s2 _ _ H1 H2 IH Hnd Hfresh Hall.
  unfold bookIds in Hnd, Hfresh.
  rewrite bookOrders_cons in Hnd, Hfresh, Hall. rewrite map_app in Hnd, Hfresh.
  apply NoDup_app in Hnd as (Hndl & Hdisj & Hndr).
  apply not_elem_of_app in Hfresh as [Hfl Hfr].
  apply Forall_app in Hall as [Hl Hr].
  rewrite bookOrders_cons. simpl. apply Forall_app. split.
  - pose proof (matchLevel_agrees _ _ _ _ _ _ H1 Hndl Hfl Hl) as Hos.
    pose proof (matchLevel_grown _ _ _ _ _ _ H1) as Hg.
    apply Forall_forall. intros x Hx. rewrite Forall_forall in Hos.
    eapply agrees_same_rows; [|by apply Hos].
    eapply walkLevels_frame; [exact H2| |].
    + intros Heq. apply Hfl. rewrite <- Heq, <- (grown_ids _ _ Hg).
      by apply list_elem_of_fmap_2.
    + intros Hin. apply (Hdisj (Order.id x)); [|done].
      rewrite <- (grown_ids _ _ Hg). by apply list_elem_of_fmap_2.
  - apply IH; [done..|].
    apply Forall_forall. intros x Hx. rewrite Forall_forall in Hr.
    eapply agrees_same_rows; [|by apply Hr].
    eapply matchLevel_frame; [exact H1| |].
    + intros Heq. apply Hfr. rewrite <- Heq. by apply list_elem_of_fmap_2.
    + intros Hin. apply (Hdisj (Order.id x)); [done|].
      by apply list_elem_of_fmap_2.
Qed.

(** The rows [processOrder] leaves: those the loops leave, with the status
    written to the order's row unless the call threw from the loops. *)
Lemma processOrder_storage_orders order e st :
  ∀ k, k ≠ Order.id order →
       Storage.orders (storageAfter order e st) !! k
       = Storage.orders
           (if fokRejected order e then st
            else Loop.storage (snd (matched order e st))) !! k.
Proof.
  intros k Hk. unfold storageAfter. destruct (fokRejected order e) eqn:Hrej.
  - rewrite processOrder_rejected by done. simpl. by rewrite lookup_alter_ne.
  - destruct (matched order e st) as [view' s] eqn:Hm.
    rewrite (processOrder_matched _ _ _ _ _ Hrej Hm). cbv zeta.
    destruct (Loop.thrown s);
      [|destruct (booksRemainder _ _);
        [destruct (fst (updateOrderStatus _ _ _)) as [booked|]|]];
      simpl; by rewrite ?lookup_alter_ne.
Qed.

Lemma agrees_inj o1 o2 st :
  agrees o1 st → agrees o2 st → Order.id o1 = Order.id o2 →
  Order.side o1 = Order.side o2 ∧ Order.marketId o1 = Order.marketId o2.
Proof.
  intros (r1 & H1 & E1) (r2 & H2 & E2) Hid.
  rewrite Hid, H2 in H1. injection H1 as ->.
  rewrite <- E1, <- E2. done.
Qed.

Lemma bookIds_elem id book :
  id ∈ bookIds book ↔ ∃ o, o ∈ bookOrders book ∧ Order.id o = id.
Proof.
  unfold bookIds. rewrite list_elem_of_fmap. split.
  - intros (o & -> & Ho). by exists o.
  - intros (o & Ho & <-). by exists o.
Qed.

Lemma pushToLevel_ids o p book :
  hasLevel p book = true →
  bookIds (pushToLevel o p book) ≡ₚ Order.id o :: bookIds book.
Proof.
  unfold hasLevel, bookIds.
  induction book as [|l book IH]; simpl; [done|].
  destruct (Entry.price l =? p); simpl.
  - intros _. rewrite !bookOrders_cons. simpl. rewrite !map_app. simpl.
    rewrite <- app_assoc. simpl. symmetry. apply Permutation_middle.
  - intros Hb. rewrite !bookOrders_cons, !map_app, (IH Hb).
    symmetry. apply Permutation_middle.
Qed.

Lemma addToBook_bookIds o book :
  bookIds (addToBook o book) ≡ₚ Order.id o :: bookIds book.
Proof.
  unfold addToBook. destruct (hasLevel (Order.price o) book) eqn:Hhas.
  - by apply pushToLevel_ids.
  - set (new := Entry.mk (Order.price o) 0 []).
    rewrite pushToLevel_ids.
    + unfold bookIds, bookOrders.
      rewrite (js_sort_perm (cmpLevels (Order.side o))).
      rewrite map_app, concat_app. simpl. by rewrite !app_nil_r.
    + apply hasLevel_prices. unfold prices.
      rewrite (js_sort_perm (cmpLevels (Order.side o))).
      rewrite map_app. apply elem_of_app. right. simpl.
      apply elem_of_cons. by left.
Qed.

Lemma processOrder_booksAgree order e st :
  booksAgree (System.mk e st) →
  Storage.orders st !! Order.id order = Some order →
  (∀ s marketId, Order.id order ∉ bookIds (bookOf s marketId e)) →
  booksAgree (System.mk (engineAfter order e st) (storageAfter order e st)).
Proof.
  intros Hagree Hrow Hfresh. simpl in *.
  destruct (processOrder_books order e st Hrow) as (booked & Hbooked & Hbooks).
  pose proof (processOrder_storage_orders order e st) as Horders.
  set (opp := oppositeSide (Order.side order)) in *.
  set (mkt := Order.marketId order) in *.
  set (view' := if fokRejected order e then oppositeView order e
                else fst (matched order e st)) in *.
  set (st1 := if fokRejected order e then st
              else Loop.storage (snd (matched order e st))) in *.
  assert (bookIds view' ≡ₚ bookIds (bookOf opp mkt e)) as Hids.
  { unfold view'. destruct (fokRejected order e); [apply sortLevel_ids|].
    destruct (matched order e st) as [v s0] eqn:Hm. simpl.
    unfold matched in Hm. apply walkLevels_grown, bookGrown_ids in Hm.
    rewrite Hm. apply sortLevel_ids. }
  assert (Forall (λ o, agrees o st1) (bookOrders view')) as Hview.
  { assert (Forall (λ o, agrees o st) (bookOrders (oppositeView order e)))
      as Hstart.
    { apply Forall_forall. intros o Ho. unfold oppositeView in Ho.
      rewrite sortLevel_orders in Ho.
      destruct (Hagree opp mkt) as [_ H]. by apply H in Ho as (_ & _ & ?). }
    unfold view', st1. destruct (fokRejected order e); [done|].
    destruct (matched order e st) as [v s0] eqn:Hm. simpl.
    unfold matched in Hm.
    eapply walkLevels_agrees; [exact Hm| | |exact Hstart].
    - unfold oppositeView. rewrite sortLevel_ids. apply Hagree.
    - unfold oppositeView. rewrite sortLevel_ids. apply Hfresh. }
  assert (∀ o, o ∈ bookOrders view' →
               Order.side o = opp ∧ Order.marketId o = mkt) as Hplaced.
  { assert (bookGrown (oppositeView order e) view') as Hg.
    { unfold view'. destruct (fokRejected order e); [apply bookGrown_refl|].
      destruct (matched order e st) as [v s0] eqn:Hm.
      by apply walkLevels_grown in Hm. }
    intros o' Ho'.
    destruct (bookGrown_elem _ _ _ Hg Ho') as (o & Ho & (f & _ & ->)).
    unfold oppositeView in Ho. rewrite sortLevel_orders in Ho.
    destruct (Hagree opp mkt) as [_ H]. by apply H in Ho as (? & ? & _). }
  assert (∀ k, k ≠ Order.id order → k ∉ bookIds (bookOf opp mkt e) →
               Storage.orders st1 !! k = Storage.orders st !! k) as Hframe.
  { intros k Hk Hnin. unfold st1. destruct (fokRejected order e); [done|].
    destruct (matched order e st) as [v s0] eqn:Hm. simpl.
    unfold matched in Hm.
    rewrite (walkLevels_frame _ _ _ _ _ _ k Hm); [done|done|].
    unfold oppositeView. by rewrite sortLevel_ids. }
  assert (∀ o, Order.id o ≠ Order.id order → agrees o st1 →
               agrees o (storageAfter order e st)) as Hfinal.
  { intros o Hne Ho. eapply agrees_same_rows; [|exact Ho].
    by apply Horders. }
  assert (∀ s m o, o ∈ bookOrders (bookOf s m e) →
                   ¬ (s = opp ∧ m = mkt) →
                   agrees o (storageAfter order e st)) as Hothers.
  { intros s m o Ho Hne.
    destruct (Hagree s m) as [_ H]. destruct (H o Ho) as (Hs & Hm & Ha).
    assert (Order.id o ≠ Order.id order) as Hid.
    { intros Heq. apply (Hfresh s m). rewrite <- Heq.
      apply bookIds_elem. by exists o. }
    apply Hfinal; [done|].
    eapply agrees_same_rows; [|exact Ha]. apply Hframe; [done|].
    intros Hin. apply bookIds_elem in Hin as (y & Hy & Hyid).
    destruct (Hagree opp mkt) as [_ H']. destruct (H' y Hy) as (Hys & Hym & Hya).
    destruct (agrees_inj _ _ _ Ha Hya (eq_sym Hyid)) as [E1 E2].
    apply Hne. split; congruence. }
  intros s m. rewrite Hbooks.
  destruct (decide (s = opp ∧ m = mkt)) as [[-> ->]|Hopp].
  - split; [rewrite Hids; apply Hagree|].
    intros o Ho. destruct (Hplaced o Ho) as [Hs Hm]. split; [done|].
    split; [done|]. rewrite Forall_forall in Hview.
    apply Hfinal; [|by apply Hview].
    intros Heq. apply (Hfresh opp mkt). rewrite <- Heq, <- Hids.
    apply bookIds_elem. by exists o.
  - destruct (decide (s = Order.side order ∧ m = mkt)) as [[-> ->]|Hown].
    2: { split; [apply Hagree|]. intros o Ho.
         destruct (Hagree s m) as [_ H]. destruct (H o Ho) as (Hs & Hm & _).
         split; [done|]. split; [done|]. by eapply Hothers. }
    destruct booked as [b|].
    2: { split; [apply Hagree|]. intros o Ho.
         destruct (Hagree (Order.side order) mkt) as [_ H].
         destruct (H o Ho) as (Hs & Hm & _).
         split; [done|]. split; [done|]. by eapply Hothers. }
    destruct (Hbooked b eq_refl) as [(f & c' & Hb) Hstored].
    assert (Order.id b = Order.id order ∧ Order.side b = Order.side order
            ∧ Order.marketId b = mkt) as (Hbid & Hbside & Hbmkt)
      by (by rewrite Hb).
    split.
    + rewrite addToBook_bookIds, Hbid. apply NoDup_cons.
      split; [apply Hfresh|apply Hagree].
    + intros o Ho. apply elem_of_addToBook in Ho as [->|Ho].
      * split; [done|]. split; [done|]. exists b. rewrite Hbid.
        split; [done|]. by destruct b.
      * destruct (Hagree (Order.side order) mkt) as [_ H].
        destruct (H o Ho) as (Hs & Hm & _).
        split; [done|]. split; [done|]. by eapply Hothers.
Qed.

Lemma serve_booksAgree req sys : booksAgree sys → booksAgree (serve req sys).
Proof.
  intros Hagree. destruct req as [sub|k]; simpl.
  - unfold postOrder, handleOrder.
    destruct (createOrder _ _ _ _) as [[order st]|] eqn:Hc; [|done].
    apply createOrder_row in Hc as (Hfresh & Hid & Hfilled & Horders).
    pose proof (processOrder_booksAgree order (System.engine sys) st) as H.
    unfold engineAfter, storageAfter in H.
    destruct (processOrder order (System.engine sys) st) as [[e' st'] out].
    apply H.
    + intros s m. destruct (Hagree s m) as [Hnd Hall]. split; [done|].
      intros o Ho. destruct (Hall o Ho) as (Hs & Hm & row & Hr & Ho').
      split; [done|]. split; [done|]. exists row. split; [|done].
      simpl. rewrite Horders, lookup_insert_ne; [done|].
      intros Heq. rewrite <- Heq in Hr. by rewrite Hfresh in Hr.
    + rewrite Horders, Hid. apply lookup_insert_eq.
    + intros s m Hin. apply bookIds_elem in Hin as (o & Ho & Hoid).
      destruct (Hagree s m) as [_ Hall].
      destruct (Hall o Ho) as (_ & _ & row & Hr & _).
      rewrite Hoid, Hid, Hfresh in Hr. done.
  - intros s m. destruct (Hagree s m) as [Hnd Hall]. split; [done|].
    intros o Ho. destruct (Hall o Ho) as (Hs & Hm & Ha).
    split; [done|]. split; [done|]. by apply agrees_status.
Qed.

(** X27: the table and the books agree.  Whatever orders are posted and
    cancelled, starting from an empty system, no book holds an id twice,
    every order of a book is of the book's side and market, and the table
    holds a row under its id that is the order itself but for the status:
    the [filled] of a resting order in memory is the [filled] of its row. *)
Theorem X27_table_and_books_agree (reqs : list Request) :
  booksAgree (serveAll reqs System.initial).
Proof.
  assert (∀ sys, booksAgree sys → booksAgree (serveAll reqs sys)) as H.
  { induction reqs as [|req reqs IH]; intros sys Hsys; simpl; [done|].
    by apply IH, serve_booksAgree. }
  apply H. intros s m. destruct s; (split; [constructor|]);
    by intros o ?%elem_of_nil.
Qed.

(** * The earlier revision of the engine *)

(** ** The order of its levels *)



Lemma rev1_bookOf_addToOrderBook s marketId order e :
  bookOf s marketId (Rev1.addToOrderBook order e)
  = if decide (s = Order.side order ∧ marketId = Order.marketId order)
    then Rev1.addToBook order
           (bookOf (Order.side order) (Order.marketId order) e)
    else bookOf s marketId e.
Proof. apply bookOf_setSideBooks_insert. Qed.



(** ** Its loops *)

Lemma rev1_limitLevels_walk order book s :
  Rev1.limitLevels order book s = Rev1.walkLevels (canMatch order) order book s.
Proof.
  revert s. induction book as [|l rest IH]; intros s; simpl; [done|].
  destruct (Rev1.thrown s); [done|].
  destruct (Rev1.remainingSize s =? 0); [done|].
  destruct (canMatch order (Entry.price l)); [|done]. apply IH.
Qed.

Lemma rev1_marketLevels_walk order book s :
  Rev1.marketLevels order book s = Rev1.walkLevels (λ _, true) order book s.
Proof.
  revert s. induction book as [|l rest IH]; intros s; simpl; [done|].
  destruct (Rev1.thrown s); [done|].
  destruct (Rev1.remainingSize s =? 0); [done|]. apply IH.
Qed.

(** [processOrder], from the loop on. *)
Lemma rev1_processOrder_matched order e st :
  let s := Rev1.matched order e st in
  let totalFilled :=
    Order.filled order + (Order.size order - Rev1.remainingSize s) in
  let status :=
    if totalFilled =? Order.size order then FILLED
    else if 0 <? totalFilled then PARTIAL else PENDING in
  let written := updateOrderStatus (Order.id order) status (Rev1.storage s) in
  let answer :=
    Returned (MatchResult.mk (fst written) (Rev1.trades s) None None) in
  Rev1.processOrder order e st
  = if Rev1.thrown s then (e, Rev1.storage s, Threw)
    else if negb (Rev1.remainingSize s =? 0)
            && bool_decide (Order.type order = LIMIT)
    then
      match fst written with
      | None => (e, snd written, Threw)
      | Some booked =>
          (Rev1.addToOrderBook booked e,
           updateMarketPrices (Order.marketId order)
             (Rev1.addToOrderBook booked e) (snd written),
           answer)
      end
    else (e, updateMarketPrices (Order.marketId order) e (snd written), answer).
Proof.
  cbv zeta. unfold Rev1.processOrder, Rev1.matched, oppositeBook.
  rewrite rev1_limitLevels_walk, rev1_marketLevels_walk.
  destruct (Order.type order);
    (destruct (Rev1.thrown _); [done|]);
    by destruct (updateOrderStatus _ _ _) as [[booked|] st2].
Qed.

(** The two ways the loop body goes: the trade is made and settled, or
    [executeTrade] throws. *)
Lemma rev1_fill_cases order o m p s :
  (fst (executeTrade order o m p (Rev1.storage s))
   = Some (tradeData order o m p)
   ∧ Rev1.fill order o m p s
     = Rev1.mkVars (Rev1.remainingSize s - m)
         (Rev1.trades s ++ [tradeData order o m p])
         (settled order o m (Order.filled order + m)
            (snd (executeTrade order o m p (Rev1.storage s))))
         (Rev1.thrown s))
  ∨ (fst (executeTrade order o m p (Rev1.storage s)) = None
     ∧ Rev1.fill order o m p s
       = Rev1.mkVars (Rev1.remainingSize s) (Rev1.trades s)
           (snd (executeTrade order o m p (Rev1.storage s))) true).
Proof.
  pose proof (executeTrade_trades order o m p (Rev1.storage s)) as H.
  unfold Rev1.fill.
  destruct (executeTrade order o m p (Rev1.storage s)) as [[trade|] st1];
    cbn [fst snd] in *; [left|by right].
  destruct H as [-> _]. done.
Qed.

(** An exception stays. *)
Lemma rev1_matchLevel_thrown order p orders s :
  Rev1.thrown s = true → Rev1.matchLevel order p orders s = s.
Proof. intros H. destruct orders; simpl; [done|]. by rewrite H. Qed.

Lemma rev1_walkLevels_thrown crosses order book s :
  Rev1.thrown s = true → Rev1.walkLevels crosses order book s = s.
Proof. intros H. destruct book; simpl; [done|]. by rewrite H. Qed.

(** What a step of the loops keeps. *)
Section rev1_loops.
Variable P : Rev1.Vars → Prop.
Variable order : Order.t.
Hypothesis P_fill :
  ∀ o m p s,
    Rev1.thrown s = false → 0 < m → m ≤ Order.remaining o →
    P s → P (Rev1.fill order o m p s).

Lemma rev1_matchOne_keeps p o s :
  Rev1.thrown s = false → P s → P (Rev1.matchOne order p o s).
Proof.
  intros Ht Hs. unfold Rev1.matchOne.
  destruct (Z.ltb_spec 0 (Z.min (Rev1.remainingSize s) (Order.remaining o)));
    [|done].
  apply P_fill; [done|done|lia|done].
Qed.

Lemma rev1_matchLevel_keeps p orders s :
  P s → P (Rev1.matchLevel order p orders s).
Proof.
  revert s. induction orders as [|o orders IH]; intros s Hs; simpl; [done|].
  destruct (Rev1.thrown s) eqn:Ht; [done|].
  destruct (Rev1.remainingSize s =? 0); [done|].
  by apply IH, rev1_matchOne_keeps.
Qed.

Lemma rev1_walkLevels_keeps crosses book s :
  P s → P (Rev1.walkLevels crosses order book s).
Proof.
  revert s. induction book as [|l book IH]; intros s Hs; simpl; [done|].
  destruct (Rev1.thrown s); [done|].
  destruct (Rev1.remainingSize s =? 0); [done|].
  destruct (crosses (Entry.price l)); [|done].
  by apply IH, rev1_matchLevel_keeps.
Qed.

Lemma rev1_matched_keeps e st :
  P (Rev1.mkVars (Order.size order) [] st false) → P (Rev1.matched order e st).
Proof.
  intros H. unfold Rev1.matched.
  destruct (Order.type order); try done; by apply rev1_walkLevels_keeps.
Qed.
End rev1_loops.

(** What a step keeps when the resting orders are not the incoming one. *)
Section rev1_loops_fresh.
Variable P : Rev1.Vars → Prop.
Variable order : Order.t.
Hypothesis P_fill :
  ∀ o m p s,
    Order.id o ≠ Order.id order → P s → P (Rev1.fill order o m p s).

Lemma rev1_matchLevel_keeps_fresh p orders s :
  Order.id order ∉ map Order.id orders →
  P s → P (Rev1.matchLevel order p orders s).
Proof.
  revert s. induction orders as [|o orders IH]; intros s Hfresh Hs; simpl;
    [done|].
  simpl in Hfresh. apply not_elem_of_cons in Hfresh as [Hne Hfresh].
  destruct (Rev1.thrown s); [done|].
  destruct (Rev1.remainingSize s =? 0); [done|].
  apply IH; [done|]. unfold Rev1.matchOne.
  destruct (0 <? _); [|done]. by apply P_fill.
Qed.

Lemma rev1_walkLevels_keeps_fresh crosses book s :
  Order.id order ∉ bookIds book →
  P s → P (Rev1.walkLevels crosses order book s).
Proof.
  revert s. induction book as [|l book IH]; intros s Hfresh Hs; simpl; [done|].
  unfold bookIds in Hfresh. rewrite bookOrders_cons, map_app in Hfresh.
  apply not_elem_of_app in Hfresh as [Hl Hrest].
  destruct (Rev1.thrown s); [done|].
  destruct (Rev1.remainingSize s =? 0); [done|].
  destruct (crosses (Entry.price l)); [|done].
  apply IH; [done|]. by apply rev1_matchLevel_keeps_fresh.
Qed.

Lemma rev1_matched_keeps_fresh e st :
  Order.id order ∉ bookIds (oppositeBook order e) →
  P (Rev1.mkVars (Order.size order) [] st false) → P (Rev1.matched order e st).
Proof.
  intros Hfresh H. unfold Rev1.matched.
  destruct (Order.type order); try done;
    by apply rev1_walkLevels_keeps_fresh.
Qed.
End rev1_loops_fresh.

Lemma rev1_matched_stored order e st :
  Rev1.tradesStored (Storage.trades st) (Rev1.matched order e st).
Proof.
  apply rev1_matched_keeps.
  - intros o m p s Ht _ _ (unsettled & Hs & Hlen & Hnone).
    rewrite (Hnone Ht), app_nil_r in Hs. unfold Rev1.tradesStored.
    destruct (rev1_fill_cases order o m p s) as [[Hex E]|[Hex E]];
      rewrite E; cbn [Rev1.storage Rev1.trades Rev1.thrown].
    + exists []. destruct (settled_storage order o m (Order.filled order + m)
                             (snd (executeTrade order o m p (Rev1.storage s))))
        as (-> & _).
      rewrite (executeTrade_made _ _ _ _ _ Hex), Hs, app_nil_r, app_assoc.
      split; [done|]. split; [simpl; lia|done].
    + destruct (executeTrade_threw _ _ _ _ _ Hex) as [Hin| ->].
      * exists [tradeData order o m p]. rewrite Hin, Hs, app_assoc.
        split; [done|]. split; [simpl; lia|done].
      * exists []. rewrite Hs, app_nil_r.
        split; [done|]. split; [simpl; lia|done].
  - exists []. simpl. rewrite app_nil_r. split; [done|]. split; [lia|done].
Qed.

Lemma rev1_matched_rowsKept order e st :
  rowsKept st (Rev1.storage (Rev1.matched order e st)).
Proof.
  apply (rev1_matched_keeps (λ s, rowsKept st (Rev1.storage s))).
  - intros o m p s _ _ _ Hs. eapply rowsKept_trans; [exact Hs|].
    destruct (rev1_fill_cases order o m p s) as [[Hex E]|[Hex E]];
      rewrite E; cbn [Rev1.storage].
    + eapply rowsKept_trans; [apply rowsKept_executeTrade|].
      apply rowsKept_settled.
    + apply rowsKept_executeTrade.
  - apply rowsKept_refl.
Qed.

Lemma rev1_storage_trades order e st :
  Storage.trades (Rev1.storageAfter order e st)
  = Storage.trades (Rev1.storage (Rev1.matched order e st)).
Proof.
  unfold Rev1.storageAfter. rewrite rev1_processOrder_matched. cbv zeta.
  destruct (Rev1.thrown _); [done|].
  destruct (_ && _);
    [destruct (fst (updateOrderStatus _ _ _)) as [booked|]|]; done.
Qed.

(** The trades a call stores are those its loops completed and, when a
    write was rejected, at most one trade more. *)
Lemma rev1_producedTrades_settled order e st :
  ∃ unsettled,
    Rev1.producedTrades order e st
    = Rev1.settledTrades order e st ++ unsettled
    ∧ (length unsettled ≤ 1)%nat
    ∧ (Rev1.writeRejected order e st = false → unsettled = []).
Proof.
  unfold Rev1.producedTrades, Rev1.settledTrades, Rev1.writeRejected.
  rewrite rev1_storage_trades.
  destruct (rev1_matched_stored order e st) as (unsettled & -> & Hlen & Hnone).
  exists unsettled. by rewrite drop_app_length.
Qed.

Lemma rev1_producedTrades_eq order e st :
  Rev1.writeRejected order e st = false →
  Rev1.producedTrades order e st = Rev1.settledTrades order e st.
Proof.
  intros Ht.
  destruct (rev1_producedTrades_settled order e st) as (u & -> & _ & Hnone).
  by rewrite (Hnone Ht), app_nil_r.
Qed.

(** ** The storage plays its part in the matching through rejected writes
    alone *)

Lemma rev1_fill_sameRun order o m p s1 s2 :
  Rev1.sameRun s1 s2 →
  Rev1.thrown (Rev1.fill order o m p s1) = false →
  Rev1.thrown (Rev1.fill order o m p s2) = false →
  Rev1.sameRun (Rev1.fill order o m p s1) (Rev1.fill order o m p s2).
Proof.
  intros [Hr Ht].
  destruct (rev1_fill_cases order o m p s1) as [[_ ->]|[_ ->]]; [|done].
  destruct (rev1_fill_cases order o m p s2) as [[_ ->]|[_ ->]]; [|done].
  intros _ _. split; simpl; congruence.
Qed.

Lemma rev1_matchOne_sameRun order p o s1 s2 :
  Rev1.sameRun s1 s2 →
  Rev1.thrown (Rev1.matchOne order p o s1) = false →
  Rev1.thrown (Rev1.matchOne order p o s2) = false →
  Rev1.sameRun (Rev1.matchOne order p o s1) (Rev1.matchOne order p o s2).
Proof.
  intros H. unfold Rev1.matchOne. destruct H as [Hr Ht]. rewrite Hr.
  destruct (0 <? _); [by apply rev1_fill_sameRun|done].
Qed.

Lemma rev1_matchLevel_sameRun order p orders s1 s2 :
  Rev1.sameRun s1 s2 →
  Rev1.thrown (Rev1.matchLevel order p orders s1) = false →
  Rev1.thrown (Rev1.matchLevel order p orders s2) = false →
  Rev1.sameRun (Rev1.matchLevel order p orders s1)
    (Rev1.matchLevel order p orders s2).
Proof.
  revert s1 s2. induction orders as [|o orders IH]; intros s1 s2 H; simpl;
    [done|].
  destruct (Rev1.thrown s1) eqn:Ht1; [congruence|].
  destruct (Rev1.thrown s2) eqn:Ht2; [congruence|].
  destruct H as [Hr Ht]. rewrite Hr.
  destruct (Rev1.remainingSize s2 =? 0); [done|].
  intros H1 H2. apply IH; [|done..].
  apply rev1_matchOne_sameRun; [done| |].
  - destruct (Rev1.thrown (Rev1.matchOne order p o s1)) eqn:E; [|done].
    by rewrite rev1_matchLevel_thrown, E in H1.
  - destruct (Rev1.thrown (Rev1.matchOne order p o s2)) eqn:E; [|done].
    by rewrite rev1_matchLevel_thrown, E in H2.
Qed.

Lemma rev1_walkLevels_sameRun crosses order book s1 s2 :
  Rev1.sameRun s1 s2 →
  Rev1.thrown (Rev1.walkLevels crosses order book s1) = false →
  Rev1.thrown (Rev1.walkLevels crosses order book s2) = false →
  Rev1.sameRun (Rev1.walkLevels crosses order book s1)
    (Rev1.walkLevels crosses order book s2).
Proof.
  revert s1 s2. induction book as [|l book IH]; intros s1 s2 H; simpl; [done|].
  destruct (Rev1.thrown s1) eqn:Ht1; [congruence|].
  destruct (Rev1.thrown s2) eqn:Ht2; [congruence|].
  destruct H as [Hr Ht]. rewrite Hr.
  destruct (Rev1.remainingSize s2 =? 0); [done|].
  destruct (crosses (Entry.price l)); [|done].
  intros H1 H2. apply IH; [|done..].
  apply rev1_matchLevel_sameRun; [done| |].
  - destruct (Rev1.thrown (Rev1.matchLevel order (Entry.price l)
                             (Entry.orders l) s1)) eqn:E; [|done].
    by rewrite rev1_walkLevels_thrown, E in H1.
  - destruct (Rev1.thrown (Rev1.matchLevel order (Entry.price l)
                             (Entry.orders l) s2)) eqn:E; [|done].
    by rewrite rev1_walkLevels_thrown, E in H2.
Qed.

Lemma rev1_matched_sameRun order e1 e2 st1 st2 :
  oppositeBook order e1 = oppositeBook order e2 →
  Rev1.thrown (Rev1.matched order e1 st1) = false →
  Rev1.thrown (Rev1.matched order e2 st2) = false →
  Rev1.sameRun (Rev1.matched order e1 st1) (Rev1.matched order e2 st2).
Proof.
  intros Hbook. unfold Rev1.matched. rewrite Hbook.
  destruct (Order.type order); try done;
    by apply rev1_walkLevels_sameRun.
Qed.

(** X29: the earlier revision never uses up a resting order.  A call of its
    [processOrder] for an order that has its row in the table leaves the
    opposite book exactly as it found it, the [filled] of the resting orders
    included, whether it returns or throws; so an order of the same side
    and market that comes next makes the very trades it would have made had
    the first order never come, with the same resting orders and for the
    same sizes, as long as the database rejects no write of either run. *)
Theorem X29_rev1_resting_orders_trade_again (order next : Order.t)
    (e : Engine.t) (st st1 st2 : Storage.t) :
  Storage.orders st !! Order.id order = Some order →
  Order.side next = Order.side order →
  Order.marketId next = Order.marketId order →
  oppositeBook order (Rev1.engineAfter order e st) = oppositeBook order e
  ∧ (Rev1.writeRejected next (Rev1.engineAfter order e st) st1 = false →
     Rev1.writeRejected next e st2 = false →
     Rev1.producedTrades next (Rev1.engineAfter order e st) st1
     = Rev1.producedTrades next e st2).
Proof.
  intros Hrow Hside Hmarket.
  assert (oppositeBook order (Rev1.engineAfter order e st)
          = oppositeBook order e) as Hbook.
  { unfold Rev1.engineAfter. rewrite rev1_processOrder_matched. cbv zeta.
    destruct (Rev1.thrown _); [done|].
    destruct (_ && _);
      [destruct (fst (updateOrderStatus _ _ _)) as [booked|] eqn:Hb|]; try done.
    cbn [fst]. unfold oppositeBook. rewrite rev1_bookOf_addToOrderBook.
    rewrite decide_False; [done|]. intros [H _].
    rewrite updateOrderStatus_fst in Hb.
    pose proof (rev1_matched_rowsKept order e st (Order.id order)) as Hk.
    rewrite Hrow in Hk. inversion Hk as [o o' (f & c & ->) Ho Ho'|]; subst.
    rewrite <- Ho' in Hb. simpl in Hb. simplify_eq. simpl in H.
    by apply oppositeSide_ne in H. }
  split; [done|]. intros H1 H2. rewrite !rev1_producedTrades_eq by done.
  apply rev1_matched_sameRun; [|done..]. unfold oppositeBook in *.
  by rewrite Hside, Hmarket.
Qed.

(** X29 at two MARKET YES orders for 50 that find one NO limit for 50: both
    trade with it in full. *)
Lemma X29_rev1_resting_orders_trade_again_witness :
  oppositeBook (marketYes50 "M1")
    (Rev1.engineAfter (marketYes50 "M1") restingNo060_engine restingNo060_rows)
  = oppositeBook (marketYes50 "M1") restingNo060_engine
  ∧ (Rev1.writeRejected (marketYes50 "M2")
       (Rev1.engineAfter (marketYes50 "M1") restingNo060_engine
          restingNo060_rows)
       (Rev1.storageAfter (marketYes50 "M1") restingNo060_engine
          restingNo060_rows)
     = false →
     Rev1.writeRejected (marketYes50 "M2") restingNo060_engine
       restingNo060_rows
     = false →
     Rev1.producedTrades (marketYes50 "M2")
       (Rev1.engineAfter (marketYes50 "M1") restingNo060_engine
          restingNo060_rows)
       (Rev1.storageAfter (marketYes50 "M1") restingNo060_engine
          restingNo060_rows)
     = Rev1.producedTrades (marketYes50 "M2") restingNo060_engine
         restingNo060_rows).
Proof.
  apply (X29_rev1_resting_orders_trade_again (marketYes50 "M1")
           (marketYes50 "M2") restingNo060_engine restingNo060_rows).
  - vm_compute. reflexivity.
  - reflexivity.
  - reflexivity.
Defined.

(** Both orders buy the 50 of "S1", and no write of either run is
    rejected: 100 are sold of an order for 50. *)
Example rev1_one_order_sold_twice :
  Rev1.producedTrades (marketYes50 "M1") restingNo060_engine restingNo060_rows
  = [Trade.mk "m" "M1" "S1" "buyer" "seller" YES 6000 50000000]
  ∧ Rev1.producedTrades (marketYes50 "M2")
      (Rev1.engineAfter (marketYes50 "M1") restingNo060_engine
         restingNo060_rows)
      (Rev1.storageAfter (marketYes50 "M1") restingNo060_engine
         restingNo060_rows)
    = [Trade.mk "m" "M2" "S1" "buyer" "seller" YES 6000 50000000]
  ∧ Rev1.writeRejected (marketYes50 "M1") restingNo060_engine
      restingNo060_rows
    = false
  ∧ Rev1.writeRejected (marketYes50 "M2")
      (Rev1.engineAfter (marketYes50 "M1") restingNo060_engine
         restingNo060_rows)
      (Rev1.storageAfter (marketYes50 "M1") restingNo060_engine
         restingNo060_rows)
    = false.
Proof. repeat split; vm_compute; reflexivity. Qed.

(** ** What it writes as the order's [filled] *)

Lemma filledAfter_snoc order trades t :
  Rev1.filledAfter order (trades ++ [t]) = Order.filled order + Trade.size t.
Proof. unfold Rev1.filledAfter. by rewrite last_snoc. Qed.

(** The writes of one turn of the loop body, for a resting order that is
    not the incoming one. *)
Lemma rev1_fill_writes base order o m p s :
  Order.id o ≠ Order.id order →
  Rev1.deltaWrites base order s ∧ Rev1.tracksRow order s →
  Rev1.deltaWrites base order (Rev1.fill order o m p s)
  ∧ Rev1.tracksRow order (Rev1.fill order o m p s).
Proof.
  intros Hne [Hw Hrow]. unfold Rev1.deltaWrites, Rev1.tracksRow in *.
  pose proof (executeTrade_storage order o m p (Rev1.storage s))
    as (Ho & _ & Hj).
  destruct (rev1_fill_cases order o m p s) as [[Hex E]|[Hex E]];
    rewrite E; cbn [Rev1.storage Rev1.trades].
  - split.
    + rewrite settled_journal, Hj, !filledWrites_app, Hw, map_app.
      unfold filledWrites. simpl.
      rewrite decide_True by done. rewrite decide_False by done.
      rewrite <- app_assoc. f_equal. f_equal.
      destruct (Order.size o =? Order.filled o + m); by simpl.
    + rewrite settled_row by done. rewrite Ho, Hrow. simpl.
      by rewrite filledAfter_snoc.
  - split; [by rewrite Hj|by rewrite Ho].
Qed.

(** X30: the earlier revision writes, as the [filled] of the incoming
    order, its [filled] at the start of the call plus the size of the last
    trade alone, trade after trade: the sizes are not added up.  For an
    order whose row is in the table and whose id no order of the opposite
    book carries, the values written to its [filled] are those, one for
    each trade the loops completed, and its row ends with the last of them
    (with the [filled] it had, when no trade was completed).  The trades
    the call stores are the trades completed and, when the database
    rejected a write, at most one trade more, for which nothing was
    written. *)
Theorem X30_rev1_filled_written_per_trade (order : Order.t) (e : Engine.t)
    (st : Storage.t) :
  Storage.orders st !! Order.id order = Some order →
  Order.id order ∉ bookIds (oppositeBook order e) →
  filledWrites (Order.id order)
    (Storage.journal (Rev1.storageAfter order e st))
  = filledWrites (Order.id order) (Storage.journal st)
    ++ map (λ t, Order.filled order + Trade.size t)
         (Rev1.settledTrades order e st)
  ∧ Order.filled
      <$> Storage.orders (Rev1.storageAfter order e st) !! Order.id order
    = Some (Rev1.filledAfter order (Rev1.settledTrades order e st))
  ∧ ∃ unsettled,
      Rev1.producedTrades order e st
      = Rev1.settledTrades order e st ++ unsettled
      ∧ (length unsettled ≤ 1)%nat
      ∧ (Rev1.writeRejected order e st = false → unsettled = []).
Proof.
  intros Hrow Hfresh.
  assert (Rev1.deltaWrites
            (filledWrites (Order.id order) (Storage.journal st)) order
            (Rev1.matched order e st)
          ∧ Rev1.tracksRow order (Rev1.matched order e st)) as [Hw Ht].
  { apply (rev1_matched_keeps_fresh
             (λ s, Rev1.deltaWrites
                     (filledWrites (Order.id order) (Storage.journal st))
                     order s
                   ∧ Rev1.tracksRow order s)).
    - intros o m p s. apply rev1_fill_writes.
    - done.
    - unfold Rev1.deltaWrites, Rev1.tracksRow, Rev1.filledAfter.
      cbn [Rev1.storage Rev1.trades last map].
      by rewrite app_nil_r, Hrow, with_filled_same. }
  split; [|split; [|apply rev1_producedTrades_settled]];
    unfold Rev1.settledTrades.
  - unfold Rev1.deltaWrites in Hw. rewrite <- Hw.
    unfold Rev1.storageAfter. rewrite rev1_processOrder_matched. cbv zeta.
    destruct (Rev1.thrown _); [done|].
    destruct (_ && _);
      [destruct (fst (updateOrderStatus _ _ _)) as [booked|]|];
      cbn [fst snd]; simpl; rewrite filledWrites_app; simpl;
      by rewrite app_nil_r.
  - unfold Rev1.tracksRow in Ht.
    unfold Rev1.storageAfter. rewrite rev1_processOrder_matched. cbv zeta.
    destruct (Rev1.thrown _); [cbn [fst snd]; by rewrite Ht|].
    destruct (_ && _);
      [destruct (fst (updateOrderStatus _ _ _)) as [booked|]|];
      cbn [fst snd]; simpl; by rewrite lookup_alter_eq, Ht.
Qed.

(** X30 at the YES limit for 100 that trades 30 and then 20 with two
    resting NO limits. *)
Lemma X30_rev1_filled_written_per_trade_witness :
  filledWrites (Order.id rev1_yes060for100)
    (Storage.journal
       (Rev1.storageAfter rev1_yes060for100 rev1_twoAsks rev1_twoAsks_rows))
  = filledWrites (Order.id rev1_yes060for100)
      (Storage.journal rev1_twoAsks_rows)
    ++ map (λ t, Order.filled rev1_yes060for100 + Trade.size t)
         (Rev1.settledTrades rev1_yes060for100 rev1_twoAsks rev1_twoAsks_rows)
  ∧ Order.filled
      <$> Storage.orders
            (Rev1.storageAfter rev1_yes060for100 rev1_twoAsks rev1_twoAsks_rows)
          !! Order.id rev1_yes060for100
    = Some
        (Rev1.filledAfter rev1_yes060for100
           (Rev1.settledTrades rev1_yes060for100 rev1_twoAsks
              rev1_twoAsks_rows))
  ∧ ∃ unsettled,
      Rev1.producedTrades rev1_yes060for100 rev1_twoAsks rev1_twoAsks_rows
      = Rev1.settledTrades rev1_yes060for100 rev1_twoAsks rev1_twoAsks_rows
        ++ unsettled
      ∧ (length unsettled ≤ 1)%nat
      ∧ (Rev1.writeRejected rev1_yes060for100 rev1_twoAsks rev1_twoAsks_rows
         = false →
         unsettled = []).
Proof.
  apply (X30_rev1_filled_written_per_trade rev1_yes060for100 rev1_twoAsks
           rev1_twoAsks_rows).
  - vm_compute. reflexivity.
  - change (bookIds _) with ["A1"; "A2"]%string.
    intros H. repeat (apply elem_of_cons in H as [H|H]; [discriminate H|]).
    by apply elem_of_nil in H.
Defined.

(** A LIMIT YES order for 100 that trades 30 and then 20 has 20 written as
    its [filled], and rests with that. *)
Example rev1_filled_is_the_last_trade :
  filledWrites "B1"
    (Storage.journal
       (Rev1.storageAfter rev1_yes060for100 rev1_twoAsks rev1_twoAsks_rows))
  = [30000000; 20000000]
  ∧ Order.filled
      <$> Storage.orders
            (Rev1.storageAfter rev1_yes060for100 rev1_twoAsks rev1_twoAsks_rows)
          !! "B1"%string
    = Some 20000000
  ∧ tradedSize
      (Rev1.producedTrades rev1_yes060for100 rev1_twoAsks rev1_twoAsks_rows)
    = 50000000.
Proof. repeat split; vm_compute; reflexivity. Qed.

(** With the levels in that order, a limit order stops at the first level
    it does not cross, and that is the worst one: a YES limit at 0.50 finds
    NO limits at 0.60 and 0.40, and does not trade. *)
Example rev1_limit_stops_at_the_worst_level :
  prices (bookOf NO "m" rev1_asks_060_040) = [6000; 4000]
  ∧ Rev1.producedTrades rev1_yes050for10 rev1_asks_060_040 rev1_asks_rows = [].
Proof. split; vm_compute; reflexivity. Qed.
